(** * GF(2) linear block codes and Adinkra graphs

    A shallow embedding of [linear_block_codes.py] and [adinkra_graphs.py].
    numpy integer arrays are lists of [Z] (a matrix is the list of its rows),
    Python exceptions are the [Err] results of a small error monad, and the
    Python sets of the graph layer are duplicate-free lists. *)

From Stdlib Require Import String Ascii DecimalString.
From Stdlib Require DecimalZ DecimalPos.
From Stdlib Require Import ZArith List Lia Bool Arith Permutation.
Import ListNotations.

Open Scope Z_scope.

(** ** Exceptions *)

Inductive exn : Type :=
| ValueError
| IndexError
| KeyError
| OverflowError.

Inductive result (A : Type) : Type :=
| OK (a : A)
| Err (e : exn).

Arguments OK {A} a.
Arguments Err {A} e.

Definition bind {A B : Type} (m : result A) (f : A -> result B) : result B :=
  match m with
  | OK a => f a
  | Err e => Err e
  end.

Notation "x <- m ;; k" := (bind m (fun x => k))
  (at level 61, m at next level, right associativity).

Fixpoint mapM {A B : Type} (f : A -> result B) (l : list A) : result (list B) :=
  match l with
  | [] => OK []
  | a :: l' => b <- f a ;; bs <- mapM f l' ;; OK (b :: bs)
  end.

(** [range a b] is Python's [range(a, b)]. *)
Definition range (a b : nat) : list nat := seq a (b - a).

(** ** numpy vectors and matrices over the integers *)

Abbreviation vector := (list Z).
Abbreviation matrix := (list (list Z)).

(** [v % 2], element-wise; the result of [%] has the sign of the divisor. *)
Definition mod2 (v : vector) : vector := map (fun x => x mod 2) v.

(** [u + v] on two arrays of one shape. *)
Fixpoint vec_add (u v : vector) : vector :=
  match u, v with
  | x :: u', y :: v' => (x + y) :: vec_add u' v'
  | _, _ => []
  end.

(** [np.sum(v)]. *)
Definition vsum (v : vector) : Z := fold_right Z.add 0 v.

(** The inner product of two arrays of one length. *)
Fixpoint dot (u v : vector) : Z :=
  match u, v with
  | x :: u', y :: v' => x * y + dot u' v'
  | _, _ => 0
  end.

(** [M[:, c]]. *)
Definition column (M : matrix) (c : nat) : vector :=
  map (fun row => nth c row 0) M.

(** [M.T] for a matrix with [cols] columns. *)
Definition transpose (cols : nat) (M : matrix) : matrix :=
  map (column M) (range 0 cols).

(** [v @ M] for [v] of shape [(k,)] and [M] of shape [(k, n)]. *)
Definition vecmat (n : nat) (v : vector) (M : matrix) : vector :=
  map (fun c => dot v (column M c)) (range 0 n).

(** [np.zeros(n)], [np.eye(n)]. *)
Definition zeros (n : nat) : vector := repeat 0 n.

Definition eye (n : nat) : matrix :=
  map (fun i => map (fun j => if Nat.eqb i j then 1 else 0) (range 0 n))
      (range 0 n).

(** [A[r, c]]; an index past the shape raises [IndexError]. *)
Definition get2 (A : matrix) (r c : nat) : result Z :=
  match nth_error A r with
  | Some row =>
      match nth_error row c with
      | Some v => OK v
      | None => Err IndexError
      end
  | None => Err IndexError
  end.

(** [A[r]]. *)
Definition get_row (A : matrix) (r : nat) : result vector :=
  match nth_error A r with
  | Some row => OK row
  | None => Err IndexError
  end.

(** The list [l] with position [i] replaced by [x] (unchanged past the end). *)
Fixpoint set_nth {A : Type} (l : list A) (i : nat) (x : A) : list A :=
  match l, i with
  | [], _ => []
  | _ :: l', O => x :: l'
  | y :: l', S i' => y :: set_nth l' i' x
  end.

(** [A[r, c] = v]. *)
Definition set2 (A : matrix) (r c : nat) (v : Z) : result matrix :=
  match nth_error A r with
  | Some row =>
      if Nat.ltb c (length row) then OK (set_nth A r (set_nth row c v))
      else Err IndexError
  | None => Err IndexError
  end.

(** [itertools.product(pool, repeat=k)], in the order it yields. *)
Fixpoint product {A : Type} (pool : list A) (k : nat) : list (list A) :=
  match k with
  | O => [[]]
  | S k' => flat_map (fun x => map (cons x) (product pool k')) pool
  end.

(** ** linear_block_codes.py *)

Module LinearBlockCodes.

Record LinearBlockCode : Type := mkCode {
  G : matrix;
  k : nat;
  n : nat;
  d : Z;
  H : matrix
}.

(** [np.array(v, dtype=int)] of a list of Python integers: the entries
    become 64-bit signed integers, and a list with an entry that does not fit
    raises [OverflowError]. *)
Definition fits_int64 (x : Z) : bool := (- 2 ^ 63 <=? x) && (x <? 2 ^ 63).

Definition np_array_int (v : list Z) : result vector :=
  if forallb fits_int64 v then OK v else Err OverflowError.

(** [encode], on the fields it reads; the conversion of the message comes
    before the test of its length. *)
Definition encode_with (G : matrix) (k n : nat) (message : list Z)
  : result vector :=
  arr <- np_array_int message ;;
  let msg := mod2 arr in
  if Nat.eqb (length msg) k then OK (mod2 (vecmat n msg G))
  else Err ValueError.

(** [get_all_codewords], on the fields it reads. *)
Definition get_all_codewords_with (G : matrix) (k n : nat)
  : result (list vector) :=
  mapM (encode_with G k n) (product [0; 1] k).

(** The inner loop of [_compute_minimum_distance]: [c] is [codewords[i]]
    and [rest] holds [codewords[j]] for [j] in [range(i + 1, len)]. *)
Definition min_dist_inner (c : vector) (rest : list vector) (min_dist : Z) : Z :=
  fold_left
    (fun m c' =>
       let dist := vsum (mod2 (vec_add c c')) in
       if dist <? m then dist else m)
    rest min_dist.

Fixpoint min_dist_outer (codewords : list vector) (min_dist : Z) : Z :=
  match codewords with
  | [] => min_dist
  | c :: rest => min_dist_outer rest (min_dist_inner c rest min_dist)
  end.

Definition compute_minimum_distance (G : matrix) (k n : nat) : result Z :=
  codewords <- get_all_codewords_with G k n ;;
  OK (min_dist_outer codewords (Z.of_nat n + 1)).

(** The pivot search: the first [j] in [js] with [augmented[j, i] == 1],
    else the initial [pivot_row]. *)
Fixpoint find_pivot (A : matrix) (i : nat) (js : list nat) (pivot_row : nat)
  : result nat :=
  match js with
  | [] => OK pivot_row
  | j :: js' =>
      v <- get2 A j i ;;
      if v =? 1 then OK j else find_pivot A i js' pivot_row
  end.

(** [augmented[[i, p]] = augmented[[p, i]]]. *)
Definition swap_rows (A : matrix) (i p : nat) : result matrix :=
  ri <- get_row A i ;;
  rp <- get_row A p ;;
  OK (set_nth (set_nth A i rp) p ri).

(** The elimination loop over [j] for the pivot row [i]. *)
Fixpoint eliminate (A : matrix) (i : nat) (js : list nat) : result matrix :=
  match js with
  | [] => OK A
  | j :: js' =>
      if Nat.eqb j i then eliminate A i js'
      else
        v <- get2 A j i ;;
        if v =? 1 then
          rj <- get_row A j ;;
          ri <- get_row A i ;;
          eliminate (set_nth A j (mod2 (vec_add rj ri))) i js'
        else eliminate A i js'
  end.

(** Gaussian elimination over GF(2): the loop over [i] in [range(k)]. *)
Fixpoint gauss (A : matrix) (k : nat) (rows : list nat) : result matrix :=
  match rows with
  | [] => OK A
  | i :: rows' =>
      pivot_row <- find_pivot A i (range (i + 1) k) i ;;
      v <- get2 A pivot_row i ;;
      if v =? 0 then gauss A k rows'
      else
        A1 <- (if Nat.eqb pivot_row i then OK A else swap_rows A i pivot_row) ;;
        A2 <- eliminate A1 i (range 0 k) ;;
        gauss A2 k rows'
  end.

(** One row of the extracted parity-check matrix, for [i] in [range(k, n)]. *)
Definition H_row (A : matrix) (k n i : nat) : result vector :=
  mapM (fun j =>
          if Nat.ltb j k then
            (if Nat.ltb j (length A) then get2 A j i else OK 0)
          else if Nat.eqb j i then OK 1
          else OK 0)
       (range 0 n).

Definition compute_parity_check_matrix (G : matrix) (k n : nat)
  : result matrix :=
  let augmented := G ++ eye n in
  A <- gauss augmented k (range 0 k) ;;
  let null_space_dim := Z.of_nat n - Z.of_nat k in
  H_rows <- (if 0 <? null_space_dim then mapM (H_row A k n) (range k n)
             else OK []) ;;
  match H_rows with
  | _ :: _ => OK H_rows
  | [] =>
      if Nat.ltb k n then
        OK (match repeat (zeros n) (n - k) with
            | [] => []
            | _ :: rest => repeat 1 n :: rest
            end)
      else OK []
  end.

(** [__init__]: the argument is a two-dimensional integer array, given by
    its rows and its second shape component [n] (which the rows determine
    unless there are none); rows of differing lengths do not form an array. *)
Definition init (n : nat) (generator_matrix : matrix) : result LinearBlockCode :=
  if forallb (fun row => Nat.eqb (length row) n) generator_matrix then
    let G := map mod2 generator_matrix in
    let k := length G in
    d <- compute_minimum_distance G k n ;;
    H <- compute_parity_check_matrix G k n ;;
    OK (mkCode G k n d H)
  else Err ValueError.

Definition encode (c : LinearBlockCode) (message : list Z) : result vector :=
  encode_with (G c) (k c) (n c) message.

Definition syndrome (c : LinearBlockCode) (received : list Z) : result vector :=
  arr <- np_array_int received ;;
  let recv := mod2 arr in
  if Nat.eqb (length recv) (n c) then
    OK (mod2 (vecmat (length (H c)) recv (transpose (n c) (H c))))
  else Err ValueError.

Definition get_all_codewords (c : LinearBlockCode) : result (list vector) :=
  get_all_codewords_with (G c) (k c) (n c).

Definition is_codeword (c : LinearBlockCode) (word : list Z) : result bool :=
  s <- syndrome c word ;;
  OK (forallb (fun x => x =? 0) s).

(** [format(i, '0{r}b')] followed by [int(b) for b in ...]: the binary
    digits of [i], most significant first, left-padded with zeros to at
    least [r] digits. *)
Fixpoint digits_msb (width : nat) (i : Z) : vector :=
  match width with
  | O => []
  | S w => Z.b2z (Z.testbit i (Z.of_nat w)) :: digits_msb w i
  end.

Definition bit_length (i : Z) : nat :=
  if i =? 0 then 1%nat else Z.to_nat (Z.log2 (Z.abs i) + 1).

Definition format_b (r : nat) (i : Z) : vector :=
  digits_msb (Nat.max r (bit_length i)) i.

(** [np.array_equal] on two one-dimensional arrays. *)
Fixpoint array_equal (u v : vector) : bool :=
  match u, v with
  | [], [] => true
  | x :: u', y :: v' => (x =? y) && array_equal u' v'
  | _, _ => false
  end.

(** [col = np.zeros(r); col[i] = 1]. *)
Definition unit_col (r i : nat) : vector := set_nth (zeros r) i 1.

(** The inner search of [hamming_code]: the first [j] whose column is [col]. *)
Fixpoint first_col (H : matrix) (col : vector) (js : list nat) : option nat :=
  match js with
  | [] => None
  | j :: js' =>
      if array_equal (column H j) col then Some j else first_col H col js'
  end.

Definition identity_cols_of (H : matrix) (r n : nat) : list nat :=
  flat_map (fun i =>
              match first_col H (unit_col r i) (range 0 n) with
              | Some j => [j]
              | None => []
              end)
           (range 0 r).

(** [l[i]] on a Python list. *)
Definition list_get {A : Type} (l : list A) (i : nat) : result A :=
  match nth_error l i with
  | Some x => OK x
  | None => Err IndexError
  end.

Fixpoint foldM {A S : Type} (f : S -> A -> result S) (l : list A) (s : S)
  : result S :=
  match l with
  | [] => OK s
  | a :: l' => s' <- f s a ;; foldM f l' s'
  end.

(** [enumerate(l)]. *)
Definition enumerate {A : Type} (l : list A) : list (nat * A) :=
  combine (seq 0 (length l)) l.

(** The body of [hamming_code] from the parity-check matrix to the
    generator matrix [G], for [r] parity bits, [n] columns and [k] rows. *)
Definition hamming_generator (r n k : nat) : result matrix :=
  let H := transpose r (map (fun i => format_b r (Z.of_nat i))
                            (range 1 (n + 1))) in
  let identity_cols := identity_cols_of H r n in
  let G0 := repeat (zeros n) k in
  let info_positions :=
    filter (fun i => negb (existsb (Nat.eqb i) identity_cols)) (range 0 n) in
  G1 <- foldM (fun G i =>
                 p <- list_get info_positions i ;;
                 set2 G i p 1)
              (range 0 k) G0 ;;
  foldM (fun G i =>
           info_pos <- list_get info_positions i ;;
           foldM (fun G jp =>
                    v <- get2 H (fst jp) info_pos ;;
                    set2 G i (snd jp) v)
                 (enumerate identity_cols) G)
        (range 0 k) G1.

Definition hamming_code (r : Z) : result LinearBlockCode :=
  if r <? 2 then Err ValueError
  else
    let n := Z.to_nat (2 ^ r - 1) in
    let k := (n - Z.to_nat r)%nat in
    G <- hamming_generator (Z.to_nat r) n k ;;
    init n G.

Definition repetition_code (n : Z) : result LinearBlockCode :=
  if n <? 1 then Err ValueError
  else init (Z.to_nat n) [repeat 1 (Z.to_nat n)].

Definition parity_check_code (k : Z) : result LinearBlockCode :=
  if k <? 1 then Err ValueError
  else
    let kn := Z.to_nat k in
    let G0 := repeat (zeros (kn + 1)) kn in
    G1 <- foldM (fun G i => set2 G i i 1) (range 0 kn) G0 ;;
    G2 <- foldM (fun G i => set2 G i kn 1) (range 0 kn) G1 ;;
    init (kn + 1) G2.

End LinearBlockCodes.

(** ** adinkra_graphs.py *)

Module AdinkraGraphs.

Import LinearBlockCodes.

Inductive FieldType : Type :=
| BOSONIC
| FERMIONIC.

Definition FieldType_value (t : FieldType) : string :=
  match t with
  | BOSONIC => "B"
  | FERMIONIC => "F"
  end.

Definition FieldType_eqb (a b : FieldType) : bool :=
  match a, b with
  | BOSONIC, BOSONIC | FERMIONIC, FERMIONIC => true
  | _, _ => false
  end.

Inductive EdgeColor : Type :=
| RED
| GREEN
| BLUE
| YELLOW.

Definition EdgeColor_value (c : EdgeColor) : Z :=
  match c with
  | RED => 0
  | GREEN => 1
  | BLUE => 2
  | YELLOW => 3
  end.

Definition EdgeColor_name (c : EdgeColor) : string :=
  match c with
  | RED => "RED"
  | GREEN => "GREEN"
  | BLUE => "BLUE"
  | YELLOW => "YELLOW"
  end.

(** [list(EdgeColor)]. *)
Definition EdgeColor_all : list EdgeColor := [RED; GREEN; BLUE; YELLOW].

Definition EdgeColor_eqb (a b : EdgeColor) : bool :=
  EdgeColor_value a =? EdgeColor_value b.

(** [str(i)] for an [int]. *)
Definition str_int (i : Z) : string := NilZero.string_of_int (Z.to_int i).

(** [', '.join(l)]. *)
Fixpoint join (sep : string) (l : list string) : string :=
  match l with
  | [] => ""
  | [x] => x
  | x :: l' => x ++ sep ++ join sep l'
  end.

(** [str(t)] for a tuple of [int]s. *)
Definition str_tuple (t : list Z) : string :=
  match t with
  | [] => "()"
  | [x] => "(" ++ str_int x ++ ",)"
  | _ => "(" ++ join ", " (map str_int t) ++ ")"
  end.

Definition str_bool (b : bool) : string := if b then "True" else "False".

Record AdinkraNode : Type := mkNode {
  field_type : FieldType;
  position : list Z;
  field_name : string
}.

(** The [id] that [__post_init__] stores. *)
Definition node_id (v : AdinkraNode) : string :=
  FieldType_value (field_type v) ++ "_" ++ field_name v ++ "_"
    ++ str_tuple (position v).

(** [AdinkraNode.__eq__]. *)
Definition node_eqb (a b : AdinkraNode) : bool :=
  String.eqb (node_id a) (node_id b).

Record AdinkraEdge : Type := mkEdge {
  source : AdinkraNode;
  target : AdinkraNode;
  color : EdgeColor;
  dashed : bool
}.

Definition edge_id (e : AdinkraEdge) : string :=
  node_id (source e) ++ "_" ++ node_id (target e) ++ "_"
    ++ EdgeColor_name (color e) ++ "_" ++ str_bool (dashed e).

(** [AdinkraEdge.__eq__]. *)
Definition edge_eqb (a b : AdinkraEdge) : bool :=
  String.eqb (edge_id a) (edge_id b).

(** [AdinkraEdge(source, target, color, dashed)], with its [__post_init__]. *)
Definition new_edge (source target : AdinkraNode) (color : EdgeColor)
    (dashed : bool) : result AdinkraEdge :=
  if FieldType_eqb (field_type source) (field_type target) then Err ValueError
  else OK (mkEdge source target color dashed).

Definition get_binary_representation (e : AdinkraEdge) : Z * Z :=
  (EdgeColor_value (color e), if dashed e then 1 else 0).

(** A Python set is the list of its elements in iteration order, without
    two equal elements; [s.add(x)] leaves a set that holds [x] as it is. *)
Definition set_add {A : Type} (eqb : A -> A -> bool) (s : list A) (x : A)
  : list A :=
  if existsb (eqb x) s then s else s ++ [x].

(** [l[:stop]] on a Python list. *)
Definition slice_to {A : Type} (l : list A) (stop : Z) : list A :=
  if 0 <=? stop then firstn (Z.to_nat stop) l
  else firstn (Z.to_nat (Z.of_nat (length l) + stop)) l.

Record AdinkraGraph : Type := mkGraph {
  dimension : Z;
  nodes : list AdinkraNode;
  edges : list AdinkraEdge;
  bosonic_nodes : list AdinkraNode;
  fermionic_nodes : list AdinkraNode;
  available_colors : list EdgeColor
}.

(** [AdinkraGraph(dimension)]. *)
Definition new_graph (dimension : Z) : AdinkraGraph :=
  mkGraph dimension [] [] [] [] (slice_to EdgeColor_all dimension).

Definition add_node (g : AdinkraGraph) (node : AdinkraNode) : AdinkraGraph :=
  let nodes' := set_add node_eqb (nodes g) node in
  if FieldType_eqb (field_type node) BOSONIC then
    mkGraph (dimension g) nodes' (edges g)
            (set_add node_eqb (bosonic_nodes g) node) (fermionic_nodes g)
            (available_colors g)
  else
    mkGraph (dimension g) nodes' (edges g)
            (bosonic_nodes g) (set_add node_eqb (fermionic_nodes g) node)
            (available_colors g).

Definition add_edge (g : AdinkraGraph) (edge : AdinkraEdge)
  : result AdinkraGraph :=
  if negb (existsb (EdgeColor_eqb (color edge)) (available_colors g)) then
    Err ValueError
  else
    let g1 := add_node g (source edge) in
    let g2 := add_node g1 (target edge) in
    OK (mkGraph (dimension g2) (nodes g2) (set_add edge_eqb (edges g2) edge)
                (bosonic_nodes g2) (fermionic_nodes g2) (available_colors g2)).

(** [sorted(l, key=...)]: a stable insertion sort on the keys. *)
Fixpoint insert_by {A : Type} (leb : A -> A -> bool) (x : A) (l : list A)
  : list A :=
  match l with
  | [] => [x]
  | y :: l' => if leb y x then y :: insert_by leb x l' else x :: y :: l'
  end.

Definition sorted_by {A : Type} (leb : A -> A -> bool) (l : list A) : list A :=
  fold_left (fun acc x => insert_by leb x acc) l [].

Definition node_leb (a b : AdinkraNode) : bool :=
  String.leb (node_id a) (node_id b).

(** [l.index(x)]; [None] stands for the [ValueError] the caller catches. *)
Fixpoint index_of (l : list AdinkraNode) (x : AdinkraNode) : option nat :=
  match l with
  | [] => None
  | y :: l' =>
      if node_eqb y x then Some O
      else match index_of l' x with
           | Some i => Some (S i)
           | None => None
           end
  end.

(** [adj_matrix[i, j] = value] at an index inside the shape. *)
Definition put2 (A : matrix) (i j : nat) (v : Z) : matrix :=
  set_nth A i (set_nth (nth i A []) j v).

Definition get_adjacency_matrix (g : AdinkraGraph) (c : EdgeColor) : matrix :=
  let bosonic_list := sorted_by node_leb (bosonic_nodes g) in
  let fermionic_list := sorted_by node_leb (fermionic_nodes g) in
  let n_bosonic := length bosonic_list in
  let n_fermionic := length fermionic_list in
  fold_left
    (fun adj edge =>
       if negb (EdgeColor_eqb (color edge) c) then adj
       else
         match index_of bosonic_list
                 (if FieldType_eqb (field_type (source edge)) BOSONIC
                  then source edge else target edge) with
         | None => adj
         | Some i =>
             match index_of fermionic_list
                     (if FieldType_eqb (field_type (target edge)) FERMIONIC
                      then target edge else source edge) with
             | None => adj
             | Some j => put2 adj i j (if dashed edge then -1 else 1)
             end
         end)
    (edges g) (repeat (zeros n_fermionic) n_bosonic).

(** A [dict] keyed by colours: the items in insertion order. *)
Definition color_dict (V : Type) : Type := list (EdgeColor * V).

Fixpoint dict_set {V : Type} (dct : color_dict V) (c : EdgeColor) (v : V)
  : color_dict V :=
  match dct with
  | [] => [(c, v)]
  | (c', v') :: dct' =>
      if EdgeColor_eqb c' c then (c', v) :: dct'
      else (c', v') :: dict_set dct' c v
  end.

Fixpoint dict_get {V : Type} (dct : color_dict V) (c : EdgeColor) : option V :=
  match dct with
  | [] => None
  | (c', v') :: dct' => if EdgeColor_eqb c' c then Some v' else dict_get dct' c
  end.

(** The row of one colour in [to_codeword_representation]. *)
Definition color_codeword (g : AdinkraGraph) (c : EdgeColor) : vector :=
  let adj_matrix := get_adjacency_matrix g c in
  let structure_bits :=
    map (fun x => if Z.abs x >? 0 then 1 else 0) (concat adj_matrix) in
  let dashing_bits :=
    flat_map (fun edge =>
                if EdgeColor_eqb (color edge) c
                then [if dashed edge then 1 else 0] else [])
             (edges g) in
  let dashing_bits :=
    dashing_bits ++ repeat 0 (length structure_bits - length dashing_bits) in
  let dashing_array := firstn (length structure_bits) dashing_bits in
  structure_bits ++ dashing_array.

Definition to_codeword_representation (g : AdinkraGraph) : color_dict vector :=
  fold_left (fun codewords c => dict_set codewords c (color_codeword g c))
            (available_colors g) [].

Record AdinkraRules : Type := mkRules {
  bipartite : bool;
  color_completeness : bool;
  dashing_consistent : bool
}.

(** Rule 1 of [check_adinkra_rules], with its [break]. *)
Fixpoint bipartite_valid (es : list AdinkraEdge) : bool :=
  match es with
  | [] => true
  | edge :: es' =>
      if FieldType_eqb (field_type (source edge)) (field_type (target edge))
      then false
      else bipartite_valid es'
  end.

Definition node_colors (g : AdinkraGraph) (node : AdinkraNode)
  : list EdgeColor :=
  fold_left
    (fun acc edge =>
       if node_eqb (source edge) node || node_eqb (target edge) node
       then set_add EdgeColor_eqb acc (color edge) else acc)
    (edges g) [].

Fixpoint color_complete (g : AdinkraGraph) (ns : list AdinkraNode) : bool :=
  match ns with
  | [] => true
  | node :: ns' =>
      if negb (Nat.eqb (length (node_colors g node))
                       (length (available_colors g)))
      then false
      else color_complete g ns'
  end.

Definition check_adinkra_rules (g : AdinkraGraph) : AdinkraRules :=
  mkRules (bipartite_valid (edges g)) (color_complete g (nodes g)) true.

Definition get_code_parameters (g : AdinkraGraph) : Z * Z :=
  let n_bosonic := Z.of_nat (length (bosonic_nodes g)) in
  let n_fermionic := Z.of_nat (length (fermionic_nodes g)) in
  (n_bosonic * n_fermionic * 2, Z.of_nat (length (available_colors g))).

Definition color_leb (a b : EdgeColor) : bool :=
  EdgeColor_value a <=? EdgeColor_value b.

(** [to_linear_code] up to the array it hands to [LinearBlockCode]: the
    array's second shape component and its rows. *)
Definition generator_matrix (g : AdinkraGraph) : result (nat * matrix) :=
  let codewords := to_codeword_representation g in
  match codewords with
  | [] => Err ValueError
  | _ :: _ =>
      let generator_rows :=
        flat_map (fun c => match dict_get codewords c with
                           | Some row => [row]
                           | None => []
                           end)
                 (sorted_by color_leb (available_colors g)) in
      match generator_rows with
      | [] => Err ValueError
      | _ :: _ =>
          let max_length :=
            fold_right Nat.max O (map (@length Z) generator_rows) in
          let padded_rows :=
            map (fun row =>
                   row ++ skipn (length row) (zeros max_length))
                generator_rows in
          OK (max_length, padded_rows)
      end
  end.

Definition to_linear_code (g : AdinkraGraph) : result LinearBlockCode :=
  gm <- generator_matrix g ;;
  init (fst gm) (snd gm).

Definition create_simple_adinkra (n_bosonic n_fermionic dimension : Z)
  : result AdinkraGraph :=
  let graph := new_graph dimension in
  let bosonic_nodes :=
    map (fun i => mkNode BOSONIC [Z.of_nat i] ("phi_" ++ str_int (Z.of_nat i)))
        (range 0 (Z.to_nat n_bosonic)) in
  let graph := fold_left add_node bosonic_nodes graph in
  let fermionic_nodes :=
    map (fun i => mkNode FERMIONIC [Z.of_nat i] ("psi_" ++ str_int (Z.of_nat i)))
        (range 0 (Z.to_nat n_fermionic)) in
  let graph := fold_left add_node fermionic_nodes graph in
  let available_colors := available_colors graph in
  foldM (fun graph ib =>
     foldM (fun graph jf =>
        foldM (fun graph kc =>
                 let dashed :=
                   Z.of_nat (fst ib + fst jf + fst kc) mod 2 =? 1 in
                 edge <- new_edge (snd ib) (snd jf) (snd kc) dashed ;;
                 add_edge graph edge)
              (enumerate available_colors) graph)
        (enumerate fermionic_nodes) graph)
    (enumerate bosonic_nodes) graph.

(** [''.join(map(str, vertex))]. *)
Definition vertex_name (vertex : list Z) : string :=
  join "" (map str_int vertex).

Fixpoint vertex_eqb (u v : list Z) : bool :=
  match u, v with
  | [], [] => true
  | x :: u', y :: v' => (x =? y) && vertex_eqb u' v'
  | _, _ => false
  end.

(** The [nodes] dictionary of [create_hypercube_adinkra]. *)
Fixpoint vdict_get (dct : list (list Z * AdinkraNode)) (v : list Z)
  : option AdinkraNode :=
  match dct with
  | [] => None
  | (v', x) :: dct' => if vertex_eqb v' v then Some x else vdict_get dct' v
  end.

Fixpoint vdict_set (dct : list (list Z * AdinkraNode)) (v : list Z)
    (x : AdinkraNode) : list (list Z * AdinkraNode) :=
  match dct with
  | [] => [(v, x)]
  | (v', x') :: dct' =>
      if vertex_eqb v' v then (v', x) :: dct'
      else (v', x') :: vdict_set dct' v x
  end.

Definition hypercube_node (vertex : list Z) : AdinkraNode :=
  let parity := vsum vertex mod 2 in
  let field_type := if parity =? 0 then BOSONIC else FERMIONIC in
  mkNode field_type vertex (vertex_name vertex).

(** The edge that the loops of [create_hypercube_adinkra] build for
    [vertex] and axis [i]; [None] when [adjacent] is not a key of [nodes]. *)
Definition hypercube_edge (nodes : list (list Z * AdinkraNode))
    (available_colors : list EdgeColor) (vertex : list Z) (i : nat)
  : result (option AdinkraEdge) :=
  let adjacent := set_nth vertex i (1 - nth i vertex 0) in
  match vdict_get nodes adjacent with
  | None => OK None
  | Some target =>
      source <- match vdict_get nodes vertex with
                | Some s => OK s
                | None => Err KeyError
                end ;;
      color <- list_get available_colors i ;;
      let dashed := nth i vertex 0 =? 1 in
      edge <- new_edge source target color dashed ;;
      OK (Some edge)
  end.

Definition create_hypercube_adinkra (dimension : Z) : result AdinkraGraph :=
  let graph := new_graph dimension in
  if dimension <? 0 then Err ValueError
  else
    let vertices := product [0; 1] (Z.to_nat dimension) in
    let st :=
      fold_left (fun st vertex =>
                   let node := hypercube_node vertex in
                   (vdict_set (fst st) vertex node, add_node (snd st) node))
                vertices ([], graph) in
    let nodes := fst st in
    let graph := snd st in
    let available_colors := available_colors graph in
    foldM (fun graph vertex =>
             foldM (fun graph i =>
                      oe <- hypercube_edge nodes available_colors vertex i ;;
                      match oe with
                      | Some edge => add_edge graph edge
                      | None => OK graph
                      end)
                   (range 0 (Z.to_nat dimension)) graph)
          vertices graph.

End AdinkraGraphs.

(** * Vocabulary of the statements *)

(** A two-dimensional array: every row has [cols] entries. *)
Definition rows_of_length (cols : nat) (A : matrix) : Prop :=
  Forall (fun row => length row = cols) A.

Definition is_bit (x : Z) : Prop := x = 0 \/ x = 1.

Definition bits (v : vector) : Prop := Forall is_bit v.

(** The integers that [np.array(..., dtype=int)] can hold. *)
Definition is_int64 (x : Z) : Prop := - 2 ^ 63 <= x < 2 ^ 63.

Definition int64s (v : vector) : Prop := Forall is_int64 v.

(** Settles [int64s] on a list that is written out. *)
Ltac closed_int64s :=
  repeat (apply Forall_cons; [unfold is_int64; lia|]); apply Forall_nil.

(** The number of positions at which two words differ. *)
Fixpoint hamming_distance (u v : vector) : Z :=
  match u, v with
  | x :: u', y :: v' => (if x =? y then 0 else 1) + hamming_distance u' v'
  | _, _ => 0
  end.

(** The distance as [_compute_minimum_distance] computes it. *)
Definition xor_weight (u v : vector) : Z := vsum (mod2 (vec_add u v)).

(** The rows of the generator matrix are linearly independent over GF(2):
    only the zero message encodes to the zero word. *)
Definition independent_rows (c : LinearBlockCodes.LinearBlockCode) : Prop :=
  forall m, length m = LinearBlockCodes.k c -> bits m ->
            LinearBlockCodes.encode c m = OK (zeros (LinearBlockCodes.n c)) ->
            m = zeros (LinearBlockCodes.k c).

(** The word that [encode] returns for a message of the right length. *)
Definition codeword_of (n : nat) (G : matrix) (m : vector) : vector :=
  mod2 (vecmat n (mod2 m) G).

(** The graphs that the interface of [AdinkraGraph] can reach: from the
    constructor by [add_node] and [add_edge], every edge being made by the
    constructor of [AdinkraEdge].  A set iterates in an order that depends
    on the hashes of its elements, so every reordering of the four sets of a
    reachable graph is reachable too. *)
Inductive built : AdinkraGraphs.AdinkraGraph -> Prop :=
| built_new (dimension : Z) :
    built (AdinkraGraphs.new_graph dimension)
| built_add_node (g : AdinkraGraphs.AdinkraGraph)
    (node : AdinkraGraphs.AdinkraNode) :
    built g -> built (AdinkraGraphs.add_node g node)
| built_add_edge (g g' : AdinkraGraphs.AdinkraGraph)
    (s t : AdinkraGraphs.AdinkraNode) (c : AdinkraGraphs.EdgeColor)
    (dsh : bool) (e : AdinkraGraphs.AdinkraEdge) :
    built g ->
    AdinkraGraphs.new_edge s t c dsh = OK e ->
    AdinkraGraphs.add_edge g e = OK g' ->
    built g'
| built_reorder (g : AdinkraGraphs.AdinkraGraph)
    (ns bs fs : list AdinkraGraphs.AdinkraNode)
    (es : list AdinkraGraphs.AdinkraEdge) :
    built g ->
    Permutation (AdinkraGraphs.nodes g) ns ->
    Permutation (AdinkraGraphs.edges g) es ->
    Permutation (AdinkraGraphs.bosonic_nodes g) bs ->
    Permutation (AdinkraGraphs.fermionic_nodes g) fs ->
    built (AdinkraGraphs.mkGraph (AdinkraGraphs.dimension g) ns es bs fs
             (AdinkraGraphs.available_colors g)).

(** An edge joins a bosonic and a fermionic node. *)
Definition joins_both_kinds (e : AdinkraGraphs.AdinkraEdge) : Prop :=
  (AdinkraGraphs.field_type (AdinkraGraphs.source e) = AdinkraGraphs.BOSONIC /\
   AdinkraGraphs.field_type (AdinkraGraphs.target e) = AdinkraGraphs.FERMIONIC)
  \/
  (AdinkraGraphs.field_type (AdinkraGraphs.source e) = AdinkraGraphs.FERMIONIC /\
   AdinkraGraphs.field_type (AdinkraGraphs.target e) = AdinkraGraphs.BOSONIC).

(** The vertex next to [v] along axis [i]. *)
Definition flip_axis (v : list Z) (i : nat) : list Z :=
  set_nth v i (1 - nth i v 0).

(** The edge that leaves the vertex [v] along axis [i]. *)
Definition hypercube_axis_edge (colors : list AdinkraGraphs.EdgeColor)
    (v : list Z) (i : nat) : AdinkraGraphs.AdinkraEdge :=
  AdinkraGraphs.mkEdge (AdinkraGraphs.hypercube_node v)
                       (AdinkraGraphs.hypercube_node (flip_axis v i))
                       (nth i colors AdinkraGraphs.RED)
                       (nth i v 0 =? 1).

(** The number of ones of a vertex. *)
Definition popcount (v : list Z) : nat := count_occ Z.eq_dec v 1.

(** The [rows x cols] array with entry [f i j] at [(i, j)]. *)
Definition tabulate2 (rows cols : nat) (f : nat -> nat -> Z) : matrix :=
  map (fun i => map (f i) (range 0 cols)) (range 0 rows).

(** The entries after the assignment [A[r, c] = v]. *)
Definition upd (f : nat -> nat -> Z) (r c : nat) (v : Z) : nat -> nat -> Z :=
  fun i j => if Nat.eqb i r && Nat.eqb j c then v else f i j.

(** The generator matrix of the single parity check code: an identity
    block and a last column of ones. *)
Definition parity_generator_entry (k i c : nat) : Z :=
  if Nat.eqb c k then 1 else if Nat.eqb c i then 1 else 0.

(** Entry [(j, c)] of the parity-check matrix of [hamming_code]: the bit
    of weight [2^(r-1-j)] of the column number [c + 1]. *)
Definition hamming_bit (r j c : nat) : Z :=
  Z.b2z (Z.testbit (Z.of_nat c + 1) (Z.of_nat (r - 1 - j))).

(** The column of the parity-check matrix that is the [j]-th unit vector. *)
Definition parity_position (r j : nat) : nat := (2 ^ (r - 1 - j) - 1)%nat.

(** The columns that carry the message bits. *)
Definition info_positions_of (r n : nat) : list nat :=
  filter (fun c => negb (existsb (Nat.eqb c)
                                 (map (parity_position r) (range 0 r))))
         (range 0 n).

(** Entry [(i, c)] of the generator matrix of [hamming_code]. *)
Definition hamming_entry (r n i c : nat) : Z :=
  match find (fun j => Nat.eqb (parity_position r j) c) (range 0 r) with
  | Some j => hamming_bit r j (nth i (info_positions_of r n) 0%nat)
  | None => if Nat.eqb c (nth i (info_positions_of r n) 0%nat) then 1 else 0
  end.

(** A generator matrix in the systematic form [[I_k | P]], with [k] rows
    of [n] bits. *)
Definition systematic (k n : nat) (G : matrix) : Prop :=
  length G = k /\ rows_of_length n G /\ Forall bits G /\
  forall i j, (i < k)%nat -> (j < k)%nat ->
              nth j (nth i G []) 0 = if Nat.eqb i j then 1 else 0.

(** The matrix [[P^T | I_(n-k)]] of a generator matrix [[I_k | P]]. *)
Definition systematic_check (k n : nat) (G : matrix) : matrix :=
  map (fun i =>
         map (fun j => if Nat.ltb j k then nth i (nth j G []) 0
                       else if Nat.eqb j i then 1 else 0)
             (range 0 n))
      (range k n).

(** The invariant of the four sets of a graph: the bosonic and the
    fermionic set hold the nodes of their kind, ids are not repeated, and
    every edge has an available colour and its two ends among the nodes. *)
Definition sets_agree (g : AdinkraGraphs.AdinkraGraph) : Prop :=
  Permutation (AdinkraGraphs.bosonic_nodes g)
    (filter (fun y => AdinkraGraphs.FieldType_eqb
                        (AdinkraGraphs.field_type y) AdinkraGraphs.BOSONIC)
            (AdinkraGraphs.nodes g)) /\
  Permutation (AdinkraGraphs.fermionic_nodes g)
    (filter (fun y => AdinkraGraphs.FieldType_eqb
                        (AdinkraGraphs.field_type y) AdinkraGraphs.FERMIONIC)
            (AdinkraGraphs.nodes g)) /\
  NoDup (map AdinkraGraphs.node_id (AdinkraGraphs.nodes g)) /\
  NoDup (map AdinkraGraphs.edge_id (AdinkraGraphs.edges g)) /\
  Forall (fun e =>
            In (AdinkraGraphs.color e) (AdinkraGraphs.available_colors g) /\
            existsb (AdinkraGraphs.node_eqb (AdinkraGraphs.source e))
                    (AdinkraGraphs.nodes g) = true /\
            existsb (AdinkraGraphs.node_eqb (AdinkraGraphs.target e))
                    (AdinkraGraphs.nodes g) = true)
         (AdinkraGraphs.edges g).

(** The bosonic and the fermionic end of an edge, as
    [get_adjacency_matrix] picks them. *)
Definition bosonic_end (e : AdinkraGraphs.AdinkraEdge)
  : AdinkraGraphs.AdinkraNode :=
  if AdinkraGraphs.FieldType_eqb
       (AdinkraGraphs.field_type (AdinkraGraphs.source e))
       AdinkraGraphs.BOSONIC
  then AdinkraGraphs.source e else AdinkraGraphs.target e.

Definition fermionic_end (e : AdinkraGraphs.AdinkraEdge)
  : AdinkraGraphs.AdinkraNode :=
  if AdinkraGraphs.FieldType_eqb
       (AdinkraGraphs.field_type (AdinkraGraphs.target e))
       AdinkraGraphs.FERMIONIC
  then AdinkraGraphs.target e else AdinkraGraphs.source e.

(** An edge of colour [c] between the [i]-th bosonic and the [j]-th
    fermionic node, the nodes of each kind being sorted by id. *)
Definition joins (g : AdinkraGraphs.AdinkraGraph)
    (c : AdinkraGraphs.EdgeColor) (i j : nat)
    (e : AdinkraGraphs.AdinkraEdge) : Prop :=
  AdinkraGraphs.color e = c /\
  AdinkraGraphs.index_of
    (AdinkraGraphs.sorted_by AdinkraGraphs.node_leb
       (AdinkraGraphs.bosonic_nodes g)) (bosonic_end e) = Some i /\
  AdinkraGraphs.index_of
    (AdinkraGraphs.sorted_by AdinkraGraphs.node_leb
       (AdinkraGraphs.fermionic_nodes g)) (fermionic_end e) = Some j.

(** The nodes and the edges that [create_simple_adinkra] creates: the
    [i]-th bosonic node, the [j]-th fermionic node, and the edge between
    them for the [k]-th colour. *)
Definition simple_bosonic (i : nat) : AdinkraGraphs.AdinkraNode :=
  AdinkraGraphs.mkNode AdinkraGraphs.BOSONIC [Z.of_nat i]
    (String.append "phi_" (AdinkraGraphs.str_int (Z.of_nat i))).

Definition simple_fermionic (j : nat) : AdinkraGraphs.AdinkraNode :=
  AdinkraGraphs.mkNode AdinkraGraphs.FERMIONIC [Z.of_nat j]
    (String.append "psi_" (AdinkraGraphs.str_int (Z.of_nat j))).

Definition simple_edge (colors : list AdinkraGraphs.EdgeColor)
    (i j k : nat) : AdinkraGraphs.AdinkraEdge :=
  AdinkraGraphs.mkEdge (simple_bosonic i) (simple_fermionic j)
    (nth k colors AdinkraGraphs.RED)
    (Z.of_nat (i + j + k) mod 2 =? 1).

(** Two arrays whose first [k] rows span the same code: every codeword of
    the one is a codeword of the other. *)
Definition same_code (n k : nat) (A B : matrix) : Prop :=
  (forall m, length m = k ->
     exists m', length m' = k /\ codeword_of n A m = codeword_of n B m') /\
  (forall m, length m = k ->
     exists m', length m' = k /\ codeword_of n B m = codeword_of n A m').

(** * Properties *)

(** ** The error monad and the list helpers *)

Lemma bind_OK {A B : Type} (m : result A) (f : A -> result B) (b : B) :
  bind m f = OK b -> exists a, m = OK a /\ f a = OK b.
Proof.
  destruct m as [a|e]; simpl; intros Hb; [exists a; auto | discriminate].
Qed.

Lemma mapM_length {A B : Type} (f : A -> result B) (l : list A) (bs : list B) :
  mapM f l = OK bs -> length bs = length l.
Proof.
  revert bs; induction l as [|a l IH]; simpl; intros bs Hm.
  - inversion Hm; reflexivity.
  - apply bind_OK in Hm as (b & _ & Hm).
    apply bind_OK in Hm as (bs' & Hbs & Hm).
    inversion Hm; subst; simpl; f_equal; auto.
Qed.

Lemma mapM_total {A B : Type} (f : A -> result B) (g : A -> B) (l : list A) :
  (forall a, In a l -> f a = OK (g a)) -> mapM f l = OK (map g l).
Proof.
  induction l as [|a l IH]; simpl; intros Hf; [reflexivity|].
  rewrite (Hf a) by auto; simpl.
  rewrite IH by auto; reflexivity.
Qed.

Lemma range_length (a b : nat) : length (range a b) = (b - a)%nat.
Proof. unfold range; apply length_seq. Qed.

Lemma in_range (a b i : nat) : In i (range a b) <-> (a <= i < b)%nat.
Proof. unfold range; rewrite in_seq; lia. Qed.

Lemma mod2_length (v : vector) : length (mod2 v) = length v.
Proof. unfold mod2; apply length_map. Qed.

Lemma vecmat_length (n : nat) (v : vector) (M : matrix) :
  length (vecmat n v M) = n.
Proof. unfold vecmat; rewrite length_map, range_length; lia. Qed.

(** ** The constructor and the two length checks *)

Import LinearBlockCodes.

Lemma init_fields (n0 : nat) (G0 : matrix) (c : LinearBlockCode) :
  init n0 G0 = OK c ->
  Forall (fun row => length row = n0) G0 /\
  G c = map mod2 G0 /\ k c = length G0 /\ n c = n0 /\
  compute_minimum_distance (G c) (k c) (n c) = OK (d c) /\
  compute_parity_check_matrix (G c) (k c) (n c) = OK (H c).
Proof.
  unfold init; intros Hi.
  destruct (forallb _ G0) eqn:Hshape; [|discriminate].
  apply bind_OK in Hi as (d0 & Hd & Hi).
  apply bind_OK in Hi as (H0 & HH & Hi).
  inversion Hi; subst; simpl.
  rewrite length_map in *.
  repeat split; auto.
  rewrite forallb_forall in Hshape.
  apply Forall_forall; intros row Hrow.
  apply Nat.eqb_eq; auto.
Qed.

Lemma parity_check_rows (G0 : matrix) (k0 n0 : nat) (H0 : matrix) :
  compute_parity_check_matrix G0 k0 n0 = OK H0 -> length H0 = (n0 - k0)%nat.
Proof.
  unfold compute_parity_check_matrix; intros Hc.
  apply bind_OK in Hc as (A & _ & Hc).
  apply bind_OK in Hc as (rows & Hrows & Hc).
  destruct (0 <? Z.of_nat n0 - Z.of_nat k0) eqn:Hdim.
  - apply mapM_length in Hrows; rewrite range_length in Hrows.
    destruct rows as [|row rows].
    + simpl in Hrows; apply Z.ltb_lt in Hdim; lia.
    + inversion Hc; subst; exact Hrows.
  - inversion Hrows; subst.
    apply Z.ltb_ge in Hdim.
    destruct (Nat.ltb_spec k0 n0); [lia|].
    inversion Hc; subst; simpl; lia.
Qed.

(** ** The conversion to an integer array *)

Lemma fits_int64_spec (x : Z) : fits_int64 x = true <-> is_int64 x.
Proof.
  unfold fits_int64, is_int64.
  rewrite andb_true_iff, Z.leb_le, Z.ltb_lt; reflexivity.
Qed.

Lemma np_array_int_ok (v : list Z) : int64s v -> np_array_int v = OK v.
Proof.
  intros Hv; unfold np_array_int.
  replace (forallb fits_int64 v) with true; [reflexivity|].
  symmetry; apply forallb_forall; intros x Hx.
  unfold int64s in Hv; rewrite Forall_forall in Hv.
  apply fits_int64_spec, Hv, Hx.
Qed.

Lemma np_array_int_overflow (v : list Z) :
  ~ int64s v -> np_array_int v = Err OverflowError.
Proof.
  intros Hv; unfold np_array_int.
  destruct (forallb fits_int64 v) eqn:E; [|reflexivity].
  exfalso; apply Hv, Forall_forall; intros x Hx.
  rewrite forallb_forall in E; apply fits_int64_spec, E, Hx.
Qed.

Lemma int64s_dec (v : list Z) : int64s v \/ ~ int64s v.
Proof.
  destruct (forallb fits_int64 v) eqn:E.
  - left; apply Forall_forall; intros x Hx.
    rewrite forallb_forall in E; apply fits_int64_spec, E, Hx.
  - right; intros Hv.
    assert (E' : forallb fits_int64 v = true); [|congruence].
    apply forallb_forall; intros x Hx.
    unfold int64s in Hv; rewrite Forall_forall in Hv.
    apply fits_int64_spec, Hv, Hx.
Qed.

Lemma bits_int64s (v : vector) : bits v -> int64s v.
Proof.
  apply Forall_impl; intros x [-> | ->]; unfold is_int64; lia.
Qed.

Lemma syndrome_OK_inv (c : LinearBlockCode) (received : list Z) (s : vector) :
  syndrome c received = OK s -> int64s received /\ length received = n c.
Proof.
  unfold syndrome; intros Hs.
  destruct (int64s_dec received) as [Hm | Hm];
    [|rewrite np_array_int_overflow in Hs by exact Hm; discriminate].
  split; [exact Hm|].
  rewrite np_array_int_ok in Hs by exact Hm; cbn [bind] in Hs.
  rewrite mod2_length in Hs.
  destruct (Nat.eqb_spec (length received) (n c)); [assumption | discriminate].
Qed.

Lemma encode_with_overflow (G0 : matrix) (k0 n0 : nat) (message : list Z) :
  ~ int64s message -> encode_with G0 k0 n0 message = Err OverflowError.
Proof.
  intros Hm; unfold encode_with; rewrite np_array_int_overflow by exact Hm.
  reflexivity.
Qed.

Lemma encode_with_error (G0 : matrix) (k0 n0 : nat) (message : list Z) :
  int64s message -> length message <> k0 ->
  encode_with G0 k0 n0 message = Err ValueError.
Proof.
  intros Hm Hlen; unfold encode_with.
  rewrite np_array_int_ok by exact Hm; cbn [bind]; rewrite mod2_length.
  destruct (Nat.eqb_spec (length message) k0); [contradiction | reflexivity].
Qed.

Lemma encode_with_value (G0 : matrix) (k0 n0 : nat) (message : list Z) :
  int64s message -> length message = k0 ->
  encode_with G0 k0 n0 message = OK (codeword_of n0 G0 message).
Proof.
  intros Hm Hlen; unfold encode_with.
  rewrite np_array_int_ok by exact Hm; cbn [bind]; rewrite mod2_length.
  destruct (Nat.eqb_spec (length message) k0); [reflexivity | contradiction].
Qed.

Lemma encode_with_OK_inv (G0 : matrix) (k0 n0 : nat) (message : list Z)
    (w : vector) :
  encode_with G0 k0 n0 message = OK w ->
  int64s message /\ length message = k0 /\ w = codeword_of n0 G0 message.
Proof.
  intros He; destruct (int64s_dec message) as [Hm | Hm];
    [|rewrite encode_with_overflow in He by exact Hm; discriminate].
  destruct (Nat.eq_dec (length message) k0) as [Hlen | Hlen];
    [|rewrite encode_with_error in He by assumption; discriminate].
  rewrite encode_with_value in He by assumption.
  injection He as <-; auto.
Qed.

Lemma encode_with_bits (G0 : matrix) (k0 n0 : nat) (message : list Z) :
  bits message -> length message = k0 ->
  encode_with G0 k0 n0 message = OK (codeword_of n0 G0 message).
Proof. intros Hm; apply encode_with_value, bits_int64s, Hm. Qed.

Lemma syndrome_overflow (c : LinearBlockCode) (received : list Z) :
  ~ int64s received -> syndrome c received = Err OverflowError.
Proof.
  intros Hm; unfold syndrome; rewrite np_array_int_overflow by exact Hm.
  reflexivity.
Qed.

Lemma syndrome_error (c : LinearBlockCode) (received : list Z) :
  int64s received -> length received <> n c ->
  syndrome c received = Err ValueError.
Proof.
  intros Hm Hlen; unfold syndrome.
  rewrite np_array_int_ok by exact Hm; cbn [bind]; rewrite mod2_length.
  destruct (Nat.eqb_spec (length received) (n c)); [contradiction | reflexivity].
Qed.

Lemma syndrome_value (c : LinearBlockCode) (received : list Z) :
  int64s received -> length received = n c ->
  syndrome c received =
  OK (mod2 (vecmat (length (H c)) (mod2 received) (transpose (n c) (H c)))).
Proof.
  intros Hm Hlen; unfold syndrome.
  rewrite np_array_int_ok by exact Hm; cbn [bind]; rewrite mod2_length.
  destruct (Nat.eqb_spec (length received) (n c)); [reflexivity | contradiction].
Qed.

Lemma syndrome_bits (c : LinearBlockCode) (received : list Z) :
  bits received -> length received = n c ->
  syndrome c received =
  OK (mod2 (vecmat (length (H c)) (mod2 received) (transpose (n c) (H c)))).
Proof. intros Hm; apply syndrome_value, bits_int64s, Hm. Qed.

(** ** Shapes are kept by the elimination, and reads inside them succeed *)

Lemma set_nth_length {A : Type} (l : list A) (i : nat) (x : A) :
  length (set_nth l i x) = length l.
Proof.
  revert i; induction l as [|y l IH]; intros [|i]; simpl; auto.
Qed.

Lemma set_nth_Forall {A : Type} (P : A -> Prop) (l : list A) (i : nat) (x : A) :
  Forall P l -> P x -> Forall P (set_nth l i x).
Proof.
  intros Hl Hx; revert i; induction Hl as [|y l Hy Hl IH]; intros [|i]; simpl;
    auto.
Qed.

Lemma nth_set_nth {A : Type} (l : list A) (i j : nat) (x dflt : A) :
  nth j (set_nth l i x) dflt =
  if Nat.eqb j i && Nat.ltb i (length l) then x else nth j l dflt.
Proof.
  revert i j; induction l as [|y l IH]; intros i j.
  - rewrite andb_false_r; destruct i, j; reflexivity.
  - destruct i as [|i], j as [|j]; simpl; auto.
Qed.

Lemma vec_add_length (u v : vector) :
  length (vec_add u v) = Nat.min (length u) (length v).
Proof.
  revert v; induction u as [|x u IH]; intros [|y v]; simpl; auto.
Qed.

Lemma get_row_inv (A : matrix) (r : nat) (row : vector) :
  get_row A r = OK row -> nth_error A r = Some row.
Proof.
  unfold get_row; destruct (nth_error A r); intros Hr; inversion Hr; auto.
Qed.

Lemma get_row_ok (A : matrix) (r : nat) :
  (r < length A)%nat -> get_row A r = OK (nth r A []).
Proof.
  intros Hr; unfold get_row.
  rewrite (nth_error_nth' A [] Hr); reflexivity.
Qed.

Lemma get2_ok (cols : nat) (A : matrix) (r c : nat) :
  rows_of_length cols A -> (r < length A)%nat -> (c < cols)%nat ->
  get2 A r c = OK (nth c (nth r A []) 0).
Proof.
  intros HA Hr Hc; unfold get2.
  rewrite (nth_error_nth' A [] Hr).
  assert (Hlen : length (nth r A []) = cols).
  { unfold rows_of_length in HA; rewrite Forall_forall in HA.
    apply HA, nth_In, Hr. }
  rewrite (nth_error_nth' (nth r A []) 0) by lia; reflexivity.
Qed.

Lemma get2_past_columns (cols : nat) (A : matrix) (r c : nat) :
  rows_of_length cols A -> (cols <= c)%nat -> get2 A r c = Err IndexError.
Proof.
  intros HA Hc; unfold get2.
  destruct (nth_error A r) as [row|] eqn:Hrow; [|reflexivity].
  assert (Hlen : length row = cols).
  { unfold rows_of_length in HA; rewrite Forall_forall in HA.
    eapply HA, nth_error_In; eauto. }
  destruct (nth_error row c) eqn:Hv; [|reflexivity].
  assert (Hn : nth_error row c <> None) by congruence.
  apply nth_error_Some in Hn; lia.
Qed.

Lemma swap_rows_shape (cols : nat) (A A' : matrix) (i p : nat) :
  swap_rows A i p = OK A' -> rows_of_length cols A ->
  rows_of_length cols A' /\ length A' = length A.
Proof.
  unfold swap_rows; intros Hs HA.
  apply bind_OK in Hs as (ri & Hri & Hs).
  apply bind_OK in Hs as (rp & Hrp & Hs).
  inversion Hs; subst; clear Hs.
  apply get_row_inv, nth_error_In in Hri, Hrp.
  unfold rows_of_length in *.
  pose proof (proj1 (Forall_forall _ _) HA) as Hin.
  split.
  - apply set_nth_Forall; [apply set_nth_Forall|]; auto.
  - rewrite !set_nth_length; reflexivity.
Qed.

Lemma eliminate_shape (cols : nat) (i : nat) (js : list nat) :
  forall A A', eliminate A i js = OK A' -> rows_of_length cols A ->
               rows_of_length cols A' /\ length A' = length A.
Proof.
  induction js as [|j js IH]; simpl; intros A A' He HA.
  - inversion He; subst; auto.
  - destruct (Nat.eqb j i); [eauto|].
    apply bind_OK in He as (v & Hv & He).
    destruct (v =? 1); [|eauto].
    apply bind_OK in He as (rj & Hrj & He).
    apply bind_OK in He as (ri & Hri & He).
    apply IH in He.
    + rewrite set_nth_length in He; exact He.
    + apply get_row_inv, nth_error_In in Hri, Hrj.
      unfold rows_of_length in *.
      pose proof (proj1 (Forall_forall _ _) HA) as Hin.
      apply set_nth_Forall; [exact HA|].
      rewrite mod2_length, vec_add_length, (Hin rj), (Hin ri) by assumption.
      apply Nat.min_id.
Qed.

Lemma gauss_shape (cols k0 : nat) (l : list nat) :
  forall A A', gauss A k0 l = OK A' -> rows_of_length cols A ->
               rows_of_length cols A' /\ length A' = length A.
Proof.
  induction l as [|i l IH]; simpl; intros A A' Hg HA.
  - inversion Hg; subst; auto.
  - apply bind_OK in Hg as (p & Hp & Hg).
    apply bind_OK in Hg as (v & Hv & Hg).
    destruct (v =? 0); [eauto|].
    apply bind_OK in Hg as (A1 & HA1 & Hg).
    apply bind_OK in Hg as (A2 & HA2 & Hg).
    assert (H1 : rows_of_length cols A1 /\ length A1 = length A).
    { destruct (Nat.eqb p i).
      - inversion HA1; subst; auto.
      - eapply swap_rows_shape; eauto. }
    destruct H1 as (H1 & L1).
    destruct (eliminate_shape cols _ _ _ _ HA2 H1) as (H2 & L2).
    destruct (IH _ _ Hg H2) as (H3 & L3).
    split; [exact H3 | congruence].
Qed.

Lemma find_pivot_ok (cols : nat) (A : matrix) (i : nat) (js : list nat) :
  rows_of_length cols A -> (i < cols)%nat ->
  Forall (fun j => (j < length A)%nat) js ->
  forall p0, (p0 < length A)%nat ->
  exists p, find_pivot A i js p0 = OK p /\ (p < length A)%nat.
Proof.
  intros HA Hi Hjs; induction Hjs as [|j js Hj Hjs IH]; simpl; intros p0 Hp0.
  - eauto.
  - rewrite (get2_ok cols) by assumption; simpl.
    destruct (_ =? 1); eauto.
Qed.

Lemma eliminate_ok (cols : nat) (i : nat) (js : list nat) :
  forall A, rows_of_length cols A -> (i < cols)%nat -> (i < length A)%nat ->
            Forall (fun j => (j < length A)%nat) js ->
            exists A', eliminate A i js = OK A'.
Proof.
  induction js as [|j js IH]; simpl; intros A HA Hi Hi' Hjs.
  - eauto.
  - inversion Hjs as [|? ? Hj Hjs']; subst.
    destruct (Nat.eqb j i); [eauto|].
    rewrite (get2_ok cols) by assumption; simpl.
    destruct (_ =? 1); [|eauto].
    rewrite (get_row_ok A j) by assumption; simpl.
    rewrite (get_row_ok A i) by assumption; simpl.
    apply IH; rewrite ?set_nth_length; auto.
    unfold rows_of_length in *.
    pose proof (proj1 (Forall_forall _ _) HA) as Hin.
    apply set_nth_Forall; [exact HA|].
    rewrite mod2_length, vec_add_length, !Hin by (apply nth_In; assumption).
    apply Nat.min_id.
Qed.

Lemma swap_rows_ok (A : matrix) (i p : nat) :
  (i < length A)%nat -> (p < length A)%nat ->
  swap_rows A i p = OK (set_nth (set_nth A i (nth p A [])) p (nth i A [])).
Proof.
  intros Hi Hp; unfold swap_rows.
  rewrite (get_row_ok A i Hi); simpl.
  rewrite (get_row_ok A p Hp); reflexivity.
Qed.

Lemma Forall_range (P : nat -> Prop) (a b : nat) :
  (forall i, (a <= i < b)%nat -> P i) -> Forall P (range a b).
Proof.
  intros HP; apply Forall_forall; intros i Hi; apply HP, in_range, Hi.
Qed.

Lemma gauss_ok (cols k0 : nat) (l : list nat) :
  forall A, rows_of_length cols A -> (k0 <= cols)%nat -> (k0 <= length A)%nat ->
            Forall (fun i => (i < k0)%nat) l ->
            exists A', gauss A k0 l = OK A'.
Proof.
  induction l as [|i l IH]; simpl; intros A HA Hk Hk' Hl.
  - eauto.
  - inversion Hl as [|? ? Hi Hl']; subst.
    destruct (find_pivot_ok cols A i (range (i + 1) k0)) with (p0 := i)
      as (p & Hp & Hplt); try assumption; try lia.
    { apply Forall_range; intros; lia. }
    rewrite Hp; simpl.
    rewrite (get2_ok cols) by (assumption || lia); simpl.
    destruct (_ =? 0); [eauto|].
    assert (H1 : exists A1,
               (if Nat.eqb p i then OK A else swap_rows A i p) = OK A1 /\
               rows_of_length cols A1 /\ length A1 = length A).
    { destruct (Nat.eqb p i); [eauto|].
      eexists; split; [apply swap_rows_ok; lia|].
      eapply swap_rows_shape; [apply swap_rows_ok; lia | exact HA]. }
    destruct H1 as (A1 & -> & H1 & L1); simpl.
    destruct (eliminate_ok cols i (range 0 k0) A1) as (A2 & HA2);
      try assumption; try lia.
    { apply Forall_range; intros; lia. }
    rewrite HA2; simpl.
    destruct (eliminate_shape cols _ _ _ _ HA2 H1) as (H2 & L2).
    apply IH; auto; lia.
Qed.

(** Past the last column, the first read of a step raises. *)
Lemma gauss_past_columns (cols k0 : nat) (l : list nat) :
  forall A, rows_of_length cols A ->
            Exists (fun i => (cols <= i)%nat) l ->
            forall A', gauss A k0 l <> OK A'.
Proof.
  induction l as [|i l IH]; simpl; intros A HA Hex A' Hg.
  - inversion Hex.
  - apply bind_OK in Hg as (p & Hp & Hg).
    apply bind_OK in Hg as (v & Hv & Hg).
    destruct (Nat.lt_ge_cases i cols) as [Hi|Hi].
    + inversion Hex as [? ? Hc|? ? Hl]; subst; [lia|].
      destruct (v =? 0); [eapply IH; eauto|].
      apply bind_OK in Hg as (A1 & HA1 & Hg).
      apply bind_OK in Hg as (A2 & HA2 & Hg).
      assert (H1 : rows_of_length cols A1).
      { destruct (Nat.eqb p i).
        - inversion HA1; subst; auto.
        - eapply swap_rows_shape; eauto. }
      destruct (eliminate_shape cols _ _ _ _ HA2 H1) as (H2 & _).
      eapply IH; eauto.
    + rewrite (get2_past_columns cols) in Hv by assumption; discriminate.
Qed.

(** ** Messages and the construction of a code *)

Lemma product_spec {A : Type} (pool : list A) (k0 : nat) (m : list A) :
  In m (product pool k0) <-> length m = k0 /\ Forall (fun x => In x pool) m.
Proof.
  revert m; induction k0 as [|k0 IH]; simpl; intros m.
  - split.
    + intros [<-|[]]; auto.
    + intros (Hlen & _); destruct m; [auto | discriminate].
  - rewrite in_flat_map; split.
    + intros (x & Hx & Hm).
      apply in_map_iff in Hm as (m' & <- & Hm').
      apply IH in Hm' as (Hlen & Hall); simpl; auto.
    + intros (Hlen & Hall).
      destruct m as [|x m']; [discriminate|].
      inversion Hall; subst.
      exists x; split; [assumption|].
      apply in_map, IH; auto.
Qed.

Lemma product_bits (k0 : nat) (m : vector) :
  In m (product [0; 1] k0) <-> length m = k0 /\ bits m.
Proof.
  unfold bits, is_bit; split.
  - intros Hm; apply (product_spec [0; 1] k0 m) in Hm as (Hlen & Hall).
    split; [exact Hlen|].
    eapply Forall_impl; [|exact Hall]; simpl; intros a Ha; intuition auto.
  - intros (Hlen & Hall); apply (product_spec [0; 1] k0 m).
    split; [exact Hlen|].
    eapply Forall_impl; [|exact Hall]; simpl; intros a Ha; intuition auto.
Qed.

Lemma product_length (k0 : nat) :
  length (product [0; 1] k0) = (2 ^ k0)%nat.
Proof.
  induction k0 as [|k0 IH]; simpl; [reflexivity|].
  rewrite app_nil_r, length_app, !length_map, IH; lia.
Qed.

Lemma get_all_codewords_with_value (G0 : matrix) (k0 n0 : nat) :
  get_all_codewords_with G0 k0 n0 =
  OK (map (codeword_of n0 G0) (product [0; 1] k0)).
Proof.
  unfold get_all_codewords_with; apply mapM_total.
  intros m Hm; apply product_bits in Hm as (Hlen & Hb).
  apply encode_with_bits; assumption.
Qed.

Lemma compute_minimum_distance_value (G0 : matrix) (k0 n0 : nat) :
  compute_minimum_distance G0 k0 n0 =
  OK (min_dist_outer (map (codeword_of n0 G0) (product [0; 1] k0))
                     (Z.of_nat n0 + 1)).
Proof.
  unfold compute_minimum_distance.
  rewrite get_all_codewords_with_value; reflexivity.
Qed.

Lemma eye_shape (n0 : nat) : rows_of_length n0 (eye n0) /\ length (eye n0) = n0.
Proof.
  unfold eye, rows_of_length; split.
  - apply Forall_forall; intros row Hrow.
    apply in_map_iff in Hrow as (i & <- & _).
    rewrite length_map, range_length; lia.
  - rewrite length_map, range_length; lia.
Qed.

Lemma augmented_shape (n0 : nat) (G0 : matrix) :
  rows_of_length n0 G0 ->
  rows_of_length n0 (G0 ++ eye n0) /\
  length (G0 ++ eye n0) = (length G0 + n0)%nat.
Proof.
  intros HG; split.
  - apply Forall_app; split; [exact HG | apply eye_shape].
  - rewrite length_app; f_equal; apply eye_shape.
Qed.

Lemma H_row_ok (A : matrix) (k0 n0 i : nat) :
  rows_of_length n0 A -> (i < n0)%nat -> (k0 <= length A)%nat ->
  exists row, H_row A k0 n0 i = OK row.
Proof.
  intros HA Hi Hk; eexists; unfold H_row.
  apply mapM_total with
    (g := fun j => if Nat.ltb j k0 then nth i (nth j A []) 0
                   else if Nat.eqb j i then 1 else 0).
  intros j Hj.
  destruct (Nat.ltb_spec j k0).
  - destruct (Nat.ltb_spec j (length A)); [|lia].
    apply (get2_ok n0); assumption.
  - destruct (Nat.eqb j i); reflexivity.
Qed.

Lemma mapM_ok {A B : Type} (f : A -> result B) (l : list A) :
  (forall a, In a l -> exists b, f a = OK b) -> exists bs, mapM f l = OK bs.
Proof.
  induction l as [|a l IH]; simpl; intros Hf; [eauto|].
  destruct (Hf a) as (b & ->); auto; simpl.
  destruct IH as (bs & ->); auto; simpl; eauto.
Qed.

Lemma compute_parity_check_matrix_ok (G0 : matrix) (n0 : nat) :
  rows_of_length n0 G0 -> (length G0 <= n0)%nat ->
  exists H0, compute_parity_check_matrix G0 (length G0) n0 = OK H0.
Proof.
  intros HG Hk; unfold compute_parity_check_matrix.
  destruct (augmented_shape n0 G0 HG) as (Hsh & Hlen).
  destruct (gauss_ok n0 (length G0) (range 0 (length G0)) (G0 ++ eye n0))
    as (A & HA); try assumption; try lia.
  { apply Forall_range; intros; lia. }
  rewrite HA; simpl.
  destruct (gauss_shape n0 _ _ _ _ HA Hsh) as (HshA & HlenA).
  assert (Hrows : exists rows,
             (if 0 <? Z.of_nat n0 - Z.of_nat (length G0)
              then mapM (H_row A (length G0) n0) (range (length G0) n0)
              else OK []) = OK rows).
  { destruct (0 <? _); [|eauto].
    apply mapM_ok; intros i Hi; apply in_range in Hi.
    apply H_row_ok; try assumption; lia. }
  destruct Hrows as (rows & ->); simpl.
  destruct rows; [destruct (Nat.ltb _ _)|]; eauto.
Qed.

Lemma compute_parity_check_matrix_fits (G0 : matrix) (k0 n0 : nat)
    (H0 : matrix) :
  rows_of_length n0 G0 ->
  compute_parity_check_matrix G0 k0 n0 = OK H0 ->
  (k0 <= n0)%nat.
Proof.
  intros HG Hc; unfold compute_parity_check_matrix in Hc.
  apply bind_OK in Hc as (A & HA & _).
  destruct (Nat.le_gt_cases k0 n0) as [Hle|Hgt]; [exact Hle|].
  exfalso; eapply (gauss_past_columns n0); [| |exact HA].
  - apply augmented_shape, HG.
  - apply Exists_exists; exists n0; split; [apply in_range|]; lia.
Qed.

Lemma mod2_rows_shape (n0 : nat) (G0 : matrix) :
  rows_of_length n0 G0 -> rows_of_length n0 (map mod2 G0).
Proof.
  unfold rows_of_length; intros HG; apply Forall_map.
  eapply Forall_impl; [|exact HG]; simpl; intros row Hrow.
  rewrite mod2_length; exact Hrow.
Qed.

(** The arrays the constructor accepts: a two-dimensional array with at
    most as many rows as columns. *)
Lemma init_accepts (n0 : nat) (G0 : matrix) :
  (exists c, init n0 G0 = OK c) <->
  rows_of_length n0 G0 /\ (length G0 <= n0)%nat.
Proof.
  split.
  - intros (c & Hc).
    destruct (init_fields _ _ _ Hc) as (HG & EG & Ek & En & _ & HH).
    split; [exact HG|].
    rewrite EG, En in HH; rewrite <- Ek.
    eapply compute_parity_check_matrix_fits; [|exact HH].
    apply mod2_rows_shape, HG.
  - intros (HG & Hk); unfold init.
    assert (Hf : forallb (fun row => Nat.eqb (length row) n0) G0 = true).
    { apply forallb_forall; intros row Hrow; apply Nat.eqb_eq.
      unfold rows_of_length in HG; rewrite Forall_forall in HG; auto. }
    rewrite Hf, compute_minimum_distance_value; simpl.
    destruct (compute_parity_check_matrix_ok (map mod2 G0) n0) as (H0 & HH).
    { apply mod2_rows_shape, HG. }
    { rewrite length_map; exact Hk. }
    rewrite HH; simpl; eauto.
Qed.

(** C8, amended: on a constructed code, [encode] first converts the message
    to an array of 64-bit integers and raises [OverflowError] exactly when an
    entry does not fit, whatever the length; it raises [ValueError] exactly
    when all entries fit and the length differs from [k], and otherwise
    returns a vector of [n] bits.  [syndrome] does the same with [n] for the
    length and returns a vector of [n - k] bits, where [k <= n].  Both are
    functions of the code and their argument alone. *)
Theorem encode_syndrome_length_checks (n0 : nat) (G0 : matrix)
    (c : LinearBlockCode) :
  init n0 G0 = OK c ->
  (k c <= n c)%nat /\
  (forall message,
      (encode c message = Err OverflowError <-> ~ int64s message) /\
      (encode c message = Err ValueError <->
       int64s message /\ length message <> k c) /\
      (int64s message -> length message = k c ->
       exists w, encode c message = OK w /\ length w = n c /\ bits w)) /\
  (forall received,
      (syndrome c received = Err OverflowError <-> ~ int64s received) /\
      (syndrome c received = Err ValueError <->
       int64s received /\ length received <> n c) /\
      (int64s received -> length received = n c ->
       exists s, syndrome c received = OK s /\
                 length s = (n c - k c)%nat /\ bits s)).
Proof.
  intros Hi.
  destruct (init_fields _ _ _ Hi) as (_ & _ & Ek & En & _ & HH).
  apply parity_check_rows in HH.
  split.
  { rewrite Ek, En.
    apply (proj1 (init_accepts n0 G0)); exists c; exact Hi. }
  split.
  - intros message; unfold encode; split; [split | split; [split|]].
    + intros He Hm.
      destruct (Nat.eq_dec (length message) (k c)) as [Hlen | Hlen].
      * rewrite encode_with_value in He by assumption; discriminate.
      * rewrite encode_with_error in He by assumption; discriminate.
    + apply encode_with_overflow.
    + intros He; destruct (int64s_dec message) as [Hm | Hm].
      * split; [exact Hm|]; intros Hlen.
        rewrite encode_with_value in He by assumption; discriminate.
      * rewrite encode_with_overflow in He by exact Hm; discriminate.
    + intros (Hm & Hlen); apply encode_with_error; assumption.
    + intros Hm Hlen; eexists; split; [|split].
      * apply encode_with_value; assumption.
      * unfold codeword_of; rewrite mod2_length; apply vecmat_length.
      * unfold codeword_of, bits, mod2; apply Forall_map, Forall_forall.
        intros x _; unfold is_bit; pose proof (Z.mod_pos_bound x 2); lia.
  - intros received; split; [split | split; [split|]].
    + intros He Hm.
      destruct (Nat.eq_dec (length received) (n c)) as [Hlen | Hlen].
      * rewrite syndrome_value in He by assumption; discriminate.
      * rewrite syndrome_error in He by assumption; discriminate.
    + apply syndrome_overflow.
    + intros He; destruct (int64s_dec received) as [Hm | Hm].
      * split; [exact Hm|]; intros Hlen.
        rewrite syndrome_value in He by assumption; discriminate.
      * rewrite syndrome_overflow in He by exact Hm; discriminate.
    + intros (Hm & Hlen); apply syndrome_error; assumption.
    + intros Hm Hlen; eexists; split; [|split].
      * apply syndrome_value; assumption.
      * rewrite mod2_length, vecmat_length; exact HH.
      * unfold bits, mod2; apply Forall_map, Forall_forall.
        intros x _; unfold is_bit; pose proof (Z.mod_pos_bound x 2); lia.
Qed.

Lemma encode_syndrome_length_checks_witness :
  exists c, init 2 [[0; 1]] = OK c /\
  (k c <= n c)%nat /\
  (forall message,
      (encode c message = Err OverflowError <-> ~ int64s message) /\
      (encode c message = Err ValueError <->
       int64s message /\ length message <> k c) /\
      (int64s message -> length message = k c ->
       exists w, encode c message = OK w /\ length w = n c /\ bits w)) /\
  (forall received,
      (syndrome c received = Err OverflowError <-> ~ int64s received) /\
      (syndrome c received = Err ValueError <->
       int64s received /\ length received <> n c) /\
      (int64s received -> length received = n c ->
       exists s, syndrome c received = OK s /\
                 length s = (n c - k c)%nat /\ bits s)).
Proof.
  eexists; split; [reflexivity|].
  apply (encode_syndrome_length_checks 2 [[0; 1]]); reflexivity.
Defined.

(** C8, as stated, fails on a list with an entry outside the 64-bit range:
    on the [(3, 2)] code below a message of length 3 and a received word of
    length 2 have the wrong length, yet the error is [OverflowError], raised
    by the conversion before the length is looked at; the same error meets a
    message of the right length. *)
Lemma length_check_after_conversion :
  exists c,
    init 3 [[1; 0; 1]; [0; 1; 1]] = OK c /\ k c = 2%nat /\ n c = 3%nat /\
    encode c [2 ^ 63; 0; 0] = Err OverflowError /\
    ~ (encode c [2 ^ 63; 0; 0] = Err ValueError <->
       length [2 ^ 63; 0; 0] <> k c) /\
    syndrome c [2 ^ 63; 0] = Err OverflowError /\
    ~ (syndrome c [2 ^ 63; 0] = Err ValueError <->
       length [2 ^ 63; 0] <> n c) /\
    encode c [2 ^ 63; 0] = Err OverflowError.
Proof.
  eexists; split; [reflexivity|].
  split; [reflexivity|]; split; [reflexivity|].
  split; [reflexivity|]; split.
  { intros (_ & Hf).
    assert (Hv : encode (mkCode [[1; 0; 1]; [0; 1; 1]] 2 3 2 [[1; 1; 1]])
                   [2 ^ 63; 0; 0] = Err ValueError)
      by (apply Hf; simpl; lia).
    discriminate Hv. }
  split; [reflexivity|]; split; [|reflexivity].
  intros (_ & Hf).
  assert (Hv : syndrome (mkCode [[1; 0; 1]; [0; 1; 1]] 2 3 2 [[1; 1; 1]])
                 [2 ^ 63; 0] = Err ValueError)
    by (apply Hf; simpl; lia).
  discriminate Hv.
Qed.

(** ** Arithmetic over GF(2) *)

Lemma mod2_bits (v : vector) : bits (mod2 v).
Proof.
  unfold bits, mod2; apply Forall_map, Forall_forall; intros x _.
  unfold is_bit; pose proof (Z.mod_pos_bound x 2); lia.
Qed.

Lemma mod2_of_bits (v : vector) : bits v -> mod2 v = v.
Proof.
  induction 1 as [|x v [-> | ->] Hv IH]; simpl; [reflexivity| |]; f_equal; auto.
Qed.

Lemma xor_weight_hamming (u v : vector) :
  bits u -> bits v -> xor_weight u v = hamming_distance u v.
Proof.
  unfold xor_weight; intros Hu; revert v.
  induction Hu as [|x u Hx Hu IH]; intros v Hv; [reflexivity|].
  destruct Hv as [|y v Hy Hv]; [reflexivity|].
  simpl; fold (mod2 (vec_add u v)); fold (vsum (mod2 (vec_add u v))).
  rewrite IH by assumption.
  destruct Hx as [-> | ->], Hy as [-> | ->]; reflexivity.
Qed.

Lemma vsum_bits_bounds (v : vector) :
  bits v -> 0 <= vsum v <= Z.of_nat (length v).
Proof.
  induction 1 as [|x v [-> | ->] Hv IH]; cbn [length];
    rewrite ?Nat2Z.inj_succ; unfold vsum in *; cbn [fold_right]; lia.
Qed.

(** ** The double loop computes the minimum over the pairs [i < j] *)

Lemma min_dist_inner_le_init (c : vector) (rest : list vector) (m : Z) :
  min_dist_inner c rest m <= m.
Proof.
  unfold min_dist_inner; revert m; induction rest as [|v rest IH]; simpl;
    intros m; [lia|].
  etransitivity; [apply IH|].
  destruct (Z.ltb_spec (vsum (mod2 (vec_add c v))) m); lia.
Qed.

Lemma min_dist_inner_le (c : vector) (rest : list vector) (m : Z) (j : nat)
    (v : vector) :
  nth_error rest j = Some v -> min_dist_inner c rest m <= xor_weight c v.
Proof.
  unfold min_dist_inner, xor_weight; revert m j.
  induction rest as [|v' rest IH]; intros m [|j] Hj; simpl in *;
    try discriminate.
  - inversion Hj; subst.
    etransitivity; [apply (min_dist_inner_le_init c rest)|].
    destruct (Z.ltb_spec (vsum (mod2 (vec_add c v))) m); lia.
  - eapply IH; eauto.
Qed.

Lemma min_dist_inner_attained (c : vector) (rest : list vector) (m : Z) :
  min_dist_inner c rest m = m \/
  exists j v, nth_error rest j = Some v /\
              min_dist_inner c rest m = xor_weight c v.
Proof.
  unfold min_dist_inner, xor_weight; revert m.
  induction rest as [|v' rest IH]; intros m; simpl; [auto|].
  destruct (IH (if vsum (mod2 (vec_add c v')) <? m
                then vsum (mod2 (vec_add c v')) else m))
    as [E | (j & v & Hj & E)].
  - rewrite E.
    destruct (Z.ltb_spec (vsum (mod2 (vec_add c v'))) m); [|auto].
    right; exists O, v'; auto.
  - right; exists (S j), v; auto.
Qed.

Lemma min_dist_outer_le_init (cws : list vector) (m : Z) :
  min_dist_outer cws m <= m.
Proof.
  revert m; induction cws as [|c rest IH]; simpl; intros m; [lia|].
  etransitivity; [apply IH | apply min_dist_inner_le_init].
Qed.

Lemma min_dist_outer_le (cws : list vector) (m : Z) (i j : nat)
    (u v : vector) :
  (i < j)%nat -> nth_error cws i = Some u -> nth_error cws j = Some v ->
  min_dist_outer cws m <= xor_weight u v.
Proof.
  revert m i j; induction cws as [|c rest IH]; intros m i j Hij Hi Hj.
  - destruct i; discriminate.
  - destruct j as [|j]; [lia|].
    destruct i as [|i]; simpl in *.
    + inversion Hi; subst.
      etransitivity; [apply min_dist_outer_le_init|].
      eapply min_dist_inner_le; eauto.
    + apply (IH _ i j); [lia | assumption | assumption].
Qed.

Lemma min_dist_outer_attained (cws : list vector) (m : Z) :
  min_dist_outer cws m = m \/
  exists i j u v, (i < j)%nat /\ nth_error cws i = Some u /\
                  nth_error cws j = Some v /\
                  min_dist_outer cws m = xor_weight u v.
Proof.
  revert m; induction cws as [|c rest IH]; intros m; simpl; [auto|].
  destruct (IH (min_dist_inner c rest m))
    as [E | (i & j & u & v & Hij & Hi & Hj & E)].
  - rewrite E.
    destruct (min_dist_inner_attained c rest m) as [E' | (j & v & Hj & E')];
      [auto|].
    right; exists O, (S j), c, v; repeat split; auto; lia.
  - right; exists (S i), (S j), u, v; repeat split; auto; lia.
Qed.

(** ** Encoding is linear over GF(2) *)

Lemma dot_add_l (u1 u2 v : vector) :
  length u1 = length u2 -> dot (vec_add u1 u2) v = dot u1 v + dot u2 v.
Proof.
  revert u2 v; induction u1 as [|x u1 IH]; intros [|y u2] [|z v] Hlen;
    simpl in *; try discriminate; try reflexivity.
  rewrite IH by lia; ring.
Qed.

Lemma dot_mod2_l (u v : vector) : dot (mod2 u) v mod 2 = dot u v mod 2.
Proof.
  revert v; induction u as [|x u IH]; intros [|y v]; simpl; try reflexivity.
  fold (mod2 u).
  rewrite Z.add_mod, Z.mul_mod_idemp_l, IH, <- Z.add_mod by lia.
  reflexivity.
Qed.

Lemma dot_zeros_l (k0 : nat) (v : vector) : dot (zeros k0) v = 0.
Proof.
  revert v; induction k0 as [|k0 IH]; intros [|y v]; simpl; auto.
Qed.

Lemma vec_add_map {A : Type} (f g : A -> Z) (l : list A) :
  vec_add (map f l) (map g l) = map (fun a => f a + g a) l.
Proof.
  induction l as [|a l IH]; simpl; [reflexivity | rewrite IH; reflexivity].
Qed.

Lemma codeword_of_length (n0 : nat) (G0 : matrix) (m : vector) :
  length (codeword_of n0 G0 m) = n0.
Proof. unfold codeword_of; rewrite mod2_length; apply vecmat_length. Qed.

Lemma codeword_of_bits (n0 : nat) (G0 : matrix) (m : vector) :
  bits (codeword_of n0 G0 m).
Proof. apply mod2_bits. Qed.

Lemma mod2_map {A : Type} (f : A -> Z) (l : list A) :
  mod2 (map f l) = map (fun a => f a mod 2) l.
Proof. unfold mod2; apply map_map. Qed.

Lemma xor_map {A : Type} (f g : A -> Z) (l : list A) :
  mod2 (vec_add (mod2 (map f l)) (mod2 (map g l))) =
  map (fun a => (f a + g a) mod 2) l.
Proof.
  induction l as [|a l IH]; simpl; [reflexivity|].
  f_equal; [symmetry; apply Z.add_mod; lia | exact IH].
Qed.

Lemma codeword_of_xor (n0 : nat) (G0 : matrix) (m1 m2 : vector) :
  length m1 = length m2 ->
  codeword_of n0 G0 (mod2 (vec_add m1 m2)) =
  mod2 (vec_add (codeword_of n0 G0 m1) (codeword_of n0 G0 m2)).
Proof.
  intros Hlen; unfold codeword_of, vecmat.
  rewrite xor_map, mod2_map.
  apply map_ext; intros c.
  rewrite !dot_mod2_l, dot_add_l by exact Hlen.
  rewrite (Z.add_mod (dot (mod2 m1) _)), !dot_mod2_l, <- Z.add_mod by lia.
  reflexivity.
Qed.

Lemma mod2_zeros (n0 : nat) : mod2 (zeros n0) = zeros n0.
Proof.
  unfold mod2, zeros; induction n0; simpl; [reflexivity | f_equal; auto].
Qed.

Lemma codeword_of_zeros (n0 k0 : nat) (G0 : matrix) :
  codeword_of n0 G0 (zeros k0) = zeros n0.
Proof.
  unfold codeword_of, vecmat; rewrite mod2_zeros.
  unfold mod2; rewrite map_map.
  rewrite (map_ext _ (fun _ => 0)) by (intros; rewrite dot_zeros_l; reflexivity).
  unfold zeros, range; rewrite Nat.sub_0_r.
  generalize 0%nat; induction n0; simpl; intros; [reflexivity | f_equal; auto].
Qed.

Lemma xor_self (w : vector) : bits w -> mod2 (vec_add w w) = zeros (length w).
Proof.
  unfold zeros; induction 1 as [|x w Hx Hw IH]; simpl; [reflexivity|].
  destruct Hx as [-> | ->]; (f_equal; exact IH).
Qed.

Lemma xor_zero_eq (m1 m2 : vector) :
  bits m1 -> bits m2 -> length m1 = length m2 ->
  mod2 (vec_add m1 m2) = zeros (length m1) -> m1 = m2.
Proof.
  intros H1; revert m2; induction H1 as [|x m1 Hx H1 IH];
    intros m2 H2 Hlen Hz.
  - destruct m2; [reflexivity | discriminate].
  - destruct H2 as [|y m2 Hy H2]; [discriminate|].
    unfold zeros in *; simpl in Hlen, Hz.
    injection Hz as Hxy Hrest.
    f_equal.
    + destruct Hx as [-> | ->], Hy as [-> | ->]; trivial;
        vm_compute in Hxy; discriminate.
    + apply IH; auto.
Qed.

Lemma NoDup_map_inj_in {A B : Type} (f : A -> B) (l : list A) :
  NoDup (map f l) ->
  forall x y, In x l -> In y l -> f x = f y -> x = y.
Proof.
  induction l as [|a l IH]; simpl; intros Hnd x y Hx Hy E; [contradiction|].
  inversion Hnd as [|? ? Hnotin Hnd']; subst.
  destruct Hx as [-> | Hx], Hy as [-> | Hy]; auto.
  - exfalso; apply Hnotin; rewrite E; apply in_map, Hy.
  - exfalso; apply Hnotin; rewrite <- E; apply in_map, Hx.
Qed.

Lemma product_NoDup (k0 : nat) : NoDup (product [0; 1] k0).
Proof.
  induction k0 as [|k0 IH]; simpl.
  - constructor; [simpl; tauto | constructor].
  - rewrite app_nil_r; apply NoDup_app.
    + apply NoDup_map_NoDup_ForallPairs; [|exact IH].
      intros x y _ _ E; inversion E; reflexivity.
    + apply NoDup_map_NoDup_ForallPairs; [|exact IH].
      intros x y _ _ E; inversion E; reflexivity.
    + intros m H0 H1.
      apply in_map_iff in H0 as (m0 & <- & _).
      apply in_map_iff in H1 as (m1 & E & _); discriminate.
Qed.

Lemma digits_msb_low (w : nat) (i : Z) :
  digits_msb w (i mod 2 ^ Z.of_nat w) = digits_msb w i.
Proof.
  assert (Hgen : forall w', (w' <= w)%nat ->
            digits_msb w' (i mod 2 ^ Z.of_nat w) = digits_msb w' i).
  { induction w' as [|w' IH]; intros Hw; simpl; [reflexivity|].
    rewrite Z.mod_pow2_bits_low by lia.
    rewrite IH by lia; reflexivity. }
  apply Hgen; lia.
Qed.

(** The messages come in the order of a binary counter. *)
Lemma product_nth (k0 i : nat) :
  (i < 2 ^ k0)%nat ->
  nth_error (product [0; 1] k0) i = Some (digits_msb k0 (Z.of_nat i)).
Proof.
  revert i; induction k0 as [|k0 IH]; intros i Hi.
  - simpl in Hi; destruct i; [reflexivity | lia].
  - cbn [product flat_map]; rewrite app_nil_r.
    assert (Hpow : (2 ^ S k0 = 2 ^ k0 + 2 ^ k0)%nat) by (simpl; lia).
    assert (HpowZ : 2 ^ Z.of_nat k0 = Z.of_nat (2 ^ k0)).
    { rewrite Nat2Z.inj_pow; reflexivity. }
    destruct (Nat.lt_ge_cases i (2 ^ k0)) as [Hlo|Hhi].
    + rewrite nth_error_app1 by (rewrite length_map, product_length; lia).
      rewrite nth_error_map, IH by lia; simpl.
      replace (Z.testbit (Z.of_nat i) (Z.of_nat k0)) with false; [reflexivity|].
      symmetry; apply Z.testbit_false; [lia|].
      rewrite Z.div_small by lia; reflexivity.
    + rewrite nth_error_app2 by (rewrite length_map, product_length; lia).
      rewrite length_map, product_length, nth_error_map, IH by lia; simpl.
      replace (Z.testbit (Z.of_nat i) (Z.of_nat k0)) with true.
      * simpl; f_equal; f_equal.
        rewrite <- (digits_msb_low k0 (Z.of_nat i)); f_equal.
        rewrite Nat2Z.inj_sub by lia.
        apply Z.mod_unique with (q := 1); lia.
      * symmetry; apply Z.testbit_true; [lia|].
        replace (Z.of_nat i / 2 ^ Z.of_nat k0) with 1; [reflexivity|].
        apply Z.div_unique with (r := Z.of_nat i - 2 ^ Z.of_nat k0); lia.
Qed.

Lemma digits_msb_length (w : nat) (i : Z) : length (digits_msb w i) = w.
Proof. induction w as [|w IH]; simpl; [reflexivity | f_equal; exact IH]. Qed.

Lemma digits_msb_bits (w : nat) (i : Z) : bits (digits_msb w i).
Proof.
  induction w as [|w IH]; simpl; constructor; [|exact IH].
  destruct (Z.testbit i (Z.of_nat w)); [right | left]; reflexivity.
Qed.

Lemma xor_weight_le (u v : vector) :
  xor_weight u v <= Z.of_nat (length u).
Proof.
  unfold xor_weight.
  pose proof (vsum_bits_bounds _ (mod2_bits (vec_add u v))) as Hb.
  rewrite mod2_length, vec_add_length in Hb; lia.
Qed.

(** ** Enumeration of the codewords and the minimum distance *)

Lemma codewords_distinct_iff (n0 k0 : nat) (G0 : matrix) :
  NoDup (map (codeword_of n0 G0) (product [0; 1] k0)) <->
  (forall m, length m = k0 -> bits m ->
             codeword_of n0 G0 m = zeros n0 -> m = zeros k0).
Proof.
  assert (Hz : In (zeros k0) (product [0; 1] k0)).
  { apply product_bits; unfold zeros; split; [apply repeat_length|].
    apply Forall_forall; intros x Hx; apply repeat_spec in Hx; left; exact Hx. }
  split.
  - intros Hnd m Hlen Hm E.
    apply (NoDup_map_inj_in _ _ Hnd); [apply product_bits; auto | exact Hz |].
    rewrite E, codeword_of_zeros; reflexivity.
  - intros Hind.
    apply NoDup_map_NoDup_ForallPairs; [|apply product_NoDup].
    intros m1 m2 H1 H2 E.
    apply product_bits in H1 as (L1 & B1), H2 as (L2 & B2).
    apply xor_zero_eq; try assumption; [congruence|].
    rewrite L1; apply Hind.
    + rewrite mod2_length, vec_add_length; lia.
    + apply mod2_bits.
    + rewrite codeword_of_xor by congruence.
      rewrite <- E, xor_self by apply codeword_of_bits.
      rewrite codeword_of_length; reflexivity.
Qed.

(** C3, as the code has it: [get_all_codewords] returns [2^k] words of
    length [n], the [i]-th being the codeword of the [k]-bit binary
    expansion of [i]; the words are pairwise distinct exactly when the rows
    of [G] are linearly independent; [d] is at most the Hamming distance of
    every two of them at positions [i < j] and, from [k = 1] on, is the
    distance of one such pair (with [k = 0] there is one word and [d] is
    [n + 1]). *)
Theorem all_codewords_enumeration (n0 : nat) (G0 : matrix)
    (c : LinearBlockCode) :
  init n0 G0 = OK c ->
  exists cws,
    get_all_codewords c = OK cws /\
    length cws = (2 ^ k c)%nat /\
    Forall (fun w => length w = n c) cws /\
    (forall i, (i < 2 ^ k c)%nat ->
       exists w, nth_error cws i = Some w /\
                 encode c (digits_msb (k c) (Z.of_nat i)) = OK w) /\
    (NoDup cws <-> independent_rows c) /\
    (forall i j u v, (i < j)%nat ->
       nth_error cws i = Some u -> nth_error cws j = Some v ->
       d c <= hamming_distance u v) /\
    ((1 <= k c)%nat ->
       exists i j u v, (i < j)%nat /\
         nth_error cws i = Some u /\ nth_error cws j = Some v /\
         d c = hamming_distance u v) /\
    (k c = 0%nat -> d c = Z.of_nat (n c) + 1).
Proof.
  intros Hi.
  destruct (init_fields _ _ _ Hi) as (_ & _ & _ & _ & Hd & _).
  rewrite compute_minimum_distance_value in Hd.
  injection Hd as Hd.
  set (cws := map (codeword_of (n c) (G c)) (product [0; 1] (k c))) in *.
  assert (Hlen : length cws = (2 ^ k c)%nat).
  { unfold cws; rewrite length_map; apply product_length. }
  assert (Hw : forall i w, nth_error cws i = Some w ->
                           bits w /\ length w = n c).
  { unfold cws; intros i w Hnth.
    apply nth_error_In, in_map_iff in Hnth as (m & <- & _).
    split; [apply codeword_of_bits | apply codeword_of_length]. }
  exists cws; repeat split.
  - unfold get_all_codewords; apply get_all_codewords_with_value.
  - exact Hlen.
  - unfold cws; apply Forall_map, Forall_forall; intros m _.
    apply codeword_of_length.
  - intros i Hlt; eexists; split.
    + unfold cws; rewrite nth_error_map, product_nth by exact Hlt.
      reflexivity.
    + unfold encode; apply encode_with_bits;
        [apply digits_msb_bits | apply digits_msb_length].
  - intros Hnd m Hm Hb He.
    apply (proj1 (codewords_distinct_iff (n c) (k c) (G c)) Hnd); auto.
    unfold encode in He; rewrite encode_with_bits in He by assumption.
    injection He as He; exact He.
  - intros Hind; apply codewords_distinct_iff; intros m Hm Hb He.
    apply Hind; auto.
    unfold encode; rewrite encode_with_bits by assumption; rewrite He.
    reflexivity.
  - intros i j u v Hij Hu Hv.
    destruct (Hw _ _ Hu) as (Bu & _), (Hw _ _ Hv) as (Bv & _).
    rewrite <- xor_weight_hamming, <- Hd by assumption.
    eapply min_dist_outer_le; eauto.
  - intros Hk.
    assert (Htwo : (2 <= 2 ^ k c)%nat).
    { destruct (k c) as [|k']; [lia|].
      rewrite Nat.pow_succ_r'; pose proof (Nat.pow_nonzero 2 k'); lia. }
    destruct (nth_error cws 0) as [u0|] eqn:H0;
      [|apply nth_error_None in H0; lia].
    destruct (nth_error cws 1) as [u1|] eqn:H1;
      [|apply nth_error_None in H1; lia].
    pose proof (min_dist_outer_le cws (Z.of_nat (n c) + 1) 0 1 u0 u1
                  ltac:(lia) H0 H1) as Hle.
    pose proof (xor_weight_le u0 u1) as Hle'.
    rewrite (proj2 (Hw _ _ H0)) in Hle'.
    destruct (min_dist_outer_attained cws (Z.of_nat (n c) + 1))
      as [E | (i & j & u & v & Hij & Hu & Hv & E)]; [lia|].
    exists i, j, u, v; repeat split; auto.
    destruct (Hw _ _ Hu) as (Bu & _), (Hw _ _ Hv) as (Bv & _).
    rewrite <- xor_weight_hamming, <- Hd by assumption; exact E.
  - intros Hk; rewrite <- Hd; unfold cws; rewrite Hk; reflexivity.
Qed.

Lemma all_codewords_enumeration_witness :
  let c := mkCode [[1; 1; 1]] 1 3 3 [[1; 1; 0]; [1; 0; 1]] in
  init 3 [[1; 1; 1]] = OK c /\
  exists cws,
    get_all_codewords c = OK cws /\
    length cws = (2 ^ k c)%nat /\
    Forall (fun w => length w = n c) cws /\
    (forall i, (i < 2 ^ k c)%nat ->
       exists w, nth_error cws i = Some w /\
                 encode c (digits_msb (k c) (Z.of_nat i)) = OK w) /\
    (NoDup cws <-> independent_rows c) /\
    (forall i j u v, (i < j)%nat ->
       nth_error cws i = Some u -> nth_error cws j = Some v ->
       d c <= hamming_distance u v) /\
    ((1 <= k c)%nat ->
       exists i j u v, (i < j)%nat /\
         nth_error cws i = Some u /\ nth_error cws j = Some v /\
         d c = hamming_distance u v) /\
    (k c = 0%nat -> d c = Z.of_nat (n c) + 1).
Proof.
  split; [reflexivity|].
  apply (all_codewords_enumeration 3 [[1; 1; 1]]); reflexivity.
Defined.

(** C3, as stated, fails on a generator matrix with dependent rows: the
    all-zero [1 x 2] matrix is accepted and its two codewords are equal. *)
Lemma all_codewords_not_distinct :
  exists c cws,
    init 2 [[0; 0]] = OK c /\ get_all_codewords c = OK cws /\
    length cws = (2 ^ k c)%nat /\ ~ NoDup cws.
Proof.
  exists (mkCode [[0; 0]] 1 2 0 [[0; 1]]), [[0; 0]; [0; 0]].
  repeat split.
  intros Hnd; inversion Hnd as [|? ? Hnotin _]; apply Hnotin; left; reflexivity.
Qed.

(** ** The parity-check matrix on a generator that is not systematic *)

(** C1 at the generator matrix [[0, 1]]: the constructor accepts it and
    derives [H = [[1, 1]]], so [G H^T] is [[1]], not zero, and the codeword
    [encode([1]) = [0, 1]] is not recognised by [is_codeword]. *)
Theorem parity_check_misses_generator_row :
  exists c,
    init 2 [[0; 1]] = OK c /\ G c = [[0; 1]] /\ H c = [[1; 1]] /\
    map (fun g => mod2 (map (dot g) (H c))) (G c) = [[1]] /\
    encode c [1] = OK [0; 1] /\
    is_codeword c [0; 1] = OK false.
Proof.
  eexists; split; [reflexivity|]; repeat split.
Qed.

(** C2 at the same code: the codewords are [0, 0] and [0, 1]; the syndrome
    of the codeword [0, 1] is [[1]] and the syndrome of [1, 1], which is no
    codeword, is zero. *)
Theorem syndrome_zero_differs_from_membership :
  exists c,
    init 2 [[0; 1]] = OK c /\
    get_all_codewords c = OK [[0; 0]; [0; 1]] /\
    syndrome c [0; 1] = OK [1] /\
    syndrome c [1; 1] = OK [0].
Proof.
  eexists; split; [reflexivity|]; repeat split.
Qed.

(** The generator that [hamming_code(4)] builds meets the same defect:
    the derived [H] does not annihilate its rows. *)
Example hamming_4_parity_check :
  exists G4 H4,
    hamming_generator 4 15 11 = OK G4 /\
    compute_parity_check_matrix G4 11 15 = OK H4 /\
    map (fun g => mod2 (map (dot g) H4)) G4 <> repeat (zeros 4) 11.
Proof.
  eexists; eexists; split; [vm_compute; reflexivity|].
  split; [vm_compute; reflexivity|].
  vm_compute; discriminate.
Qed.

(** ** Graphs: every stored edge joins the two kinds of node *)

Import AdinkraGraphs.

Lemma FieldType_eqb_eq (a b : FieldType) : FieldType_eqb a b = true <-> a = b.
Proof. destruct a, b; simpl; split; intros E; congruence. Qed.

Lemma new_edge_inv (s t : AdinkraNode) (c : EdgeColor) (dsh : bool)
    (e : AdinkraEdge) :
  new_edge s t c dsh = OK e ->
  e = mkEdge s t c dsh /\ joins_both_kinds e.
Proof.
  unfold new_edge, joins_both_kinds; intros He.
  destruct (FieldType_eqb (field_type s) (field_type t)) eqn:E;
    [discriminate|].
  injection He as <-; split; [reflexivity|]; simpl.
  destruct (field_type s), (field_type t); simpl in E; try discriminate; auto.
Qed.

Lemma set_add_Forall {A : Type} (eqb : A -> A -> bool) (P : A -> Prop)
    (s : list A) (x : A) :
  Forall P s -> P x -> Forall P (set_add eqb s x).
Proof.
  intros Hs Hx; unfold set_add; destruct (existsb (eqb x) s); [exact Hs|].
  apply Forall_app; auto.
Qed.

Lemma add_node_edges (g : AdinkraGraph) (node : AdinkraNode) :
  edges (add_node g node) = edges g.
Proof. unfold add_node; destruct (FieldType_eqb _ _); reflexivity. Qed.

Lemma add_node_colors (g : AdinkraGraph) (node : AdinkraNode) :
  available_colors (add_node g node) = available_colors g.
Proof. unfold add_node; destruct (FieldType_eqb _ _); reflexivity. Qed.

Lemma add_edge_inv (g g' : AdinkraGraph) (e : AdinkraEdge) :
  add_edge g e = OK g' ->
  edges g' = set_add edge_eqb (edges g) e /\
  available_colors g' = available_colors g /\
  existsb (EdgeColor_eqb (color e)) (available_colors g) = true.
Proof.
  unfold add_edge; intros Ha.
  destruct (existsb _ (available_colors g)) eqn:Hc; simpl in Ha;
    [|discriminate].
  injection Ha as <-; simpl.
  rewrite !add_node_edges, !add_node_colors; auto.
Qed.

Lemma built_edges (g : AdinkraGraph) :
  built g -> Forall joins_both_kinds (edges g).
Proof.
  induction 1 as [d | g node Hg IH | g g' s t c dsh e Hg IH He Ha
                 | g ns bs fs es Hg IH Hn He Hb Hf]; simpl.
  - constructor.
  - rewrite add_node_edges; exact IH.
  - apply add_edge_inv in Ha as (-> & _).
    apply set_add_Forall; [exact IH|].
    apply new_edge_inv in He; tauto.
  - eapply Permutation_Forall; eauto.
Qed.

Lemma bipartite_valid_true (es : list AdinkraEdge) :
  Forall joins_both_kinds es -> bipartite_valid es = true.
Proof.
  induction 1 as [|e es He Hes IH]; simpl; [reflexivity|].
  destruct He as [(-> & ->) | (-> & ->)]; simpl; exact IH.
Qed.

(** C9: the constructor of [AdinkraEdge] raises on two nodes of one field
    type; hence in a graph reached through [add_node] and [add_edge] every
    stored edge joins a bosonic and a fermionic node, and
    [check_adinkra_rules] reports [bipartite] as true. *)
Theorem edges_join_both_kinds :
  (forall s t c dsh,
      field_type s = field_type t -> new_edge s t c dsh = Err ValueError) /\
  (forall g, built g ->
             Forall joins_both_kinds (edges g) /\
             bipartite (check_adinkra_rules g) = true).
Proof.
  split.
  - intros s t c dsh E; unfold new_edge.
    rewrite (proj2 (FieldType_eqb_eq _ _) E); reflexivity.
  - intros g Hg; pose proof (built_edges g Hg) as He.
    split; [exact He | apply bipartite_valid_true, He].
Qed.

Lemma edges_join_both_kinds_witness :
  let b := mkNode BOSONIC [0] "phi_0" in
  let f := mkNode FERMIONIC [0] "psi_0" in
  let e := mkEdge b f RED false in
  let g := mkGraph 1 [b; f] [e] [b] [f] [RED] in
  (field_type b = field_type b /\ new_edge b b RED false = Err ValueError) /\
  (built g /\ Forall joins_both_kinds (edges g) /\
   bipartite (check_adinkra_rules g) = true).
Proof.
  intros b f e g.
  assert (Hg : built g).
  { apply (built_add_edge (new_graph 1) g b f RED false e);
      [apply built_new | reflexivity | reflexivity]. }
  split.
  - split; [reflexivity|].
    apply (proj1 edges_join_both_kinds); reflexivity.
  - split; [exact Hg|].
    apply (proj2 edges_join_both_kinds); exact Hg.
Defined.

(** ** Graphs: the rows handed to the code constructor *)

Lemma EdgeColor_eqb_eq (a b : EdgeColor) : EdgeColor_eqb a b = true <-> a = b.
Proof.
  unfold EdgeColor_eqb; destruct a, b; simpl; split; intros E;
    congruence || reflexivity.
Qed.

Lemma insert_by_perm {A : Type} (leb : A -> A -> bool) (x : A) (l : list A) :
  Permutation (insert_by leb x l) (x :: l).
Proof.
  induction l as [|y l IH]; simpl; [reflexivity|].
  destruct (leb y x); [|reflexivity].
  rewrite IH; apply perm_swap.
Qed.

Lemma sorted_by_perm {A : Type} (leb : A -> A -> bool) (l : list A) :
  Permutation (sorted_by leb l) l.
Proof.
  unfold sorted_by.
  assert (Hgen : forall acc, Permutation (fold_left
                   (fun acc x => insert_by leb x acc) l acc) (acc ++ l)).
  { induction l as [|x l IH]; simpl; intros acc.
    - rewrite app_nil_r; reflexivity.
    - rewrite IH, insert_by_perm.
      apply Permutation_cons_app; reflexivity. }
  apply (Hgen []).
Qed.

Lemma sorted_by_length {A : Type} (leb : A -> A -> bool) (l : list A) :
  length (sorted_by leb l) = length l.
Proof. apply Permutation_length, sorted_by_perm. Qed.

Lemma set_nth_Forall_in {A : Type} (P : A -> Prop) (l : list A) (i : nat)
    (x : A) :
  Forall P l -> ((i < length l)%nat -> P x) -> Forall P (set_nth l i x).
Proof.
  intros Hl; revert i; induction Hl as [|y l Hy Hl IH]; intros [|i] Hx; simpl;
    constructor; auto.
  - apply Hx; simpl; lia.
  - apply IH; intros Hi; apply Hx; simpl; lia.
Qed.

Lemma put2_shape (cols : nat) (A : matrix) (i j : nat) (v : Z) :
  rows_of_length cols A ->
  rows_of_length cols (put2 A i j v) /\ length (put2 A i j v) = length A.
Proof.
  intros HA; unfold put2; split; [|apply set_nth_length].
  apply set_nth_Forall_in; [exact HA|]; intros Hi.
  rewrite set_nth_length.
  unfold rows_of_length in HA; rewrite Forall_forall in HA.
  apply HA, nth_In, Hi.
Qed.

Lemma get_adjacency_matrix_shape (g : AdinkraGraph) (c : EdgeColor) :
  rows_of_length (length (fermionic_nodes g)) (get_adjacency_matrix g c) /\
  length (get_adjacency_matrix g c) = length (bosonic_nodes g).
Proof.
  unfold get_adjacency_matrix; rewrite !sorted_by_length.
  set (step := fun (adj : list (list Z)) (edge : AdinkraEdge) => _).
  assert (Hgen : forall es adj,
             rows_of_length (length (fermionic_nodes g)) adj ->
             rows_of_length (length (fermionic_nodes g))
                            (fold_left step es adj) /\
             length (fold_left step es adj) = length adj).
  { induction es as [|e es IH]; simpl; intros adj Hadj; [auto|].
    assert (Hstep : rows_of_length (length (fermionic_nodes g)) (step adj e)
                    /\ length (step adj e) = length adj).
    { unfold step; destruct (negb _); [auto|].
      destruct (index_of _ _); [|auto].
      destruct (index_of _ _); [|auto].
      apply put2_shape, Hadj. }
    destruct Hstep as (H1 & L1).
    destruct (IH _ H1) as (H2 & L2); split; [exact H2 | congruence]. }
  destruct (Hgen (edges g)
              (repeat (zeros (length (fermionic_nodes g)))
                      (length (bosonic_nodes g)))) as (H1 & L1).
  - apply Forall_forall; intros row Hrow.
    apply repeat_spec in Hrow; subst; apply repeat_length.
  - split; [exact H1|].
    rewrite L1; apply repeat_length.
Qed.

Lemma concat_length_uniform (cols : nat) (A : matrix) :
  rows_of_length cols A -> length (concat A) = (length A * cols)%nat.
Proof.
  induction 1 as [|row A Hrow HA IH]; simpl; [reflexivity|].
  rewrite length_app, IH, Hrow; reflexivity.
Qed.

(** The row of a colour: the structure bits, then as many dashing bits. *)
Lemma color_codeword_parts (g : AdinkraGraph) (c : EdgeColor) :
  exists structure_bits dashing_array,
    color_codeword g c = structure_bits ++ dashing_array /\
    length structure_bits =
      (length (bosonic_nodes g) * length (fermionic_nodes g))%nat /\
    length dashing_array = length structure_bits.
Proof.
  unfold color_codeword.
  destruct (get_adjacency_matrix_shape g c) as (Hsh & Hlen).
  set (structure_bits := map _ (concat (get_adjacency_matrix g c))).
  assert (Hs : length structure_bits =
               (length (bosonic_nodes g) * length (fermionic_nodes g))%nat).
  { unfold structure_bits.
    rewrite length_map, (concat_length_uniform _ _ Hsh), Hlen; reflexivity. }
  eexists; eexists; split; [reflexivity|]; split; [exact Hs|].
  rewrite length_firstn, length_app, repeat_length; lia.
Qed.

Lemma color_codeword_length (g : AdinkraGraph) (c : EdgeColor) :
  length (color_codeword g c) =
  (2 * (length (bosonic_nodes g) * length (fermionic_nodes g)))%nat.
Proof.
  destruct (color_codeword_parts g c) as (s & dsh & -> & Hs & Hd).
  rewrite length_app; lia.
Qed.

Lemma dict_get_set {V : Type} (dct : color_dict V) (c c' : EdgeColor) (v : V) :
  dict_get (dict_set dct c v) c' =
  if EdgeColor_eqb c c' then Some v else dict_get dct c'.
Proof.
  induction dct as [|[c0 v0] dct IH]; simpl.
  - reflexivity.
  - destruct (EdgeColor_eqb c0 c) eqn:E0; simpl.
    + apply EdgeColor_eqb_eq in E0; subst c0.
      destruct (EdgeColor_eqb c c'); reflexivity.
    + destruct (EdgeColor_eqb c0 c') eqn:E1; [|exact IH].
      apply EdgeColor_eqb_eq in E1; subst c0.
      destruct (EdgeColor_eqb c c') eqn:E2; [|reflexivity].
      apply EdgeColor_eqb_eq in E2; subst c'.
      rewrite (proj2 (EdgeColor_eqb_eq c c) eq_refl) in E0; discriminate.
Qed.

(** The dictionary of [to_codeword_representation] holds the row of every
    available colour. *)
Lemma to_codeword_representation_get (g : AdinkraGraph) (c : EdgeColor) :
  dict_get (to_codeword_representation g) c =
  if existsb (EdgeColor_eqb c) (available_colors g)
  then Some (color_codeword g c) else None.
Proof.
  unfold to_codeword_representation.
  assert (Hgen : forall cs dct,
            dict_get (fold_left
                        (fun cw c' => dict_set cw c' (color_codeword g c'))
                        cs dct) c =
            if existsb (EdgeColor_eqb c) cs then Some (color_codeword g c)
            else dict_get dct c).
  { induction cs as [|c0 cs IH]; simpl; intros dct; [reflexivity|].
    rewrite IH, dict_get_set.
    destruct (existsb (EdgeColor_eqb c) cs); [rewrite orb_true_r; reflexivity|].
    rewrite orb_false_r.
    destruct (EdgeColor_eqb c0 c) eqn:E.
    - apply EdgeColor_eqb_eq in E; subst c0.
      rewrite (proj2 (EdgeColor_eqb_eq c c) eq_refl); reflexivity.
    - destruct (EdgeColor_eqb c c0) eqn:E'; [|reflexivity].
      apply EdgeColor_eqb_eq in E'; subst c0.
      rewrite (proj2 (EdgeColor_eqb_eq c c) eq_refl) in E; discriminate. }
  rewrite Hgen; destruct (existsb _ _); reflexivity.
Qed.

Lemma to_codeword_representation_nil (g : AdinkraGraph) :
  to_codeword_representation g = [] <-> available_colors g = [].
Proof.
  split.
  - intros E; destruct (available_colors g) as [|c cs] eqn:Hc; [reflexivity|].
    pose proof (to_codeword_representation_get g c) as Hget.
    rewrite E, Hc in Hget; simpl in Hget.
    rewrite (proj2 (EdgeColor_eqb_eq c c) eq_refl) in Hget; discriminate.
  - intros E; unfold to_codeword_representation; rewrite E; reflexivity.
Qed.

Lemma existsb_color_In (c : EdgeColor) (cs : list EdgeColor) :
  existsb (EdgeColor_eqb c) cs = true <-> In c cs.
Proof.
  rewrite existsb_exists; split.
  - intros (c' & Hin & E); apply EdgeColor_eqb_eq in E; subst; exact Hin.
  - intros Hin; exists c; split; [exact Hin | apply EdgeColor_eqb_eq; reflexivity].
Qed.

Lemma generator_rows_value (g : AdinkraGraph) (cs : list EdgeColor) :
  (forall c, In c cs -> In c (available_colors g)) ->
  flat_map (fun c => match dict_get (to_codeword_representation g) c with
                     | Some row => [row]
                     | None => []
                     end) cs =
  map (color_codeword g) cs.
Proof.
  induction cs as [|c cs IH]; simpl; intros Hin; [reflexivity|].
  rewrite to_codeword_representation_get.
  rewrite (proj2 (existsb_color_In c _)) by auto; simpl.
  rewrite IH by auto; reflexivity.
Qed.

Lemma max_length_uniform (L : nat) (rows : matrix) :
  rows_of_length L rows -> rows <> [] ->
  fold_right Nat.max O (map (@length Z) rows) = L.
Proof.
  induction 1 as [|row rows Hrow Hrows IH]; intros Hne; [contradiction|].
  simpl; rewrite Hrow.
  destruct rows as [|row' rows']; simpl in *; [lia|].
  rewrite IH by discriminate; lia.
Qed.

Lemma padding_is_identity (L : nat) (rows : matrix) :
  rows_of_length L rows ->
  map (fun row => row ++ skipn (length row) (zeros L)) rows = rows.
Proof.
  induction 1 as [|row rows Hrow Hrows IH]; simpl; [reflexivity|].
  rewrite IH, Hrow; unfold zeros.
  rewrite skipn_all2 by (rewrite repeat_length; lia).
  rewrite app_nil_r; reflexivity.
Qed.

(** The array that [to_linear_code] hands to the constructor. *)
Lemma generator_matrix_value (g : AdinkraGraph) :
  available_colors g <> [] ->
  generator_matrix g =
  OK ((2 * (length (bosonic_nodes g) * length (fermionic_nodes g)))%nat,
      map (color_codeword g) (sorted_by color_leb (available_colors g))).
Proof.
  intros Hne; unfold generator_matrix.
  destruct (to_codeword_representation g) as [|kv dct] eqn:Hd.
  { apply to_codeword_representation_nil in Hd; contradiction. }
  rewrite <- Hd; clear Hd kv dct.
  rewrite generator_rows_value.
  2:{ intros c Hc.
      eapply Permutation_in; [apply sorted_by_perm | exact Hc]. }
  set (rows := map (color_codeword g) _).
  assert (Hrows : rows_of_length
            (2 * (length (bosonic_nodes g) * length (fermionic_nodes g))) rows).
  { unfold rows; apply Forall_map, Forall_forall; intros c _.
    apply color_codeword_length. }
  assert (Hnn : rows <> []).
  { unfold rows; intros E; apply map_eq_nil in E.
    apply Hne, Permutation_nil.
    rewrite <- E; apply sorted_by_perm. }
  destruct rows as [|row rows'] eqn:Er; [contradiction|].
  rewrite <- Er in *.
  rewrite (max_length_uniform _ _ Hrows Hnn), (padding_is_identity _ _ Hrows).
  reflexivity.
Qed.

Lemma to_linear_code_no_colors (g : AdinkraGraph) :
  available_colors g = [] -> to_linear_code g = Err ValueError.
Proof.
  intros E; unfold to_linear_code, generator_matrix.
  rewrite (proj2 (to_codeword_representation_nil g) E); reflexivity.
Qed.

Lemma slice_to_colors_NoDup (dimension : Z) :
  NoDup (slice_to EdgeColor_all dimension).
Proof.
  assert (Hf : forall m, NoDup (firstn m EdgeColor_all)).
  { intros [|[|[|[|m]]]]; simpl; rewrite ?firstn_nil; repeat constructor;
      simpl; intuition discriminate. }
  unfold slice_to; destruct (0 <=? dimension); apply Hf.
Qed.

Lemma built_colors (g : AdinkraGraph) :
  built g -> available_colors g = slice_to EdgeColor_all (dimension g).
Proof.
  induction 1 as [d | g node Hg IH | g g' s t c dsh e Hg IH He Ha
                 | g ns bs fs es Hg IH Hn He Hb Hf]; simpl.
  - reflexivity.
  - unfold add_node; destruct (FieldType_eqb _ _); simpl; exact IH.
  - unfold add_edge in Ha; destruct (negb _); [discriminate|].
    injection Ha as <-; simpl.
    unfold add_node; repeat destruct (FieldType_eqb _ _); simpl; exact IH.
  - exact IH.
Qed.

(** C10: for every graph and every available colour the row of
    [to_codeword_representation] is the structure bits followed by as many
    dashing bits, of length [2 |bosonic| |fermionic|] in all; so whenever
    there is a colour, [to_linear_code] hands to the constructor exactly
    these rows, unpadded, one per available colour (the colours of a
    reachable graph are distinct), and the code it returns has the [(n, k)]
    of [get_code_parameters]. *)
Theorem codeword_rows_uniform (g : AdinkraGraph) :
  let cells := (length (bosonic_nodes g) * length (fermionic_nodes g))%nat in
  (forall c, In c (available_colors g) ->
     dict_get (to_codeword_representation g) c = Some (color_codeword g c) /\
     length (color_codeword g c) = (2 * cells)%nat /\
     exists structure_bits dashing_array,
       color_codeword g c = structure_bits ++ dashing_array /\
       length structure_bits = cells /\ length dashing_array = cells) /\
  (available_colors g <> [] ->
     exists rows,
       generator_matrix g = OK ((2 * cells)%nat, rows) /\
       rows = map (color_codeword g)
                  (sorted_by color_leb (available_colors g)) /\
       length rows = length (available_colors g) /\
       rows_of_length (2 * cells) rows /\
       (Z.of_nat (2 * cells), Z.of_nat (length rows)) =
         get_code_parameters g) /\
  (built g -> NoDup (available_colors g)) /\
  (forall code, to_linear_code g = OK code ->
     (Z.of_nat (n code), Z.of_nat (k code)) = get_code_parameters g).
Proof.
  intros cells.
  assert (Hgm : available_colors g <> [] ->
     exists rows,
       generator_matrix g = OK ((2 * cells)%nat, rows) /\
       rows = map (color_codeword g)
                  (sorted_by color_leb (available_colors g)) /\
       length rows = length (available_colors g) /\
       rows_of_length (2 * cells) rows /\
       (Z.of_nat (2 * cells), Z.of_nat (length rows)) =
         get_code_parameters g).
  { intros Hne; eexists; split; [apply generator_matrix_value, Hne|].
    split; [reflexivity|].
    assert (Hlen : length (map (color_codeword g)
                     (sorted_by color_leb (available_colors g))) =
                   length (available_colors g)).
    { rewrite length_map; apply sorted_by_length. }
    split; [exact Hlen | split].
    - apply Forall_map, Forall_forall; intros c _.
      apply color_codeword_length.
    - rewrite Hlen; unfold get_code_parameters, cells; f_equal; lia. }
  repeat split.
  - rewrite to_codeword_representation_get.
    rewrite (proj2 (existsb_color_In c _)) by assumption; reflexivity.
  - apply color_codeword_length.
  - destruct (color_codeword_parts g c) as (s & dsh & E & Hs & Hd).
    exists s, dsh; repeat split; [exact E | exact Hs | rewrite Hd; exact Hs].
  - exact Hgm.
  - intros Hb; rewrite (built_colors g Hb); apply slice_to_colors_NoDup.
  - intros code Hcode; unfold to_linear_code in Hcode.
    apply bind_OK in Hcode as (gm & Hgen & Hinit).
    assert (Hne : available_colors g <> []).
    { intros E; unfold generator_matrix in Hgen.
      rewrite (proj2 (to_codeword_representation_nil g) E) in Hgen.
      discriminate. }
    destruct (Hgm Hne) as (rows & Hrows & _ & Hlen & _ & _).
    rewrite Hrows in Hgen; injection Hgen as <-; simpl in Hinit.
    destruct (init_fields _ _ _ Hinit) as (_ & _ & Ek & En & _).
    unfold get_code_parameters; rewrite Ek, En, Hlen.
    unfold cells; f_equal; lia.
Qed.

Lemma codeword_rows_uniform_witness :
  let b := mkNode BOSONIC [0] "phi_0" in
  let f := mkNode FERMIONIC [0] "psi_0" in
  let g := mkGraph 1 [b; f] [mkEdge b f RED true] [b] [f] [RED] in
  let code := mkCode [[1; 1]] 1 2 2 [[1; 1]] in
  (In RED (available_colors g) /\
   dict_get (to_codeword_representation g) RED = Some [1; 1]) /\
  (available_colors g <> [] /\
   exists rows, generator_matrix g = OK (2%nat, rows) /\ rows = [[1; 1]]) /\
  (built g /\ NoDup (available_colors g)) /\
  (to_linear_code g = OK code /\
   (Z.of_nat (n code), Z.of_nat (k code)) = get_code_parameters g).
Proof.
  intros b f g code.
  pose proof (codeword_rows_uniform g) as (Hrow & Hgen & Hnd & Hpar).
  assert (Hin : In RED (available_colors g)) by (left; reflexivity).
  assert (Hne : available_colors g <> []) by discriminate.
  assert (Hb : built g).
  { apply (built_add_edge (new_graph 1) g b f RED true (mkEdge b f RED true));
      [apply built_new | reflexivity | reflexivity]. }
  assert (Hc : to_linear_code g = OK code) by reflexivity.
  split; [split; [exact Hin | apply (Hrow RED Hin)]|].
  split; [split; [exact Hne|]|].
  { destruct (Hgen Hne) as (rows & Hrows & Erows & _).
    exists rows; split; [exact Hrows | exact Erows]. }
  split; [split; [exact Hb | exact (Hnd Hb)]|].
  split; [exact Hc | exact (Hpar code Hc)].
Defined.

(** ** An edgeless graph still yields a code *)

(** C5 on a graph of dimension 1 with one bosonic node, one fermionic node
    and no edge: [to_linear_code] returns the code of the all-zero
    generator matrix [[0, 0]]. *)
Theorem to_linear_code_without_edges :
  let g := add_node (add_node (new_graph 1) (mkNode BOSONIC [0] "phi_0"))
                    (mkNode FERMIONIC [0] "psi_0") in
  edges g = [] /\
  to_linear_code g = OK (mkCode [[0; 0]] 1 2 0 [[0; 1]]).
Proof. split; reflexivity. Qed.

(** ** The hypercube graph *)

Lemma foldM_OK_inv {A S : Type} (f : S -> A -> result S) (l : list A) :
  forall s s', foldM f l s = OK s' ->
               forall x, In x l -> exists s1 s2, f s1 x = OK s2.
Proof.
  induction l as [|a l IH]; simpl; intros s s' Hf x Hx; [contradiction|].
  apply bind_OK in Hf as (s1 & Ha & Hf).
  destruct Hx as [<- | Hx]; eauto.
Qed.

Lemma vertex_eqb_eq (u v : list Z) : vertex_eqb u v = true <-> u = v.
Proof.
  revert v; induction u as [|x u IH]; intros [|y v]; simpl; split; intros E;
    try discriminate; try reflexivity.
  - apply andb_true_iff in E as (Exy & Euv).
    apply Z.eqb_eq in Exy; apply IH in Euv; congruence.
  - injection E as -> ->; rewrite Z.eqb_refl; apply IH; reflexivity.
Qed.

Lemma vdict_get_set_same (dct : list (list Z * AdinkraNode)) (v : list Z)
    (x : AdinkraNode) :
  vdict_get (vdict_set dct v x) v = Some x.
Proof.
  induction dct as [|[v0 x0] dct IH]; simpl.
  - rewrite (proj2 (vertex_eqb_eq v v) eq_refl); reflexivity.
  - destruct (vertex_eqb v0 v) eqn:E; simpl; rewrite E; [reflexivity | exact IH].
Qed.

Lemma vdict_get_set_keeps (dct : list (list Z * AdinkraNode)) (v v' : list Z)
    (x : AdinkraNode) :
  vdict_get dct v' <> None -> vdict_get (vdict_set dct v x) v' <> None.
Proof.
  induction dct as [|[v0 x0] dct IH]; simpl; [congruence|].
  destruct (vertex_eqb v0 v) eqn:E; simpl;
    destruct (vertex_eqb v0 v'); auto; discriminate.
Qed.

Lemma hypercube_nodes_dict (vs : list (list Z)) (v : list Z) :
  forall st : list (list Z * AdinkraNode) * AdinkraGraph,
    In v vs \/ vdict_get (fst st) v <> None ->
    vdict_get
      (fst (fold_left
              (fun st vertex =>
                 (vdict_set (fst st) vertex (hypercube_node vertex),
                  add_node (snd st) (hypercube_node vertex)))
              vs st)) v <> None.
Proof.
  induction vs as [|v0 vs IH]; simpl; intros st Hv.
  - destruct Hv as [[] | Hv]; exact Hv.
  - apply IH; simpl.
    destruct Hv as [[-> | Hv] | Hv]; [right | left | right]; auto.
    + rewrite vdict_get_set_same; discriminate.
    + apply vdict_get_set_keeps, Hv.
Qed.

Lemma hypercube_nodes_colors (vs : list (list Z)) :
  forall st : list (list Z * AdinkraNode) * AdinkraGraph,
    available_colors
      (snd (fold_left
              (fun st vertex =>
                 (vdict_set (fst st) vertex (hypercube_node vertex),
                  add_node (snd st) (hypercube_node vertex)))
              vs st)) = available_colors (snd st).
Proof.
  induction vs as [|v0 vs IH]; simpl; intros st; [reflexivity|].
  rewrite IH; simpl; apply add_node_colors.
Qed.

Lemma flip_axis_in_product (k0 : nat) (v : list Z) (i : nat) :
  In v (product [0; 1] k0) -> In (flip_axis v i) (product [0; 1] k0).
Proof.
  intros Hv; apply product_bits in Hv as (Hlen & Hb); apply product_bits.
  unfold flip_axis; split; [rewrite set_nth_length; exact Hlen|].
  apply set_nth_Forall_in; [exact Hb|]; intros Hi.
  unfold bits in Hb; rewrite Forall_forall in Hb.
  destruct (Hb (nth i v 0) (nth_In _ _ Hi)) as [-> | ->];
    [right | left]; reflexivity.
Qed.

Lemma zeros_in_product (k0 : nat) : In (zeros k0) (product [0; 1] k0).
Proof.
  apply product_bits; unfold zeros; split; [apply repeat_length|].
  apply Forall_forall; intros x Hx; apply repeat_spec in Hx; left; exact Hx.
Qed.

(** Beyond the four colours the first vertex already fails on axis 4. *)
Lemma create_hypercube_adinkra_range (dimension : Z) (g : AdinkraGraph) :
  create_hypercube_adinkra dimension = OK g -> 0 <= dimension <= 4.
Proof.
  unfold create_hypercube_adinkra; intros Hc.
  destruct (Z.ltb_spec dimension 0) as [Hneg|Hpos]; [discriminate|].
  split; [exact Hpos|].
  destruct (Z.le_gt_cases dimension 4) as [Hle|Hgt]; [exact Hle | exfalso].
  set (vs := product [0; 1] (Z.to_nat dimension)) in *.
  set (st := fold_left _ vs ([], new_graph dimension)) in *.
  destruct (foldM_OK_inv _ _ _ _ Hc (zeros (Z.to_nat dimension))
              (zeros_in_product _)) as (g1 & g2 & Hinner).
  destruct (foldM_OK_inv _ _ _ _ Hinner 4%nat) as (g3 & g4 & Hstep).
  { apply in_range; lia. }
  apply bind_OK in Hstep as (oe & Hedge & _).
  unfold hypercube_edge in Hedge.
  destruct (vdict_get (fst st) (set_nth _ 4 _)) as [tgt|] eqn:Ht.
  - destruct (vdict_get (fst st) (zeros (Z.to_nat dimension))) as [src|] eqn:Hs.
    + simpl in Hedge.
      assert (Hcol : list_get (available_colors (snd st)) 4 = Err IndexError).
      { unfold st; rewrite hypercube_nodes_colors; simpl.
        unfold slice_to; destruct (Z.leb_spec 0 dimension); [|lia].
        rewrite firstn_all2 by (simpl; lia); reflexivity. }
      rewrite Hcol in Hedge; discriminate.
    + eapply (hypercube_nodes_dict vs); [|exact Hs].
      left; apply zeros_in_product.
  - eapply (hypercube_nodes_dict vs); [|exact Ht].
    left; apply (flip_axis_in_product _ _ 4), zeros_in_product.
Qed.

Lemma parity_popcount (v : list Z) :
  bits v -> (vsum v mod 2 =? 0) = Nat.even (popcount v).
Proof.
  unfold popcount.
  induction 1 as [|x v Hx Hv IH]; [reflexivity|].
  cbn [vsum fold_right count_occ]; fold (vsum v).
  destruct Hx as [-> | ->].
  - destruct (Z.eq_dec 0 1); [discriminate | exact IH].
  - destruct (Z.eq_dec 1 1); [|contradiction].
    rewrite Nat.even_succ, <- Nat.negb_even, <- IH.
    pose proof (Z.mod_pos_bound (vsum v) 2 ltac:(lia)) as Hb.
    rewrite Z.add_mod by lia.
    assert (Hcases : vsum v mod 2 = 0 \/ vsum v mod 2 = 1) by lia.
    destruct Hcases as [-> | ->]; reflexivity.
Qed.

Lemma hypercube_node_kind (v : list Z) :
  bits v ->
  (field_type (hypercube_node v) = BOSONIC <-> Nat.even (popcount v) = true).
Proof.
  intros Hb; unfold hypercube_node; simpl.
  rewrite <- (parity_popcount v Hb).
  destruct (vsum v mod 2 =? 0); split; intros E; congruence.
Qed.

Lemma set_nth_same {A : Type} (l : list A) (i : nat) (dflt : A) :
  set_nth l i (nth i l dflt) = l.
Proof.
  revert i; induction l as [|y l IH]; intros [|i]; simpl; try reflexivity.
  rewrite IH; reflexivity.
Qed.

Lemma set_nth_twice {A : Type} (l : list A) (i : nat) (x y : A) :
  set_nth (set_nth l i x) i y = set_nth l i y.
Proof.
  revert i; induction l as [|z l IH]; intros [|i]; simpl; try reflexivity.
  rewrite IH; reflexivity.
Qed.

Lemma flip_axis_involutive (v : list Z) (i : nat) :
  (i < length v)%nat -> flip_axis (flip_axis v i) i = v.
Proof.
  intros Hi; unfold flip_axis.
  rewrite set_nth_twice, nth_set_nth, Nat.eqb_refl.
  rewrite (proj2 (Nat.ltb_lt _ _) Hi); cbn [andb].
  replace (1 - (1 - nth i v 0)) with (nth i v 0) by lia.
  apply set_nth_same.
Qed.

Lemma flip_axis_differs (v : list Z) (i : nat) :
  (i < length v)%nat -> flip_axis v i <> v.
Proof.
  intros Hi E.
  assert (Hn : nth i (flip_axis v i) 0 = nth i v 0) by (rewrite E; reflexivity).
  unfold flip_axis in Hn; rewrite nth_set_nth, Nat.eqb_refl in Hn.
  rewrite (proj2 (Nat.ltb_lt _ _) Hi) in Hn; cbn [andb] in Hn; lia.
Qed.

(** C6, as the code has it: [create_hypercube_adinkra] returns a graph only
    for dimensions 0 to 4; the graph has one node per vertex of the
    hypercube, bosonic exactly when the vertex has an even number of ones,
    and stores the edge of every vertex along every axis, so both directions
    of each undirected axis-edge pair (they differ in source, target and
    dashing): [dimension * 2^dimension] edges, [dimension] of them leaving
    each vertex, and from dimension 1 on as many bosonic as fermionic
    nodes. *)
Theorem hypercube_graph_structure (dimension : Z) (g : AdinkraGraph) :
  create_hypercube_adinkra dimension = OK g ->
  let dn := Z.to_nat dimension in
  let vs := product [0; 1] dn in
  0 <= dimension <= 4 /\
  nodes g = map hypercube_node vs /\
  length (nodes g) = (2 ^ dn)%nat /\
  bosonic_nodes g =
    filter (fun x => FieldType_eqb (field_type x) BOSONIC) (nodes g) /\
  fermionic_nodes g =
    filter (fun x => FieldType_eqb (field_type x) FERMIONIC) (nodes g) /\
  ((1 <= dn)%nat ->
     length (bosonic_nodes g) = (2 ^ (dn - 1))%nat /\
     length (fermionic_nodes g) = (2 ^ (dn - 1))%nat) /\
  (forall v, In v vs ->
     (field_type (hypercube_node v) = BOSONIC <->
      Nat.even (popcount v) = true)) /\
  edges g =
    flat_map (fun v => map (hypercube_axis_edge (available_colors g) v)
                           (range 0 dn)) vs /\
  length (edges g) = (dn * 2 ^ dn)%nat /\
  Forall (fun v =>
            length (filter (fun e => node_eqb (source e) (hypercube_node v))
                           (edges g)) = dn) vs /\
  (forall v i, In v vs -> (i < dn)%nat ->
     let e := hypercube_axis_edge (available_colors g) v i in
     let e' := hypercube_axis_edge (available_colors g) (flip_axis v i) i in
     In e (edges g) /\ In e' (edges g) /\
     source e' = target e /\ target e' = source e /\ e' <> e).
Proof.
  intros Hc dn vs.
  pose proof (create_hypercube_adinkra_range _ _ Hc) as Hrange.
  assert (Hcases : dimension = 0 \/ dimension = 1 \/ dimension = 2 \/
                   dimension = 3 \/ dimension = 4) by lia.
  assert (Hcomputed :
    nodes g = map hypercube_node vs /\
    length (nodes g) = (2 ^ dn)%nat /\
    bosonic_nodes g =
      filter (fun x => FieldType_eqb (field_type x) BOSONIC) (nodes g) /\
    fermionic_nodes g =
      filter (fun x => FieldType_eqb (field_type x) FERMIONIC) (nodes g) /\
    ((1 <= dn)%nat ->
       length (bosonic_nodes g) = (2 ^ (dn - 1))%nat /\
       length (fermionic_nodes g) = (2 ^ (dn - 1))%nat) /\
    edges g =
      flat_map (fun v => map (hypercube_axis_edge (available_colors g) v)
                             (range 0 dn)) vs /\
    length (edges g) = (dn * 2 ^ dn)%nat /\
    Forall (fun v =>
              length (filter (fun e => node_eqb (source e) (hypercube_node v))
                             (edges g)) = dn) vs).
  { subst dn vs.
    destruct Hcases as [-> | [-> | [-> | [-> | ->]]]];
      vm_compute in Hc; injection Hc as <-;
      (split; [vm_compute; reflexivity|]);
      (split; [vm_compute; reflexivity|]);
      (split; [vm_compute; reflexivity|]);
      (split; [vm_compute; reflexivity|]);
      (split; [intros Hd;
               first [exfalso; vm_compute in Hd; lia
                     | split; vm_compute; reflexivity]|]);
      (split; [vm_compute; reflexivity|]);
      (split; [vm_compute; reflexivity|]);
      (apply Forall_forall; intros v Hv; apply Nat.eqb_eq; revert v Hv;
       apply forallb_forall; vm_compute; reflexivity). }
  destruct Hcomputed as (Hn & Hnl & Hb & Hf & Hbf & He & Hel & Hout).
  repeat (split; [assumption|]).
  split; [|split; [exact He | split; [exact Hel | split; [exact Hout|]]]].
  - intros v Hv; apply hypercube_node_kind.
    apply product_bits in Hv; tauto.
  - intros v i Hv Hi e e'.
    assert (Hlen : length v = dn).
    { apply product_bits in Hv; tauto. }
    assert (Hin : forall u, In u vs ->
              In (hypercube_axis_edge (available_colors g) u i) (edges g)).
    { intros u Hu; rewrite He; apply in_flat_map.
      exists u; split; [exact Hu|].
      apply in_map, in_range; lia. }
    split; [apply Hin, Hv|].
    split; [apply Hin, flip_axis_in_product, Hv|].
    unfold e, e', hypercube_axis_edge; simpl.
    rewrite flip_axis_involutive by lia.
    repeat split.
    intros E; apply (f_equal (fun x => position (source x))) in E.
    simpl in E.
    assert (Hiv : (i < length v)%nat) by lia.
    exact (flip_axis_differs v i Hiv E).
Qed.

Lemma hypercube_graph_structure_witness :
  exists g,
    create_hypercube_adinkra 3 = OK g /\
    let dn := Z.to_nat 3 in
    let vs := product [0; 1] dn in
    0 <= 3 <= 4 /\
    nodes g = map hypercube_node vs /\
    length (nodes g) = (2 ^ dn)%nat /\
    bosonic_nodes g =
      filter (fun x => FieldType_eqb (field_type x) BOSONIC) (nodes g) /\
    fermionic_nodes g =
      filter (fun x => FieldType_eqb (field_type x) FERMIONIC) (nodes g) /\
    ((1 <= dn)%nat ->
       length (bosonic_nodes g) = (2 ^ (dn - 1))%nat /\
       length (fermionic_nodes g) = (2 ^ (dn - 1))%nat) /\
    (forall v, In v vs ->
       (field_type (hypercube_node v) = BOSONIC <->
        Nat.even (popcount v) = true)) /\
    edges g =
      flat_map (fun v => map (hypercube_axis_edge (available_colors g) v)
                             (range 0 dn)) vs /\
    length (edges g) = (dn * 2 ^ dn)%nat /\
    Forall (fun v =>
              length (filter (fun e => node_eqb (source e) (hypercube_node v))
                             (edges g)) = dn) vs /\
    (forall v i, In v vs -> (i < dn)%nat ->
       let e := hypercube_axis_edge (available_colors g) v i in
       let e' := hypercube_axis_edge (available_colors g) (flip_axis v i) i in
       In e (edges g) /\ In e' (edges g) /\
       source e' = target e /\ target e' = source e /\ e' <> e).
Proof.
  destruct (create_hypercube_adinkra 3) as [g|e] eqn:Hc;
    [|vm_compute in Hc; discriminate].
  exists g; split; [reflexivity|].
  apply (hypercube_graph_structure 3 g Hc).
Defined.

(** C6, as stated, fails on the one-dimensional hypercube: its single
    undirected axis-edge pair is stored in both directions. *)
Lemma hypercube_stores_both_directions :
  exists g e1 e2,
    create_hypercube_adinkra 1 = OK g /\
    edges g = [e1; e2] /\ e1 <> e2 /\
    position (source e1) = [0] /\ position (target e1) = [1] /\
    source e2 = target e1 /\ target e2 = source e1 /\
    color e1 = color e2.
Proof.
  eexists; eexists; eexists; split; [vm_compute; reflexivity|].
  repeat split; discriminate.
Qed.

(** ** Arrays filled by loops of assignments *)

Lemma range_0_seq (m : nat) : range 0 m = seq 0 m.
Proof. unfold range; rewrite Nat.sub_0_r; reflexivity. Qed.

Lemma nth_error_range (m i : nat) :
  (i < m)%nat -> nth_error (range 0 m) i = Some i.
Proof.
  intros Hi; rewrite range_0_seq, nth_error_seq.
  destruct (Nat.ltb_spec i m); [reflexivity | lia].
Qed.

Lemma nth_error_tabulate {A : Type} (f : nat -> A) (m i : nat) :
  (i < m)%nat -> nth_error (map f (range 0 m)) i = Some (f i).
Proof.
  intros Hi; rewrite nth_error_map, nth_error_range by exact Hi; reflexivity.
Qed.

Lemma nth_tabulate {A : Type} (f : nat -> A) (m i : nat) (dflt : A) :
  (i < m)%nat -> nth i (map f (range 0 m)) dflt = f i.
Proof.
  intros Hi; apply nth_error_nth, nth_error_tabulate, Hi.
Qed.

Lemma tabulate_ext {A : Type} (f g : nat -> A) (m : nat) :
  (forall i, (i < m)%nat -> f i = g i) ->
  map f (range 0 m) = map g (range 0 m).
Proof.
  intros Hfg; apply map_ext_in; intros i Hi; apply Hfg.
  apply in_range in Hi; lia.
Qed.

Lemma set_nth_tabulate {A : Type} (f : nat -> A) (m i : nat) (x : A) :
  set_nth (map f (range 0 m)) i x =
  map (fun i' => if Nat.eqb i' i then x else f i') (range 0 m).
Proof.
  rewrite range_0_seq.
  assert (Hgen : forall s i0,
            set_nth (map f (seq s m)) i0 x =
            map (fun i' => if Nat.eqb i' (s + i0) then x else f i') (seq s m)).
  { induction m as [|m IH]; intros s i0; [destruct i0; reflexivity|].
    destruct i0 as [|i0]; simpl.
    - rewrite Nat.add_0_r, Nat.eqb_refl; f_equal.
      apply map_ext_in; intros i' Hi'; apply in_seq in Hi'.
      destruct (Nat.eqb_spec i' s); [lia | reflexivity].
    - destruct (Nat.eqb_spec s (s + S i0)); [lia|].
      f_equal; rewrite IH.
      replace (S s + i0)%nat with (s + S i0)%nat by lia; reflexivity. }
  apply (Hgen 0%nat i).
Qed.

Lemma tabulate2_ext (rows cols : nat) (f g : nat -> nat -> Z) :
  (forall i j, (i < rows)%nat -> (j < cols)%nat -> f i j = g i j) ->
  tabulate2 rows cols f = tabulate2 rows cols g.
Proof.
  intros Hfg; unfold tabulate2.
  apply tabulate_ext; intros i Hi.
  apply tabulate_ext; intros j Hj; auto.
Qed.

Lemma tabulate2_shape (rows cols : nat) (f : nat -> nat -> Z) :
  rows_of_length cols (tabulate2 rows cols f) /\
  length (tabulate2 rows cols f) = rows.
Proof.
  unfold tabulate2, rows_of_length; split.
  - apply Forall_map, Forall_forall; intros i _.
    rewrite length_map, range_length; lia.
  - rewrite length_map, range_length; lia.
Qed.

Lemma zeros_tabulate (rows cols : nat) :
  repeat (zeros cols) rows = tabulate2 rows cols (fun _ _ => 0).
Proof.
  assert (Hrep : forall {A : Type} (x : A) m,
            repeat x m = map (fun _ => x) (range 0 m)).
  { intros A x m; rewrite range_0_seq; generalize 0%nat.
    induction m as [|m IH]; intros s; simpl; [reflexivity|].
    f_equal; apply IH. }
  unfold tabulate2, zeros; rewrite (Hrep _ (repeat 0 cols) rows).
  apply map_ext; intros _; apply Hrep.
Qed.

Lemma get2_tabulate2 (rows cols : nat) (f : nat -> nat -> Z) (r c : nat) :
  (r < rows)%nat -> (c < cols)%nat ->
  get2 (tabulate2 rows cols f) r c = OK (f r c).
Proof.
  intros Hr Hc; unfold get2, tabulate2.
  rewrite nth_error_tabulate by exact Hr.
  rewrite nth_error_tabulate by exact Hc; reflexivity.
Qed.

Lemma set2_tabulate2 (rows cols : nat) (f : nat -> nat -> Z) (r c : nat)
    (v : Z) :
  (r < rows)%nat -> (c < cols)%nat ->
  set2 (tabulate2 rows cols f) r c v = OK (tabulate2 rows cols (upd f r c v)).
Proof.
  intros Hr Hc; unfold set2, tabulate2.
  rewrite nth_error_tabulate by exact Hr.
  rewrite length_map, range_length, Nat.sub_0_r.
  destruct (Nat.ltb_spec c cols); [|lia].
  f_equal; rewrite !set_nth_tabulate.
  apply tabulate_ext; intros i Hi; unfold upd.
  destruct (Nat.eqb_spec i r) as [-> | Hne]; simpl; reflexivity.
Qed.

Lemma column_tabulate2 (rows cols : nat) (f : nat -> nat -> Z) (c : nat) :
  (c < cols)%nat ->
  column (tabulate2 rows cols f) c = map (fun i => f i c) (range 0 rows).
Proof.
  intros Hc; unfold column, tabulate2; rewrite map_map.
  apply map_ext; intros i; apply nth_tabulate, Hc.
Qed.

(** A loop whose every step acts on a representation of its state. *)
Lemma foldM_represented {A S X : Type} (step : S -> A -> result S)
    (T : X -> S) (F : X -> A -> X) (l : list A) :
  (forall x a, In a l -> step (T x) a = OK (T (F x a))) ->
  forall x, foldM step l (T x) = OK (T (fold_left F l x)).
Proof.
  induction l as [|a l IH]; simpl; intros Hstep x; [reflexivity|].
  rewrite Hstep by auto; simpl; apply IH; auto.
Qed.

Lemma fold_left_upd_rows (pos : nat -> nat) (val : nat -> Z) (l : list nat) :
  forall f r c,
    fold_left (fun f i => upd f i (pos i) (val i)) l f r c =
    if existsb (Nat.eqb r) l && Nat.eqb c (pos r) then val r else f r c.
Proof.
  induction l as [|i l IH]; simpl; intros f r c; [reflexivity|].
  rewrite IH; unfold upd.
  destruct (Nat.eqb_spec r i) as [-> | Hne]; simpl.
  - destruct (existsb (Nat.eqb i) l); simpl;
      destruct (Nat.eqb c (pos i)); reflexivity.
  - reflexivity.
Qed.

Lemma existsb_range (a b i : nat) :
  existsb (Nat.eqb i) (range a b) = (Nat.leb a i && Nat.ltb i b).
Proof.
  destruct (existsb (Nat.eqb i) (range a b)) eqn:E.
  - apply existsb_exists in E as (x & Hx & Ex).
    apply Nat.eqb_eq in Ex; subst x; apply in_range in Hx.
    symmetry; apply andb_true_iff; split;
      [apply Nat.leb_le | apply Nat.ltb_lt]; lia.
  - destruct (Nat.leb_spec a i); [|reflexivity].
    destruct (Nat.ltb_spec i b); [|reflexivity].
    assert (Hex : existsb (Nat.eqb i) (range a b) = true).
    { apply existsb_exists; exists i; split;
        [apply in_range; lia | apply Nat.eqb_refl]. }
    congruence.
Qed.

(** ** The minimum distance of a linear code is its minimum weight *)

Lemma digits_msb_zero (w : nat) : digits_msb w 0 = zeros w.
Proof.
  unfold zeros; induction w as [|w IH]; simpl; [reflexivity|].
  rewrite Z.bits_0, IH; reflexivity.
Qed.

Lemma xor_zeros_l (w : vector) :
  bits w -> mod2 (vec_add (zeros (length w)) w) = w.
Proof.
  unfold zeros; induction 1 as [|x w Hx Hw IH]; simpl; [reflexivity|].
  f_equal; [destruct Hx as [-> | ->]; reflexivity | exact IH].
Qed.

Lemma minimum_distance_linear (n0 k0 : nat) (G0 : matrix) (t : Z) :
  (forall m, length m = k0 -> bits m -> m <> zeros k0 ->
             t <= vsum (codeword_of n0 G0 m)) ->
  (exists m, length m = k0 /\ bits m /\ m <> zeros k0 /\
             vsum (codeword_of n0 G0 m) = t) ->
  min_dist_outer (map (codeword_of n0 G0) (product [0; 1] k0))
                 (Z.of_nat n0 + 1) = t.
Proof.
  intros Hlow (m0 & Hlen0 & Hb0 & Hnz0 & Hw0).
  set (cws := map (codeword_of n0 G0) (product [0; 1] k0)).
  apply Z.le_antisymm.
  - assert (Hin : In m0 (product [0; 1] k0)) by (apply product_bits; auto).
    apply In_nth_error in Hin as (j & Hj).
    assert (H0 : nth_error (product [0; 1] k0) 0 = Some (zeros k0)).
    { rewrite product_nth, digits_msb_zero; [reflexivity|].
      pose proof (Nat.pow_nonzero 2 k0); lia. }
    assert (Hj0 : (0 < j)%nat).
    { destruct j; [|lia]. rewrite H0 in Hj; congruence. }
    rewrite <- Hw0.
    replace (vsum (codeword_of n0 G0 m0))
      with (xor_weight (codeword_of n0 G0 (zeros k0)) (codeword_of n0 G0 m0)).
    + apply (min_dist_outer_le cws _ 0 j); [exact Hj0| |];
        unfold cws; rewrite nth_error_map; [rewrite H0 | rewrite Hj];
        reflexivity.
    + unfold xor_weight; rewrite codeword_of_zeros.
      rewrite <- (codeword_of_length n0 G0 m0) at 1.
      rewrite xor_zeros_l by apply codeword_of_bits; reflexivity.
  - destruct (min_dist_outer_attained cws (Z.of_nat n0 + 1))
      as [E | (i & j & u & v & Hij & Hu & Hv & E)].
    + rewrite E, <- Hw0.
      pose proof (vsum_bits_bounds _ (codeword_of_bits n0 G0 m0)) as Hb.
      rewrite codeword_of_length in Hb; lia.
    + rewrite E; unfold cws in Hu, Hv.
      rewrite nth_error_map in Hu, Hv.
      destruct (nth_error (product [0; 1] k0) i) as [mi|] eqn:Hi;
        [|discriminate].
      destruct (nth_error (product [0; 1] k0) j) as [mj|] eqn:Hj;
        [|discriminate].
      injection Hu as <-; injection Hv as <-.
      assert (Hne : mi <> mj).
      { intros ->.
        assert (i = j); [|lia].
        apply (proj1 (NoDup_nth_error _) (product_NoDup k0)); [|congruence].
        apply nth_error_Some; congruence. }
      apply nth_error_In, product_bits in Hi as (Li & Bi).
      apply nth_error_In, product_bits in Hj as (Lj & Bj).
      unfold xor_weight; rewrite <- codeword_of_xor by congruence.
      apply Hlow.
      * rewrite mod2_length, vec_add_length; lia.
      * apply mod2_bits.
      * intros Hz; apply Hne, xor_zero_eq; auto; congruence.
Qed.

Lemma init_value (n0 : nat) (G0 : matrix) :
  rows_of_length n0 G0 -> (length G0 <= n0)%nat ->
  exists c, init n0 G0 = OK c /\
            G c = map mod2 G0 /\ k c = length G0 /\ n c = n0 /\
            d c = min_dist_outer
                    (map (codeword_of n0 (map mod2 G0))
                         (product [0; 1] (length G0)))
                    (Z.of_nat n0 + 1).
Proof.
  intros HG Hk.
  destruct (proj2 (init_accepts n0 G0) (conj HG Hk)) as (c & Hc).
  exists c; split; [exact Hc|].
  destruct (init_fields _ _ _ Hc) as (_ & EG & Ek & En & Hd & _).
  repeat split; try assumption.
  rewrite compute_minimum_distance_value, EG, Ek, En in Hd.
  injection Hd as <-; reflexivity.
Qed.

Lemma bits_nonzero_vsum (m : vector) :
  bits m -> m <> zeros (length m) -> 1 <= vsum m.
Proof.
  unfold zeros; induction 1 as [|x m Hx Hm IH]; intros Hnz;
    [contradiction Hnz; reflexivity|].
  pose proof (vsum_bits_bounds m Hm) as Hb.
  unfold vsum in *; cbn [fold_right].
  destruct Hx as [-> | ->]; [|lia].
  assert (1 <= fold_right Z.add 0 m); [|lia].
  apply IH; intros E; apply Hnz; simpl; f_equal; exact E.
Qed.

Lemma map_mod2_bits (A : matrix) :
  Forall bits A -> map mod2 A = A.
Proof.
  induction 1 as [|row A Hrow HA IH]; simpl; [reflexivity|].
  rewrite (mod2_of_bits row Hrow), IH; reflexivity.
Qed.

Lemma tabulate2_bits (rows cols : nat) (f : nat -> nat -> Z) :
  (forall i j, (i < rows)%nat -> (j < cols)%nat -> is_bit (f i j)) ->
  Forall bits (tabulate2 rows cols f).
Proof.
  intros Hf; unfold tabulate2, bits.
  apply Forall_map, Forall_forall; intros i Hi.
  apply Forall_map, Forall_forall; intros j Hj.
  apply in_range in Hi, Hj; apply Hf; lia.
Qed.

(** ** The repetition code and the single parity check code *)

Lemma dot_ones (u : vector) : dot u (repeat 1 (length u)) = vsum u.
Proof.
  induction u as [|x u IH]; simpl; [reflexivity|].
  rewrite IH; unfold vsum; lia.
Qed.

Lemma dot_indicator (c : nat) (u : vector) :
  forall s, dot u (map (fun i => if Nat.eqb i c then 1 else 0)
                       (seq s (length u))) =
            if Nat.leb s c then nth (c - s) u 0 else 0.
Proof.
  induction u as [|x u IH]; intros s; simpl.
  - destruct (Nat.leb s c), (c - s)%nat; reflexivity.
  - rewrite IH.
    destruct (Nat.eqb_spec s c) as [-> | Hne].
    + rewrite Nat.leb_refl, Nat.sub_diag.
      destruct (Nat.leb_spec (S c) c); [lia|]; lia.
    + destruct (Nat.leb_spec s c), (Nat.leb_spec (S s) c); try lia.
      replace (c - s)%nat with (S (c - S s)) by lia; simpl; lia.
Qed.

Lemma map_nth_range (u : vector) :
  map (fun c => nth c u 0) (range 0 (length u)) = u.
Proof.
  apply nth_ext with (d := 0) (d' := 0).
  - rewrite length_map, range_length; lia.
  - intros i Hi; rewrite length_map, range_length in Hi.
    apply (nth_tabulate (fun c => nth c u 0)); lia.
Qed.

Lemma vsum_app (u v : vector) : vsum (u ++ v) = vsum u + vsum v.
Proof.
  unfold vsum; induction u as [|x u IH]; simpl; [reflexivity|].
  rewrite IH; lia.
Qed.

Lemma vsum_zeros (m : nat) : vsum (zeros m) = 0.
Proof. unfold vsum, zeros; induction m; simpl; lia. Qed.

Lemma range_snoc (m : nat) : range 0 (S m) = range 0 m ++ [m].
Proof. rewrite !range_0_seq, seq_S; reflexivity. Qed.

Lemma parity_generator_value (kn : nat) :
  (G1 <- foldM (fun G i => set2 G i i 1) (range 0 kn)
               (repeat (zeros (kn + 1)) kn) ;;
   foldM (fun G i => set2 G i kn 1) (range 0 kn) G1) =
  OK (tabulate2 kn (kn + 1) (parity_generator_entry kn)).
Proof.
  rewrite zeros_tabulate.
  rewrite (foldM_represented _ (tabulate2 kn (kn + 1))
             (fun f i => upd f i i 1)).
  2:{ intros f i Hi; apply in_range in Hi; apply set2_tabulate2; lia. }
  simpl.
  rewrite (foldM_represented _ (tabulate2 kn (kn + 1))
             (fun f i => upd f i kn 1)).
  2:{ intros f i Hi; apply in_range in Hi; apply set2_tabulate2; lia. }
  f_equal; apply tabulate2_ext; intros i c Hi Hc.
  rewrite (fold_left_upd_rows (fun _ => kn) (fun _ => 1)).
  rewrite (fold_left_upd_rows (fun i => i) (fun _ => 1)).
  rewrite existsb_range; unfold parity_generator_entry.
  destruct (Nat.leb_spec 0 i); [|lia].
  destruct (Nat.ltb_spec i kn); [|lia]; reflexivity.
Qed.

Lemma repeat_tabulate {A : Type} (x : A) (m : nat) :
  map (fun _ => x) (range 0 m) = repeat x m.
Proof.
  rewrite range_0_seq; generalize 0%nat.
  induction m as [|m IH]; intros s; simpl; [reflexivity|].
  f_equal; apply IH.
Qed.

Lemma mod2_app (u v : vector) : mod2 (u ++ v) = mod2 u ++ mod2 v.
Proof. unfold mod2; apply map_app. Qed.

Lemma parity_codeword (kn : nat) (m : vector) :
  length m = kn ->
  codeword_of (kn + 1) (tabulate2 kn (kn + 1) (parity_generator_entry kn)) m =
  mod2 m ++ [vsum (mod2 m) mod 2].
Proof.
  intros Hlen.
  set (G0 := tabulate2 kn (kn + 1) (parity_generator_entry kn)).
  assert (Hl : length (mod2 m) = kn) by (rewrite mod2_length; exact Hlen).
  assert (E1 : map (fun c => dot (mod2 m) (column G0 c)) (range 0 kn) =
               mod2 m).
  { etransitivity; [|apply (map_nth_range (mod2 m))]; rewrite Hl.
    apply map_ext_in; intros c Hc; apply in_range in Hc.
    unfold G0; rewrite column_tabulate2 by lia.
    rewrite (map_ext _ (fun i => if Nat.eqb i c then 1 else 0)).
    - rewrite range_0_seq, <- Hl, dot_indicator; simpl.
      rewrite Nat.sub_0_r; reflexivity.
    - intros i; unfold parity_generator_entry.
      destruct (Nat.eqb_spec c kn); [lia|].
      rewrite Nat.eqb_sym; reflexivity. }
  assert (E2 : dot (mod2 m) (column G0 kn) = vsum (mod2 m)).
  { unfold G0; rewrite column_tabulate2 by lia.
    rewrite (map_ext _ (fun _ => 1)).
    - rewrite repeat_tabulate, <- Hl; apply dot_ones.
    - intros i; unfold parity_generator_entry; rewrite Nat.eqb_refl.
      reflexivity. }
  unfold codeword_of, vecmat.
  rewrite Nat.add_1_r, range_snoc, map_app, E1; simpl map.
  rewrite E2, mod2_app, (mod2_of_bits (mod2 m)) by apply mod2_bits.
  reflexivity.
Qed.

Lemma repeat_bits (x : Z) (m : nat) : is_bit x -> bits (repeat x m).
Proof.
  intros Hx; apply Forall_forall; intros y Hy.
  apply repeat_spec in Hy; subst; exact Hx.
Qed.

Lemma vsum_ones (m : nat) : vsum (repeat 1 m) = Z.of_nat m.
Proof.
  unfold vsum; induction m as [|m IH]; [reflexivity|].
  cbn [repeat fold_right]; rewrite IH; lia.
Qed.

Lemma repetition_codeword (nn : nat) :
  codeword_of nn [repeat 1 nn] [1] = repeat 1 nn.
Proof.
  unfold codeword_of, vecmat.
  rewrite (map_ext_in _ (fun _ => 1)).
  - rewrite repeat_tabulate; apply mod2_of_bits, repeat_bits; right.
    reflexivity.
  - intros c Hc; apply in_range in Hc; unfold column; simpl.
    rewrite nth_repeat_lt by lia; reflexivity.
Qed.

Lemma bit_message_1 (m : vector) :
  length m = 1%nat -> bits m -> m <> zeros 1 -> m = [1].
Proof.
  intros Hlen Hb Hnz.
  destruct m as [|x [|y m]]; try discriminate.
  inversion Hb as [|? ? [-> | ->] _]; subst; [contradiction Hnz|];
    reflexivity.
Qed.

(** C7: for [n >= 1], [repetition_code(n)] is the [(n, 1, n)] code with
    the single generator row of ones, and [encode([1])] is [n] ones; for
    [k >= 1], [parity_check_code(k)] is the [(k + 1, k, 2)] code whose
    codewords are the message followed by the mod-2 sum of its bits; both
    raise [ValueError] below 1. *)
Theorem repetition_and_parity_check_codes :
  (forall n0, 1 <= n0 ->
     exists c, repetition_code n0 = OK c /\
       Z.of_nat (n c) = n0 /\ k c = 1%nat /\ d c = n0 /\
       G c = [repeat 1 (Z.to_nat n0)] /\
       encode c [1] = OK (repeat 1 (Z.to_nat n0))) /\
  (forall n0, n0 < 1 -> repetition_code n0 = Err ValueError) /\
  (forall k0, 1 <= k0 ->
     exists c, parity_check_code k0 = OK c /\
       Z.of_nat (n c) = k0 + 1 /\ Z.of_nat (k c) = k0 /\ d c = 2 /\
       forall m, length m = k c -> bits m ->
                 encode c m = OK (m ++ [vsum m mod 2])) /\
  (forall k0, k0 < 1 -> parity_check_code k0 = Err ValueError).
Proof.
  repeat split.
  - intros n0 Hn; unfold repetition_code.
    destruct (Z.ltb_spec n0 1); [lia|].
    set (nn := Z.to_nat n0).
    assert (Hones : bits (repeat 1 nn)) by (apply repeat_bits; right; reflexivity).
    destruct (init_value nn [repeat 1 nn]) as (c & Hc & EG & Ek & En & Ed).
    { repeat constructor; apply repeat_length. }
    { simpl; lia. }
    simpl in EG, Ek.
    change (map mod2 [repeat 1 nn]) with [mod2 (repeat 1 nn)] in Ed.
    rewrite (mod2_of_bits _ Hones) in EG, Ed.
    exists c; split; [exact Hc|]; repeat split.
    + rewrite En; unfold nn; lia.
    + exact Ek.
    + transitivity (Z.of_nat nn); [|unfold nn; lia].
      rewrite Ed; simpl length.
      apply minimum_distance_linear.
      * intros m Hlen Hb Hnz.
        rewrite (bit_message_1 m Hlen Hb Hnz), repetition_codeword, vsum_ones.
        lia.
      * exists [1]; repeat split; try discriminate.
        -- repeat constructor; right; reflexivity.
        -- rewrite repetition_codeword; apply vsum_ones.
    + exact EG.
    + unfold encode; rewrite encode_with_bits;
        [| apply Forall_cons; [right; reflexivity | apply Forall_nil]
         | rewrite Ek; reflexivity].
      rewrite EG, En, repetition_codeword; reflexivity.
  - intros n0 Hn; unfold repetition_code.
    destruct (Z.ltb_spec n0 1); [reflexivity | lia].
  - intros k0 Hk; unfold parity_check_code.
    destruct (Z.ltb_spec k0 1); [lia|].
    set (kn := Z.to_nat k0).
    pose proof (parity_generator_value kn) as HG.
    apply bind_OK in HG as (G1 & HG1 & HG2).
    rewrite HG1; simpl; rewrite HG2; simpl.
    set (G0 := tabulate2 kn (kn + 1) (parity_generator_entry kn)).
    destruct (tabulate2_shape kn (kn + 1) (parity_generator_entry kn))
      as (Hsh & Hlen).
    assert (Hbits : Forall bits G0).
    { apply tabulate2_bits; intros i j _ _; unfold parity_generator_entry.
      destruct (Nat.eqb j kn); [right; reflexivity|].
      destruct (Nat.eqb j i); [right | left]; reflexivity. }
    destruct (init_value (kn + 1) G0) as (c & Hc & EG & Ek & En & Ed);
      [exact Hsh | fold G0 in Hlen; lia |].
    fold G0 in Hlen; rewrite (map_mod2_bits _ Hbits) in EG, Ed.
    rewrite Hlen in Ek, Ed.
    exists c; split; [exact Hc|]; repeat split.
    + rewrite En; unfold kn; lia.
    + rewrite Ek; unfold kn; lia.
    + rewrite Ed; apply minimum_distance_linear.
      * intros m Hl Hb Hnz; unfold G0.
        rewrite parity_codeword, (mod2_of_bits m Hb), vsum_app by exact Hl.
        rewrite <- Hl in Hnz.
        pose proof (bits_nonzero_vsum m Hb Hnz) as H1.
        pose proof (Z.mod_pos_bound (vsum m) 2 ltac:(lia)) as H2.
        unfold vsum at 2; simpl.
        destruct (Z.eq_dec (vsum m) 1) as [E | E]; [rewrite E; simpl |]; lia.
      * exists (1 :: zeros (kn - 1)).
        assert (Hb1 : bits (1 :: zeros (kn - 1))).
        { constructor; [right; reflexivity | apply repeat_bits; left].
          reflexivity. }
        assert (Hl1 : length (1 :: zeros (kn - 1)) = kn).
        { simpl; unfold zeros; rewrite repeat_length; unfold kn; lia. }
        repeat split; [exact Hl1 | exact Hb1 | |].
        -- destruct kn; discriminate.
        -- unfold G0; rewrite parity_codeword, (mod2_of_bits _ Hb1), vsum_app
             by exact Hl1.
           unfold vsum at 1 2 3; cbn [fold_right]; fold (vsum (zeros (kn - 1))).
           rewrite vsum_zeros; reflexivity.
    + intros m Hl Hb; unfold encode.
      rewrite encode_with_bits by assumption.
      rewrite EG, En, Ek in *; unfold G0.
      rewrite parity_codeword, (mod2_of_bits m Hb) by exact Hl; reflexivity.
  - intros k0 Hk; unfold parity_check_code.
    destruct (Z.ltb_spec k0 1); [reflexivity | lia].
Qed.

Lemma repetition_and_parity_check_codes_witness :
  (1 <= 5 /\
   exists c, repetition_code 5 = OK c /\
     Z.of_nat (n c) = 5 /\ k c = 1%nat /\ d c = 5 /\
     G c = [repeat 1 (Z.to_nat 5)] /\
     encode c [1] = OK (repeat 1 (Z.to_nat 5))) /\
  (0 < 1 /\ repetition_code 0 = Err ValueError) /\
  (1 <= 4 /\
   exists c, parity_check_code 4 = OK c /\
     Z.of_nat (n c) = 4 + 1 /\ Z.of_nat (k c) = 4 /\ d c = 2 /\
     forall m, length m = k c -> bits m ->
               encode c m = OK (m ++ [vsum m mod 2])) /\
  (0 < 1 /\ parity_check_code 0 = Err ValueError).
Proof.
  destruct repetition_and_parity_check_codes as (Hrep & Hrep0 & Hpar & Hpar0).
  split; [split; [lia | apply (Hrep 5); lia]|].
  split; [split; [lia | apply (Hrep0 0); lia]|].
  split; [split; [lia | apply (Hpar 4); lia]|].
  split; [lia | apply (Hpar0 0); lia].
Defined.

(** ** The Hamming codes: the parity-check matrix and its unit columns *)

Lemma digits_msb_tabulate (w : nat) (i : Z) :
  digits_msb w i =
  map (fun j => Z.b2z (Z.testbit i (Z.of_nat (w - 1 - j)))) (range 0 w).
Proof.
  rewrite range_0_seq.
  assert (Hgen : forall w' s, (s + w' = w)%nat ->
            digits_msb w' i =
            map (fun j => Z.b2z (Z.testbit i (Z.of_nat (w - 1 - j))))
                (seq s w')).
  { induction w' as [|w' IH]; intros s Hs; simpl; [reflexivity|].
    f_equal.
    - do 2 f_equal; lia.
    - apply IH; lia. }
  apply Hgen; lia.
Qed.

Lemma pow2_nat_Z (e : nat) : Z.of_nat (2 ^ e) = 2 ^ Z.of_nat e.
Proof. rewrite Nat2Z.inj_pow; reflexivity. Qed.

Lemma pow2_nat_pos (e : nat) : (1 <= 2 ^ e)%nat.
Proof. pose proof (Nat.pow_nonzero 2 e); lia. Qed.

Lemma format_b_width (r : nat) (i : Z) :
  0 < i < 2 ^ Z.of_nat r -> format_b r i = digits_msb r i.
Proof.
  intros Hi; unfold format_b, bit_length.
  destruct (Z.eqb_spec i 0); [lia|].
  rewrite Z.abs_eq by lia.
  assert (Hlog : Z.log2 i < Z.of_nat r) by (apply Z.log2_lt_pow2; lia).
  pose proof (Z.log2_nonneg i).
  rewrite Nat.max_l by lia; reflexivity.
Qed.

Lemma range_shift (a b : nat) : range (S a) (S b) = map S (range a b).
Proof. unfold range; simpl; symmetry; apply seq_shift. Qed.

(** The parity-check matrix that [hamming_code] builds. *)
Lemma hamming_H_value (r : nat) :
  transpose r (map (fun i => format_b r (Z.of_nat i))
                   (range 1 (2 ^ r - 1 + 1))) =
  tabulate2 r (2 ^ r - 1) (hamming_bit r).
Proof.
  pose proof (pow2_nat_pos r) as Hp.
  rewrite Nat.add_1_r, range_shift, map_map.
  unfold transpose, tabulate2.
  apply tabulate_ext; intros j Hj.
  unfold column; rewrite map_map.
  apply map_ext_in; intros c Hc; apply in_range in Hc.
  rewrite format_b_width.
  - rewrite digits_msb_tabulate, (nth_tabulate _ r j 0 Hj).
    unfold hamming_bit; do 2 f_equal; lia.
  - rewrite <- pow2_nat_Z; lia.
Qed.

Lemma array_equal_map {A : Type} (f g : A -> Z) (l : list A) :
  array_equal (map f l) (map g l) = forallb (fun a => f a =? g a) l.
Proof.
  induction l as [|a l IH]; simpl; [reflexivity | rewrite IH; reflexivity].
Qed.

Lemma unit_col_tabulate (r i : nat) :
  unit_col r i = map (fun j => if Nat.eqb j i then 1 else 0) (range 0 r).
Proof.
  unfold unit_col, zeros; rewrite <- (repeat_tabulate 0 r).
  apply set_nth_tabulate.
Qed.

Lemma testbit_above (x : Z) (r : nat) (e : Z) :
  0 <= x < 2 ^ Z.of_nat r -> Z.of_nat r <= e -> Z.testbit x e = false.
Proof.
  intros Hx He.
  destruct (Z.eq_dec x 0) as [-> | Hnz]; [apply Z.bits_0|].
  apply Z.bits_above_log2; [lia|].
  assert (Z.log2 x < Z.of_nat r) by (apply Z.log2_lt_pow2; lia); lia.
Qed.

(** A column number below [2^r] has the bits of a unit vector exactly when
    it is the matching power of two. *)
Lemma unit_bits_iff (r i : nat) (x : Z) :
  (i < r)%nat -> 0 <= x < 2 ^ Z.of_nat r ->
  ((forall j, (j < r)%nat ->
              Z.testbit x (Z.of_nat (r - 1 - j)) = Nat.eqb j i) <->
   x = 2 ^ Z.of_nat (r - 1 - i)).
Proof.
  intros Hi Hx; split.
  - intros Hbits; apply Z.bits_inj'; intros e He.
    rewrite Z.pow2_bits_eqb by lia.
    destruct (Z.lt_ge_cases e (Z.of_nat r)) as [Hlt | Hge].
    + replace e with (Z.of_nat (r - 1 - (r - 1 - Z.to_nat e))) at 1 by lia.
      rewrite Hbits by lia.
      destruct (Nat.eqb_spec (r - 1 - Z.to_nat e) i),
               (Z.eqb_spec (Z.of_nat (r - 1 - i)) e); try reflexivity; lia.
    + rewrite (testbit_above x r e) by lia.
      destruct (Z.eqb_spec (Z.of_nat (r - 1 - i)) e); [lia | reflexivity].
  - intros -> j Hj.
    rewrite Z.pow2_bits_eqb by lia.
    destruct (Nat.eqb_spec j i),
             (Z.eqb_spec (Z.of_nat (r - 1 - i)) (Z.of_nat (r - 1 - j)));
      try reflexivity; lia.
Qed.

Lemma parity_position_lt (r j : nat) :
  (j < r)%nat -> (parity_position r j < 2 ^ r - 1)%nat.
Proof.
  intros Hj; unfold parity_position.
  pose proof (pow2_nat_pos (r - 1 - j)).
  assert ((2 ^ (r - 1 - j) < 2 ^ r)%nat); [|lia].
  apply Nat.pow_lt_mono_r; lia.
Qed.

Lemma parity_position_injective (r j j' : nat) :
  (j < r)%nat -> (j' < r)%nat ->
  parity_position r j = parity_position r j' -> j = j'.
Proof.
  unfold parity_position; intros Hj Hj' E.
  pose proof (pow2_nat_pos (r - 1 - j)).
  pose proof (pow2_nat_pos (r - 1 - j')).
  assert (E' : (2 ^ (r - 1 - j) = 2 ^ (r - 1 - j'))%nat) by lia.
  apply Nat.pow_inj_r in E'; lia.
Qed.

(** Column [c] is the [i]-th unit vector exactly at [parity_position r i]. *)
Lemma hamming_unit_column (r i c : nat) :
  (i < r)%nat -> (c < 2 ^ r - 1)%nat ->
  array_equal (column (tabulate2 r (2 ^ r - 1) (hamming_bit r)) c)
              (unit_col r i) = true <->
  c = parity_position r i.
Proof.
  intros Hi Hc.
  rewrite column_tabulate2, unit_col_tabulate, array_equal_map by exact Hc.
  rewrite forallb_forall.
  assert (Hx : 0 <= Z.of_nat c + 1 < 2 ^ Z.of_nat r).
  { rewrite <- pow2_nat_Z; lia. }
  pose proof (unit_bits_iff r i (Z.of_nat c + 1) Hi Hx) as Hiff.
  pose proof (pow2_nat_pos (r - 1 - i)).
  split.
  - intros Hall.
    assert (E : Z.of_nat c + 1 = 2 ^ Z.of_nat (r - 1 - i)).
    { apply Hiff; intros j Hj.
      specialize (Hall j (proj2 (in_range 0 r j) ltac:(lia))).
      unfold hamming_bit in Hall; apply Z.eqb_eq in Hall.
      destruct (Z.testbit _ _), (Nat.eqb j i); simpl in Hall;
        try reflexivity; discriminate. }
    rewrite <- pow2_nat_Z in E; unfold parity_position; lia.
  - intros -> j Hj; apply in_range in Hj; apply Z.eqb_eq.
    unfold hamming_bit.
    replace (Z.of_nat (parity_position r i) + 1)
      with (2 ^ Z.of_nat (r - 1 - i))
      by (rewrite <- pow2_nat_Z; unfold parity_position; lia).
    assert (Hx2 : 0 <= 2 ^ Z.of_nat (r - 1 - i) < 2 ^ Z.of_nat r).
    { split; [apply Z.pow_nonneg; lia | apply Z.pow_lt_mono_r; lia]. }
    rewrite (proj2 (unit_bits_iff r i _ Hi Hx2) eq_refl j) by lia.
    destruct (Nat.eqb j i); reflexivity.
Qed.

Lemma first_col_unique (H0 : matrix) (col : vector) (js : list nat) (c0 : nat) :
  In c0 js ->
  (forall c, In c js -> (array_equal (column H0 c) col = true <-> c = c0)) ->
  first_col H0 col js = Some c0.
Proof.
  induction js as [|j js IH]; simpl; intros Hin Hiff; [contradiction|].
  destruct (array_equal (column H0 j) col) eqn:E.
  - f_equal; apply Hiff; auto.
  - apply IH; [|intros c Hc; apply Hiff; auto].
    destruct Hin as [-> | Hin]; [|exact Hin].
    rewrite (proj2 (Hiff c0 (or_introl eq_refl)) eq_refl) in E; discriminate.
Qed.

Lemma flat_map_singleton {A B : Type} (f : A -> list B) (g : A -> B)
    (l : list A) :
  (forall a, In a l -> f a = [g a]) -> flat_map f l = map g l.
Proof.
  induction l as [|a l IH]; simpl; intros Hf; [reflexivity|].
  rewrite Hf, IH by auto; reflexivity.
Qed.

Lemma hamming_identity_cols (r : nat) :
  identity_cols_of (tabulate2 r (2 ^ r - 1) (hamming_bit r)) r (2 ^ r - 1) =
  map (parity_position r) (range 0 r).
Proof.
  unfold identity_cols_of; apply flat_map_singleton; intros i Hi.
  apply in_range in Hi.
  rewrite (first_col_unique _ _ _ (parity_position r i)); [reflexivity| |].
  - apply in_range; pose proof (parity_position_lt r i); lia.
  - intros c Hc; apply in_range in Hc.
    apply hamming_unit_column; lia.
Qed.

Lemma filter_length_split {A : Type} (f : A -> bool) (l : list A) :
  (length (filter f l) + length (filter (fun a => negb (f a)) l) =
   length l)%nat.
Proof.
  induction l as [|a l IH]; simpl; [reflexivity|].
  destruct (f a); simpl; lia.
Qed.

Lemma existsb_nat_In (c : nat) (l : list nat) :
  existsb (Nat.eqb c) l = true <-> In c l.
Proof.
  rewrite existsb_exists; split.
  - intros (x & Hx & E); apply Nat.eqb_eq in E; subst; exact Hx.
  - intros Hc; exists c; split; [exact Hc | apply Nat.eqb_refl].
Qed.

Lemma parity_positions_NoDup (r : nat) :
  NoDup (map (parity_position r) (range 0 r)).
Proof.
  apply NoDup_map_NoDup_ForallPairs; [|unfold range; apply seq_NoDup].
  intros j j' Hj Hj' E; apply in_range in Hj, Hj'.
  apply (parity_position_injective r); lia.
Qed.

Lemma info_positions_spec (r n0 c : nat) :
  In c (info_positions_of r n0) <->
  (c < n0)%nat /\ forall j, (j < r)%nat -> c <> parity_position r j.
Proof.
  unfold info_positions_of; rewrite filter_In, in_range, negb_true_iff.
  split.
  - intros (Hc & Hex); split; [lia|]; intros j Hj ->.
    rewrite (proj2 (existsb_nat_In _ _)) in Hex; [discriminate|].
    apply in_map, in_range; lia.
  - intros (Hc & Hne); split; [lia|].
    destruct (existsb _ _) eqn:E; [|reflexivity].
    apply existsb_nat_In, in_map_iff in E as (j & E & Hj).
    apply in_range in Hj; exfalso; apply (Hne j); [lia | auto].
Qed.

Lemma info_positions_NoDup (r n0 : nat) : NoDup (info_positions_of r n0).
Proof. apply NoDup_filter; unfold range; apply seq_NoDup. Qed.

Lemma info_positions_length (r : nat) :
  length (info_positions_of r (2 ^ r - 1)) = (2 ^ r - 1 - r)%nat.
Proof.
  unfold info_positions_of.
  set (n0 := (2 ^ r - 1)%nat).
  set (qs := map (parity_position r) (range 0 r)).
  pose proof (filter_length_split (fun c => existsb (Nat.eqb c) qs)
                                  (range 0 n0)) as Hsplit.
  rewrite range_length, Nat.sub_0_r in Hsplit.
  assert (Hq : length (filter (fun c => existsb (Nat.eqb c) qs) (range 0 n0))
               = r).
  { transitivity (length qs);
      [|unfold qs; rewrite length_map, range_length; lia].
    apply Permutation_length, NoDup_Permutation.
    - apply NoDup_filter; unfold range; apply seq_NoDup.
    - apply parity_positions_NoDup.
    - intros c; rewrite filter_In, existsb_nat_In, in_range; split.
      + tauto.
      + intros Hc; split; [|exact Hc].
        apply in_map_iff in Hc as (j & <- & Hj); apply in_range in Hj.
        pose proof (parity_position_lt r j); unfold n0; lia. }
  lia.
Qed.

Lemma info_position_nth (r n0 i : nat) :
  (i < length (info_positions_of r n0))%nat ->
  let p := nth i (info_positions_of r n0) 0%nat in
  (p < n0)%nat /\ forall j, (j < r)%nat -> p <> parity_position r j.
Proof.
  intros Hi p; apply info_positions_spec, nth_In, Hi.
Qed.

Lemma find_parity_position_none (r c : nat) :
  (forall j, (j < r)%nat -> c <> parity_position r j) ->
  find (fun j => Nat.eqb (parity_position r j) c) (range 0 r) = None.
Proof.
  intros Hne.
  destruct (find _ (range 0 r)) as [j|] eqn:E; [|reflexivity].
  apply find_some in E as (Hj & E); apply in_range in Hj.
  apply Nat.eqb_eq in E; exfalso; apply (Hne j); [lia | auto].
Qed.

Lemma find_parity_position_some (r j : nat) :
  (j < r)%nat ->
  find (fun j' => Nat.eqb (parity_position r j') (parity_position r j))
       (range 0 r) = Some j.
Proof.
  intros Hj.
  destruct (find _ (range 0 r)) as [j'|] eqn:E.
  - apply find_some in E as (Hj' & E); apply in_range in Hj'.
    apply Nat.eqb_eq in E; f_equal.
    apply (parity_position_injective r); lia || auto.
  - exfalso.
    pose proof (find_none _ _ E j (proj2 (in_range 0 r j) ltac:(lia))) as Hn.
    simpl in Hn; rewrite Nat.eqb_refl in Hn; discriminate.
Qed.

(** ** The Hamming codes: the generator matrix *)

Lemma list_get_ok {A : Type} (l : list A) (i : nat) (dflt : A) :
  (i < length l)%nat -> list_get l i = OK (nth i l dflt).
Proof.
  intros Hi; unfold list_get.
  rewrite (nth_error_nth' l dflt Hi); reflexivity.
Qed.

Lemma enumerate_map {A : Type} (q : nat -> A) (m : nat) :
  enumerate (map q (range 0 m)) = map (fun j => (j, q j)) (range 0 m).
Proof.
  unfold enumerate; rewrite length_map, range_length, Nat.sub_0_r.
  rewrite range_0_seq; generalize (seq 0 m); intros l.
  induction l as [|j l IH]; simpl; [reflexivity | rewrite IH; reflexivity].
Qed.

(** Assignments into one row, at the columns [q j]: with [q] injective the
    entry at a column is the value written for it. *)
Lemma fold_left_upd_cols (q : nat -> nat) (w : nat -> Z) (i : nat)
    (l : list nat) :
  (forall j j', In j l -> In j' l -> q j = q j' -> j = j') ->
  forall f r c,
    fold_left (fun f (jp : nat * nat) => upd f i (snd jp) (w (fst jp)))
              (map (fun j => (j, q j)) l) f r c =
    if Nat.eqb r i
    then match find (fun j => Nat.eqb (q j) c) l with
         | Some j => w j
         | None => f r c
         end
    else f r c.
Proof.
  induction l as [|j0 l IH]; intros Hinj f r c; simpl.
  - destruct (Nat.eqb r i); reflexivity.
  - rewrite IH by (intros; apply Hinj; simpl; auto).
    unfold upd.
    destruct (Nat.eqb_spec r i) as [-> | Hne]; simpl; [|reflexivity].
    destruct (Nat.eqb_spec (q j0) c) as [E | E].
    + destruct (find _ l) as [j|] eqn:Hf.
      * apply find_some in Hf as (Hj & Ej); apply Nat.eqb_eq in Ej.
        f_equal; apply Hinj; simpl; auto; congruence.
      * rewrite Nat.eqb_sym, (proj2 (Nat.eqb_eq _ _) E); reflexivity.
    + destruct (find _ l); [reflexivity|].
      rewrite Nat.eqb_sym, (proj2 (Nat.eqb_neq _ _) E); reflexivity.
Qed.

(** A loop over distinct rows whose step rewrites its own row only. *)
Lemma fold_left_rows (F : (nat -> nat -> Z) -> nat -> nat -> nat -> Z)
    (l : list nat) :
  (forall f i r c, r <> i -> F f i r c = f r c) ->
  (forall f g i c, (forall c', f i c' = g i c') -> F f i i c = F g i i c) ->
  NoDup l ->
  forall f r c,
    fold_left F l f r c =
    if existsb (Nat.eqb r) l then F f r r c else f r c.
Proof.
  intros Hother Hlocal; induction l as [|i l IH]; intros Hnd f r c; simpl;
    [reflexivity|].
  inversion Hnd as [|? ? Hnotin Hnd']; subst.
  rewrite IH by exact Hnd'.
  destruct (Nat.eqb_spec r i) as [-> | Hne]; simpl.
  - destruct (existsb (Nat.eqb i) l) eqn:E; [|reflexivity].
    apply existsb_nat_In in E; contradiction.
  - destruct (existsb (Nat.eqb r) l); [|apply Hother; exact Hne].
    apply Hlocal; intros c'; apply Hother; exact Hne.
Qed.

(** The generator matrix that [hamming_code] builds. *)
Lemma hamming_generator_value (r : nat) :
  (2 <= r)%nat ->
  hamming_generator r (2 ^ r - 1) (2 ^ r - 1 - r) =
  OK (tabulate2 (2 ^ r - 1 - r) (2 ^ r - 1) (hamming_entry r (2 ^ r - 1))).
Proof.
  intros Hr; unfold hamming_generator.
  rewrite hamming_H_value, hamming_identity_cols.
  fold (info_positions_of r (2 ^ r - 1)).
  set (n0 := (2 ^ r - 1)%nat).
  set (k0 := (n0 - r)%nat).
  set (info := info_positions_of r n0).
  assert (Hinfo : length info = k0) by apply info_positions_length.
  assert (Hp : forall i, (i < k0)%nat -> (nth i info 0 < n0)%nat).
  { intros i Hi; apply (info_position_nth r n0 i); fold info; lia. }
  rewrite zeros_tabulate.
  rewrite (foldM_represented _ (tabulate2 k0 n0)
             (fun f i => upd f i (nth i info 0%nat) 1)).
  2:{ intros f i Hi; apply in_range in Hi.
      rewrite (list_get_ok info i 0%nat) by lia; simpl.
      apply set2_tabulate2; [lia | apply Hp; lia]. }
  simpl.
  rewrite enumerate_map.
  rewrite (foldM_represented _ (tabulate2 k0 n0)
             (fun f i =>
                fold_left (fun f (jp : nat * nat) =>
                             upd f i (snd jp)
                                 (hamming_bit r (fst jp) (nth i info 0%nat)))
                          (map (fun j => (j, parity_position r j))
                               (range 0 r)) f)).
  2:{ intros f i Hi; apply in_range in Hi.
      rewrite (list_get_ok info i 0%nat) by lia; simpl.
      apply foldM_represented; intros g jp Hjp.
      apply in_map_iff in Hjp as (j & <- & Hj); apply in_range in Hj; simpl.
      rewrite get2_tabulate2 by (lia || apply Hp; lia); simpl.
      apply set2_tabulate2; [lia | apply parity_position_lt; lia]. }
  f_equal; apply tabulate2_ext; intros i c Hi Hc.
  rewrite fold_left_rows.
  - rewrite existsb_range.
    destruct (Nat.leb_spec 0 i); [|lia].
    destruct (Nat.ltb_spec i k0); [|lia]; simpl.
    rewrite (fold_left_upd_cols (parity_position r)
               (fun j => hamming_bit r j (nth i info 0%nat))).
    + rewrite Nat.eqb_refl; unfold hamming_entry; fold info.
      destruct (find _ (range 0 r)); [reflexivity|].
      rewrite (fold_left_upd_rows (fun i => nth i info 0%nat) (fun _ => 1)).
      rewrite existsb_range.
      destruct (Nat.leb_spec 0 i); [|lia].
      destruct (Nat.ltb_spec i k0); [|lia]; reflexivity.
    + intros j j' Hj Hj'; apply in_range in Hj, Hj'.
      apply parity_position_injective; lia.
  - intros f i' r' c' Hne.
    rewrite (fold_left_upd_cols (parity_position r)
               (fun j => hamming_bit r j (nth i' info 0%nat))).
    + destruct (Nat.eqb_spec r' i'); [contradiction | reflexivity].
    + intros j j' Hj Hj'; apply in_range in Hj, Hj'.
      apply parity_position_injective; lia.
  - intros f g i' c' Hfg.
    rewrite !(fold_left_upd_cols (parity_position r)
                (fun j => hamming_bit r j (nth i' info 0%nat)));
      try (intros j j' Hj Hj'; apply in_range in Hj, Hj';
           apply parity_position_injective; lia).
    rewrite Nat.eqb_refl; destruct (find _ _); [reflexivity | apply Hfg].
  - unfold range; apply seq_NoDup.
Qed.

(** ** Weights *)

Lemma vsum_cons (x : Z) (v : vector) : vsum (x :: v) = x + vsum v.
Proof. reflexivity. Qed.

Lemma vsum_set_nth (w : vector) (p : nat) :
  (p < length w)%nat -> vsum w = nth p w 0 + vsum (set_nth w p 0).
Proof.
  revert p; induction w as [|x w IH]; intros [|p] Hp; simpl in Hp; try lia.
  - simpl set_nth; simpl nth; rewrite !vsum_cons; lia.
  - simpl set_nth; simpl nth; rewrite !vsum_cons, (IH p) by lia; lia.
Qed.

(** The ones at distinct positions of a word count towards its weight. *)
Lemma vsum_positions (ps : list nat) :
  forall w, bits w -> NoDup ps ->
            (forall p, In p ps -> (p < length w)%nat) ->
            vsum (map (fun p => nth p w 0) ps) <= vsum w.
Proof.
  induction ps as [|p ps IH]; intros w Hw Hnd Hlt.
  - simpl; apply (vsum_bits_bounds w Hw).
  - inversion Hnd as [|? ? Hnotin Hnd']; subst.
    simpl map; rewrite vsum_cons, (vsum_set_nth w p) by (apply Hlt; left; auto).
    assert (Hrest : map (fun p' => nth p' w 0) ps =
                    map (fun p' => nth p' (set_nth w p 0) 0) ps).
    { apply map_ext_in; intros p' Hp'; rewrite nth_set_nth.
      destruct (Nat.eqb_spec p' p) as [-> | Hne]; [contradiction | reflexivity]. }
    rewrite Hrest.
    assert (IH' : vsum (map (fun p' => nth p' (set_nth w p 0) 0) ps)
                  <= vsum (set_nth w p 0)).
    { apply IH; [|exact Hnd'|].
      - apply set_nth_Forall; [exact Hw | left; reflexivity].
      - intros p' Hp'; rewrite set_nth_length; apply Hlt; right; exact Hp'. }
    lia.
Qed.

Lemma three_ones (w : vector) (a b c : nat) :
  bits w -> (a < length w)%nat -> (b < length w)%nat -> (c < length w)%nat ->
  a <> b -> a <> c -> b <> c ->
  nth a w 0 = 1 -> nth b w 0 = 1 -> nth c w 0 = 1 -> 3 <= vsum w.
Proof.
  intros Hw Ha Hb Hc Hab Hac Hbc Ea Eb Ec.
  pose proof (vsum_positions [a; b; c] w Hw) as Hpos.
  simpl in Hpos; rewrite Ea, Eb, Ec in Hpos.
  unfold vsum at 1 in Hpos; simpl in Hpos.
  apply Hpos.
  - repeat constructor; simpl; intuition congruence.
  - intros p [<- | [<- | [<- | []]]]; assumption.
Qed.

Lemma map_nth_range_gen {A : Type} (l : list A) (dflt : A) :
  map (fun i => nth i l dflt) (range 0 (length l)) = l.
Proof.
  apply nth_ext with (d := dflt) (d' := dflt).
  - rewrite length_map, range_length; lia.
  - intros i Hi; rewrite length_map, range_length in Hi.
    apply (nth_tabulate (fun i => nth i l dflt)); lia.
Qed.

Lemma unit_col_cons (m a : nat) :
  unit_col (S m) (S a) = 0 :: unit_col m a.
Proof. reflexivity. Qed.

Lemma unit_col_length (m a : nat) : length (unit_col m a) = m.
Proof. unfold unit_col, zeros; rewrite set_nth_length; apply repeat_length. Qed.

Lemma unit_col_bits (m a : nat) : bits (unit_col m a).
Proof.
  unfold unit_col; apply set_nth_Forall;
    [apply repeat_bits; left | right]; reflexivity.
Qed.

(** A non-zero bit vector has one 1, two 1s, or at least three. *)
Lemma weight_cases (m : vector) :
  bits m ->
  (vsum m = 0 -> m = zeros (length m)) /\
  (vsum m = 1 -> exists a, (a < length m)%nat /\ m = unit_col (length m) a) /\
  (vsum m = 2 ->
   exists a b, (a < b)%nat /\ (b < length m)%nat /\
               m = mod2 (vec_add (unit_col (length m) a)
                                 (unit_col (length m) b))).
Proof.
  induction 1 as [|x m Hx Hm (IH0 & IH1 & IH2)].
  - repeat split; try reflexivity; unfold vsum; simpl; intros; lia.
  - pose proof (vsum_bits_bounds m Hm) as Hb.
    rewrite vsum_cons; simpl length.
    destruct Hx as [-> | ->]; repeat split.
    + intros E; unfold zeros; simpl; f_equal; apply IH0; lia.
    + intros E; destruct IH1 as (a & Ha & Em); [lia|].
      exists (S a); split; [lia|].
      rewrite unit_col_cons; f_equal; exact Em.
    + intros E; destruct IH2 as (a & b & Hab & Hb' & Em); [lia|].
      exists (S a), (S b); repeat split; try lia.
      rewrite !unit_col_cons; simpl; f_equal; exact Em.
    + intros E; lia.
    + intros E; exists 0%nat; split; [lia|].
      unfold unit_col, zeros; simpl; f_equal; apply IH0; lia.
    + intros E; destruct IH1 as (b & Hb' & Em); [lia|].
      exists 0%nat, (S b); repeat split; try lia.
      rewrite unit_col_cons; unfold unit_col at 1; simpl; f_equal.
      fold (zeros (length m)).
      rewrite <- (unit_col_length (length m) b) at 1.
      rewrite xor_zeros_l by apply unit_col_bits.
      exact Em.
Qed.

Lemma dot_comm (u v : vector) : dot u v = dot v u.
Proof.
  revert v; induction u as [|x u IH]; intros [|y v]; simpl; try reflexivity.
  rewrite IH; lia.
Qed.

Lemma dot_unit_l (m a : nat) (f : nat -> Z) :
  (a < m)%nat -> dot (unit_col m a) (map f (range 0 m)) = f a.
Proof.
  intros Ha; rewrite dot_comm, unit_col_tabulate, range_0_seq.
  pose proof (dot_indicator a (map f (seq 0 m)) 0) as Hd.
  rewrite length_map, length_seq in Hd; rewrite Hd; simpl.
  rewrite Nat.sub_0_r, <- range_0_seq.
  apply (nth_tabulate f); exact Ha.
Qed.

Lemma codeword_of_tabulate_nth (k0 n0 : nat) (g : nat -> nat -> Z)
    (m : vector) (c : nat) :
  (c < n0)%nat ->
  nth c (codeword_of n0 (tabulate2 k0 n0 g) m) 0 =
  dot (mod2 m) (map (fun i => g i c) (range 0 k0)) mod 2.
Proof.
  intros Hc; unfold codeword_of, vecmat; rewrite mod2_map.
  rewrite (nth_tabulate _ n0 c 0 Hc), column_tabulate2 by exact Hc.
  reflexivity.
Qed.

(** The codeword of a unit message is a row of the generator matrix. *)
Lemma codeword_of_unit (k0 n0 : nat) (g : nat -> nat -> Z) (a : nat) :
  (a < k0)%nat -> (forall c, (c < n0)%nat -> is_bit (g a c)) ->
  codeword_of n0 (tabulate2 k0 n0 g) (unit_col k0 a) =
  map (g a) (range 0 n0).
Proof.
  intros Ha Hg; unfold codeword_of, vecmat; rewrite mod2_map.
  apply map_ext_in; intros c Hc; apply in_range in Hc.
  rewrite column_tabulate2, (mod2_of_bits _ (unit_col_bits k0 a)) by lia.
  rewrite dot_unit_l by exact Ha.
  destruct (Hg c ltac:(lia)) as [-> | ->]; reflexivity.
Qed.

(** ** The Hamming codes: entries of the generator matrix *)

Lemma two_set_bits (r : nat) (x : Z) :
  0 < x < 2 ^ Z.of_nat r ->
  (forall e, (e < r)%nat -> x <> 2 ^ Z.of_nat e) ->
  exists e1 e2, (e1 < r)%nat /\ (e2 < r)%nat /\ e1 <> e2 /\
                Z.testbit x (Z.of_nat e1) = true /\
                Z.testbit x (Z.of_nat e2) = true.
Proof.
  intros Hx Hnp.
  pose proof (Z.log2_spec x ltac:(lia)) as Hlog.
  pose proof (Z.log2_nonneg x) as Hnn.
  assert (Hlt : Z.log2 x < Z.of_nat r) by (apply Z.log2_lt_pow2; lia).
  assert (Hne : x <> 2 ^ Z.log2 x).
  { intros E; apply (Hnp (Z.to_nat (Z.log2 x))); [lia|].
    rewrite Z2Nat.id by lia; exact E. }
  set (x' := x - 2 ^ Z.log2 x).
  assert (Hx' : 0 < x' < 2 ^ Z.log2 x).
  { unfold x'; rewrite Z.pow_succ_r in Hlog by lia; lia. }
  pose proof (Z.log2_nonneg x') as Hnn'.
  assert (Hlt' : Z.log2 x' < Z.log2 x) by (apply Z.log2_lt_pow2; lia).
  exists (Z.to_nat (Z.log2 x)), (Z.to_nat (Z.log2 x')).
  rewrite !Z2Nat.id by lia.
  repeat split; try lia.
  - apply Z.bit_log2; lia.
  - assert (Emod : x' = x mod 2 ^ Z.log2 x).
    { apply Z.mod_unique with (q := 1); unfold x'; lia. }
    rewrite <- (Z.mod_pow2_bits_low x (Z.log2 x)) by lia.
    rewrite <- Emod; apply Z.bit_log2; lia.
Qed.

Lemma differing_bit (r : nat) (x y : Z) :
  0 <= x < 2 ^ Z.of_nat r -> 0 <= y < 2 ^ Z.of_nat r -> x <> y ->
  exists e, (e < r)%nat /\
            Z.testbit x (Z.of_nat e) <> Z.testbit y (Z.of_nat e).
Proof.
  intros Hx Hy Hne.
  assert (Hz : Z.lxor x y <> 0).
  { intros E; apply Hne, Z.lxor_eq, E. }
  assert (Hz0 : 0 <= Z.lxor x y) by (apply Z.lxor_nonneg; lia).
  pose proof (Z.log2_nonneg (Z.lxor x y)) as Hnn.
  pose proof (Z.bit_log2 (Z.lxor x y) ltac:(lia)) as Hbit.
  rewrite Z.lxor_spec in Hbit.
  exists (Z.to_nat (Z.log2 (Z.lxor x y))).
  rewrite Z2Nat.id by lia.
  split.
  - destruct (Z.lt_ge_cases (Z.log2 (Z.lxor x y)) (Z.of_nat r)); [lia|].
    rewrite (testbit_above x r), (testbit_above y r) in Hbit by lia.
    discriminate.
  - intros E; rewrite E in Hbit.
    destruct (Z.testbit y _); discriminate.
Qed.

Section HammingEntries.

Variable r : nat.
Hypothesis Hr : (2 <= r)%nat.

Let n0 : nat := (2 ^ r - 1)%nat.
Let k0 : nat := (n0 - r)%nat.
Let info : list nat := info_positions_of r n0.
Let p (i : nat) : nat := nth i info 0%nat.
Let g : nat -> nat -> Z := hamming_entry r n0.

Lemma hamming_info_length : length info = k0.
Proof. apply info_positions_length. Qed.

Lemma hamming_dimension_pos : (1 <= k0)%nat /\ (3 <= n0)%nat.
Proof.
  unfold k0, n0.
  assert (Hgen : forall s, (2 ^ (2 + s) >= 2 + s + 2)%nat).
  { induction s as [|s IH]; [simpl; lia|].
    replace (2 + S s)%nat with (S (2 + s)) by lia.
    rewrite Nat.pow_succ_r'; lia. }
  specialize (Hgen (r - 2)%nat).
  replace (2 + (r - 2))%nat with r in Hgen by lia; lia.
Qed.

Lemma hamming_info_position (i : nat) :
  (i < k0)%nat ->
  (p i < n0)%nat /\ forall j, (j < r)%nat -> p i <> parity_position r j.
Proof.
  intros Hi; apply (info_position_nth r n0 i).
  fold info; rewrite hamming_info_length; exact Hi.
Qed.

Lemma hamming_info_injective (i i' : nat) :
  (i < k0)%nat -> (i' < k0)%nat -> p i = p i' -> i = i'.
Proof.
  intros Hi Hi' E.
  apply (proj1 (NoDup_nth info 0%nat) (info_positions_NoDup r n0));
    rewrite ?hamming_info_length; assumption.
Qed.

Lemma hamming_entry_info (i i' : nat) :
  (i < k0)%nat -> (i' < k0)%nat ->
  g i' (p i) = if Nat.eqb i' i then 1 else 0.
Proof.
  intros Hi Hi'; unfold g, hamming_entry.
  rewrite find_parity_position_none by (apply hamming_info_position, Hi).
  fold info; fold (p i').
  destruct (Nat.eqb_spec (p i) (p i')) as [E | E],
           (Nat.eqb_spec i' i) as [E' | E']; try reflexivity.
  - exfalso; apply E'; symmetry; apply hamming_info_injective; auto.
  - exfalso; apply E; congruence.
Qed.

Lemma hamming_entry_parity (i j : nat) :
  (j < r)%nat -> g i (parity_position r j) = hamming_bit r j (p i).
Proof.
  intros Hj; unfold g, hamming_entry.
  rewrite find_parity_position_some by exact Hj; reflexivity.
Qed.

Lemma hamming_entry_bit (i c : nat) : is_bit (g i c).
Proof.
  unfold g, hamming_entry, hamming_bit.
  destruct (find _ _).
  - destruct (Z.testbit _ _); [right | left]; reflexivity.
  - destruct (Nat.eqb _ _); [right | left]; reflexivity.
Qed.

Lemma hamming_bit_testbit (j c : nat) (b : bool) :
  Z.testbit (Z.of_nat c + 1) (Z.of_nat (r - 1 - j)) = b ->
  hamming_bit r j c = Z.b2z b.
Proof. unfold hamming_bit; intros ->; reflexivity. Qed.

Lemma hamming_column_value (c : nat) :
  (c < n0)%nat -> 0 < Z.of_nat c + 1 < 2 ^ Z.of_nat r.
Proof.
  intros Hc; rewrite <- pow2_nat_Z; unfold n0 in Hc.
  pose proof (pow2_nat_pos r); lia.
Qed.

(** The row of a message bit has weight at least 3. *)
Lemma hamming_row_weight (a : nat) :
  (a < k0)%nat -> 3 <= vsum (map (g a) (range 0 n0)).
Proof.
  intros Ha.
  destruct (hamming_info_position a Ha) as (Hp & Hnq).
  destruct (two_set_bits r (Z.of_nat (p a) + 1)) as
    (e1 & e2 & He1 & He2 & Hne & B1 & B2).
  { apply hamming_column_value, Hp. }
  { intros e He E.
    apply (Hnq (r - 1 - e)%nat); [lia|].
    unfold parity_position.
    replace (r - 1 - (r - 1 - e))%nat with e by lia.
    rewrite <- pow2_nat_Z in E; lia. }
  set (j1 := (r - 1 - e1)%nat); set (j2 := (r - 1 - e2)%nat).
  assert (Hlen : length (map (g a) (range 0 n0)) = n0).
  { rewrite length_map, range_length; lia. }
  pose proof (parity_position_lt r j1 ltac:(unfold j1; lia)) as Hq1.
  pose proof (parity_position_lt r j2 ltac:(unfold j2; lia)) as Hq2.
  apply (three_ones _ (p a) (parity_position r j1) (parity_position r j2));
    rewrite ?Hlen; try assumption.
  - apply Forall_map, Forall_forall; intros c _; apply hamming_entry_bit.
  - apply Hnq; unfold j1; lia.
  - apply Hnq; unfold j2; lia.
  - intros E; apply parity_position_injective in E; unfold j1, j2 in *; lia.
  - rewrite (nth_tabulate (g a)) by exact Hp.
    rewrite (hamming_entry_info a a Ha Ha), Nat.eqb_refl; reflexivity.
  - rewrite (nth_tabulate (g a)) by exact Hq1.
    rewrite hamming_entry_parity by (unfold j1; lia).
    apply (hamming_bit_testbit j1 (p a) true).
    unfold j1; replace (r - 1 - (r - 1 - e1))%nat with e1 by lia; exact B1.
  - rewrite (nth_tabulate (g a)) by exact Hq2.
    rewrite hamming_entry_parity by (unfold j2; lia).
    apply (hamming_bit_testbit j2 (p a) true).
    unfold j2; replace (r - 1 - (r - 1 - e2))%nat with e2 by lia; exact B2.
Qed.

(** The sum of the rows of two message bits has weight at least 3. *)
Lemma hamming_two_rows_weight (a b : nat) :
  (a < k0)%nat -> (b < k0)%nat -> a <> b ->
  3 <= vsum (mod2 (vec_add (map (g a) (range 0 n0))
                           (map (g b) (range 0 n0)))).
Proof.
  intros Ha Hb Hab.
  destruct (hamming_info_position a Ha) as (Hpa & Hnqa).
  destruct (hamming_info_position b Hb) as (Hpb & Hnqb).
  assert (Hpab : p a <> p b).
  { intros E; apply Hab, hamming_info_injective; auto. }
  destruct (differing_bit r (Z.of_nat (p a) + 1) (Z.of_nat (p b) + 1))
    as (e & He & Hdiff).
  { pose proof (hamming_column_value (p a) Hpa); lia. }
  { pose proof (hamming_column_value (p b) Hpb); lia. }
  { lia. }
  set (j := (r - 1 - e)%nat).
  pose proof (parity_position_lt r j ltac:(unfold j; lia)) as Hq.
  rewrite vec_add_map, mod2_map.
  set (w := map (fun c => (g a c + g b c) mod 2) (range 0 n0)).
  assert (Hlen : length w = n0).
  { unfold w; rewrite length_map, range_length; lia. }
  assert (Hnth : forall c, (c < n0)%nat ->
                           nth c w 0 = (g a c + g b c) mod 2).
  { intros c Hc; unfold w.
    apply (nth_tabulate (fun c => (g a c + g b c) mod 2)); exact Hc. }
  apply (three_ones w (p a) (p b) (parity_position r j));
    rewrite ?Hlen; try assumption.
  - unfold w; rewrite <- mod2_map; apply mod2_bits.
  - apply Hnqa; unfold j; lia.
  - apply Hnqb; unfold j; lia.
  - rewrite Hnth by exact Hpa.
    rewrite (hamming_entry_info a a Ha Ha), (hamming_entry_info a b Ha Hb).
    rewrite Nat.eqb_refl.
    destruct (Nat.eqb_spec b a); [congruence | reflexivity].
  - rewrite Hnth by exact Hpb.
    rewrite (hamming_entry_info b a Hb Ha), (hamming_entry_info b b Hb Hb).
    rewrite Nat.eqb_refl.
    destruct (Nat.eqb_spec a b); [congruence | reflexivity].
  - rewrite Hnth by exact Hq.
    rewrite !hamming_entry_parity by (unfold j; lia).
    unfold hamming_bit, j.
    replace (r - 1 - (r - 1 - e))%nat with e by lia.
    destruct (Z.testbit (Z.of_nat (p a) + 1) (Z.of_nat e)),
             (Z.testbit (Z.of_nat (p b) + 1) (Z.of_nat e));
      try reflexivity; contradiction Hdiff; reflexivity.
Qed.

End HammingEntries.

(** ** The Hamming codes: minimum distance 3 *)

Lemma vsum_map_zero {A : Type} (f : A -> Z) (l : list A) :
  (forall a, In a l -> f a = 0) -> vsum (map f l) = 0.
Proof.
  induction l as [|a l IH]; intros Hf; [reflexivity|].
  simpl map; rewrite vsum_cons, (Hf a), IH; [reflexivity | | left; reflexivity].
  intros a' Ha'; apply Hf; right; exact Ha'.
Qed.

Lemma range_cons (a b : nat) :
  (a < b)%nat -> range a b = a :: range (S a) b.
Proof.
  intros Hab; unfold range.
  replace (b - a)%nat with (S (b - S a)) by lia; reflexivity.
Qed.

Lemma hamming_codeword_info (r : nat) (m : vector) (i : nat) :
  let n0 := (2 ^ r - 1)%nat in
  let k0 := (n0 - r)%nat in
  length m = k0 -> bits m -> (i < k0)%nat ->
  nth (nth i (info_positions_of r n0) 0%nat)
      (codeword_of n0 (tabulate2 k0 n0 (hamming_entry r n0)) m) 0 =
  nth i m 0.
Proof.
  intros n0 k0 Hlen Hm Hi.
  destruct (hamming_info_position r i Hi) as (Hp & _).
  rewrite codeword_of_tabulate_nth by exact Hp.
  rewrite (mod2_of_bits m Hm).
  rewrite (map_ext_in _ (fun i' => if Nat.eqb i' i then 1 else 0)).
  - rewrite range_0_seq.
    pose proof (dot_indicator i m 0) as Hd.
    rewrite Hlen in Hd; rewrite Hd; simpl; rewrite Nat.sub_0_r.
    unfold bits in Hm; rewrite Forall_forall in Hm.
    destruct (Hm (nth i m 0)) as [-> | ->]; try reflexivity.
    apply nth_In; lia.
  - intros i' Hi'; apply in_range in Hi'.
    apply hamming_entry_info; lia.
Qed.

(** Every non-zero message has a codeword of weight at least 3. *)
Lemma hamming_min_weight (r : nat) (m : vector) :
  (2 <= r)%nat ->
  let n0 := (2 ^ r - 1)%nat in
  let k0 := (n0 - r)%nat in
  length m = k0 -> bits m -> m <> zeros k0 ->
  3 <= vsum (codeword_of n0 (tabulate2 k0 n0 (hamming_entry r n0)) m).
Proof.
  intros Hr n0 k0 Hlen Hm Hnz.
  destruct (weight_cases m Hm) as (_ & H1 & H2).
  rewrite <- Hlen in Hnz.
  pose proof (bits_nonzero_vsum m Hm Hnz) as Hpos.
  rewrite Hlen in H1, H2.
  destruct (Z.eq_dec (vsum m) 1) as [E1 | N1].
  { destruct (H1 E1) as (a & Ha & ->).
    rewrite codeword_of_unit by (lia || intros; apply hamming_entry_bit).
    apply hamming_row_weight; [exact Hr | exact Ha]. }
  destruct (Z.eq_dec (vsum m) 2) as [E2 | N2].
  { destruct (H2 E2) as (a & b & Hab & Hb & ->).
    rewrite codeword_of_xor by (rewrite !unit_col_length; reflexivity).
    rewrite !codeword_of_unit by (lia || intros; apply hamming_entry_bit).
    apply hamming_two_rows_weight; [exact Hr | lia | lia | lia]. }
  set (w := codeword_of n0 (tabulate2 k0 n0 (hamming_entry r n0)) m).
  set (info := info_positions_of r n0).
  pose proof (vsum_positions info w (codeword_of_bits _ _ _)
                (info_positions_NoDup r n0)) as Hsum.
  assert (Hinfo : length info = k0) by apply info_positions_length.
  assert (Em : map (fun p => nth p w 0) info = m).
  { rewrite <- (map_nth_range_gen info 0%nat) at 1.
    rewrite map_map, Hinfo, <- (map_nth_range_gen m 0), Hlen.
    apply map_ext_in; intros i Hi; apply in_range in Hi.
    apply hamming_codeword_info; [exact Hlen | exact Hm | lia]. }
  rewrite Em in Hsum.
  assert (vsum m <= vsum w); [|lia].
  apply Hsum; intros p Hp; unfold w; rewrite codeword_of_length.
  apply info_positions_spec in Hp; tauto.
Qed.

Lemma pow2_not_3 (e : nat) : (2 ^ e <> 3)%nat.
Proof.
  destruct e as [|[|e]]; simpl; lia.
Qed.

Lemma hamming_first_info (r : nat) :
  (2 <= r)%nat -> nth 0 (info_positions_of r (2 ^ r - 1)) 0%nat = 2%nat.
Proof.
  intros Hr.
  destruct (hamming_dimension_pos r Hr) as (_ & Hn).
  unfold info_positions_of.
  set (qs := map (parity_position r) (range 0 r)).
  rewrite (range_cons 0 (2 ^ r - 1)), (range_cons 1 (2 ^ r - 1)),
    (range_cons 2 (2 ^ r - 1)) by lia.
  assert (H0 : existsb (Nat.eqb 0) qs = true).
  { apply existsb_nat_In, in_map_iff; exists (r - 1)%nat; split.
    - unfold parity_position.
      replace (r - 1 - (r - 1))%nat with 0%nat by lia; reflexivity.
    - apply in_range; lia. }
  assert (H1 : existsb (Nat.eqb 1) qs = true).
  { apply existsb_nat_In, in_map_iff; exists (r - 2)%nat; split.
    - unfold parity_position.
      replace (r - 1 - (r - 2))%nat with 1%nat by lia; reflexivity.
    - apply in_range; lia. }
  assert (H2 : existsb (Nat.eqb 2) qs = false).
  { destruct (existsb (Nat.eqb 2) qs) eqn:E; [|reflexivity].
    apply existsb_nat_In, in_map_iff in E as (j & E & _).
    unfold parity_position in E.
    pose proof (pow2_nat_pos (r - 1 - j)).
    exfalso; apply (pow2_not_3 (r - 1 - j)); lia. }
  cbn [filter]; rewrite H0, H1, H2; reflexivity.
Qed.

(** The codeword of the first message bit has weight exactly 3. *)
Lemma hamming_first_row_weight (r : nat) :
  (2 <= r)%nat ->
  vsum (map (hamming_entry r (2 ^ r - 1) 0) (range 0 (2 ^ r - 1))) = 3.
Proof.
  intros Hr.
  destruct (hamming_dimension_pos r Hr) as (Hk & Hn).
  pose proof (hamming_first_info r Hr) as Hp0.
  rewrite (range_cons 0 (2 ^ r - 1)), (range_cons 1 (2 ^ r - 1)),
    (range_cons 2 (2 ^ r - 1)) by lia.
  simpl map; rewrite !vsum_cons.
  assert (Q0 : parity_position r (r - 1) = 0%nat).
  { unfold parity_position.
    replace (r - 1 - (r - 1))%nat with 0%nat by lia; reflexivity. }
  assert (Q1 : parity_position r (r - 2) = 1%nat).
  { unfold parity_position.
    replace (r - 1 - (r - 2))%nat with 1%nat by lia; reflexivity. }
  assert (E0 : hamming_entry r (2 ^ r - 1) 0 0 = 1).
  { pose proof (hamming_entry_parity r 0 (r - 1) ltac:(lia)) as E.
    cbv beta in E; rewrite Q0, Hp0 in E; rewrite E; unfold hamming_bit.
    replace (r - 1 - (r - 1))%nat with 0%nat by lia; reflexivity. }
  assert (E1 : hamming_entry r (2 ^ r - 1) 0 1 = 1).
  { pose proof (hamming_entry_parity r 0 (r - 2) ltac:(lia)) as E.
    cbv beta in E; rewrite Q1, Hp0 in E; rewrite E; unfold hamming_bit.
    replace (r - 1 - (r - 2))%nat with 1%nat by lia; reflexivity. }
  assert (E2 : hamming_entry r (2 ^ r - 1) 0 2 = 1).
  { pose proof (hamming_entry_info r 0 0 ltac:(lia) ltac:(lia)) as E.
    cbv beta in E; rewrite Hp0 in E; exact E. }
  rewrite E0, E1, E2, vsum_map_zero; [reflexivity|].
  intros c Hc; apply in_range in Hc.
  unfold hamming_entry; rewrite Hp0.
  destruct (find _ (range 0 r)) as [j|] eqn:Hf.
  - apply find_some in Hf as (Hj & Ej).
    apply in_range in Hj; apply Nat.eqb_eq in Ej.
    unfold parity_position in Ej; unfold hamming_bit.
    assert (He : (2 <= r - 1 - j)%nat).
    { destruct (r - 1 - j)%nat as [|[|e]]; simpl in Ej; lia. }
    rewrite (testbit_above 3 2) by (simpl; lia); reflexivity.
  - destruct (Nat.eqb_spec c 2); [lia | reflexivity].
Qed.

Lemma to_nat_pow2_minus_1 (r : Z) :
  0 <= r -> Z.to_nat (2 ^ r - 1) = (2 ^ Z.to_nat r - 1)%nat.
Proof.
  intros Hr.
  assert (H1 : 1 <= 2 ^ r) by (apply Z.pow_pos_nonneg with (a := 2) in Hr; lia).
  rewrite Z2Nat.inj_sub, Z2Nat.inj_pow by lia; reflexivity.
Qed.

(** C4: for every [r >= 2], [hamming_code(r)] returns a code with
    [n = 2^r - 1], [k = 2^r - r - 1] and [d = 3]; [hamming_code(3)] is a
    [(7, 4, 3)] code on which [encode([1, 0, 1, 1])] is a word of 7 bits
    with zero syndrome; below 2 the function raises [ValueError]. *)
Theorem hamming_code_parameters :
  (forall r, 2 <= r ->
     exists c, hamming_code r = OK c /\
       Z.of_nat (n c) = 2 ^ r - 1 /\
       Z.of_nat (k c) = 2 ^ r - r - 1 /\
       d c = 3) /\
  (exists c w,
     hamming_code 3 = OK c /\
     n c = 7%nat /\ k c = 4%nat /\ d c = 3 /\
     encode c [1; 0; 1; 1] = OK w /\ length w = 7%nat /\
     syndrome c w = OK [0; 0; 0]) /\
  (forall r, r < 2 -> hamming_code r = Err ValueError).
Proof.
  split; [|split].
  - intros r Hr; unfold hamming_code.
    destruct (Z.ltb_spec r 2); [lia|].
    rewrite to_nat_pow2_minus_1 by lia.
    set (rn := Z.to_nat r).
    assert (Hrn : (2 <= rn)%nat) by (unfold rn; lia).
    rewrite (hamming_generator_value rn Hrn); simpl bind.
    set (n0 := (2 ^ rn - 1)%nat); set (k0 := (n0 - rn)%nat).
    set (G0 := tabulate2 k0 n0 (hamming_entry rn n0)).
    destruct (hamming_dimension_pos rn Hrn) as (Hk & Hn).
    destruct (tabulate2_shape k0 n0 (hamming_entry rn n0)) as (Hsh & Hlen).
    fold G0 in Hsh, Hlen.
    assert (Hbits : Forall bits G0).
    { apply tabulate2_bits; intros; apply hamming_entry_bit. }
    destruct (init_value n0 G0 Hsh) as (c & Hc & EG & Ek & En & Ed).
    { rewrite Hlen; unfold k0; lia. }
    rewrite (map_mod2_bits _ Hbits), Hlen in Ed; rewrite Hlen in Ek.
    exists c; split; [exact Hc|].
    assert (Hpow : Z.of_nat (2 ^ rn) = 2 ^ r).
    { rewrite pow2_nat_Z; unfold rn; rewrite Z2Nat.id by lia; reflexivity. }
    pose proof (pow2_nat_pos rn).
    repeat split.
    + rewrite En; unfold n0; lia.
    + rewrite Ek; unfold k0, n0, rn in *; lia.
    + rewrite Ed; apply minimum_distance_linear.
      * intros m Hl Hm Hnz; apply (hamming_min_weight rn m Hrn Hl Hm Hnz).
      * exists (unit_col k0 0); repeat split.
        -- apply unit_col_length.
        -- apply unit_col_bits.
        -- unfold unit_col, zeros, k0 in *.
           destruct (n0 - rn)%nat eqn:E; [lia | discriminate].
        -- unfold G0; rewrite codeword_of_unit
             by (lia || intros; apply hamming_entry_bit).
           apply hamming_first_row_weight, Hrn.
  - eexists; eexists; split; [vm_compute; reflexivity|].
    repeat split.
  - intros r Hr; unfold hamming_code.
    destruct (Z.ltb_spec r 2); [reflexivity | lia].
Qed.

Lemma hamming_code_parameters_witness :
  (2 <= 4 /\
   exists c, hamming_code 4 = OK c /\
     Z.of_nat (n c) = 2 ^ 4 - 1 /\
     Z.of_nat (k c) = 2 ^ 4 - 4 - 1 /\
     d c = 3) /\
  (1 < 2 /\ hamming_code 1 = Err ValueError).
Proof.
  destruct hamming_code_parameters as (Hgen & _ & Hlow).
  split; (split; [lia|]).
  - apply (Hgen 4); lia.
  - apply (Hlow 1); lia.
Defined.

(** * Further properties of the code engine *)

(** ** What the constructor accepts and what it stores *)

Lemma get2_error (A : matrix) (r c : nat) (e : exn) :
  get2 A r c = Err e -> e = IndexError.
Proof.
  unfold get2; destruct (nth_error A r) as [row|]; [|congruence].
  destruct (nth_error row c); congruence.
Qed.

Lemma get_row_error (A : matrix) (r : nat) (e : exn) :
  get_row A r = Err e -> e = IndexError.
Proof. unfold get_row; destruct (nth_error A r); congruence. Qed.

Lemma bind_Err {A B : Type} (m : result A) (f : A -> result B) (e : exn) :
  bind m f = Err e -> m = Err e \/ exists a, m = OK a /\ f a = Err e.
Proof.
  destruct m as [a|e']; simpl; intros Hb.
  - right; exists a; split; [reflexivity | exact Hb].
  - left; injection Hb as ->; reflexivity.
Qed.

Lemma find_pivot_error (A : matrix) (i : nat) (js : list nat) (p0 : nat)
    (e : exn) :
  find_pivot A i js p0 = Err e -> e = IndexError.
Proof.
  induction js as [|j js IH]; simpl; [discriminate|]; intros Hf.
  apply bind_Err in Hf as [Hg | (v & _ & Hf)]; [eapply get2_error; eauto|].
  destruct (v =? 1); [discriminate | auto].
Qed.

Lemma swap_rows_error (A : matrix) (i p : nat) (e : exn) :
  swap_rows A i p = Err e -> e = IndexError.
Proof.
  unfold swap_rows; intros Hs.
  apply bind_Err in Hs as [Hg | (ri & _ & Hs)]; [eapply get_row_error; eauto|].
  apply bind_Err in Hs as [Hg | (rp & _ & Hs)]; [eapply get_row_error; eauto|].
  discriminate.
Qed.

Lemma eliminate_error (i : nat) (js : list nat) (e : exn) :
  forall A, eliminate A i js = Err e -> e = IndexError.
Proof.
  induction js as [|j js IH]; simpl; intros A He; [discriminate|].
  destruct (Nat.eqb j i); [eauto|].
  apply bind_Err in He as [Hg | (v & _ & He)]; [eapply get2_error; eauto|].
  destruct (v =? 1); [|eauto].
  apply bind_Err in He as [Hg | (rj & _ & He)]; [eapply get_row_error; eauto|].
  apply bind_Err in He as [Hg | (ri & _ & He)]; [eapply get_row_error; eauto|].
  eauto.
Qed.

Lemma gauss_error (k0 : nat) (l : list nat) (e : exn) :
  forall A, gauss A k0 l = Err e -> e = IndexError.
Proof.
  induction l as [|i l IH]; simpl; intros A Hg; [discriminate|].
  apply bind_Err in Hg as [Hp | (p & _ & Hg)];
    [eapply find_pivot_error; eauto|].
  apply bind_Err in Hg as [Hv | (v & _ & Hg)]; [eapply get2_error; eauto|].
  destruct (v =? 0); [eauto|].
  apply bind_Err in Hg as [H1 | (A1 & _ & Hg)].
  { destruct (Nat.eqb p i); [discriminate | eapply swap_rows_error; eauto]. }
  apply bind_Err in Hg as [H2 | (A2 & _ & Hg)];
    [eapply eliminate_error; eauto | eauto].
Qed.

Lemma init_rejects (n0 : nat) (G0 : matrix) :
  rows_of_length n0 G0 -> (n0 < length G0)%nat ->
  init n0 G0 = Err IndexError.
Proof.
  intros HG Hk.
  destruct (init n0 G0) as [c|e] eqn:Hi.
  - pose proof (proj1 (init_accepts n0 G0) (ex_intro _ c Hi)); lia.
  - f_equal; unfold init in Hi.
    assert (Hf : forallb (fun row => Nat.eqb (length row) n0) G0 = true).
    { apply forallb_forall; intros row Hrow; apply Nat.eqb_eq.
      unfold rows_of_length in HG; rewrite Forall_forall in HG; auto. }
    rewrite Hf, compute_minimum_distance_value in Hi; simpl in Hi.
    apply bind_Err in Hi as [Hc | (H0 & _ & Hi)]; [|discriminate].
    unfold compute_parity_check_matrix in Hc.
    apply bind_Err in Hc as [Hg | (A & Hg & Hc)];
      [eapply gauss_error; eauto|].
    exfalso; eapply (gauss_past_columns n0); [| |exact Hg].
    + apply augmented_shape, mod2_rows_shape, HG.
    + apply Exists_exists; exists n0; split; [apply in_range|];
        rewrite ?length_map; lia.
Qed.

(** Entries stay bits through the elimination. *)
Lemma swap_rows_bits (A A' : matrix) (i p : nat) :
  swap_rows A i p = OK A' -> Forall bits A -> Forall bits A'.
Proof.
  unfold swap_rows; intros Hs HA.
  apply bind_OK in Hs as (ri & Hri & Hs).
  apply bind_OK in Hs as (rp & Hrp & Hs).
  inversion Hs; subst; clear Hs.
  apply get_row_inv, nth_error_In in Hri, Hrp.
  pose proof (proj1 (Forall_forall _ _) HA) as Hin.
  apply set_nth_Forall; [apply set_nth_Forall|]; auto.
Qed.

Lemma eliminate_bits (i : nat) (js : list nat) :
  forall A A', eliminate A i js = OK A' -> Forall bits A -> Forall bits A'.
Proof.
  induction js as [|j js IH]; simpl; intros A A' He HA.
  - inversion He; subst; auto.
  - destruct (Nat.eqb j i); [eauto|].
    apply bind_OK in He as (v & Hv & He).
    destruct (v =? 1); [|eauto].
    apply bind_OK in He as (rj & Hrj & He).
    apply bind_OK in He as (ri & Hri & He).
    eapply IH; [exact He|].
    apply set_nth_Forall; [exact HA | apply mod2_bits].
Qed.

Lemma gauss_bits (k0 : nat) (l : list nat) :
  forall A A', gauss A k0 l = OK A' -> Forall bits A -> Forall bits A'.
Proof.
  induction l as [|i l IH]; simpl; intros A A' Hg HA.
  - inversion Hg; subst; auto.
  - apply bind_OK in Hg as (p & Hp & Hg).
    apply bind_OK in Hg as (v & Hv & Hg).
    destruct (v =? 0); [eauto|].
    apply bind_OK in Hg as (A1 & HA1 & Hg).
    apply bind_OK in Hg as (A2 & HA2 & Hg).
    assert (H1 : Forall bits A1).
    { destruct (Nat.eqb p i).
      - inversion HA1; subst; auto.
      - eapply swap_rows_bits; eauto. }
    eapply IH; [exact Hg|].
    eapply eliminate_bits; eauto.
Qed.

Lemma get2_inv (A : matrix) (r c : nat) (v : Z) :
  get2 A r c = OK v -> exists row, In row A /\ In v row.
Proof.
  unfold get2; intros Hg.
  destruct (nth_error A r) as [row|] eqn:Hr; [|discriminate].
  destruct (nth_error row c) as [x|] eqn:Hc; [|discriminate].
  injection Hg as <-; exists row; split; eapply nth_error_In; eauto.
Qed.

Lemma mapM_Forall {A B : Type} (f : A -> result B) (P : B -> Prop)
    (l : list A) (bs : list B) :
  mapM f l = OK bs -> (forall a b, In a l -> f a = OK b -> P b) ->
  Forall P bs.
Proof.
  revert bs; induction l as [|a l IH]; simpl; intros bs Hm HP.
  - inversion Hm; constructor.
  - apply bind_OK in Hm as (b & Hb & Hm).
    apply bind_OK in Hm as (bs' & Hbs & Hm).
    inversion Hm; subst; constructor; eauto.
Qed.

Lemma eye_bits (n0 : nat) : Forall bits (eye n0).
Proof.
  unfold eye; apply Forall_map, Forall_forall; intros i _.
  apply Forall_map, Forall_forall; intros j _.
  destruct (Nat.eqb i j); [right | left]; reflexivity.
Qed.

Lemma compute_parity_check_matrix_shape (G0 : matrix) (k0 n0 : nat)
    (H0 : matrix) :
  Forall bits G0 ->
  compute_parity_check_matrix G0 k0 n0 = OK H0 ->
  rows_of_length n0 H0 /\ Forall bits H0.
Proof.
  intros HG Hc; unfold compute_parity_check_matrix in Hc.
  apply bind_OK in Hc as (A & HA & Hc).
  apply bind_OK in Hc as (rows & Hrows & Hc).
  assert (HAb : Forall bits A).
  { eapply gauss_bits; [exact HA|].
    apply Forall_app; split; [exact HG | apply eye_bits]. }
  assert (Hr : rows_of_length n0 rows /\ Forall bits rows).
  { destruct (0 <? Z.of_nat n0 - Z.of_nat k0);
      [|inversion Hrows; split; constructor].
    split.
    - eapply mapM_Forall; [exact Hrows|]; intros i row _ Hrow.
      apply mapM_length in Hrow; rewrite range_length in Hrow; lia.
    - eapply mapM_Forall; [exact Hrows|]; intros i row _ Hrow.
      eapply mapM_Forall; [exact Hrow|]; intros j v _ Hv; simpl in Hv.
      destruct (Nat.ltb j k0).
      + destruct (Nat.ltb j (length A));
          [|injection Hv as <-; left; reflexivity].
        apply get2_inv in Hv as (r & Hin & Hv).
        pose proof (proj1 (Forall_forall _ _) HAb r Hin) as Hb.
        apply (proj1 (Forall_forall _ _) Hb v Hv).
      + destruct (Nat.eqb j i); injection Hv as <-; [right | left];
          reflexivity. }
  destruct rows as [|row rows'].
  - destruct (Nat.ltb k0 n0); inversion Hc; subst; [|split; constructor].
    destruct (n0 - k0)%nat as [|m]; simpl; [split; constructor|].
    split; constructor;
      try (apply repeat_length || (apply repeat_bits; right; reflexivity)).
    + apply Forall_forall; intros r Hin; apply repeat_spec in Hin; subst.
      apply repeat_length.
    + apply Forall_forall; intros r Hin; apply repeat_spec in Hin; subst.
      apply repeat_bits; left; reflexivity.
  - inversion Hc; subst; exact Hr.
Qed.

(** The constructor returns a code exactly for the arrays with at most as
    many rows as columns, and raises [IndexError] on the others; the code
    stores [G] reduced modulo 2, its shape, and a binary [(n - k) x n]
    matrix [H]. *)
Theorem constructor_outcome (n0 : nat) (G0 : matrix) :
  rows_of_length n0 G0 ->
  ((length G0 <= n0)%nat ->
   exists c, init n0 G0 = OK c /\
     G c = map mod2 G0 /\ k c = length G0 /\ n c = n0 /\
     length (H c) = (n0 - length G0)%nat /\
     rows_of_length n0 (H c) /\ Forall bits (H c) /\
     0 <= d c <= Z.of_nat n0 + 1) /\
  ((n0 < length G0)%nat -> init n0 G0 = Err IndexError).
Proof.
  intros HG; split; [|apply init_rejects, HG].
  intros Hk.
  destruct (proj2 (init_accepts n0 G0) (conj HG Hk)) as (c & Hc).
  exists c; split; [exact Hc|].
  destruct (init_fields _ _ _ Hc) as (_ & EG & Ek & En & Hd & HH).
  repeat split; try assumption.
  - apply parity_check_rows in HH; rewrite Ek, En in HH; exact HH.
  - rewrite <- En.
    eapply compute_parity_check_matrix_shape; [|exact HH].
    rewrite EG; apply Forall_map, Forall_forall; intros row _.
    apply mod2_bits.
  - eapply compute_parity_check_matrix_shape; [|exact HH].
    rewrite EG; apply Forall_map, Forall_forall; intros row _.
    apply mod2_bits.
  - rewrite compute_minimum_distance_value in Hd; injection Hd as <-.
    destruct (min_dist_outer_attained
                (map (codeword_of (n c) (G c)) (product [0; 1] (k c)))
                (Z.of_nat (n c) + 1))
      as [E | (i & j & u & v & _ & _ & _ & E)]; rewrite E; [lia|].
    apply (vsum_bits_bounds _ (mod2_bits (vec_add u v))).
  - rewrite compute_minimum_distance_value in Hd; injection Hd as <-.
    rewrite <- En; apply min_dist_outer_le_init.
Qed.

Lemma constructor_outcome_witness :
  (rows_of_length 3 [[1; 3; 5]; [0; 1; 2]] /\ (2 <= 3)%nat /\
   exists c, init 3 [[1; 3; 5]; [0; 1; 2]] = OK c /\
     G c = [[1; 1; 1]; [0; 1; 0]] /\ k c = 2%nat /\ n c = 3%nat /\
     length (H c) = 1%nat) /\
  (rows_of_length 1 [[1]; [0]] /\ (1 < 2)%nat /\
   init 1 [[1]; [0]] = Err IndexError).
Proof.
  assert (H1 : rows_of_length 3 [[1; 3; 5]; [0; 1; 2]])
    by (repeat constructor).
  assert (H2 : rows_of_length 1 [[1]; [0]]) by (repeat constructor).
  split.
  - split; [exact H1|]; split; [lia|].
    destruct (proj1 (constructor_outcome 3 _ H1) ltac:(simpl; lia))
      as (c & Hc & EG & Ek & En & EH & _).
    exists c; repeat split; assumption.
  - split; [exact H2|]; split; [lia|].
    apply (proj2 (constructor_outcome 1 _ H2)); simpl; lia.
Defined.

(** ** Linearity of [encode] and [syndrome] *)

Lemma mod2_idem (v : vector) : mod2 (mod2 v) = mod2 v.
Proof. apply mod2_of_bits, mod2_bits. Qed.

Lemma codeword_of_mod2 (n0 : nat) (G0 : matrix) (m : vector) :
  codeword_of n0 G0 (mod2 m) = codeword_of n0 G0 m.
Proof. unfold codeword_of; rewrite mod2_idem; reflexivity. Qed.

Lemma codeword_of_add (n0 : nat) (G0 : matrix) (m1 m2 : vector) :
  length m1 = length m2 ->
  codeword_of n0 G0 (vec_add m1 m2) =
  mod2 (vec_add (codeword_of n0 G0 m1) (codeword_of n0 G0 m2)).
Proof.
  intros Hlen; rewrite <- codeword_of_xor by exact Hlen.
  symmetry; apply codeword_of_mod2.
Qed.

Lemma syndrome_as_codeword (c : LinearBlockCode) (received : vector) :
  int64s received -> length received = n c ->
  syndrome c received =
  OK (codeword_of (length (H c)) (transpose (n c) (H c)) received).
Proof. apply syndrome_value. Qed.

Lemma forallb_zero_iff (s : vector) :
  forallb (fun x => x =? 0) s = true <-> s = zeros (length s).
Proof.
  unfold zeros; induction s as [|x s IH]; simpl; [tauto|].
  rewrite andb_true_iff, IH, Z.eqb_eq; split.
  - intros (-> & ->); rewrite repeat_length; reflexivity.
  - intros E; injection E as -> E; rewrite <- E; auto.
Qed.

(** [encode] is a homomorphism for bitwise addition.  For two messages of
    length [k] whose entries fit in 64 bits, the codeword of the XOR of the
    messages is the XOR of their codewords, and [encode] only depends on the
    message modulo 2; on the entry-wise integer sum [encode] gives the same
    word when the sum still fits, and raises [OverflowError] when it does
    not.  The zero message gives the zero word; so the list of
    [get_all_codewords] holds the zero word and is closed under XOR. *)
Theorem encode_is_linear (c : LinearBlockCode) :
  (forall m1 m2, int64s m1 -> int64s m2 ->
     length m1 = k c -> length m2 = k c ->
     exists w1 w2,
       encode c m1 = OK w1 /\ encode c m2 = OK w2 /\
       bits w1 /\ length w1 = n c /\
       encode c (mod2 m1) = OK w1 /\
       encode c (mod2 (vec_add m1 m2)) = OK (mod2 (vec_add w1 w2)) /\
       (int64s (vec_add m1 m2) ->
        encode c (vec_add m1 m2) = OK (mod2 (vec_add w1 w2))) /\
       (~ int64s (vec_add m1 m2) ->
        encode c (vec_add m1 m2) = Err OverflowError)) /\
  encode c (zeros (k c)) = OK (zeros (n c)) /\
  (exists cws, get_all_codewords c = OK cws /\
     In (zeros (n c)) cws /\
     forall u v, In u cws -> In v cws -> In (mod2 (vec_add u v)) cws).
Proof.
  split; [|split].
  - intros m1 m2 F1 F2 H1 H2; unfold encode.
    exists (codeword_of (n c) (G c) m1), (codeword_of (n c) (G c) m2).
    rewrite !encode_with_value by assumption.
    rewrite !encode_with_bits
      by first [apply mod2_bits
               | rewrite ?mod2_length, ?vec_add_length; lia].
    repeat split.
    + apply codeword_of_bits.
    + apply codeword_of_length.
    + rewrite codeword_of_mod2; reflexivity.
    + rewrite codeword_of_mod2, codeword_of_add by congruence; reflexivity.
    + intros F; rewrite encode_with_value
        by first [exact F | rewrite vec_add_length; lia].
      rewrite codeword_of_add by congruence; reflexivity.
    + apply encode_with_overflow.
  - unfold encode; rewrite encode_with_bits;
      [| apply repeat_bits; left; reflexivity | apply repeat_length].
    rewrite codeword_of_zeros; reflexivity.
  - exists (map (codeword_of (n c) (G c)) (product [0; 1] (k c))).
    split; [apply get_all_codewords_with_value|]; split.
    + rewrite <- (codeword_of_zeros (n c) (k c) (G c)).
      apply in_map, zeros_in_product.
    + intros u v Hu Hv.
      apply in_map_iff in Hu as (m1 & <- & H1).
      apply in_map_iff in Hv as (m2 & <- & H2).
      apply product_bits in H1 as (L1 & B1), H2 as (L2 & B2).
      rewrite <- codeword_of_xor by congruence.
      apply in_map, product_bits; split; [|apply mod2_bits].
      rewrite mod2_length, vec_add_length; lia.
Qed.

Lemma encode_is_linear_witness :
  let c := mkCode [[1; 0; 1]; [0; 1; 1]] 2 3 2 [[1; 1; 1]] in
  (exists w1 w2,
     encode c [1; 0] = OK w1 /\ encode c [1; 3] = OK w2 /\
     bits w1 /\ length w1 = n c /\
     encode c (mod2 [1; 0]) = OK w1 /\
     encode c (mod2 (vec_add [1; 0] [1; 3])) = OK (mod2 (vec_add w1 w2)) /\
     encode c (vec_add [1; 0] [1; 3]) = OK (mod2 (vec_add w1 w2))) /\
  encode c (vec_add [2 ^ 62; 0] [2 ^ 62; 0]) = Err OverflowError /\
  (exists cws, get_all_codewords c = OK cws /\
     In (zeros (n c)) cws /\
     In [1; 0; 1] cws /\ In [0; 1; 1] cws /\
     In (mod2 (vec_add [1; 0; 1] [0; 1; 1])) cws).
Proof.
  intros c.
  destruct (encode_is_linear c) as (Hadd & _ & cws & Hall & Hz & Hclosed).
  split; [|split].
  - destruct (Hadd [1; 0] [1; 3]) as (w1 & w2 & E1 & E2 & B & L & Em & Ex & Es & _);
      [closed_int64s | closed_int64s | reflexivity | reflexivity |].
    exists w1, w2.
    split; [exact E1|]; split; [exact E2|]; split; [exact B|].
    split; [exact L|]; split; [exact Em|]; split; [exact Ex|].
    apply Es; simpl; closed_int64s.
  - destruct (Hadd [2 ^ 62; 0] [2 ^ 62; 0]) as (w1 & w2 & _ & _ & _ & _ & _ & _ & _ & Eo);
      [closed_int64s | closed_int64s | reflexivity | reflexivity |].
    apply Eo; intros F; inversion F as [|x l Hx _]; subst.
    unfold is_int64 in Hx; lia.
  - assert (H1 : In [1; 0; 1] cws).
    { injection Hall as <-; right; right; left; reflexivity. }
    assert (H2 : In [0; 1; 1] cws).
    { injection Hall as <-; right; left; reflexivity. }
    exists cws; split; [exact Hall|]; split; [exact Hz|].
    split; [exact H1|]; split; [exact H2|].
    apply (Hclosed _ _ H1 H2).
Defined.

(** [syndrome] is a homomorphism as well, for every matrix [H] the code
    holds.  For two words of length [n] whose entries fit in 64 bits, the
    syndrome of the XOR of the words is the XOR of their syndromes; on the
    entry-wise integer sum [syndrome] gives the same when the sum still
    fits, and raises [OverflowError] when it does not.  The zero word has
    the zero syndrome; so [is_codeword] accepts the zero word and the XOR of
    two accepted words, and their integer sum unless the conversion
    overflows on it. *)
Theorem syndrome_is_linear (c : LinearBlockCode) :
  (forall w1 w2, int64s w1 -> int64s w2 ->
     length w1 = n c -> length w2 = n c ->
     exists s1 s2,
       syndrome c w1 = OK s1 /\ syndrome c w2 = OK s2 /\
       bits s1 /\ length s1 = length (H c) /\
       syndrome c (mod2 (vec_add w1 w2)) = OK (mod2 (vec_add s1 s2)) /\
       (int64s (vec_add w1 w2) ->
        syndrome c (vec_add w1 w2) = OK (mod2 (vec_add s1 s2))) /\
       (~ int64s (vec_add w1 w2) ->
        syndrome c (vec_add w1 w2) = Err OverflowError)) /\
  syndrome c (zeros (n c)) = OK (zeros (length (H c))) /\
  is_codeword c (zeros (n c)) = OK true /\
  (forall w1 w2, is_codeword c w1 = OK true -> is_codeword c w2 = OK true ->
     is_codeword c (mod2 (vec_add w1 w2)) = OK true /\
     (int64s (vec_add w1 w2) ->
      is_codeword c (vec_add w1 w2) = OK true) /\
     (~ int64s (vec_add w1 w2) ->
      is_codeword c (vec_add w1 w2) = Err OverflowError)).
Proof.
  set (S := codeword_of (length (H c)) (transpose (n c) (H c))).
  assert (Hadd : forall w1 w2, length w1 = n c -> length w2 = n c ->
            int64s (vec_add w1 w2) ->
            syndrome c (vec_add w1 w2) = OK (mod2 (vec_add (S w1) (S w2)))).
  { intros w1 w2 H1 H2 F.
    rewrite syndrome_as_codeword
      by first [exact F | rewrite vec_add_length; lia].
    unfold S; rewrite codeword_of_add by congruence; reflexivity. }
  assert (Hxor : forall w1 w2, length w1 = n c -> length w2 = n c ->
            syndrome c (mod2 (vec_add w1 w2)) =
            OK (mod2 (vec_add (S w1) (S w2)))).
  { intros w1 w2 H1 H2.
    rewrite syndrome_as_codeword
      by first [apply bits_int64s, mod2_bits
               | rewrite mod2_length, vec_add_length; lia].
    unfold S; rewrite codeword_of_mod2, codeword_of_add by congruence.
    reflexivity. }
  assert (Hzero : syndrome c (zeros (n c)) = OK (zeros (length (H c)))).
  { rewrite syndrome_as_codeword;
      [| apply bits_int64s, repeat_bits; left; reflexivity
       | apply repeat_length].
    rewrite codeword_of_zeros; reflexivity. }
  split; [|split; [exact Hzero | split]].
  - intros w1 w2 F1 F2 H1 H2; exists (S w1), (S w2).
    rewrite !syndrome_as_codeword by assumption.
    repeat split.
    + apply codeword_of_bits.
    + apply codeword_of_length.
    + apply Hxor; assumption.
    + apply Hadd; assumption.
    + apply syndrome_overflow.
  - unfold is_codeword; rewrite Hzero; simpl; f_equal.
    apply forallb_zero_iff; unfold zeros; rewrite repeat_length; reflexivity.
  - intros w1 w2 H1 H2; unfold is_codeword in *.
    apply bind_OK in H1 as (s1 & Hs1 & Z1), H2 as (s2 & Hs2 & Z2).
    destruct (syndrome_OK_inv _ _ _ Hs1) as (F1 & L1).
    destruct (syndrome_OK_inv _ _ _ Hs2) as (F2 & L2).
    rewrite syndrome_as_codeword in Hs1, Hs2 by assumption.
    injection Hs1 as <-; injection Hs2 as <-.
    injection Z1 as Z1; injection Z2 as Z2.
    apply forallb_zero_iff in Z1, Z2.
    unfold S in Hadd, Hxor.
    rewrite codeword_of_length in Z1, Z2.
    assert (E : mod2 (vec_add (zeros (length (H c))) (zeros (length (H c))))
                = zeros (length (H c))).
    { rewrite xor_self by (apply repeat_bits; left; reflexivity).
      unfold zeros; rewrite repeat_length; reflexivity. }
    assert (Ez : forallb (fun x => x =? 0) (zeros (length (H c))) = true).
    { apply forallb_zero_iff.
      unfold zeros; rewrite repeat_length; reflexivity. }
    split; [|split].
    + rewrite Hxor by assumption; simpl; f_equal.
      rewrite Z1, Z2, E; exact Ez.
    + intros F; rewrite Hadd by assumption; simpl; f_equal.
      rewrite Z1, Z2, E; exact Ez.
    + intros F; rewrite syndrome_overflow by exact F; reflexivity.
Qed.

Lemma syndrome_is_linear_witness :
  let c := mkCode [[1; 0; 1]; [0; 1; 1]] 2 3 2 [[1; 1; 1]] in
  (exists s1 s2,
     syndrome c [1; 0; 1] = OK s1 /\ syndrome c [0; 1; 1] = OK s2 /\
     bits s1 /\ length s1 = length (H c) /\
     syndrome c (mod2 (vec_add [1; 0; 1] [0; 1; 1])) =
     OK (mod2 (vec_add s1 s2)) /\
     syndrome c (vec_add [1; 0; 1] [0; 1; 1]) = OK (mod2 (vec_add s1 s2))) /\
  (is_codeword c [2 ^ 62; 0; 0] = OK true /\
   is_codeword c (mod2 (vec_add [2 ^ 62; 0; 0] [2 ^ 62; 0; 0])) = OK true /\
   is_codeword c (vec_add [2 ^ 62; 0; 0] [2 ^ 62; 0; 0]) =
   Err OverflowError) /\
  (is_codeword c [1; 0; 1] = OK true /\ is_codeword c [0; 1; 1] = OK true /\
   is_codeword c (vec_add [1; 0; 1] [0; 1; 1]) = OK true).
Proof.
  intros c.
  destruct (syndrome_is_linear c) as (Hadd & _ & _ & Hclosed).
  split; [|split].
  - destruct (Hadd [1; 0; 1] [0; 1; 1])
      as (s1 & s2 & E1 & E2 & B & L & Ex & Es & _);
      [closed_int64s | closed_int64s | reflexivity | reflexivity |].
    exists s1, s2.
    split; [exact E1|]; split; [exact E2|]; split; [exact B|].
    split; [exact L|]; split; [exact Ex|].
    apply Es; simpl; closed_int64s.
  - assert (A : is_codeword c [2 ^ 62; 0; 0] = OK true) by reflexivity.
    destruct (Hclosed _ _ A A) as (Hx & _ & Ho).
    split; [exact A|]; split; [exact Hx|].
    apply Ho; intros F; inversion F as [|x l Hx' _]; subst.
    unfold is_int64 in Hx'; lia.
  - assert (A : is_codeword c [1; 0; 1] = OK true) by reflexivity.
    assert (B : is_codeword c [0; 1; 1] = OK true) by reflexivity.
    destruct (Hclosed _ _ A B) as (_ & Hs & _).
    split; [exact A|]; split; [exact B|].
    apply Hs; simpl; closed_int64s.
Defined.

(** ** The reported distance is the minimum weight *)

(** The reported distance bounds the weight of the codeword of every
    non-zero message. *)
Lemma distance_lower_bound (n0 : nat) (G0 : matrix) (c : LinearBlockCode)
    (m : vector) :
  init n0 G0 = OK c ->
  length m = k c -> bits m -> m <> zeros (k c) ->
  d c <= vsum (codeword_of (n c) (G c) m).
Proof.
  intros Hi Hl Hb Hnz.
  destruct (init_fields _ _ _ Hi) as (_ & _ & _ & _ & Hd & _).
  rewrite compute_minimum_distance_value in Hd; injection Hd as Hd.
  set (cws := map (codeword_of (n c) (G c)) (product [0; 1] (k c))) in *.
  assert (H0 : nth_error (product [0; 1] (k c)) 0 = Some (zeros (k c))).
  { rewrite product_nth, digits_msb_zero; [reflexivity|].
    pose proof (Nat.pow_nonzero 2 (k c)); lia. }
  assert (Hin : In m (product [0; 1] (k c))) by (apply product_bits; auto).
  apply In_nth_error in Hin as (j & Hj).
  assert (Hj0 : (0 < j)%nat).
  { destruct j; [|lia]. rewrite H0 in Hj; congruence. }
  replace (vsum (codeword_of (n c) (G c) m))
    with (xor_weight (codeword_of (n c) (G c) (zeros (k c)))
                     (codeword_of (n c) (G c) m)).
  - rewrite <- Hd.
    apply (min_dist_outer_le cws _ 0 j); [exact Hj0| |];
      unfold cws; rewrite nth_error_map; [rewrite H0 | rewrite Hj];
      reflexivity.
  - unfold xor_weight; rewrite codeword_of_zeros.
    rewrite <- (codeword_of_length (n c) (G c) m) at 1.
    rewrite xor_zeros_l by apply codeword_of_bits; reflexivity.
Qed.

(** On a constructed code with [k >= 1], [d] is the least weight of the
    codewords of the non-zero messages: it bounds the weight of each and is
    the weight of one.  Hence [d = 0] exactly when some non-zero message
    encodes to the zero word. *)
Theorem minimum_distance_is_minimum_weight (n0 : nat) (G0 : matrix)
    (c : LinearBlockCode) :
  init n0 G0 = OK c -> (1 <= k c)%nat ->
  (forall m w, length m = k c -> bits m -> m <> zeros (k c) ->
               encode c m = OK w -> d c <= vsum w) /\
  (exists m w, length m = k c /\ bits m /\ m <> zeros (k c) /\
               encode c m = OK w /\ d c = vsum w) /\
  (d c = 0 <-> ~ independent_rows c).
Proof.
  intros Hi Hk.
  destruct (init_fields _ _ _ Hi) as (_ & _ & _ & _ & Hd & _).
  rewrite compute_minimum_distance_value in Hd; injection Hd as Hd.
  set (cws := map (codeword_of (n c) (G c)) (product [0; 1] (k c))) in *.
  assert (H0 : nth_error (product [0; 1] (k c)) 0 = Some (zeros (k c))).
  { rewrite product_nth, digits_msb_zero; [reflexivity|].
    pose proof (Nat.pow_nonzero 2 (k c)); lia. }
  assert (Hlow : forall m, length m = k c -> bits m -> m <> zeros (k c) ->
                           d c <= vsum (codeword_of (n c) (G c) m)).
  { intros m; apply (distance_lower_bound n0 G0 c m Hi). }
  assert (Hatt : exists m, length m = k c /\ bits m /\ m <> zeros (k c) /\
                           d c = vsum (codeword_of (n c) (G c) m)).
  { assert (Htwo : (2 <= 2 ^ k c)%nat).
    { destruct (k c) as [|k']; [lia|].
      rewrite Nat.pow_succ_r'; pose proof (Nat.pow_nonzero 2 k'); lia. }
    destruct (nth_error (product [0; 1] (k c)) 1) as [m1|] eqn:H1;
      [|apply nth_error_None in H1; rewrite product_length in H1; lia].
    destruct (min_dist_outer_attained cws (Z.of_nat (n c) + 1))
      as [E | (i & j & u & v & Hij & Hu & Hv & E)].
    - exfalso.
      assert (C0 : nth_error cws 0 =
                   Some (codeword_of (n c) (G c) (zeros (k c)))).
      { unfold cws; rewrite nth_error_map, H0; reflexivity. }
      assert (C1 : nth_error cws 1 = Some (codeword_of (n c) (G c) m1)).
      { unfold cws; rewrite nth_error_map, H1; reflexivity. }
      pose proof (min_dist_outer_le cws (Z.of_nat (n c) + 1) 0 1 _ _
                    ltac:(lia) C0 C1) as Hle.
      pose proof (xor_weight_le (codeword_of (n c) (G c) (zeros (k c)))
                                (codeword_of (n c) (G c) m1)) as Hle'.
      rewrite codeword_of_length in Hle'; lia.
    - unfold cws in Hu, Hv; rewrite nth_error_map in Hu, Hv.
      destruct (nth_error (product [0; 1] (k c)) i) as [mi|] eqn:Hmi;
        [|discriminate].
      destruct (nth_error (product [0; 1] (k c)) j) as [mj|] eqn:Hmj;
        [|discriminate].
      injection Hu as <-; injection Hv as <-.
      assert (Hne : mi <> mj).
      { intros ->.
        assert (i = j); [|lia].
        apply (proj1 (NoDup_nth_error _) (product_NoDup (k c)));
          [|congruence].
        apply nth_error_Some; congruence. }
      apply nth_error_In, product_bits in Hmi as (Li & Bi).
      apply nth_error_In, product_bits in Hmj as (Lj & Bj).
      exists (mod2 (vec_add mi mj)); repeat split.
      + rewrite mod2_length, vec_add_length; lia.
      + apply mod2_bits.
      + intros Hz; apply Hne, xor_zero_eq; auto; congruence.
      + rewrite <- Hd, E; unfold xor_weight.
        rewrite <- codeword_of_xor by congruence; reflexivity. }
  split; [|split].
  - intros m w Hl Hb Hnz He; unfold encode in He.
    rewrite encode_with_bits in He by assumption; injection He as <-.
    apply Hlow; assumption.
  - destruct Hatt as (m & Hl & Hb & Hnz & E).
    exists m, (codeword_of (n c) (G c) m); repeat split; try assumption.
    unfold encode; apply encode_with_bits; assumption.
  - split.
    + intros E0 Hind.
      destruct Hatt as (m & Hl & Hb & Hnz & E).
      apply Hnz, Hind; try assumption.
      unfold encode; rewrite encode_with_bits by assumption; f_equal.
      pose proof (codeword_of_bits (n c) (G c) m) as Hbw.
      destruct (weight_cases _ Hbw) as (Hz & _).
      rewrite codeword_of_length in Hz; apply Hz; lia.
    + intros Hdep.
      destruct (Z.eq_dec (d c) 0) as [E|E]; [exact E | exfalso].
      apply Hdep; intros m Hl Hb He.
      destruct (list_eq_dec Z.eq_dec m (zeros (k c))) as [Em|Em]; [exact Em|].
      exfalso; apply E.
      pose proof (Hlow m Hl Hb Em) as Hle.
      unfold encode in He; rewrite encode_with_bits in He by assumption.
      injection He as He; rewrite He, vsum_zeros in Hle.
      assert (0 <= d c); [|lia].
      rewrite <- Hd.
      destruct (min_dist_outer_attained cws (Z.of_nat (n c) + 1))
        as [E' | (i & j & u & v & _ & _ & _ & E')]; rewrite E'; [lia|].
      apply (vsum_bits_bounds _ (mod2_bits (vec_add u v))).
Qed.

Lemma minimum_distance_is_minimum_weight_witness :
  let c := mkCode [[1; 0; 1]; [0; 1; 1]] 2 3 2 [[1; 1; 1]] in
  init 3 [[1; 0; 1]; [0; 1; 1]] = OK c /\ (1 <= k c)%nat /\
  (forall m w, length m = k c -> bits m -> m <> zeros (k c) ->
               encode c m = OK w -> d c <= vsum w) /\
  (exists m w, length m = k c /\ bits m /\ m <> zeros (k c) /\
               encode c m = OK w /\ d c = vsum w) /\
  (d c = 0 <-> ~ independent_rows c).
Proof.
  intros c.
  assert (Hi : init 3 [[1; 0; 1]; [0; 1; 1]] = OK c) by reflexivity.
  assert (Hk : (1 <= k c)%nat) by (simpl; lia).
  split; [exact Hi|]; split; [exact Hk|].
  apply (minimum_distance_is_minimum_weight 3 _ c Hi Hk).
Defined.

(** ** Generator matrices in systematic form *)

Lemma find_pivot_none (A : matrix) (i : nat) (js : list nat) (p : nat) :
  (forall j, In j js -> get2 A j i = OK 0) -> find_pivot A i js p = OK p.
Proof.
  induction js as [|j js IH]; intros Hjs; simpl; [reflexivity|].
  rewrite (Hjs j) by (left; reflexivity); simpl.
  apply IH; intros j' Hj'; apply Hjs; right; exact Hj'.
Qed.

Lemma eliminate_none (A : matrix) (i : nat) (js : list nat) :
  (forall j, In j js -> j <> i -> get2 A j i = OK 0) ->
  eliminate A i js = OK A.
Proof.
  induction js as [|j js IH]; intros Hjs; simpl; [reflexivity|].
  assert (IH' : eliminate A i js = OK A).
  { apply IH; intros j' Hj'; apply Hjs; right; exact Hj'. }
  destruct (Nat.eqb_spec j i) as [E|E]; [exact IH'|].
  rewrite (Hjs j) by (auto; left; reflexivity); simpl; exact IH'.
Qed.

(** On a matrix whose leading [k x k] block is the identity every pivot is
    in place and nothing is eliminated. *)
Lemma gauss_identity_block (A : matrix) (k0 : nat) (rows : list nat) :
  (forall i j, (i < k0)%nat -> (j < k0)%nat ->
               get2 A i j = OK (if Nat.eqb i j then 1 else 0)) ->
  (forall i, In i rows -> (i < k0)%nat) ->
  gauss A k0 rows = OK A.
Proof.
  intros Hid; induction rows as [|i rows IH]; intros Hrows; simpl;
    [reflexivity|].
  assert (Hi : (i < k0)%nat) by (apply Hrows; left; reflexivity).
  rewrite find_pivot_none; simpl.
  - rewrite (Hid i i Hi Hi), Nat.eqb_refl; simpl.
    rewrite eliminate_none; simpl.
    + apply IH; intros i' Hi'; apply Hrows; right; exact Hi'.
    + intros j Hj Hne; apply in_range in Hj.
      rewrite (Hid j i) by lia.
      destruct (Nat.eqb_spec j i); [contradiction | reflexivity].
  - intros j Hj; apply in_range in Hj.
    rewrite (Hid j i) by lia.
    destruct (Nat.eqb_spec j i); [lia | reflexivity].
Qed.

Lemma get2_augmented (n0 : nat) (G0 : matrix) (j i : nat) :
  rows_of_length n0 G0 -> (j < length G0)%nat -> (i < n0)%nat ->
  get2 (G0 ++ eye n0) j i = OK (nth i (nth j G0 []) 0).
Proof.
  intros Hs Hj Hi.
  destruct (augmented_shape n0 G0 Hs) as (Hsa & Hla).
  rewrite (get2_ok n0) by (assumption || lia).
  rewrite app_nth1 by exact Hj; reflexivity.
Qed.

Lemma systematic_dimension (k0 n0 : nat) (G0 : matrix) :
  systematic k0 n0 G0 -> (k0 <= n0)%nat.
Proof.
  intros (Hl & Hs & _ & Hid).
  destruct k0 as [|k0]; [lia|].
  destruct (Nat.le_gt_cases (S k0) n0) as [Hle|Hgt]; [exact Hle | exfalso].
  specialize (Hid k0 k0 ltac:(lia) ltac:(lia)).
  rewrite Nat.eqb_refl in Hid.
  rewrite nth_overflow in Hid; [discriminate|].
  assert (Hin : In (nth k0 G0 []) G0) by (apply nth_In; lia).
  unfold rows_of_length in Hs; rewrite Forall_forall in Hs.
  rewrite (Hs _ Hin); lia.
Qed.

Lemma systematic_mod2 (k0 n0 : nat) (G0 : matrix) :
  systematic k0 n0 G0 -> map mod2 G0 = G0.
Proof.
  intros (_ & _ & Hb & _).
  induction Hb as [|row G0 Hrow Hb IH]; simpl; [reflexivity|].
  rewrite IH, mod2_of_bits by exact Hrow; reflexivity.
Qed.

Lemma parity_check_of_systematic (k0 n0 : nat) (G0 : matrix) :
  systematic k0 n0 G0 ->
  compute_parity_check_matrix G0 k0 n0 = OK (systematic_check k0 n0 G0).
Proof.
  intros Hsys; pose proof (systematic_dimension _ _ _ Hsys) as Hkn.
  destruct Hsys as (Hl & Hs & Hb & Hid).
  unfold compute_parity_check_matrix.
  rewrite gauss_identity_block; simpl.
  - assert (Hrows : mapM (H_row (G0 ++ eye n0) k0 n0) (range k0 n0) =
                    OK (systematic_check k0 n0 G0)).
    { apply mapM_total; intros i Hi; apply in_range in Hi.
      unfold H_row; apply mapM_total; intros j Hj; apply in_range in Hj.
      destruct (Nat.ltb_spec j k0) as [Hjk|Hjk].
      - rewrite length_app, (proj2 (Nat.ltb_lt _ _)) by lia.
        apply get2_augmented; [exact Hs | lia | lia].
      - destruct (Nat.eqb j i); reflexivity. }
    destruct (Z.ltb_spec 0 (Z.of_nat n0 - Z.of_nat k0)) as [Hpos|Hpos].
    + rewrite Hrows; simpl.
      unfold systematic_check in *.
      destruct (range k0 n0) as [|i rest] eqn:Er; [|reflexivity].
      apply (f_equal (@length nat)) in Er; rewrite range_length in Er.
      simpl in Er; lia.
    + simpl; rewrite (proj2 (Nat.ltb_ge _ _)) by lia.
      unfold systematic_check, range.
      replace (n0 - k0)%nat with O by lia; reflexivity.
  - intros i j Hi Hj.
    rewrite get2_augmented by (assumption || lia).
    rewrite Hid by assumption; reflexivity.
  - intros i Hi; apply in_range in Hi; lia.
Qed.

Lemma init_systematic (k0 n0 : nat) (G0 : matrix) :
  systematic k0 n0 G0 ->
  exists c, init n0 G0 = OK c /\ G c = G0 /\ k c = k0 /\ n c = n0 /\
            H c = systematic_check k0 n0 G0.
Proof.
  intros Hsys; pose proof (systematic_dimension _ _ _ Hsys) as Hkn.
  pose proof (systematic_mod2 _ _ _ Hsys) as Hm.
  pose proof (parity_check_of_systematic _ _ _ Hsys) as HH.
  destruct Hsys as (Hl & Hs & Hb & Hid).
  destruct (init_value n0 G0 Hs ltac:(lia)) as (c & Hi & HG & Hk & Hn & _).
  exists c; rewrite Hm in HG; repeat split; try assumption; try lia.
  destruct (init_fields _ _ _ Hi) as (_ & _ & _ & _ & _ & Hc).
  rewrite HG, Hk, Hn, Hl, HH in Hc; injection Hc as Hc; auto.
Qed.

(** *** Products with a matrix and with its transpose *)

Lemma column_transpose (cols : nat) (M : matrix) (r : nat) :
  rows_of_length cols M -> (r < length M)%nat ->
  column (transpose cols M) r = nth r M [].
Proof.
  intros Hs Hr; unfold transpose, column; rewrite map_map.
  assert (Hin : In (nth r M []) M) by (apply nth_In; exact Hr).
  unfold rows_of_length in Hs; rewrite Forall_forall in Hs.
  transitivity (map (fun j => nth j (nth r M []) 0) (range 0 cols)).
  - apply map_ext; intros j; unfold column.
    rewrite (nth_indep _ 0 (nth j [] 0))
      by (rewrite length_map; exact Hr).
    rewrite (map_nth (fun row => nth j row 0)); reflexivity.
  - rewrite <- (Hs _ Hin); apply map_nth_range.
Qed.

Lemma vecmat_transpose (cols : nat) (M : matrix) (v : vector) :
  rows_of_length cols M ->
  vecmat (length M) v (transpose cols M) = map (dot v) M.
Proof.
  intros Hs; unfold vecmat.
  transitivity (map (dot v) (map (fun r => nth r M []) (range 0 (length M)))).
  - rewrite map_map.
    apply map_ext_in; intros r Hr; apply in_range in Hr.
    rewrite column_transpose by (assumption || lia); reflexivity.
  - rewrite map_nth_range_gen; reflexivity.
Qed.

Lemma dot_app (u1 u2 v1 v2 : vector) :
  length u1 = length v1 ->
  dot (u1 ++ u2) (v1 ++ v2) = dot u1 v1 + dot u2 v2.
Proof.
  revert v1; induction u1 as [|x u1 IH]; intros [|y v1] Hl;
    try discriminate; simpl; [reflexivity|].
  rewrite IH by (simpl in Hl; lia); lia.
Qed.

Lemma range_split (a b c : nat) :
  (a <= b <= c)%nat -> range a c = range a b ++ range b c.
Proof.
  intros Habc; unfold range.
  replace (c - a)%nat with ((b - a) + (c - b))%nat by lia.
  rewrite seq_app; repeat f_equal; lia.
Qed.

Lemma column_rows (M : matrix) (c : nat) :
  column M c = map (fun j => nth c (nth j M []) 0) (range 0 (length M)).
Proof.
  unfold column.
  transitivity (map (fun row => nth c row 0)
                    (map (fun j => nth j M []) (range 0 (length M)))).
  - rewrite map_nth_range_gen; reflexivity.
  - rewrite map_map; reflexivity.
Qed.

(** The product of a word with a row of [[P^T | I]]: the parity the first
    [k] bits ask for, plus the bit at the row's own position. *)
Lemma dot_systematic_check_row (k0 n0 : nat) (G0 : matrix) (w : vector)
    (i : nat) :
  length G0 = k0 -> length w = n0 -> (k0 <= i < n0)%nat ->
  dot w (map (fun j => if Nat.ltb j k0 then nth i (nth j G0 []) 0
                       else if Nat.eqb j i then 1 else 0)
             (range 0 n0)) =
  dot (firstn k0 w) (column G0 i) + nth i w 0.
Proof.
  intros Hl Hw Hi.
  rewrite <- (firstn_skipn k0 w) at 1.
  rewrite (range_split 0 k0 n0), map_app by lia.
  rewrite dot_app
    by (rewrite length_firstn, length_map, range_length; lia).
  f_equal.
  - f_equal; rewrite column_rows, Hl.
    apply map_ext_in; intros j Hj; apply in_range in Hj.
    rewrite (proj2 (Nat.ltb_lt _ _)) by lia; reflexivity.
  - assert (E : map (fun j => if Nat.ltb j k0 then nth i (nth j G0 []) 0
                              else if Nat.eqb j i then 1 else 0)
                    (range k0 n0) =
                map (fun j => if Nat.eqb j i then 1 else 0)
                    (seq k0 (length (skipn k0 w)))).
    { rewrite length_skipn, Hw; unfold range.
      apply map_ext_in; intros j Hj; apply in_seq in Hj.
      rewrite (proj2 (Nat.ltb_ge _ _)) by lia; reflexivity. }
    rewrite E, dot_indicator, (proj2 (Nat.leb_le _ _)) by lia.
    clear E; revert i Hi; rewrite <- Hw; clear.
    revert k0; induction w as [|x w IH]; intros [|k0] i Hi; simpl in *;
      try lia; try (rewrite Nat.sub_0_r; reflexivity).
    destruct i as [|i]; [lia|]; simpl.
    apply (IH k0 i); lia.
Qed.

Lemma column_identity_block (k0 n0 : nat) (G0 : matrix) (i : nat) :
  systematic k0 n0 G0 -> (i < k0)%nat -> column G0 i = unit_col k0 i.
Proof.
  intros (Hl & _ & _ & Hid) Hi.
  rewrite column_rows, unit_col_tabulate, Hl.
  apply tabulate_ext; intros j Hj; apply Hid; assumption.
Qed.

Lemma dot_unit_r (u : vector) (m i : nat) :
  length u = m -> (i < m)%nat -> dot u (unit_col m i) = nth i u 0.
Proof.
  intros Hl Hi; rewrite dot_comm.
  transitivity (dot (unit_col m i) (map (fun c => nth c u 0) (range 0 m))).
  - rewrite <- Hl, map_nth_range; reflexivity.
  - apply (dot_unit_l m i (fun c => nth c u 0)); exact Hi.
Qed.

Lemma nth_firstn_lt {A : Type} (l : list A) (m i : nat) (dflt : A) :
  (i < m)%nat -> nth i (firstn m l) dflt = nth i l dflt.
Proof.
  revert m i; induction l as [|x l IH]; intros [|m] [|i] Hi; simpl;
    try reflexivity; try lia.
  apply IH; lia.
Qed.

Lemma bit_parity_iff (s x : Z) :
  is_bit x -> ((s + x) mod 2 = 0 <-> x = s mod 2).
Proof.
  intros [-> | ->]; pose proof (Z.mod_pos_bound s 2 ltac:(lia)) as Hb.
  - rewrite Z.add_0_r; split; congruence.
  - rewrite Z.add_mod by lia; change (1 mod 2) with 1.
    destruct (Z.eq_dec (s mod 2) 0) as [E|E].
    + rewrite E; simpl; split; [discriminate | congruence].
    + replace (s mod 2) with 1 by lia; simpl; tauto.
Qed.

Lemma forallb_zero_map {A : Type} (f : A -> Z) (l : list A) :
  forallb (fun x => x =? 0) (map f l) = true <->
  forall a, In a l -> f a = 0.
Proof.
  rewrite forallb_forall; split.
  - intros Hf a Ha; apply Z.eqb_eq, Hf, in_map, Ha.
  - intros Hf x Hx; apply in_map_iff in Hx as (a & <- & Ha).
    apply Z.eqb_eq, Hf, Ha.
Qed.

Lemma syndrome_of_systematic (k0 n0 : nat) (G0 : matrix)
    (c : LinearBlockCode) (w : vector) :
  systematic k0 n0 G0 -> G c = G0 -> k c = k0 -> n c = n0 ->
  H c = systematic_check k0 n0 G0 -> length w = n0 -> bits w ->
  syndrome c w =
  OK (map (fun i => (dot (firstn k0 w) (column G0 i) + nth i w 0) mod 2)
          (range k0 n0)).
Proof.
  intros Hsys HG Hk Hn HH Hw Hb.
  destruct Hsys as (Hl & _).
  rewrite syndrome_bits by first [assumption | congruence]; f_equal.
  assert (Hs : rows_of_length n0 (systematic_check k0 n0 G0)).
  { apply Forall_forall; intros row Hr.
    apply in_map_iff in Hr as (i & <- & _).
    rewrite length_map, range_length; lia. }
  rewrite HH, Hn, (vecmat_transpose n0) by exact Hs.
  rewrite (mod2_of_bits w Hb).
  unfold systematic_check; rewrite map_map, mod2_map.
  apply map_ext_in; intros i Hi; apply in_range in Hi.
  rewrite dot_systematic_check_row by (assumption || lia); reflexivity.
Qed.

Lemma encode_of_systematic (k0 n0 : nat) (G0 : matrix)
    (c : LinearBlockCode) (m : vector) :
  G c = G0 -> k c = k0 -> n c = n0 -> length m = k0 -> bits m ->
  encode c m = OK (map (fun i => dot m (column G0 i) mod 2) (range 0 n0)).
Proof.
  intros HG Hk Hn Hm Hb; unfold encode.
  rewrite encode_with_bits by first [assumption | congruence].
  unfold codeword_of, vecmat.
  rewrite (mod2_of_bits m Hb), mod2_map, HG, Hn; reflexivity.
Qed.

Lemma firstn_bits (k0 : nat) (w : vector) : bits w -> bits (firstn k0 w).
Proof.
  intros Hb; revert k0; induction Hb as [|x w Hx Hb IH]; intros [|k0];
    simpl; try constructor; auto.
  apply IH.
Qed.

Lemma nth_bit (w : vector) (i : nat) : bits w -> is_bit (nth i w 0).
Proof.
  intros Hb; destruct (Nat.lt_ge_cases i (length w)) as [Hi|Hi].
  - unfold bits in Hb; rewrite Forall_forall in Hb; apply Hb, nth_In, Hi.
  - rewrite nth_overflow by exact Hi; left; reflexivity.
Qed.

(** A word is accepted exactly when it is the codeword of its first [k]
    bits. *)
Lemma systematic_membership (k0 n0 : nat) (G0 : matrix)
    (c : LinearBlockCode) (w : vector) :
  systematic k0 n0 G0 -> G c = G0 -> k c = k0 -> n c = n0 ->
  H c = systematic_check k0 n0 G0 -> length w = n0 -> bits w ->
  (is_codeword c w = OK true <-> encode c (firstn k0 w) = OK w).
Proof.
  intros Hsys HG Hk Hn HH Hw Hb.
  pose proof (systematic_dimension _ _ _ Hsys) as Hkn.
  unfold is_codeword.
  rewrite (syndrome_of_systematic k0 n0 G0) by assumption.
  rewrite (encode_of_systematic k0 n0 G0)
    by first [assumption | rewrite length_firstn; lia | apply firstn_bits, Hb].
  cbn [bind].
  assert (Hlow : forall i, (i < k0)%nat ->
            dot (firstn k0 w) (column G0 i) = nth i w 0).
  { intros i Hi.
    rewrite (column_identity_block k0 n0) by assumption.
    rewrite dot_unit_r by (rewrite ?length_firstn; lia).
    apply nth_firstn_lt, Hi. }
  split.
  - intros Hz; injection Hz as Hz; f_equal.
    transitivity (map (fun i => nth i w 0) (range 0 n0));
      [|rewrite <- Hw; apply map_nth_range].
    apply map_ext_in; intros i Hi; apply in_range in Hi.
    destruct (Nat.lt_ge_cases i k0) as [Hik|Hik].
    + rewrite Hlow by exact Hik.
      destruct (nth_bit w i Hb) as [-> | ->]; reflexivity.
    + symmetry; apply bit_parity_iff; [apply nth_bit, Hb|].
      apply (proj1 (forallb_zero_map _ _) Hz), in_range; lia.
  - intros He; injection He as He; f_equal.
    apply forallb_zero_map; intros i Hi; apply in_range in Hi.
    apply bit_parity_iff; [apply nth_bit, Hb|].
    transitivity
      (nth i (map (fun i => dot (firstn k0 w) (column G0 i) mod 2)
                  (range 0 n0)) 0);
      [rewrite He; reflexivity|].
    apply (nth_tabulate (fun i => dot (firstn k0 w) (column G0 i) mod 2));
      lia.
Qed.

(** The codeword of a message starts with the message. *)
Lemma systematic_prefix (k0 n0 : nat) (G0 : matrix) (m : vector) :
  systematic k0 n0 G0 -> length m = k0 ->
  firstn k0 (codeword_of n0 G0 m) = mod2 m.
Proof.
  intros Hsys Hm; pose proof (systematic_dimension _ _ _ Hsys) as Hkn.
  unfold codeword_of, vecmat; rewrite mod2_map.
  rewrite (range_split 0 k0 n0), map_app by lia.
  rewrite firstn_app, length_map, range_length.
  replace (k0 - (k0 - 0))%nat with O by lia.
  rewrite firstn_O, app_nil_r, firstn_all2
    by (rewrite length_map, range_length; lia).
  transitivity (map (fun i => nth i (mod2 m) 0) (range 0 k0));
    [|rewrite <- Hm, <- (mod2_length m); apply map_nth_range].
  apply map_ext_in; intros i Hi; apply in_range in Hi.
  rewrite (column_identity_block k0 n0) by (assumption || lia).
  rewrite dot_unit_r by (rewrite ?mod2_length; lia).
  destruct (nth_bit (mod2 m) i (mod2_bits m)) as [-> | ->]; reflexivity.
Qed.

(** For a generator matrix [[I_k | P]] the derived parity-check matrix is
    [[P^T | I_(n-k)]]; the codeword of every message of [k] integers that
    fit in 64 bits starts with the message modulo 2 and is accepted by
    [is_codeword]; and a word of [n] bits is accepted exactly when it is
    the codeword of its first [k] bits. *)
Theorem systematic_code_membership (k0 n0 : nat) (G0 : matrix) :
  systematic k0 n0 G0 ->
  exists c, init n0 G0 = OK c /\ k c = k0 /\ n c = n0 /\
    H c = systematic_check k0 n0 G0 /\
    (forall m, int64s m -> length m = k0 ->
       exists w, encode c m = OK w /\ firstn k0 w = mod2 m /\
                 is_codeword c w = OK true) /\
    (forall w, length w = n0 -> bits w ->
       (is_codeword c w = OK true <-> encode c (firstn k0 w) = OK w)).
Proof.
  intros Hsys; pose proof (systematic_dimension _ _ _ Hsys) as Hkn.
  destruct (init_systematic _ _ _ Hsys) as (c & Hi & HG & Hk & Hn & HH).
  exists c; repeat split; try assumption.
  - intros m Hf Hm.
    exists (codeword_of n0 G0 m).
    assert (He : encode c m = OK (codeword_of n0 G0 m)).
    { unfold encode; rewrite encode_with_value
        by first [assumption | congruence].
      rewrite HG, Hn; reflexivity. }
    pose proof (systematic_prefix _ _ _ m Hsys Hm) as Hp.
    repeat split; try assumption.
    apply (systematic_membership k0 n0 G0); try assumption.
    + apply codeword_of_length.
    + apply codeword_of_bits.
    + rewrite Hp; unfold encode in *.
      rewrite encode_with_bits
        by first [apply mod2_bits | rewrite mod2_length; congruence].
      rewrite HG, Hn, codeword_of_mod2; reflexivity.
  - apply (systematic_membership k0 n0 G0); assumption.
  - apply (systematic_membership k0 n0 G0); assumption.
Qed.

Lemma systematic_code_membership_witness :
  systematic 2 3 [[1; 0; 1]; [0; 1; 1]] /\
  exists c, init 3 [[1; 0; 1]; [0; 1; 1]] = OK c /\ k c = 2%nat /\
    n c = 3%nat /\
    H c = systematic_check 2 3 [[1; 0; 1]; [0; 1; 1]] /\
    (forall m, int64s m -> length m = 2%nat ->
       exists w, encode c m = OK w /\ firstn 2 w = mod2 m /\
                 is_codeword c w = OK true) /\
    (forall w, length w = 3%nat -> bits w ->
       (is_codeword c w = OK true <-> encode c (firstn 2 w) = OK w)).
Proof.
  assert (Hsys : systematic 2 3 [[1; 0; 1]; [0; 1; 1]]).
  { split; [reflexivity|]; split; [repeat constructor|].
    split; [repeat constructor; (left; reflexivity) || (right; reflexivity)|].
    intros [|[|i]] [|[|j]] Hi Hj; try reflexivity; lia. }
  split; [exact Hsys|].
  apply (systematic_code_membership 2 3 _ Hsys).
Defined.

(** ** Words accepted by the repetition and the parity check codes *)

Lemma parity_generator_systematic (kn : nat) :
  systematic kn (kn + 1) (tabulate2 kn (kn + 1) (parity_generator_entry kn)).
Proof.
  destruct (tabulate2_shape kn (kn + 1) (parity_generator_entry kn))
    as (Hsh & Hlen).
  split; [exact Hlen|]; split; [exact Hsh|]; split.
  - apply tabulate2_bits; intros i j _ _; unfold parity_generator_entry.
    destruct (Nat.eqb j kn); [right; reflexivity|].
    destruct (Nat.eqb j i); [right | left]; reflexivity.
  - intros i j Hi Hj; unfold tabulate2.
    rewrite (nth_tabulate _ kn i []) by exact Hi.
    rewrite (nth_tabulate _ (kn + 1) j 0) by lia.
    unfold parity_generator_entry.
    rewrite (proj2 (Nat.eqb_neq j kn)) by lia.
    rewrite Nat.eqb_sym; reflexivity.
Qed.

Lemma repetition_generator_systematic (nn : nat) :
  (1 <= nn)%nat -> systematic 1 nn [repeat 1 nn].
Proof.
  intros Hn; split; [reflexivity|]; split.
  - repeat constructor; apply repeat_length.
  - split; [repeat constructor; apply repeat_bits; right; reflexivity|].
    intros [|i] [|j] Hi Hj; try lia; simpl.
    destruct nn; [lia | reflexivity].
Qed.

Lemma vsum_mod2_even (w : vector) :
  bits w -> forall k0, length w = S k0 ->
  (w = firstn k0 w ++ [vsum (firstn k0 w) mod 2] <-> vsum w mod 2 = 0).
Proof.
  intros Hb k0 Hl.
  assert (Hsplit : w = firstn k0 w ++ [nth k0 w 0]).
  { rewrite <- (firstn_skipn k0 w) at 1; f_equal.
    pose proof (length_skipn k0 w) as Hs; rewrite Hl in Hs.
    replace (S k0 - k0)%nat with 1%nat in Hs by lia.
    destruct (skipn k0 w) as [|x [|y rest]] eqn:E; try discriminate.
    f_equal.
    transitivity (nth k0 (firstn k0 w ++ skipn k0 w) 0);
      [|rewrite firstn_skipn; reflexivity].
    rewrite app_nth2, length_firstn, E; rewrite ?length_firstn;
      replace (k0 - Nat.min k0 (length w))%nat with O by lia;
      try reflexivity; lia. }
  assert (Hsum : vsum w = vsum (firstn k0 w) + nth k0 w 0).
  { rewrite Hsplit at 1; rewrite vsum_app; unfold vsum at 2; simpl; lia. }
  pose proof (nth_bit w k0 Hb) as Hx.
  rewrite Hsum.
  rewrite bit_parity_iff by exact Hx.
  split.
  - intros E; rewrite Hsplit in E at 1.
    apply app_inv_head in E; injection E as E; exact E.
  - intros E; rewrite Hsplit at 1; rewrite E; reflexivity.
Qed.

(** The words of bits accepted by [parity_check_code(k)] are those of even
    weight, its parity-check matrix being the single row of ones; the words
    accepted by [repetition_code(n)] are the word of zeros and the word of
    ones. *)
Theorem repetition_and_parity_membership :
  (forall k0, 1 <= k0 ->
     exists c, parity_check_code k0 = OK c /\
       H c = [repeat 1 (Z.to_nat k0 + 1)] /\
       forall w, length w = n c -> bits w ->
                 (is_codeword c w = OK true <-> vsum w mod 2 = 0)) /\
  (forall n0, 1 <= n0 ->
     exists c, repetition_code n0 = OK c /\
       length (H c) = (Z.to_nat n0 - 1)%nat /\
       forall w, length w = n c -> bits w ->
                 (is_codeword c w = OK true <->
                  w = repeat 0 (n c) \/ w = repeat 1 (n c))).
Proof.
  split.
  - intros k0 Hk; unfold parity_check_code.
    destruct (Z.ltb_spec k0 1); [lia|].
    set (kn := Z.to_nat k0).
    pose proof (parity_generator_value kn) as HG.
    apply bind_OK in HG as (G1 & HG1 & HG2).
    rewrite HG1; simpl; rewrite HG2; simpl.
    pose proof (parity_generator_systematic kn) as Hsys.
    set (G0 := tabulate2 kn (kn + 1) (parity_generator_entry kn)) in *.
    destruct (init_systematic _ _ _ Hsys) as (c & Hi & HG & Hkc & Hn & HH).
    exists c; split; [exact Hi|]; split.
    + assert (Er : range kn (kn + 1) = [kn]).
      { unfold range; replace (kn + 1 - kn)%nat with 1%nat by lia.
        reflexivity. }
      rewrite HH; unfold systematic_check; rewrite Er; cbn [map]; f_equal.
      rewrite <- repeat_tabulate.
      apply tabulate_ext; intros j Hj.
      destruct (Nat.ltb_spec j kn) as [Hjk|Hjk].
      * unfold G0, tabulate2.
        rewrite (nth_tabulate _ kn j []) by exact Hjk.
        rewrite (nth_tabulate _ (kn + 1) kn 0) by lia.
        unfold parity_generator_entry; rewrite Nat.eqb_refl; reflexivity.
      * replace j with kn by lia; rewrite Nat.eqb_refl; reflexivity.
    + intros w Hw Hb; rewrite Hn in Hw.
      rewrite (systematic_membership kn (kn + 1) G0) by assumption.
      unfold encode; rewrite encode_with_bits
        by first [apply firstn_bits; assumption | rewrite length_firstn; lia].
      rewrite HG, Hn; unfold G0.
      rewrite parity_codeword by (rewrite length_firstn; lia).
      rewrite (mod2_of_bits _ (firstn_bits kn w Hb)).
      rewrite <- (vsum_mod2_even w Hb kn) by lia.
      split; [intros E; injection E as E; auto | intros E; f_equal; auto].
  - intros n0 Hn0; unfold repetition_code.
    destruct (Z.ltb_spec n0 1); [lia|].
    set (nn := Z.to_nat n0).
    assert (Hnn : (1 <= nn)%nat) by (unfold nn; lia).
    pose proof (repetition_generator_systematic nn Hnn) as Hsys.
    destruct (init_systematic _ _ _ Hsys) as (c & Hi & HG & Hkc & Hn & HH).
    exists c; split; [exact Hi|]; split.
    + rewrite HH; unfold systematic_check.
      rewrite length_map, range_length; reflexivity.
    + intros w Hw Hb; rewrite Hn in *.
      rewrite (systematic_membership 1 nn [repeat 1 nn]) by assumption.
      destruct w as [|x w]; [simpl in Hw; lia|].
      simpl firstn.
      inversion Hb as [|? ? Hx Hb']; subst.
      unfold encode; rewrite encode_with_bits
        by first [apply Forall_cons; [exact Hx | apply Forall_nil]
                 | rewrite Hkc; reflexivity].
      rewrite HG, Hn.
      destruct Hx as [-> | ->].
      * change [0] with (zeros 1); rewrite codeword_of_zeros.
        unfold zeros; split.
        -- intros E; injection E as E; left; symmetry; exact E.
        -- intros [E | E]; [rewrite E; reflexivity|].
           rewrite <- Hw in E; simpl in E; discriminate.
      * rewrite repetition_codeword; split.
        -- intros E; injection E as E; right; symmetry; exact E.
        -- intros [E | E]; [|rewrite E; reflexivity].
           rewrite <- Hw in E; simpl in E; discriminate.
Qed.

Lemma repetition_and_parity_membership_witness :
  (1 <= 3 /\
   exists c, parity_check_code 3 = OK c /\
     H c = [repeat 1 (Z.to_nat 3 + 1)] /\
     forall w, length w = n c -> bits w ->
               (is_codeword c w = OK true <-> vsum w mod 2 = 0)) /\
  (1 <= 3 /\
   exists c, repetition_code 3 = OK c /\
     length (H c) = (Z.to_nat 3 - 1)%nat /\
     forall w, length w = n c -> bits w ->
               (is_codeword c w = OK true <->
                w = repeat 0 (n c) \/ w = repeat 1 (n c))).
Proof.
  destruct repetition_and_parity_membership as (Hpar & Hrep).
  split; (split; [lia|]).
  - apply (Hpar 3); lia.
  - apply (Hrep 3); lia.
Defined.

(** ** Errors of small weight are detected *)

Lemma xor_cancel (w e : vector) :
  bits w -> bits e -> length w = length e ->
  mod2 (vec_add w (mod2 (vec_add w e))) = e.
Proof.
  intros Hw; revert e; induction Hw as [|x w Hx Hw IH]; intros e He Hl.
  - destruct e; [reflexivity | discriminate].
  - destruct e as [|y e]; [discriminate|].
    inversion He as [|? ? Hy He']; subst; simpl.
    rewrite IH by (auto; simpl in Hl; lia).
    destruct Hx as [-> | ->], Hy as [-> | ->]; reflexivity.
Qed.

(** A code with a generator matrix [[I_k | P]] detects every error of
    weight below its distance: flipping between 1 and [d - 1] bits of a
    codeword gives a word that [is_codeword] rejects. *)
Theorem systematic_error_detection (k0 n0 : nat) (G0 : matrix) :
  systematic k0 n0 G0 ->
  exists c, init n0 G0 = OK c /\
    forall m e w,
      length m = k0 -> encode c m = OK w ->
      length e = n0 -> bits e -> e <> zeros n0 -> vsum e < d c ->
      is_codeword c (mod2 (vec_add w e)) = OK false.
Proof.
  intros Hsys; pose proof (systematic_dimension _ _ _ Hsys) as Hkn.
  destruct (init_systematic _ _ _ Hsys) as (c & Hi & HG & Hk & Hn & HH).
  exists c; split; [exact Hi|].
  intros m e w Hm He Hle Hbe Hnz Hlt.
  unfold encode in He; apply encode_with_OK_inv in He as (_ & _ & He).
  rewrite HG, Hn in He; subst w.
  set (w := codeword_of n0 G0 m).
  set (w' := mod2 (vec_add w e)).
  assert (Hw : bits w) by apply codeword_of_bits.
  assert (Hlw : length w = n0) by apply codeword_of_length.
  assert (Hw' : bits w') by apply mod2_bits.
  assert (Hlw' : length w' = n0).
  { unfold w'; rewrite mod2_length, vec_add_length; lia. }
  destruct (is_codeword c w') as [[|]|err] eqn:Ec.
  - exfalso.
    apply (systematic_membership k0 n0 G0 c w') in Ec; try assumption.
    unfold encode in Ec.
    rewrite encode_with_bits in Ec
      by first [apply firstn_bits; assumption | rewrite length_firstn; lia].
    rewrite HG, Hn in Ec; injection Ec as Ec.
    set (m' := firstn k0 w') in *.
    assert (Hm' : length m' = k0) by (unfold m'; rewrite length_firstn; lia).
    assert (Ee : e = codeword_of n0 G0 (mod2 (vec_add (mod2 m) m'))).
    { rewrite codeword_of_xor by (rewrite mod2_length; lia).
      rewrite codeword_of_mod2, Ec; fold w; unfold w'.
      symmetry; apply xor_cancel; [exact Hw | exact Hbe | lia]. }
    destruct (list_eq_dec Z.eq_dec (mod2 (vec_add (mod2 m) m')) (zeros k0))
      as [Ez|Ez].
    + apply Hnz; rewrite Ee, Ez; apply codeword_of_zeros.
    + pose proof (distance_lower_bound n0 G0 c
                    (mod2 (vec_add (mod2 m) m')) Hi) as Hlow.
      rewrite Hk, Hn, HG, <- Ee in Hlow.
      assert (d c <= vsum e); [|lia].
      apply Hlow; [|apply mod2_bits | exact Ez].
      rewrite mod2_length, vec_add_length, mod2_length; lia.
  - reflexivity.
  - exfalso; unfold is_codeword in Ec.
    rewrite syndrome_as_codeword in Ec
      by first [apply bits_int64s; assumption | congruence].
    discriminate.
Qed.

Lemma systematic_error_detection_witness :
  systematic 2 3 [[1; 0; 1]; [0; 1; 1]] /\
  exists c, init 3 [[1; 0; 1]; [0; 1; 1]] = OK c /\
    d c = 2 /\
    encode c [1; 1] = OK [1; 1; 0] /\
    is_codeword c (mod2 (vec_add [1; 1; 0] [0; 1; 0])) = OK false.
Proof.
  assert (Hsys : systematic 2 3 [[1; 0; 1]; [0; 1; 1]]).
  { split; [reflexivity|]; split; [repeat constructor|].
    split; [repeat constructor; (left; reflexivity) || (right; reflexivity)|].
    intros [|[|i]] [|[|j]] Hi Hj; try reflexivity; lia. }
  split; [exact Hsys|].
  destruct (systematic_error_detection 2 3 _ Hsys) as (c & Hi & Hdet).
  exists c; split; [exact Hi|].
  assert (Hd : d c = 2) by (injection Hi as <-; reflexivity).
  split; [exact Hd|].
  assert (He : encode c [1; 1] = OK [1; 1; 0])
    by (injection Hi as <-; reflexivity).
  split; [exact He|].
  apply (Hdet [1; 1] [0; 1; 0] [1; 1; 0]); try reflexivity;
    try exact He.
  - repeat constructor; (left; reflexivity) || (right; reflexivity).
  - discriminate.
  - rewrite Hd; reflexivity.
Defined.

(** ** The codewords of the Hamming codes and the Hamming matrix *)

Lemma dot_map (A : Type) (a b : A -> Z) (l : list A) :
  dot (map a l) (map b l) = vsum (map (fun c => a c * b c) l).
Proof.
  induction l as [|x l IH]; [reflexivity|].
  simpl map; rewrite vsum_cons; simpl dot; rewrite IH; reflexivity.
Qed.

Lemma vsum_map_add {A : Type} (f g : A -> Z) (l : list A) :
  vsum (map (fun a => f a + g a) l) = vsum (map f l) + vsum (map g l).
Proof.
  induction l as [|x l IH]; [reflexivity|].
  simpl map; rewrite !vsum_cons, IH; lia.
Qed.

Lemma vsum_map_scale {A : Type} (x : Z) (f : A -> Z) (l : list A) :
  vsum (map (fun a => x * f a) l) = x * vsum (map f l).
Proof.
  induction l as [|y l IH]; [simpl; unfold vsum; simpl; lia|].
  simpl map; rewrite !vsum_cons, IH; lia.
Qed.

Lemma vsum_exchange {A B : Type} (F : A -> B -> Z) (l1 : list A)
    (l2 : list B) :
  vsum (map (fun a => vsum (map (F a) l2)) l1) =
  vsum (map (fun b => vsum (map (fun a => F a b) l1)) l2).
Proof.
  induction l1 as [|a l1 IH].
  - symmetry; apply vsum_map_zero; intros b _; reflexivity.
  - simpl map; rewrite vsum_cons, IH.
    rewrite <- vsum_map_add.
    f_equal; apply map_ext; intros b; rewrite vsum_cons; reflexivity.
Qed.

(** A sum over [range(n)] of a function that vanishes outside the
    positions [qs]. *)
Lemma vsum_support (qs : list nat) (m : nat) :
  forall F : nat -> Z,
    NoDup qs -> (forall q, In q qs -> (q < m)%nat) ->
    (forall c, (c < m)%nat -> ~ In c qs -> F c = 0) ->
    vsum (map F (range 0 m)) = vsum (map F qs).
Proof.
  induction qs as [|q qs IH]; intros F Hnd Hlt Hzero.
  - apply vsum_map_zero; intros c Hc; apply in_range in Hc.
    apply Hzero; [lia | intros []].
  - inversion Hnd as [|? ? Hq Hnd']; subst.
    assert (Hqm : (q < m)%nat) by (apply Hlt; left; reflexivity).
    rewrite (vsum_set_nth (map F (range 0 m)) q)
      by (rewrite length_map, range_length; lia).
    rewrite (nth_tabulate F m q 0 Hqm), set_nth_tabulate.
    simpl map; rewrite vsum_cons; f_equal.
    rewrite (IH (fun c => if Nat.eqb c q then 0 else F c)).
    + f_equal; apply map_ext_in; intros c Hc.
      destruct (Nat.eqb_spec c q) as [->|Hne]; [contradiction | reflexivity].
    + exact Hnd'.
    + intros c Hc; apply Hlt; right; exact Hc.
    + intros c Hc Hnin.
      destruct (Nat.eqb_spec c q) as [->|Hne]; [reflexivity|].
      apply Hzero; [exact Hc | intros [E | Hin]; auto].
Qed.

(** The column of the Hamming matrix at a parity position is a unit
    vector. *)
Lemma hamming_bit_parity_position (r j j' : nat) :
  (j < r)%nat -> (j' < r)%nat ->
  hamming_bit r j (parity_position r j') = if Nat.eqb j' j then 1 else 0.
Proof.
  intros Hj Hj'; unfold hamming_bit, parity_position.
  pose proof (pow2_nat_pos (r - 1 - j')) as Hp.
  replace (Z.of_nat (2 ^ (r - 1 - j') - 1) + 1)
    with (2 ^ Z.of_nat (r - 1 - j'))
    by (rewrite <- pow2_nat_Z; lia).
  rewrite Z.pow2_bits_eqb by lia.
  destruct (Nat.eqb_spec j' j) as [->|Hne].
  - rewrite Z.eqb_refl; reflexivity.
  - destruct (Z.eqb_spec (Z.of_nat (r - 1 - j')) (Z.of_nat (r - 1 - j)));
      [lia | reflexivity].
Qed.

(** A row of the generator matrix against a row of the Hamming matrix:
    the message bit's column and its parity position cancel. *)
Lemma hamming_row_orthogonal (r i j : nat) :
  (2 <= r)%nat ->
  let n0 := (2 ^ r - 1)%nat in
  (i < n0 - r)%nat -> (j < r)%nat ->
  vsum (map (fun c => hamming_entry r n0 i c * hamming_bit r j c)
            (range 0 n0)) =
  2 * hamming_bit r j (nth i (info_positions_of r n0) 0%nat).
Proof.
  intros Hr n0 Hi Hj.
  set (p := nth i (info_positions_of r n0) 0%nat).
  assert (Hp : (p < n0)%nat) by apply (hamming_info_position r i Hi).
  assert (Hnp : forall j', (j' < r)%nat -> p <> parity_position r j')
    by apply (hamming_info_position r i Hi).
  assert (He : hamming_entry r n0 i p = 1).
  { pose proof (hamming_entry_info r i i Hi Hi) as He.
    rewrite Nat.eqb_refl in He; exact He. }
  assert (Hpar : forall j', (j' < r)%nat ->
            hamming_entry r n0 i (parity_position r j') = hamming_bit r j' p).
  { intros j' Hj'; exact (hamming_entry_parity r i j' Hj'). }
  rewrite (vsum_support (p :: map (parity_position r) (range 0 r))).
  - simpl map; rewrite vsum_cons, map_map, He.
    rewrite (map_ext_in _ (fun j' => hamming_bit r j' p *
                                     (if Nat.eqb j' j then 1 else 0))).
    + rewrite <- (dot_map nat (fun j' => hamming_bit r j' p)
                    (fun j' => if Nat.eqb j' j then 1 else 0)).
      rewrite range_0_seq.
      pose proof (dot_indicator j (map (fun j' => hamming_bit r j' p)
                                       (seq 0 r)) 0) as Hd.
      rewrite length_map, length_seq in Hd; rewrite Hd; simpl Nat.leb.
      cbv iota; rewrite Nat.sub_0_r, <- range_0_seq.
      rewrite (nth_tabulate _ r j 0 Hj); lia.
    + intros j' Hj'; apply in_range in Hj'.
      rewrite (Hpar j') by lia.
      rewrite hamming_bit_parity_position by lia; reflexivity.
  - constructor; [|apply parity_positions_NoDup].
    intros Hin; apply in_map_iff in Hin as (j' & E & Hj').
    apply in_range in Hj'; apply (Hnp j'); [lia | congruence].
  - intros q [<- | Hq]; [exact Hp|].
    apply in_map_iff in Hq as (j' & <- & Hj'); apply in_range in Hj'.
    apply parity_position_lt; lia.
  - intros c Hc Hnin.
    assert (Hnone : forall j', (j' < r)%nat -> c <> parity_position r j').
    { intros j' Hj' E; apply Hnin; right; rewrite E.
      apply in_map, in_range; lia. }
    assert (Hc0 : hamming_entry r n0 i c = 0); [|rewrite Hc0; lia].
    unfold hamming_entry; rewrite (find_parity_position_none r c Hnone).
    fold p; destruct (Nat.eqb_spec c p) as [->|Hne]; [|reflexivity].
    exfalso; apply Hnin; left; reflexivity.
Qed.

(** A codeword against a row of the Hamming matrix. *)
Lemma hamming_codeword_check (r : nat) (m : vector) (j : nat) :
  (2 <= r)%nat ->
  let n0 := (2 ^ r - 1)%nat in
  let k0 := (n0 - r)%nat in
  length m = k0 -> (j < r)%nat ->
  dot (codeword_of n0 (tabulate2 k0 n0 (hamming_entry r n0)) m)
      (map (hamming_bit r j) (range 0 n0)) mod 2 = 0.
Proof.
  intros Hr n0 k0 Hm Hj.
  unfold codeword_of; rewrite dot_mod2_l.
  set (m' := mod2 m).
  assert (Hm' : length m' = k0) by (unfold m'; rewrite mod2_length; exact Hm).
  set (g := hamming_entry r n0).
  set (h := hamming_bit r j).
  assert (Horth : forall i, (i < k0)%nat ->
            vsum (map (fun c => g i c * h c) (range 0 n0)) =
            2 * h (nth i (info_positions_of r n0) 0%nat)).
  { intros i Hi; exact (hamming_row_orthogonal r i j Hr Hi Hj). }
  assert (Hrow : forall c, (c < n0)%nat ->
            dot m' (column (tabulate2 k0 n0 g) c) =
            vsum (map (fun i => nth i m' 0 * g i c) (range 0 k0))).
  { intros c Hc; rewrite column_tabulate2 by exact Hc.
    transitivity (dot (map (fun i => nth i m' 0) (range 0 k0))
                      (map (fun i => g i c) (range 0 k0)));
      [|apply dot_map].
    rewrite <- Hm', map_nth_range; reflexivity. }
  unfold vecmat.
  transitivity
    (vsum (map (fun c => vsum (map (fun i => nth i m' 0 * (g i c * h c))
                                   (range 0 k0)))
               (range 0 n0)) mod 2).
  { f_equal.
    transitivity
      (dot (map (fun c => vsum (map (fun i => nth i m' 0 * g i c)
                                    (range 0 k0))) (range 0 n0))
           (map h (range 0 n0))).
    - f_equal; apply map_ext_in; intros c Hc; apply in_range in Hc.
      apply Hrow; lia.
    - rewrite dot_map; f_equal; apply map_ext; intros c.
      rewrite Z.mul_comm, <- vsum_map_scale.
      f_equal; apply map_ext; intros i; lia. }
  rewrite (vsum_exchange (fun c i => nth i m' 0 * (g i c * h c))).
  rewrite (map_ext_in _
             (fun i => 2 * (nth i m' 0 *
                            h (nth i (info_positions_of r n0) 0%nat)))).
  2:{ intros i Hi; apply in_range in Hi.
      rewrite vsum_map_scale, Horth by lia; lia. }
  rewrite vsum_map_scale, Z.mul_comm; apply Z.mod_mul; lia.
Qed.

(** For every [r >= 2], each codeword of [hamming_code(r)] has zero
    syndrome against the Hamming matrix that the function builds (the
    columns are the numbers 1 to [n] in binary), and carries the message at
    the positions that are not powers of two minus one. *)
Theorem hamming_codewords_satisfy_checks (r : Z) :
  2 <= r ->
  let rn := Z.to_nat r in
  let n0 := (2 ^ rn - 1)%nat in
  let hamming_matrix :=
    transpose rn (map (fun i => format_b rn (Z.of_nat i))
                      (range 1 (n0 + 1))) in
  exists c, hamming_code r = OK c /\
    k c = (n0 - rn)%nat /\ n c = n0 /\
    forall m, length m = (n0 - rn)%nat -> bits m ->
      exists w, encode c m = OK w /\
        syndrome (mkCode (G c) (k c) (n c) (d c) hamming_matrix) w =
          OK (zeros rn) /\
        map (fun p => nth p w 0) (info_positions_of rn n0) = m.
Proof.
  intros Hr rn n0 hamming_matrix.
  assert (Hrn : (2 <= rn)%nat) by (unfold rn; lia).
  set (k0 := (n0 - rn)%nat).
  set (G0 := tabulate2 k0 n0 (hamming_entry rn n0)).
  assert (Hcode : exists c, hamming_code r = OK c /\
                            G c = G0 /\ k c = k0 /\ n c = n0).
  { unfold hamming_code.
    destruct (Z.ltb_spec r 2); [lia|].
    rewrite to_nat_pow2_minus_1 by lia.
    fold rn; rewrite (hamming_generator_value rn Hrn); simpl bind.
    fold n0; fold k0; fold G0.
    destruct (hamming_dimension_pos rn Hrn) as (Hk & Hn).
    destruct (tabulate2_shape k0 n0 (hamming_entry rn n0)) as (Hsh & Hlen).
    fold G0 in Hsh, Hlen.
    assert (Hbits : Forall bits G0).
    { apply tabulate2_bits; intros; apply hamming_entry_bit. }
    destruct (init_value n0 G0 Hsh) as (c & Hc & EG & Ek & En & _).
    { rewrite Hlen; unfold k0; lia. }
    rewrite (map_mod2_bits _ Hbits) in EG; rewrite Hlen in Ek.
    exists c; auto. }
  destruct Hcode as (c & Hc & HG & Hk & Hn).
  exists c; split; [exact Hc|]; split; [exact Hk|]; split; [exact Hn|].
  intros m Hm Hb; fold k0 in Hm.
  set (w := codeword_of n0 G0 m).
  assert (Hw : length w = n0) by apply codeword_of_length.
  exists w; split; [|split].
  - unfold encode; rewrite encode_with_bits
      by first [assumption | congruence].
    rewrite HG, Hn; reflexivity.
  - rewrite syndrome_bits
      by first [apply codeword_of_bits | cbn [n]; congruence].
    cbn [H n]; f_equal.
    unfold hamming_matrix, n0; rewrite hamming_H_value; fold n0.
    destruct (tabulate2_shape rn n0 (hamming_bit rn)) as (Hsh & Hlen).
    rewrite Hlen.
    unfold codeword_of.
    rewrite <- Hlen at 1; rewrite Hn, (vecmat_transpose n0) by exact Hsh.
    rewrite (mod2_of_bits w) by apply codeword_of_bits.
    unfold tabulate2; rewrite map_map, mod2_map.
    unfold zeros; rewrite <- repeat_tabulate.
    apply map_ext_in; intros j Hj; apply in_range in Hj.
    apply (hamming_codeword_check rn m j Hrn Hm); lia.
  - pose proof (info_positions_length rn) as Hinfo; fold n0 k0 in Hinfo.
    transitivity (map (fun i => nth i m 0) (range 0 k0));
      [|rewrite <- Hm; apply map_nth_range].
    transitivity
      (map (fun p => nth p w 0)
           (map (fun i => nth i (info_positions_of rn n0) 0%nat)
                (range 0 k0)));
      [rewrite <- Hinfo, map_nth_range_gen; reflexivity|].
    rewrite map_map.
    apply map_ext_in; intros i Hi; apply in_range in Hi.
    apply (hamming_codeword_info rn m i); [exact Hm | exact Hb | lia].
Qed.

Lemma hamming_codewords_satisfy_checks_witness :
  2 <= 3 /\
  exists c, hamming_code 3 = OK c /\
    k c = 4%nat /\ n c = 7%nat /\
    exists w, encode c [1; 0; 1; 1] = OK w /\
      syndrome (mkCode (G c) (k c) (n c) (d c)
                  [[0; 0; 0; 1; 1; 1; 1];
                   [0; 1; 1; 0; 0; 1; 1];
                   [1; 0; 1; 0; 1; 0; 1]]) w = OK [0; 0; 0] /\
      map (fun p => nth p w 0) [2; 4; 5; 6]%nat = [1; 0; 1; 1].
Proof.
  assert (Hr : 2 <= 3) by lia.
  split; [exact Hr|].
  destruct (hamming_codewords_satisfy_checks 3 Hr)
    as (c & Hc & Hk & Hn & Hall).
  exists c; split; [exact Hc|]; split; [exact Hk|]; split; [exact Hn|].
  assert (Hb : bits [1; 0; 1; 1]).
  { repeat constructor; (left; reflexivity) || (right; reflexivity). }
  exact (Hall [1; 0; 1; 1] eq_refl Hb).
Defined.

(** ** The Hamming matrix accepts the codewords only *)

(** A check of the Hamming matrix: the part of the message positions, plus
    the bit at the parity position of the check. *)
Lemma hamming_check_split (r : nat) (w : vector) (j : nat) :
  (2 <= r)%nat ->
  let n0 := (2 ^ r - 1)%nat in
  length w = n0 -> (j < r)%nat ->
  dot w (map (hamming_bit r j) (range 0 n0)) =
  vsum (map (fun p => nth p w 0 * hamming_bit r j p)
            (info_positions_of r n0)) +
  nth (parity_position r j) w 0.
Proof.
  intros Hr n0 Hw Hj.
  set (h := hamming_bit r j).
  set (info := info_positions_of r n0).
  set (pps := map (parity_position r) (range 0 r)).
  transitivity (vsum (map (fun c => nth c w 0 * h c) (range 0 n0))).
  { rewrite <- dot_map, <- Hw, map_nth_range; reflexivity. }
  rewrite (vsum_support (info ++ pps)).
  - rewrite map_app, vsum_app; f_equal.
    unfold pps; rewrite map_map.
    rewrite (map_ext_in _ (fun j' => nth (parity_position r j') w 0 *
                                     (if Nat.eqb j' j then 1 else 0))).
    + rewrite <- (dot_map nat (fun j' => nth (parity_position r j') w 0)
                    (fun j' => if Nat.eqb j' j then 1 else 0)).
      rewrite range_0_seq.
      pose proof (dot_indicator j
                    (map (fun j' => nth (parity_position r j') w 0)
                         (seq 0 r)) 0) as Hd.
      rewrite length_map, length_seq in Hd; rewrite Hd; simpl Nat.leb.
      cbv iota; rewrite Nat.sub_0_r, <- range_0_seq.
      apply (nth_tabulate (fun j' => nth (parity_position r j') w 0) r j 0 Hj).
    + intros j' Hj'; apply in_range in Hj'.
      unfold h; rewrite hamming_bit_parity_position by lia; reflexivity.
  - apply NoDup_app;
      [apply info_positions_NoDup | apply parity_positions_NoDup|].
    intros c Hc Hc'; apply info_positions_spec in Hc as (_ & Hc).
    apply in_map_iff in Hc' as (j' & E & Hj'); apply in_range in Hj'.
    apply (Hc j'); [lia | congruence].
  - intros q Hq; apply in_app_or in Hq as [Hq | Hq].
    + apply info_positions_spec in Hq; tauto.
    + apply in_map_iff in Hq as (j' & <- & Hj'); apply in_range in Hj'.
      apply parity_position_lt; lia.
  - intros c Hc Hnin; exfalso; apply Hnin, in_or_app; left.
    apply info_positions_spec; split; [exact Hc|].
    intros j' Hj' E; apply Hnin, in_or_app; right.
    rewrite E; apply in_map, in_range; lia.
Qed.

Lemma hamming_syndrome_value (r : nat) (c : LinearBlockCode) (w : vector) :
  let n0 := (2 ^ r - 1)%nat in
  n c = n0 -> H c = tabulate2 r n0 (hamming_bit r) ->
  length w = n0 -> bits w ->
  syndrome c w =
  OK (map (fun j => dot w (map (hamming_bit r j) (range 0 n0)) mod 2)
          (range 0 r)).
Proof.
  intros n0 Hn HH Hw Hb.
  rewrite syndrome_bits by first [assumption | congruence]; f_equal.
  destruct (tabulate2_shape r n0 (hamming_bit r)) as (Hsh & Hlen).
  rewrite HH, Hn, (vecmat_transpose n0) by exact Hsh.
  rewrite (mod2_of_bits w Hb).
  unfold tabulate2; rewrite map_map, mod2_map; reflexivity.
Qed.

(** For every [r >= 2], a word of [n] bits with zero syndrome against
    the Hamming matrix of [hamming_code(r)] is the codeword of the bits it
    carries at the message positions: the Hamming matrix accepts the
    codewords of the generator matrix and nothing else. *)
Theorem hamming_matrix_kernel (r : Z) :
  2 <= r ->
  let rn := Z.to_nat r in
  let n0 := (2 ^ rn - 1)%nat in
  let hamming_matrix :=
    transpose rn (map (fun i => format_b rn (Z.of_nat i))
                      (range 1 (n0 + 1))) in
  exists c, hamming_code r = OK c /\
    forall w, length w = n0 -> bits w ->
      (syndrome (mkCode (G c) (k c) (n c) (d c) hamming_matrix) w =
         OK (zeros rn) <->
       encode c (map (fun p => nth p w 0) (info_positions_of rn n0)) = OK w).
Proof.
  intros Hr rn n0 hamming_matrix.
  assert (Hrn : (2 <= rn)%nat) by (unfold rn; lia).
  set (k0 := (n0 - rn)%nat).
  set (G0 := tabulate2 k0 n0 (hamming_entry rn n0)).
  assert (Hcode : exists c, hamming_code r = OK c /\
                            G c = G0 /\ k c = k0 /\ n c = n0).
  { unfold hamming_code.
    destruct (Z.ltb_spec r 2); [lia|].
    rewrite to_nat_pow2_minus_1 by lia.
    fold rn; rewrite (hamming_generator_value rn Hrn); simpl bind.
    fold n0; fold k0; fold G0.
    destruct (hamming_dimension_pos rn Hrn) as (Hk & Hn).
    destruct (tabulate2_shape k0 n0 (hamming_entry rn n0)) as (Hsh & Hlen).
    fold G0 in Hsh, Hlen.
    assert (Hbits : Forall bits G0).
    { apply tabulate2_bits; intros; apply hamming_entry_bit. }
    destruct (init_value n0 G0 Hsh) as (c & Hc & EG & Ek & En & _).
    { rewrite Hlen; unfold k0; lia. }
    rewrite (map_mod2_bits _ Hbits) in EG; rewrite Hlen in Ek.
    exists c; auto. }
  destruct Hcode as (c & Hc & HG & Hk & Hn).
  exists c; split; [exact Hc|].
  intros w Hw Hb.
  set (info := info_positions_of rn n0).
  set (m := map (fun p => nth p w 0) info).
  assert (Hinfo : length info = k0) by apply info_positions_length.
  assert (Hm : length m = k0) by (unfold m; rewrite length_map; exact Hinfo).
  assert (Hbm : bits m).
  { apply Forall_map, Forall_forall; intros p _; apply nth_bit, Hb. }
  set (u := codeword_of n0 G0 m).
  assert (Hu : length u = n0) by apply codeword_of_length.
  assert (Hbu : bits u) by apply codeword_of_bits.
  assert (Henc : encode c m = OK u).
  { unfold encode; rewrite encode_with_bits
      by first [assumption | congruence].
    rewrite HG, Hn; reflexivity. }
  assert (HH : hamming_matrix = tabulate2 rn n0 (hamming_bit rn)).
  { unfold hamming_matrix, n0; apply hamming_H_value. }
  assert (Hsyn : forall v, length v = n0 -> bits v ->
            syndrome (mkCode (G c) (k c) (n c) (d c) hamming_matrix) v =
            OK (map (fun j => dot v (map (hamming_bit rn j) (range 0 n0))
                              mod 2) (range 0 rn))).
  { intros v Hv Hbv; apply hamming_syndrome_value; auto. }
  assert (Hucheck : forall j, (j < rn)%nat ->
            dot u (map (hamming_bit rn j) (range 0 n0)) mod 2 = 0).
  { intros j Hj; exact (hamming_codeword_check rn m j Hrn Hm Hj). }
  assert (Hsplit : forall v, length v = n0 -> forall j, (j < rn)%nat ->
            dot v (map (hamming_bit rn j) (range 0 n0)) =
            vsum (map (fun p => nth p v 0 * hamming_bit rn j p) info) +
            nth (parity_position rn j) v 0).
  { intros v Hv j Hj; exact (hamming_check_split rn v j Hrn Hv Hj). }
  rewrite Henc, (Hsyn w Hw Hb); split.
  - intros Hz; injection Hz as Hz; f_equal.
    assert (Hwcheck : forall j, (j < rn)%nat ->
              dot w (map (hamming_bit rn j) (range 0 n0)) mod 2 = 0).
    { intros j Hj.
      transitivity (nth j (zeros rn) 0); [|apply nth_repeat].
      rewrite <- Hz.
      symmetry.
      apply (nth_tabulate
               (fun j => dot w (map (hamming_bit rn j) (range 0 n0)) mod 2)
               rn j 0 Hj). }
    assert (Hagree : forall p, In p info -> nth p u 0 = nth p w 0).
    { intros p Hp; apply (In_nth _ _ 0%nat) in Hp as (i & Hi & <-).
      rewrite Hinfo in Hi.
      transitivity (nth i m 0);
        [exact (hamming_codeword_info rn m i Hm Hbm Hi)|].
      unfold m.
      rewrite (nth_indep _ 0 ((fun p => nth p w 0) 0%nat))
        by (rewrite length_map; lia).
      apply (map_nth (fun p => nth p w 0)). }
    transitivity (map (fun c => nth c u 0) (range 0 n0));
      [rewrite <- Hu; symmetry; apply map_nth_range|].
    transitivity (map (fun c => nth c w 0) (range 0 n0));
      [|rewrite <- Hw; apply map_nth_range].
    apply map_ext_in; intros q Hq; apply in_range in Hq.
    destruct (in_dec Nat.eq_dec q (map (parity_position rn) (range 0 rn)))
      as [Hpar | Hnpar].
    + apply in_map_iff in Hpar as (j & <- & Hj); apply in_range in Hj.
      pose proof (Hwcheck j ltac:(lia)) as Cw.
      pose proof (Hucheck j ltac:(lia)) as Cu.
      rewrite (Hsplit w Hw j) in Cw by lia.
      rewrite (Hsplit u Hu j) in Cu by lia.
      rewrite (map_ext_in _ (fun p => nth p w 0 * hamming_bit rn j p)) in Cu
        by (intros p Hp; rewrite (Hagree p Hp); reflexivity).
      apply bit_parity_iff in Cw; [|apply nth_bit, Hb].
      apply bit_parity_iff in Cu; [|apply nth_bit, Hbu].
      congruence.
    + apply Hagree, info_positions_spec; split; [lia|].
      intros j Hj E; apply Hnpar; rewrite E; apply in_map, in_range; lia.
  - intros E; injection E as E; f_equal.
    unfold zeros; rewrite <- repeat_tabulate.
    apply map_ext_in; intros j Hj; apply in_range in Hj.
    rewrite <- E; apply Hucheck; lia.
Qed.

Lemma hamming_matrix_kernel_witness :
  2 <= 3 /\
  exists c, hamming_code 3 = OK c /\
    (syndrome (mkCode (G c) (k c) (n c) (d c)
                 [[0; 0; 0; 1; 1; 1; 1];
                  [0; 1; 1; 0; 0; 1; 1];
                  [1; 0; 1; 0; 1; 0; 1]]) [0; 1; 1; 0; 0; 1; 1] =
       OK [0; 0; 0] <->
     encode c [1; 0; 1; 1] = OK [0; 1; 1; 0; 0; 1; 1]).
Proof.
  assert (Hr : 2 <= 3) by lia.
  split; [exact Hr|].
  destruct (hamming_matrix_kernel 3 Hr) as (c & Hc & Hall).
  exists c; split; [exact Hc|].
  assert (Hb : bits [0; 1; 1; 0; 0; 1; 1]).
  { repeat constructor; (left; reflexivity) || (right; reflexivity). }
  exact (Hall [0; 1; 1; 0; 0; 1; 1] eq_refl Hb).
Defined.

(** * Further properties of the graphs *)

(** ** Ids as keys: which nodes and edges [__eq__] identifies *)

Lemma append_assoc (a b c : string) :
  String.append (String.append a b) c = String.append a (String.append b c).
Proof. induction a as [|x a IH]; simpl; [reflexivity | rewrite IH]; auto. Qed.

Lemma append_cancel_l (a b c : string) :
  String.append a b = String.append a c -> b = c.
Proof.
  induction a as [|x a IH]; simpl; intros E; [exact E|].
  injection E as E; apply IH, E.
Qed.

Lemma chars_append (a b : string) :
  list_ascii_of_string (String.append a b) =
  list_ascii_of_string a ++ list_ascii_of_string b.
Proof. induction a as [|x a IH]; simpl; [reflexivity | rewrite IH]; auto. Qed.

(** Two texts cut at their first character of a class [P]. *)
Lemma token_split (P : ascii -> Prop) (a a' : string) (c c' : ascii)
    (r r' : string) :
  (forall x, In x (list_ascii_of_string a) -> ~ P x) ->
  (forall x, In x (list_ascii_of_string a') -> ~ P x) ->
  P c -> P c' ->
  String.append a (String c r) = String.append a' (String c' r') ->
  a = a' /\ c = c' /\ r = r'.
Proof.
  intros Ha Ha' Hc Hc'; revert a' Ha'.
  induction a as [|x a IH]; intros [|x' a'] Ha' E; simpl in *.
  - injection E as -> ->; auto.
  - injection E as Ex E; exfalso; apply (Ha' x'); [left | subst x']; auto.
  - injection E as Ex E; exfalso; apply (Ha x); [left | subst x]; auto.
  - injection E as Ex E; subst x'.
    destruct (IH (fun y Hy => Ha y (or_intror Hy)) a'
                 (fun y Hy => Ha' y (or_intror Hy)) E) as (-> & -> & ->).
    auto.
Qed.

(** Two texts that are cut at their first underscore. *)
Lemma sep_split (a a' r r' : string) :
  ~ In "_"%char (list_ascii_of_string a) ->
  ~ In "_"%char (list_ascii_of_string a') ->
  String.append a (String "_" r) = String.append a' (String "_" r') ->
  a = a' /\ r = r'.
Proof.
  intros Ha Ha' E.
  destruct (token_split (eq "_"%char) a a' "_" "_" r r') as (-> & _ & ->);
    auto; intros x Hx <-; auto.
Qed.

(** Two texts that are cut at their last underscore. *)
Lemma last_sep_split (a a' r r' : string) :
  ~ In "_"%char (list_ascii_of_string r) ->
  ~ In "_"%char (list_ascii_of_string r') ->
  String.append a (String "_" r) = String.append a' (String "_" r') ->
  a = a' /\ r = r'.
Proof.
  intros Hr Hr'; revert a'.
  induction a as [|x a IH]; intros [|x' a'] E; simpl in *.
  - injection E as ->; auto.
  - injection E as Ex E; exfalso; apply Hr.
    rewrite E, chars_append; apply in_or_app; right; left; reflexivity.
  - injection E as Ex E; exfalso; apply Hr'.
    rewrite <- E, chars_append; apply in_or_app; right; left; reflexivity.
  - injection E as Ex E; subst x'.
    destruct (IH a' E) as (-> & ->); auto.
Qed.

(** [str] of an integer: digits after an optional sign. *)
Lemma str_int_chars (z : Z) (x : ascii) :
  In x (list_ascii_of_string (str_int z)) ->
  In x (list_ascii_of_string "-0123456789").
Proof.
  assert (He : forall u, In x (list_ascii_of_string
                                 (NilEmpty.string_of_uint u)) ->
                         In x (list_ascii_of_string "0123456789")).
  { intros u; induction u; simpl; [intros [] | ..];
      (intros [<- | Hin];
       [repeat (first [left; reflexivity | right]) | exact (IHu Hin)]). }
  assert (Hu : forall u, In x (list_ascii_of_string
                                 (NilZero.string_of_uint u)) ->
                         In x (list_ascii_of_string "0123456789")).
  { intros u; destruct u; try apply He.
    simpl; intros [<- | []]; left; reflexivity. }
  unfold str_int; destruct (Z.to_int z) as [u|u]; simpl.
  - intros Hin; right; apply (Hu u Hin).
  - intros [<- | Hin]; [left; reflexivity | right; apply (Hu u Hin)].
Qed.

Lemma str_int_avoids (x : ascii) (z : Z) :
  ~ In x (list_ascii_of_string "-0123456789") ->
  ~ In x (list_ascii_of_string (str_int z)).
Proof. intros Hx Hin; apply Hx, (str_int_chars z x Hin). Qed.

Lemma str_int_no_sep (z : Z) :
  ~ In "_"%char (list_ascii_of_string (str_int z)).
Proof.
  apply str_int_avoids; simpl; intros H.
  repeat (destruct H as [H | H]; [discriminate H|]); exact H.
Qed.

Lemma str_int_inj (a b : Z) : str_int a = str_int b -> a = b.
Proof.
  assert (Hnn : forall z, Z.to_int z <> Decimal.Pos Decimal.Nil /\
                          Z.to_int z <> Decimal.Neg Decimal.Nil).
  { intros [|p|p]; simpl; split; try discriminate; intros E;
      injection E as E; exact (DecimalPos.Unsigned.to_uint_nonnil p E). }
  unfold str_int; intros E.
  apply DecimalZ.to_int_inj.
  apply (f_equal NilZero.int_of_string) in E.
  rewrite !NilZero.isi in E by apply Hnn.
  injection E as E; exact E.
Qed.

(** The characters that end an item of the text of a tuple. *)
Lemma str_int_item (z : Z) (x : ascii) :
  In x (list_ascii_of_string (str_int z)) ->
  ~ (x = ","%char \/ x = ")"%char).
Proof.
  intros Hin [-> | ->]; revert Hin; apply str_int_avoids; simpl; intros H;
    repeat (destruct H as [H | H]; [discriminate H|]); exact H.
Qed.

Lemma item_split (x x' : Z) (c c' : ascii) (r r' : string) :
  c = ","%char \/ c = ")"%char -> c' = ","%char \/ c' = ")"%char ->
  String.append (str_int x) (String c r) =
  String.append (str_int x') (String c' r') ->
  x = x' /\ c = c' /\ r = r'.
Proof.
  intros Hc Hc' E.
  destruct (token_split (fun y => y = ","%char \/ y = ")"%char)
              (str_int x) (str_int x') c c' r r') as (Ex & Ec & Er); auto.
  - intros y; apply str_int_item.
  - intros y; apply str_int_item.
  - apply str_int_inj in Ex; auto.
Qed.

Lemma item_not_empty (x : Z) (r : string) :
  ")"%string <> String.append (str_int x) (String "," r).
Proof.
  intros E.
  destruct (token_split (fun y => y = ","%char \/ y = ")"%char)
              "" (str_int x) ")" "," "" r) as (_ & Ec & _); auto.
  - intros y; apply str_int_item.
  - discriminate Ec.
Qed.

Lemma join_cons (x y : Z) (l : list Z) :
  String.append (join ", " (map str_int (x :: y :: l))) ")" =
  String.append (str_int x)
    (String "," (String " "
       (String.append (join ", " (map str_int (y :: l))) ")"))).
Proof.
  change (join ", " (map str_int (x :: y :: l)))
    with (String.append (str_int x)
            (String "," (String " " (join ", " (map str_int (y :: l)))))).
  rewrite append_assoc; reflexivity.
Qed.

Lemma join_items_inj (l l' : list Z) :
  l <> [] -> l' <> [] ->
  String.append (join ", " (map str_int l)) ")" =
  String.append (join ", " (map str_int l')) ")" ->
  l = l'.
Proof.
  revert l'; induction l as [|x l IH]; intros l' Hl Hl' E; [contradiction|].
  destruct l' as [|x' l']; [contradiction|].
  destruct l as [|y l], l' as [|y' l']; rewrite ?join_cons in E.
  - apply item_split in E as (-> & _); auto.
  - apply item_split in E as (_ & Ec & _); auto; discriminate Ec.
  - apply item_split in E as (_ & Ec & _); auto; discriminate Ec.
  - apply item_split in E as (-> & _ & E); auto.
    assert (Htl : forall c a b, String c a = String c b -> a = b).
    { intros c a b E'; injection E' as E'; exact E'. }
    apply Htl in E; f_equal.
    apply IH; [discriminate | discriminate | exact E].
Qed.

Lemma str_tuple_inj (t t' : list Z) : str_tuple t = str_tuple t' -> t = t'.
Proof.
  assert (Hone : forall x, str_tuple [x] =
                           String "(" (String.append (str_int x) ",)")).
  { reflexivity. }
  assert (Hmany : forall x y l,
            str_tuple (x :: y :: l) =
            String "(" (String.append
                          (join ", " (map str_int (x :: y :: l))) ")")).
  { reflexivity. }
  assert (Htl : forall c a b, String c a = String c b -> a = b).
  { intros c a b E; injection E as E; exact E. }
  destruct t as [|x [|y l]], t' as [|x' [|y' l']];
    rewrite ?Hone, ?Hmany, ?join_cons; intros E; try reflexivity;
    apply Htl in E.
  - exfalso; apply (item_not_empty _ _ E).
  - exfalso; apply (item_not_empty _ _ E).
  - exfalso; symmetry in E; apply (item_not_empty _ _ E).
  - apply item_split in E as (-> & _); auto.
  - apply item_split in E as (_ & _ & E); auto; discriminate E.
  - exfalso; symmetry in E; apply (item_not_empty _ _ E).
  - apply item_split in E as (_ & _ & E); auto; discriminate E.
  - rewrite <- !join_cons in E.
    apply join_items_inj in E; [exact E | |]; discriminate.
Qed.

Lemma join_no_sep (l : list Z) :
  ~ In "_"%char (list_ascii_of_string (join ", " (map str_int l))).
Proof.
  induction l as [|x [|y l] IH]; [simpl; tauto | apply str_int_no_sep|].
  change (join ", " (map str_int (x :: y :: l)))
    with (String.append (str_int x)
            (String "," (String " " (join ", " (map str_int (y :: l)))))).
  rewrite chars_append; intros Hin; apply in_app_or in Hin as [Hin | Hin].
  - exact (str_int_no_sep x Hin).
  - destruct Hin as [E | [E | Hin]]; try discriminate E.
    exact (IH Hin).
Qed.

Lemma str_tuple_no_sep (t : list Z) :
  ~ In "_"%char (list_ascii_of_string (str_tuple t)).
Proof.
  destruct t as [|x [|y l]].
  - simpl; intros [E | [E | []]]; discriminate E.
  - change (str_tuple [x])
      with (String "(" (String.append (str_int x) ",)")).
    cbn [list_ascii_of_string]; rewrite chars_append.
    intros [E | Hin]; [discriminate E|].
    apply in_app_or in Hin as [Hin | Hin]; [exact (str_int_no_sep x Hin)|].
    destruct Hin as [E | [E | []]]; discriminate E.
  - change (str_tuple (x :: y :: l))
      with (String "(" (String.append
                          (join ", " (map str_int (x :: y :: l))) ")")).
    cbn [list_ascii_of_string]; rewrite chars_append.
    intros [E | Hin]; [discriminate E|].
    apply in_app_or in Hin as [Hin | Hin];
      [exact (join_no_sep (x :: y :: l) Hin)|].
    destruct Hin as [E | []]; discriminate E.
Qed.

Lemma node_id_inj (a b : AdinkraNode) : node_id a = node_id b -> a = b.
Proof.
  destruct a as [ta pa na], b as [tb pb nb]; unfold node_id; simpl.
  intros E.
  assert (Et : ta = tb).
  { destruct ta, tb; simpl in E; try reflexivity; discriminate E. }
  subst tb.
  assert (E' : String.append na (String "_" (str_tuple pa)) =
               String.append nb (String "_" (str_tuple pb))).
  { destruct ta; simpl in E; injection E as E; exact E. }
  apply last_sep_split in E' as (-> & Ep); try apply str_tuple_no_sep.
  apply str_tuple_inj in Ep; subst; reflexivity.
Qed.

Lemma node_eqb_eq (a b : AdinkraNode) : node_eqb a b = true <-> a = b.
Proof.
  unfold node_eqb; rewrite String.eqb_eq; split;
    [apply node_id_inj | intros ->; reflexivity].
Qed.

Lemma edge_id_tail (e e' : AdinkraEdge) :
  edge_id e = edge_id e' -> color e = color e' /\ dashed e = dashed e'.
Proof.
  unfold edge_id; intros E.
  assert (Hshape : forall x : AdinkraEdge,
            String.append (node_id (source x))
              (String.append "_"
                 (String.append (node_id (target x))
                    (String.append "_"
                       (String.append (EdgeColor_name (color x))
                          (String.append "_" (str_bool (dashed x))))))) =
            String.append
              (String.append (node_id (source x))
                 (String "_"
                    (String.append (node_id (target x))
                       (String "_" (EdgeColor_name (color x))))))
              (String "_" (str_bool (dashed x)))).
  { intros x; rewrite !append_assoc; cbn [String.append].
    rewrite !append_assoc; cbn [String.append]; reflexivity. }
  rewrite !Hshape in E.
  apply last_sep_split in E as (E & Ed);
    try (destruct (dashed e); simpl; intros H;
         repeat (destruct H as [H | H]; [discriminate H|]); exact H);
    try (destruct (dashed e'); simpl; intros H;
         repeat (destruct H as [H | H]; [discriminate H|]); exact H).
  assert (Hshape2 : forall s t nm : string,
            String.append s (String "_" (String.append t (String "_" nm))) =
            String.append (String.append s (String "_" t)) (String "_" nm)).
  { intros s t nm; rewrite append_assoc; reflexivity. }
  rewrite !Hshape2 in E.
  apply last_sep_split in E as (_ & Ec);
    try (destruct (color e); simpl; intros H;
         repeat (destruct H as [H | H]; [discriminate H|]); exact H);
    try (destruct (color e'); simpl; intros H;
         repeat (destruct H as [H | H]; [discriminate H|]); exact H).
  split.
  - destruct (color e), (color e'); simpl in Ec; try reflexivity;
      discriminate Ec.
  - destruct (dashed e), (dashed e'); simpl in Ed; try reflexivity;
      discriminate Ed.
Qed.

(** [AdinkraNode.__eq__] compares the ids, and the id of a node determines
    the node: two nodes are equal exactly when their field type, position
    and name are.  The id of an edge determines its colour and dashing, but
    not its ends when a name holds an underscore: two edges with different
    sources and targets can have one id, and a set then keeps only the
    first of them. *)
Theorem ids_as_keys :
  (forall a b : AdinkraNode, node_eqb a b = true <-> a = b) /\
  (forall e e' : AdinkraEdge,
     edge_eqb e e' = true ->
     color e = color e' /\ dashed e = dashed e' /\
     (source e = source e' -> target e = target e' -> e = e')) /\
  (exists e e' g g',
     new_edge (source e) (target e) (color e) (dashed e) = OK e /\
     new_edge (source e') (target e') (color e') (dashed e') = OK e' /\
     source e <> source e' /\ target e <> target e' /\
     edge_eqb e e' = true /\
     add_edge (new_graph 1) e = OK g /\ add_edge g e' = OK g' /\
     edges g' = [e] /\ length (nodes g') = 4%nat).
Proof.
  split; [exact node_eqb_eq|]; split.
  - intros e e' E; apply String.eqb_eq, edge_id_tail in E as (Ec & Ed).
    split; [exact Ec|]; split; [exact Ed|].
    intros Es Et; destruct e, e'; simpl in *; congruence.
  - exists (mkEdge (mkNode BOSONIC [0] "x_(9,)_F_y") (mkNode FERMIONIC [1] "z")
                   RED false),
           (mkEdge (mkNode BOSONIC [9] "x") (mkNode FERMIONIC [1] "y_(0,)_F_z")
                   RED false).
    eexists; eexists.
    split; [reflexivity|]; split; [reflexivity|].
    split; [discriminate|]; split; [discriminate|].
    split; [reflexivity|]; split; [reflexivity|].
    split; [reflexivity|]; split; reflexivity.
Qed.

Lemma ids_as_keys_witness :
  let a := mkNode BOSONIC [0] "phi_0" in
  let b := mkNode FERMIONIC [0] "psi_0" in
  let e := mkEdge a b RED false in
  let e' := mkEdge a b RED false in
  (node_eqb a b = true <-> a = b) /\
  edge_eqb e e' = true /\
  color e = color e' /\ dashed e = dashed e' /\ e = e'.
Proof.
  intros a b e e'.
  destruct ids_as_keys as (Hn & He & _).
  assert (E : edge_eqb e e' = true) by reflexivity.
  destruct (He e e' E) as (Hc & Hd & Heq).
  split; [apply Hn|]; split; [exact E|]; split; [exact Hc|].
  split; [exact Hd | apply Heq; reflexivity].
Defined.

(** ** What [to_linear_code] returns *)

Lemma firstn_Forall {A : Type} (P : A -> Prop) (m : nat) (l : list A) :
  Forall P l -> Forall P (firstn m l).
Proof.
  intros Hl; revert m; induction Hl as [|x l Hx Hl IH]; intros [|m]; simpl;
    try constructor; auto.
Qed.

Lemma color_codeword_bits (g : AdinkraGraph) (c : EdgeColor) :
  bits (color_codeword g c).
Proof.
  unfold color_codeword; apply Forall_app; split.
  - apply Forall_map, Forall_forall; intros x _.
    destruct (Z.abs x >? 0); [right | left]; reflexivity.
  - apply firstn_Forall, Forall_app; split.
    + apply Forall_flat_map, Forall_forall; intros e _.
      destruct (EdgeColor_eqb (color e) c); [|constructor].
      constructor; [|constructor].
      destruct (dashed e); [right | left]; reflexivity.
    + apply repeat_bits; left; reflexivity.
Qed.

(** [to_linear_code] raises [ValueError] on a graph without colours; with
    colours it hands one row of [2 |bosonic| |fermionic|] bits per colour to
    the constructor, which takes them as they are when there are at most as
    many colours as columns and raises [IndexError] otherwise, as on every
    graph that has a colour but no bosonic or no fermionic node. *)
Theorem to_linear_code_outcome (g : AdinkraGraph) :
  let cells := (length (bosonic_nodes g) * length (fermionic_nodes g))%nat in
  let colours := length (available_colors g) in
  (colours = 0%nat -> to_linear_code g = Err ValueError) /\
  ((1 <= colours <= 2 * cells)%nat ->
     exists code, to_linear_code g = OK code /\
       G code = map (color_codeword g)
                    (sorted_by color_leb (available_colors g)) /\
       Forall bits (G code) /\
       k code = colours /\ n code = (2 * cells)%nat) /\
  ((2 * cells < colours)%nat -> to_linear_code g = Err IndexError).
Proof.
  intros cells colours.
  set (rows := map (color_codeword g)
                   (sorted_by color_leb (available_colors g))).
  assert (Hrows : rows_of_length (2 * cells) rows).
  { apply Forall_map, Forall_forall; intros c _.
    apply color_codeword_length. }
  assert (Hbits : Forall bits rows).
  { apply Forall_map, Forall_forall; intros c _.
    apply color_codeword_bits. }
  assert (Hlen : length rows = colours).
  { unfold rows; rewrite length_map; apply sorted_by_length. }
  assert (Hgm : (1 <= colours)%nat ->
                to_linear_code g = init (2 * cells) rows).
  { intros Hc; unfold to_linear_code.
    rewrite generator_matrix_value; [reflexivity|].
    intros E; unfold colours in Hc; rewrite E in Hc; simpl in Hc; lia. }
  split; [|split].
  - intros Hc; apply to_linear_code_no_colors.
    destruct (available_colors g); [reflexivity | discriminate].
  - intros Hc; rewrite Hgm by lia.
    destruct (init_value (2 * cells) rows Hrows ltac:(lia))
      as (code & Hi & HG & Hk & Hn & _).
    rewrite (map_mod2_bits _ Hbits) in HG.
    exists code; split; [exact Hi|]; split; [exact HG|].
    split; [rewrite HG; exact Hbits|]; split; congruence.
  - intros Hc; rewrite Hgm by lia.
    apply init_rejects; [exact Hrows | lia].
Qed.

Lemma to_linear_code_outcome_witness :
  let b := mkNode BOSONIC [0] "phi_0" in
  let f := mkNode FERMIONIC [0] "psi_0" in
  let g0 := mkGraph 0 [b; f] [] [b] [f] [] in
  let g1 := mkGraph 2 [b; f] [mkEdge b f RED true] [b] [f] [RED; GREEN] in
  let g2 := mkGraph 3 [b; f] [mkEdge b f RED true] [b] [f]
                    [RED; GREEN; BLUE] in
  (length (available_colors g0) = 0%nat /\
   to_linear_code g0 = Err ValueError) /\
  ((1 <= length (available_colors g1) <= 2 * (1 * 1))%nat /\
   exists code, to_linear_code g1 = OK code /\
     G code = [[1; 1]; [0; 0]] /\ k code = 2%nat /\ n code = 2%nat) /\
  ((2 * (1 * 1) < length (available_colors g2))%nat /\
   to_linear_code g2 = Err IndexError).
Proof.
  intros b f g0 g1 g2.
  split; [|split].
  - split; [reflexivity|].
    apply (proj1 (to_linear_code_outcome g0)); reflexivity.
  - assert (Hc : (1 <= length (available_colors g1) <= 2 * (1 * 1))%nat)
      by (simpl; lia).
    split; [exact Hc|].
    destruct (proj1 (proj2 (to_linear_code_outcome g1)) Hc)
      as (code & Hcode & HG & _ & Hk & Hn).
    exists code; repeat split; assumption.
  - assert (Hc : (2 * (1 * 1) < length (available_colors g2))%nat)
      by (simpl; lia).
    split; [exact Hc|].
    apply (proj2 (proj2 (to_linear_code_outcome g2))); exact Hc.
Defined.

(** ** The sets of a reachable graph *)

Lemma node_eqb_ids (a b : AdinkraNode) :
  node_eqb a b = true <-> node_id a = node_id b.
Proof. apply String.eqb_eq. Qed.

Lemma node_eqb_refl (a : AdinkraNode) : node_eqb a a = true.
Proof. apply String.eqb_refl. Qed.

Lemma node_eqb_kind (a b : AdinkraNode) :
  node_eqb a b = true -> field_type a = field_type b.
Proof.
  intros E; apply node_eqb_ids in E; unfold node_id in E.
  destruct (field_type a), (field_type b); simpl in E;
    try reflexivity; discriminate.
Qed.

Lemma edge_eqb_ids (a b : AdinkraEdge) :
  edge_eqb a b = true <-> edge_id a = edge_id b.
Proof. apply String.eqb_eq. Qed.

Lemma existsb_perm {A : Type} (f : A -> bool) (l l' : list A) :
  Permutation l l' -> existsb f l = existsb f l'.
Proof.
  induction 1 as [|x l l' _ IH|x y l|l l' l'' _ IH1 _ IH2]; simpl.
  - reflexivity.
  - rewrite IH; reflexivity.
  - destruct (f x), (f y); reflexivity.
  - congruence.
Qed.

Lemma filter_perm {A : Type} (f : A -> bool) (l l' : list A) :
  Permutation l l' -> Permutation (filter f l) (filter f l').
Proof.
  induction 1 as [|x l l' _ IH|x y l|l l' l'' _ IH1 _ IH2]; simpl.
  - constructor.
  - destruct (f x); [constructor|]; exact IH.
  - destruct (f x), (f y); try apply Permutation_refl; apply perm_swap.
  - eapply Permutation_trans; eauto.
Qed.

(** Membership up to the equality of a set, after [add]. *)
Lemma existsb_set_add {A : Type} (eqb : A -> A -> bool) (s : list A)
    (x y : A) :
  existsb (eqb y) (set_add eqb s x) =
  existsb (eqb y) s || (negb (existsb (eqb x) s) && eqb y x).
Proof.
  unfold set_add; destruct (existsb (eqb x) s); simpl.
  - rewrite orb_false_r; reflexivity.
  - rewrite existsb_app; simpl; rewrite orb_false_r; reflexivity.
Qed.

Lemma existsb_set_add_keeps {A : Type} (eqb : A -> A -> bool) (s : list A)
    (x y : A) :
  existsb (eqb y) s = true -> existsb (eqb y) (set_add eqb s x) = true.
Proof. intros E; rewrite existsb_set_add, E; reflexivity. Qed.

Lemma existsb_set_add_same {A : Type} (eqb : A -> A -> bool) (s : list A)
    (x : A) :
  eqb x x = true -> existsb (eqb x) (set_add eqb s x) = true.
Proof.
  intros E; rewrite existsb_set_add, E.
  destruct (existsb (eqb x) s); reflexivity.
Qed.

Lemma set_add_NoDup {A : Type} (eqb : A -> A -> bool) (key : A -> string)
    (s : list A) (x : A) :
  (forall a b, eqb a b = true <-> key a = key b) ->
  NoDup (map key s) -> NoDup (map key (set_add eqb s x)).
Proof.
  intros Hkey Hs; unfold set_add.
  destruct (existsb (eqb x) s) eqn:E; [exact Hs|].
  rewrite map_app; simpl.
  apply NoDup_app; [exact Hs | repeat constructor; intros [] | ].
  intros k0 Hin [<- | []].
  apply in_map_iff in Hin as (y & Hy & Hin).
  assert (Ht : existsb (eqb x) s = true); [|congruence].
  apply existsb_exists; exists y; split; [exact Hin|].
  apply Hkey; congruence.
Qed.

Lemma existsb_kind (x : AdinkraNode) (t : FieldType) (ns : list AdinkraNode) :
  field_type x = t ->
  existsb (node_eqb x)
          (filter (fun y => FieldType_eqb (field_type y) t) ns) =
  existsb (node_eqb x) ns.
Proof.
  intros Hx; induction ns as [|y ns IH]; simpl; [reflexivity|].
  destruct (FieldType_eqb (field_type y) t) eqn:E; simpl; rewrite IH;
    [reflexivity|].
  destruct (node_eqb x y) eqn:Exy; [|reflexivity].
  apply node_eqb_kind in Exy.
  assert (Hy : field_type y = t) by congruence.
  apply FieldType_eqb_eq in Hy; congruence.
Qed.

Lemma filter_set_add_kind (t : FieldType) (ns : list AdinkraNode)
    (x : AdinkraNode) :
  filter (fun y => FieldType_eqb (field_type y) t) (set_add node_eqb ns x) =
  if FieldType_eqb (field_type x) t
  then set_add node_eqb
         (filter (fun y => FieldType_eqb (field_type y) t) ns) x
  else filter (fun y => FieldType_eqb (field_type y) t) ns.
Proof.
  unfold set_add.
  destruct (FieldType_eqb (field_type x) t) eqn:E.
  - rewrite existsb_kind by (apply FieldType_eqb_eq, E).
    destruct (existsb (node_eqb x) ns); [reflexivity|].
    rewrite filter_app; simpl; rewrite E; reflexivity.
  - destruct (existsb (node_eqb x) ns); [reflexivity|].
    rewrite filter_app; simpl; rewrite E; apply app_nil_r.
Qed.

Lemma set_add_perm {A : Type} (eqb : A -> A -> bool) (s s' : list A) (x : A) :
  Permutation s s' -> Permutation (set_add eqb s x) (set_add eqb s' x).
Proof.
  intros Hp; unfold set_add.
  rewrite (existsb_perm _ _ _ Hp).
  destruct (existsb (eqb x) s'); [exact Hp|].
  apply Permutation_app_tail, Hp.
Qed.

Lemma add_node_nodes (g : AdinkraGraph) (x : AdinkraNode) :
  nodes (add_node g x) = set_add node_eqb (nodes g) x.
Proof. unfold add_node; destruct (FieldType_eqb _ _); reflexivity. Qed.

Lemma add_node_sets_agree (g : AdinkraGraph) (x : AdinkraNode) :
  sets_agree g -> sets_agree (add_node g x).
Proof.
  intros (Hb & Hf & Hn & He & Hedges).
  unfold sets_agree.
  rewrite add_node_nodes, add_node_edges, add_node_colors.
  rewrite !filter_set_add_kind.
  assert (Hrest : NoDup (map node_id (set_add node_eqb (nodes g) x)) /\
                  NoDup (map edge_id (edges g)) /\
                  Forall (fun e =>
                    In (color e) (available_colors g) /\
                    existsb (node_eqb (source e))
                            (set_add node_eqb (nodes g) x) = true /\
                    existsb (node_eqb (target e))
                            (set_add node_eqb (nodes g) x) = true)
                    (edges g)).
  { split; [apply set_add_NoDup; [apply node_eqb_ids | exact Hn]|].
    split; [exact He|].
    eapply Forall_impl; [|exact Hedges]; intros e (Hc & Hs & Ht).
    split; [exact Hc|]; split; apply existsb_set_add_keeps; assumption. }
  unfold add_node.
  destruct (field_type x) eqn:Ex; simpl; (split; [|split; [|exact Hrest]]);
    try assumption; apply set_add_perm; assumption.
Qed.

Lemma add_edge_nodes (g g' : AdinkraGraph) (e : AdinkraEdge) :
  add_edge g e = OK g' ->
  nodes g' = nodes (add_node (add_node g (source e)) (target e)) /\
  bosonic_nodes g' =
    bosonic_nodes (add_node (add_node g (source e)) (target e)) /\
  fermionic_nodes g' =
    fermionic_nodes (add_node (add_node g (source e)) (target e)) /\
  dimension g' = dimension g.
Proof.
  unfold add_edge; intros Ha.
  destruct (negb _); [discriminate|].
  injection Ha as <-; simpl; repeat split.
  unfold add_node; repeat destruct (FieldType_eqb _ _); reflexivity.
Qed.

Lemma built_sets_agree (g : AdinkraGraph) : built g -> sets_agree g.
Proof.
  induction 1 as [d | g node Hg IH | g g' s t c dsh e Hg IH He Ha
                 | g ns bs fs es Hg IH Hn He Hb Hf].
  - repeat split; simpl; constructor.
  - apply add_node_sets_agree, IH.
  - pose proof (add_node_sets_agree _ (target e)
                  (add_node_sets_agree _ (source e) IH))
      as (Hb & Hf & Hn & Hed & Hedges).
    destruct (add_edge_nodes _ _ _ Ha) as (En & Eb & Ef & _).
    destruct (add_edge_inv _ _ _ Ha) as (Ee & Ec & Hc).
    rewrite !add_node_edges in Hed, Hedges.
    rewrite !add_node_colors in Hedges.
    unfold sets_agree; rewrite En, Eb, Ef, Ee, Ec.
    split; [exact Hb|]; split; [exact Hf|]; split; [exact Hn|].
    split; [apply set_add_NoDup; [apply edge_eqb_ids | exact Hed]|].
    apply set_add_Forall; [exact Hedges|].
    split; [|split].
    + apply existsb_exists in Hc as (c' & Hin & Ec').
      apply EdgeColor_eqb_eq in Ec'; subst c'; exact Hin.
    + rewrite !add_node_nodes.
      apply existsb_set_add_keeps, existsb_set_add_same, node_eqb_refl.
    + rewrite !add_node_nodes.
      apply existsb_set_add_same, node_eqb_refl.
  - destruct IH as (Hb' & Hf' & Hn' & He' & Hedges).
    unfold sets_agree; simpl.
    split; [|split; [|split; [|split]]].
    + eapply Permutation_trans; [apply Permutation_sym, Hb|].
      eapply Permutation_trans; [exact Hb' | apply filter_perm, Hn].
    + eapply Permutation_trans; [apply Permutation_sym, Hf|].
      eapply Permutation_trans; [exact Hf' | apply filter_perm, Hn].
    + eapply Permutation_NoDup; [apply Permutation_map, Hn | exact Hn'].
    + eapply Permutation_NoDup; [apply Permutation_map, He | exact He'].
    + eapply Permutation_Forall; [exact He|].
      eapply Forall_impl; [|exact Hedges]; intros e (Hc & Hs & Ht).
      rewrite <- !(existsb_perm _ _ _ Hn); auto.
Qed.

Lemma filter_kinds_length (ns : list AdinkraNode) :
  length ns =
  (length (filter (fun y => FieldType_eqb (field_type y) BOSONIC) ns) +
   length (filter (fun y => FieldType_eqb (field_type y) FERMIONIC) ns))%nat.
Proof.
  induction ns as [|y ns IH]; simpl; [reflexivity|].
  destruct (field_type y); simpl; lia.
Qed.

(** In a graph reached through [add_node] and [add_edge], the bosonic and
    the fermionic set hold exactly the nodes of their kind, so the two
    split the node set and [len(nodes)] is the sum of their sizes; no node
    is stored twice and no two stored edges have the same id; and every
    edge has an available colour and both its ends among the nodes. *)
Theorem reachable_graph_sets (g : AdinkraGraph) :
  built g ->
  (forall x, In x (bosonic_nodes g) <->
             In x (nodes g) /\ field_type x = BOSONIC) /\
  (forall x, In x (fermionic_nodes g) <->
             In x (nodes g) /\ field_type x = FERMIONIC) /\
  length (nodes g) =
    (length (bosonic_nodes g) + length (fermionic_nodes g))%nat /\
  NoDup (nodes g) /\
  NoDup (map edge_id (edges g)) /\
  (forall e, In e (edges g) ->
     In (color e) (available_colors g) /\
     In (source e) (nodes g) /\ In (target e) (nodes g)).
Proof.
  intros Hg.
  destruct (built_sets_agree g Hg) as (Hb & Hf & Hn & He & Hedges).
  assert (Hin : forall t set,
            Permutation set
              (filter (fun y => FieldType_eqb (field_type y) t) (nodes g)) ->
            forall x, In x set <-> In x (nodes g) /\ field_type x = t).
  { intros t set Hp x; split.
    - intros Hx; apply (Permutation_in _ Hp), filter_In in Hx.
      rewrite FieldType_eqb_eq in Hx; exact Hx.
    - intros Hx; apply (Permutation_in _ (Permutation_sym Hp)), filter_In.
      rewrite FieldType_eqb_eq; exact Hx. }
  assert (Hmem : forall x, existsb (node_eqb x) (nodes g) = true ->
                           In x (nodes g)).
  { intros x Hx; apply existsb_exists in Hx as (y & Hy & E).
    apply node_eqb_eq in E; subst y; exact Hy. }
  split; [apply Hin, Hb|]; split; [apply Hin, Hf|]; split.
  - rewrite (Permutation_length Hb), (Permutation_length Hf).
    apply filter_kinds_length.
  - split; [exact (NoDup_map_inv _ _ Hn)|]; split; [exact He|].
    intros e Hin'; rewrite Forall_forall in Hedges.
    destruct (Hedges e Hin') as (Hc & Hs & Ht); auto.
Qed.

Lemma reachable_graph_sets_witness :
  let b := mkNode BOSONIC [0] "phi_0" in
  let f := mkNode FERMIONIC [0] "psi_0" in
  let e := mkEdge b f RED false in
  let g := mkGraph 1 [b; f] [e] [b] [f] [RED] in
  built g /\
  (In b (bosonic_nodes g) <-> In b (nodes g) /\ field_type b = BOSONIC) /\
  length (nodes g) =
    (length (bosonic_nodes g) + length (fermionic_nodes g))%nat /\
  NoDup (nodes g) /\
  In e (edges g) /\ In (source e) (nodes g).
Proof.
  intros b f e g.
  assert (Hg : built g).
  { apply (built_add_edge (new_graph 1) g b f RED false e);
      [apply built_new | reflexivity | reflexivity]. }
  destruct (reachable_graph_sets g Hg) as (Hb & _ & Hl & Hn & _ & He).
  split; [exact Hg|]; split; [apply Hb|]; split; [exact Hl|].
  split; [exact Hn|].
  assert (Hin : In e (edges g)) by (left; reflexivity).
  split; [exact Hin | apply (He e Hin)].
Defined.

(** ** [add_node] and [add_edge] only append, and adding twice adds once *)

Lemma set_add_absorb {A : Type} (eqb : A -> A -> bool) (s : list A) (x : A) :
  existsb (eqb x) s = true -> set_add eqb s x = s.
Proof. intros E; unfold set_add; rewrite E; reflexivity. Qed.

Lemma set_add_appends {A : Type} (eqb : A -> A -> bool) (s : list A) (x : A) :
  exists new, set_add eqb s x = s ++ new.
Proof.
  unfold set_add; destruct (existsb (eqb x) s);
    [exists []; symmetry; apply app_nil_r | exists [x]; reflexivity].
Qed.

Lemma add_node_absorb (g : AdinkraGraph) (x : AdinkraNode) :
  existsb (node_eqb x) (nodes g) = true ->
  existsb (node_eqb x)
          (if FieldType_eqb (field_type x) BOSONIC
           then bosonic_nodes g else fermionic_nodes g) = true ->
  add_node g x = g.
Proof.
  intros Hn Hk; unfold add_node.
  rewrite (set_add_absorb _ _ _ Hn).
  destruct (FieldType_eqb (field_type x) BOSONIC);
    rewrite (set_add_absorb _ _ _ Hk); destruct g; reflexivity.
Qed.

Lemma add_node_has (g : AdinkraGraph) (x : AdinkraNode) :
  existsb (node_eqb x) (nodes (add_node g x)) = true /\
  existsb (node_eqb x)
          (if FieldType_eqb (field_type x) BOSONIC
           then bosonic_nodes (add_node g x)
           else fermionic_nodes (add_node g x)) = true.
Proof.
  unfold add_node.
  destruct (FieldType_eqb (field_type x) BOSONIC); simpl;
    split; apply existsb_set_add_same, node_eqb_refl.
Qed.

Lemma add_node_keeps (g : AdinkraGraph) (x y : AdinkraNode) :
  (existsb (node_eqb y) (nodes g) = true ->
   existsb (node_eqb y) (nodes (add_node g x)) = true) /\
  (existsb (node_eqb y)
           (if FieldType_eqb (field_type y) BOSONIC
            then bosonic_nodes g else fermionic_nodes g) = true ->
   existsb (node_eqb y)
           (if FieldType_eqb (field_type y) BOSONIC
            then bosonic_nodes (add_node g x)
            else fermionic_nodes (add_node g x)) = true).
Proof.
  unfold add_node.
  destruct (FieldType_eqb (field_type x) BOSONIC),
           (FieldType_eqb (field_type y) BOSONIC); simpl; split;
    auto using existsb_set_add_keeps.
Qed.

Lemma add_node_idempotent (g : AdinkraGraph) (x : AdinkraNode) :
  add_node (add_node g x) x = add_node g x.
Proof. apply add_node_absorb; apply add_node_has. Qed.

Lemma add_node_appends (g : AdinkraGraph) (x : AdinkraNode) :
  (exists new, nodes (add_node g x) = nodes g ++ new) /\
  (exists new, bosonic_nodes (add_node g x) = bosonic_nodes g ++ new) /\
  (exists new, fermionic_nodes (add_node g x) = fermionic_nodes g ++ new).
Proof.
  unfold add_node.
  destruct (FieldType_eqb (field_type x) BOSONIC); simpl;
    repeat split; try apply set_add_appends;
    exists []; symmetry; apply app_nil_r.
Qed.

Lemma existsb_color_available (c : EdgeColor) (cs : list EdgeColor) :
  existsb (EdgeColor_eqb c) cs = true <-> In c cs.
Proof.
  rewrite existsb_exists; split.
  - intros (c' & Hin & E); apply EdgeColor_eqb_eq in E; subst; exact Hin.
  - intros Hin; exists c; split; [exact Hin | apply EdgeColor_eqb_eq].
    reflexivity.
Qed.

Lemma existsb_node_mem (x : AdinkraNode) (ns : list AdinkraNode) :
  existsb (node_eqb x) ns = true <-> In x ns.
Proof.
  rewrite existsb_exists; split.
  - intros (y & Hy & E); apply node_eqb_eq in E; subst y; exact Hy.
  - intros Hx; exists x; split; [exact Hx | apply node_eqb_refl].
Qed.

Lemma set_add_In {A : Type} (eqb : A -> A -> bool) (s : list A) (x y : A) :
  In y (set_add eqb s x) -> In y s \/ y = x.
Proof.
  unfold set_add; destruct (existsb (eqb x) s); [auto|].
  rewrite in_app_iff; intros [Hy | [-> | []]]; auto.
Qed.

Lemma set_add_In_fresh {A : Type} (eqb : A -> A -> bool) (s : list A)
    (x : A) :
  existsb (eqb x) s = false -> In x (set_add eqb s x).
Proof.
  intros E; unfold set_add; rewrite E; apply in_or_app; right; left.
  reflexivity.
Qed.

(** The set of its kind that a node goes to. *)
Lemma add_node_kind_sets (g : AdinkraGraph) (x : AdinkraNode) :
  (field_type x = BOSONIC ->
   In x (bosonic_nodes (add_node g x)) /\
   fermionic_nodes (add_node g x) = fermionic_nodes g) /\
  (field_type x = FERMIONIC ->
   In x (fermionic_nodes (add_node g x)) /\
   bosonic_nodes (add_node g x) = bosonic_nodes g).
Proof.
  destruct (add_node_has g x) as (_ & Hk).
  split; intros Hf; rewrite Hf in Hk; cbn [FieldType_eqb] in Hk;
    apply existsb_node_mem in Hk; (split; [exact Hk|]);
    unfold add_node; rewrite Hf; reflexivity.
Qed.

(** [add_node] keeps what the graph holds and appends at most the node, to
    the node set and to the set of its kind; [add_edge] raises [ValueError]
    exactly on a colour that is not available, and otherwise appends to the
    four sets, stores both ends (each in the node set and in the set of its
    kind, and no other node) and the edge (unless an edge with its id is
    there already, and no other edge), never changes the dimension or the
    colours, and leaves the graph as it is when the same node or edge is
    added again. *)
Theorem adding_is_idempotent (g : AdinkraGraph) :
  (forall x,
     add_node (add_node g x) x = add_node g x /\
     dimension (add_node g x) = dimension g /\
     available_colors (add_node g x) = available_colors g /\
     edges (add_node g x) = edges g /\
     (exists new, nodes (add_node g x) = nodes g ++ new) /\
     (exists new, bosonic_nodes (add_node g x) = bosonic_nodes g ++ new) /\
     (exists new,
        fermionic_nodes (add_node g x) = fermionic_nodes g ++ new) /\
     In x (nodes (add_node g x)) /\
     (forall y, In y (nodes (add_node g x)) -> In y (nodes g) \/ y = x) /\
     (field_type x = BOSONIC ->
      In x (bosonic_nodes (add_node g x)) /\
      fermionic_nodes (add_node g x) = fermionic_nodes g) /\
     (field_type x = FERMIONIC ->
      In x (fermionic_nodes (add_node g x)) /\
      bosonic_nodes (add_node g x) = bosonic_nodes g)) /\
  (forall e, In (color e) (available_colors g) ->
     exists g', add_edge g e = OK g' /\
       add_edge g' e = OK g' /\
       dimension g' = dimension g /\
       available_colors g' = available_colors g /\
       (exists new, nodes g' = nodes g ++ new) /\
       (exists new, bosonic_nodes g' = bosonic_nodes g ++ new) /\
       (exists new, fermionic_nodes g' = fermionic_nodes g ++ new) /\
       (exists new, edges g' = edges g ++ new) /\
       In (source e) (nodes g') /\ In (target e) (nodes g') /\
       (forall x, x = source e \/ x = target e ->
          (field_type x = BOSONIC -> In x (bosonic_nodes g')) /\
          (field_type x = FERMIONIC -> In x (fermionic_nodes g'))) /\
       (forall x, In x (nodes g') ->
          In x (nodes g) \/ x = source e \/ x = target e) /\
       (exists e', In e' (edges g') /\ edge_id e' = edge_id e) /\
       (forall e', In e' (edges g') -> In e' (edges g) \/ e' = e) /\
       ((forall e', In e' (edges g) -> edge_id e' <> edge_id e) ->
        In e (edges g'))) /\
  (forall e, ~ In (color e) (available_colors g) ->
     add_edge g e = Err ValueError).
Proof.
  split; [|split].
  - intros x; split; [apply add_node_idempotent|].
    split; [unfold add_node; destruct (FieldType_eqb _ _); reflexivity|].
    split; [apply add_node_colors|]; split; [apply add_node_edges|].
    destruct (add_node_appends g x) as (An & Ab & Af).
    split; [exact An|]; split; [exact Ab|]; split; [exact Af|].
    split; [apply existsb_node_mem, add_node_has|].
    split; [|apply add_node_kind_sets].
    intros y; rewrite add_node_nodes; apply set_add_In.
  - intros e Hc.
    apply existsb_color_available in Hc.
    set (g1 := add_node g (source e)).
    set (g2 := add_node g1 (target e)).
    set (g' := mkGraph (dimension g2) (nodes g2)
                       (set_add edge_eqb (edges g2) e)
                       (bosonic_nodes g2) (fermionic_nodes g2)
                       (available_colors g2)).
    assert (Ha : add_edge g e = OK g').
    { unfold add_edge; rewrite Hc; reflexivity. }
    assert (Hcol : available_colors g' = available_colors g).
    { unfold g', g2, g1; simpl; rewrite !add_node_colors; reflexivity. }
    assert (Hedges : edges g' = set_add edge_eqb (edges g) e).
    { unfold g', g2, g1; cbn [edges]; rewrite !add_node_edges; reflexivity. }
    assert (Hedge : existsb (edge_eqb e) (edges g') = true).
    { apply existsb_set_add_same, String.eqb_refl. }
    destruct (add_node_has g (source e)) as (Hs1 & Hs2); fold g1 in Hs1, Hs2.
    destruct (add_node_keeps g1 (target e) (source e)) as (Ks1 & Ks2).
    fold g2 in Ks1, Ks2.
    destruct (add_node_has g1 (target e)) as (Ht1 & Ht2); fold g2 in Ht1, Ht2.
    destruct (add_node_appends g (source e)) as ((n1 & N1) & (b1 & B1) & f1 & F1).
    destruct (add_node_appends g1 (target e))
      as ((n2 & N2) & (b2 & B2) & f2 & F2).
    fold g1 in N1, B1, F1; fold g2 in N2, B2, F2.
    exists g'; split; [exact Ha|]; split; [|split; [|split; [exact Hcol|]]].
    + assert (E1 : add_node g' (source e) = g').
      { apply add_node_absorb; [apply Ks1, Hs1 | apply Ks2, Hs2]. }
      assert (E2 : add_node g' (target e) = g').
      { apply add_node_absorb; [exact Ht1 | exact Ht2]. }
      unfold add_edge; rewrite Hcol, Hc; cbn [negb].
      rewrite E1, E2; f_equal.
      unfold g' at 1 2 3 4 5 6; cbn [dimension nodes edges bosonic_nodes
        fermionic_nodes available_colors].
      fold g'.
      change (set_add edge_eqb (edges g2) e) with (edges g').
      rewrite (set_add_absorb _ _ _ Hedge); reflexivity.
    + destruct (add_edge_nodes _ _ _ Ha) as (_ & _ & _ & Ed); exact Ed.
    + split; [exists (n1 ++ n2); cbn [g' nodes];
              rewrite N2, N1, app_assoc; reflexivity|].
      split; [exists (b1 ++ b2); cbn [g' bosonic_nodes];
              rewrite B2, B1, app_assoc; reflexivity|].
      split; [exists (f1 ++ f2); cbn [g' fermionic_nodes];
              rewrite F2, F1, app_assoc; reflexivity|].
      split; [rewrite Hedges; apply set_add_appends|].
      split; [apply existsb_node_mem, Ks1, Hs1|].
      split; [apply existsb_node_mem, Ht1|].
      split; [|split; [|split; [|split]]].
      * intros x [-> | ->].
        -- pose proof (Ks2 Hs2) as Hk.
           split; intros Hf; rewrite Hf in Hk; cbn [FieldType_eqb] in Hk;
             apply existsb_node_mem in Hk; exact Hk.
        -- pose proof Ht2 as Hk.
           split; intros Hf; rewrite Hf in Hk; cbn [FieldType_eqb] in Hk;
             apply existsb_node_mem in Hk; exact Hk.
      * intros x Hx; cbn [g' nodes] in Hx.
        unfold g2 in Hx; rewrite add_node_nodes in Hx.
        apply set_add_In in Hx as [Hx | ->]; [|auto].
        unfold g1 in Hx; rewrite add_node_nodes in Hx.
        apply set_add_In in Hx as [Hx | ->]; auto.
      * apply existsb_exists in Hedge as (e' & He' & E).
        exists e'; split; [exact He' | symmetry; apply edge_eqb_ids, E].
      * intros e'; rewrite Hedges; apply set_add_In.
      * intros Hfresh; rewrite Hedges; apply set_add_In_fresh.
        destruct (existsb (edge_eqb e) (edges g)) eqn:E; [|reflexivity].
        apply existsb_exists in E as (e' & He' & E).
        apply edge_eqb_ids in E; exfalso; apply (Hfresh e' He').
        symmetry; exact E.
  - intros e Hc; unfold add_edge.
    destruct (existsb (EdgeColor_eqb (color e)) (available_colors g)) eqn:E;
      [|reflexivity].
    apply existsb_color_available in E; contradiction.
Qed.

Lemma adding_is_idempotent_witness :
  let b := mkNode BOSONIC [0] "phi_0" in
  let f := mkNode FERMIONIC [0] "psi_0" in
  let g := new_graph 1 in
  (In RED (available_colors g) /\
   exists g', add_edge g (mkEdge b f RED false) = OK g' /\
     add_edge g' (mkEdge b f RED false) = OK g' /\
     In b (nodes g') /\ In f (nodes g') /\
     In b (bosonic_nodes g') /\ In f (fermionic_nodes g') /\
     In (mkEdge b f RED false) (edges g') /\
     nodes g' = [b; f] /\ length (edges g') = 1%nat) /\
  (~ In GREEN (available_colors g) /\
   add_edge g (mkEdge b f GREEN false) = Err ValueError).
Proof.
  intros b f g.
  destruct (adding_is_idempotent g) as (_ & Hadd & Herr).
  split.
  - assert (Hc : In RED (available_colors g)) by (left; reflexivity).
    split; [exact Hc|].
    destruct (Hadd (mkEdge b f RED false) Hc)
      as (g' & Ha & Hi & _ & _ & _ & _ & _ & _ & Hs & Ht & Hk & _ & _ & _ & Hf).
    exists g'; split; [exact Ha|]; split; [exact Hi|].
    split; [exact Hs|]; split; [exact Ht|].
    split; [apply (Hk b); [left|]; reflexivity|].
    split; [apply (Hk f); [right|]; reflexivity|].
    split; [apply Hf; intros e' []|].
    injection Ha as <-; split; reflexivity.
  - assert (Hc : ~ In GREEN (available_colors g)).
    { intros [E | []]; discriminate. }
    split; [exact Hc | apply (Herr (mkEdge b f GREEN false) Hc)].
Defined.

(** ** What [color_completeness] reports *)

Lemma set_add_color_In (acc : list EdgeColor) (c c' : EdgeColor) :
  In c' (set_add EdgeColor_eqb acc c) <-> In c' acc \/ c' = c.
Proof.
  unfold set_add.
  destruct (existsb (EdgeColor_eqb c) acc) eqn:E.
  - apply existsb_color_available in E; split; [auto|].
    intros [Hin | ->]; assumption.
  - rewrite in_app_iff; simpl; intuition congruence.
Qed.

Lemma set_add_color_NoDup (acc : list EdgeColor) (c : EdgeColor) :
  NoDup acc -> NoDup (set_add EdgeColor_eqb acc c).
Proof.
  intros Hacc; unfold set_add.
  destruct (existsb (EdgeColor_eqb c) acc) eqn:E; [exact Hacc|].
  apply NoDup_app; [exact Hacc | repeat constructor; intros [] |].
  intros c' Hin [<- | []].
  apply existsb_color_available in Hin; congruence.
Qed.

Lemma node_colors_spec (g : AdinkraGraph) (node : AdinkraNode) :
  NoDup (node_colors g node) /\
  forall c, In c (node_colors g node) <->
            exists e, In e (edges g) /\ color e = c /\
                      (node_eqb (source e) node
                       || node_eqb (target e) node) = true.
Proof.
  unfold node_colors.
  set (step := fun (acc : list EdgeColor) (edge : AdinkraEdge) => _).
  assert (Hgen : forall es acc,
            NoDup acc ->
            NoDup (fold_left step es acc) /\
            forall c, In c (fold_left step es acc) <->
                      In c acc \/
                      exists e, In e es /\ color e = c /\
                                (node_eqb (source e) node
                                 || node_eqb (target e) node) = true).
  { induction es as [|e es IH]; intros acc Hacc; simpl.
    - split; [exact Hacc|]; intros c; split; [auto|].
      intros [Hin | (e & [] & _)]; exact Hin.
    - assert (Hstep : NoDup (step acc e)).
      { unfold step; destruct (_ || _); [|exact Hacc].
        apply set_add_color_NoDup, Hacc. }
      destruct (IH _ Hstep) as (Hnd & Hin); split; [exact Hnd|].
      intros c; rewrite Hin; unfold step.
      destruct (node_eqb (source e) node || node_eqb (target e) node) eqn:Et.
      + rewrite set_add_color_In; split.
        * intros [[Hc | ->] | (e' & He' & Hrest)]; [auto | |].
          -- right; exists e; auto.
          -- right; exists e'; auto.
        * intros [Hc | (e' & [<- | He'] & Ec & Ht)]; [auto | |].
          -- left; right; congruence.
          -- right; exists e'; auto.
      + split.
        * intros [Hc | (e' & He' & Hrest)]; [auto|].
          right; exists e'; auto.
        * intros [Hc | (e' & [<- | He'] & Ec & Ht)]; [auto | congruence |].
          right; exists e'; auto. }
  destruct (Hgen (edges g) [] (NoDup_nil _)) as (Hnd & Hin).
  split; [exact Hnd|].
  intros c; rewrite Hin; split; [intros [[] | He]; exact He | auto].
Qed.

Lemma color_complete_spec (g : AdinkraGraph) (ns : list AdinkraNode) :
  color_complete g ns = true <->
  forall node, In node ns ->
               length (node_colors g node) = length (available_colors g).
Proof.
  induction ns as [|x ns IH]; simpl.
  - split; [intros _ node [] | reflexivity].
  - destruct (Nat.eqb_spec (length (node_colors g x))
                           (length (available_colors g))) as [E|E]; simpl.
    + rewrite IH; split.
      * intros Hall node [<- | Hin]; [exact E | apply Hall, Hin].
      * intros Hall node Hin; apply Hall; right; exact Hin.
    + split; [discriminate|].
      intros Hall; exfalso; apply E, Hall; left; reflexivity.
Qed.

Lemma color_complete_built (g : AdinkraGraph) :
  built g ->
  (color_complete g (nodes g) = true <->
   forall node c, In node (nodes g) -> In c (available_colors g) ->
     exists e, In e (edges g) /\ color e = c /\
               (source e = node \/ target e = node)).
Proof.
  intros Hg.
  destruct (built_sets_agree g Hg) as (_ & _ & _ & _ & Hedges).
  assert (Hcols : NoDup (available_colors g)).
  { rewrite (built_colors g Hg); apply slice_to_colors_NoDup. }
  assert (Hincl : forall node, incl (node_colors g node) (available_colors g)).
  { intros node c Hc.
    apply (proj2 (node_colors_spec g node)) in Hc as (e & He & <- & _).
    rewrite Forall_forall in Hedges; apply (Hedges e He). }
  assert (Htouch : forall e node,
            (node_eqb (source e) node || node_eqb (target e) node) = true <->
            source e = node \/ target e = node).
  { intros e node; rewrite orb_true_iff, !node_eqb_eq; reflexivity. }
  rewrite color_complete_spec; split.
  - intros Hall node c Hn Hc.
    destruct (node_colors_spec g node) as (Hnd & Hin).
    assert (Hc' : In c (node_colors g node)).
    { assert (Hle : (length (available_colors g)
                     <= length (node_colors g node))%nat)
        by (rewrite (Hall node Hn); lia).
      exact (NoDup_length_incl Hnd Hle (Hincl node) c Hc). }
    apply Hin in Hc' as (e & He & Ec & Ht).
    exists e; split; [exact He|]; split; [exact Ec | apply Htouch, Ht].
  - intros Hall node Hn.
    destruct (node_colors_spec g node) as (Hnd & Hin).
    apply Nat.le_antisymm.
    + apply NoDup_incl_length; [exact Hnd | apply Hincl].
    + apply NoDup_incl_length; [exact Hcols|].
      intros c Hc; apply Hin.
      destruct (Hall node c Hn Hc) as (e & He & Ec & Ht).
      exists e; split; [exact He|]; split; [exact Ec | apply Htouch, Ht].
Qed.

(** On a graph reached through [add_node] and [add_edge],
    [check_adinkra_rules] reports [color_completeness] exactly when every
    node has, for every available colour, an edge of that colour that
    starts or ends at it. *)
Theorem color_completeness_meaning (g : AdinkraGraph) :
  built g ->
  (color_completeness (check_adinkra_rules g) = true <->
   forall node c, In node (nodes g) -> In c (available_colors g) ->
     exists e, In e (edges g) /\ color e = c /\
               (source e = node \/ target e = node)).
Proof.
  intros Hg; unfold check_adinkra_rules; cbn [color_completeness].
  apply color_complete_built, Hg.
Qed.

Lemma color_completeness_meaning_witness :
  let b := mkNode BOSONIC [0] "phi_0" in
  let f := mkNode FERMIONIC [0] "psi_0" in
  let e := mkEdge b f RED false in
  let g := mkGraph 1 [b; f] [e] [b] [f] [RED] in
  built g /\
  color_completeness (check_adinkra_rules g) = true /\
  forall node c, In node (nodes g) -> In c (available_colors g) ->
    exists e, In e (edges g) /\ color e = c /\
              (source e = node \/ target e = node).
Proof.
  intros b f e g.
  assert (Hg : built g).
  { apply (built_add_edge (new_graph 1) g b f RED false e);
      [apply built_new | reflexivity | reflexivity]. }
  split; [exact Hg|]; split; [reflexivity|].
  apply (proj1 (color_completeness_meaning g Hg)); reflexivity.
Defined.

(** ** The entries of the adjacency matrices *)

Lemma index_of_lt (l : list AdinkraNode) (x : AdinkraNode) (i : nat) :
  index_of l x = Some i -> (i < length l)%nat.
Proof.
  revert i; induction l as [|y l IH]; intros i; simpl; [discriminate|].
  destruct (node_eqb y x); [intros E; injection E as <-; lia|].
  destruct (index_of l x) as [i'|]; [|discriminate].
  intros E; injection E as <-; specialize (IH i' eq_refl); lia.
Qed.

Lemma put2_nth (rows cols : nat) (A : matrix) (i j i' j' : nat) (v : Z) :
  length A = rows -> rows_of_length cols A ->
  (i' < rows)%nat -> (j' < cols)%nat ->
  nth j (nth i (put2 A i' j' v) []) 0 =
  if Nat.eqb i i' && Nat.eqb j j' then v else nth j (nth i A []) 0.
Proof.
  intros Hl Hs Hi Hj; unfold put2.
  rewrite nth_set_nth, Hl, (proj2 (Nat.ltb_lt _ _) Hi), andb_true_r.
  destruct (Nat.eqb_spec i i') as [->|Hne]; [|reflexivity].
  assert (Hrow : length (nth i' A []) = cols).
  { unfold rows_of_length in Hs; rewrite Forall_forall in Hs.
    apply Hs, nth_In; lia. }
  rewrite nth_set_nth, Hrow, (proj2 (Nat.ltb_lt _ _) Hj), andb_true_r.
  reflexivity.
Qed.

Lemma nth_zeros_matrix (rows cols i j : nat) :
  nth j (nth i (repeat (zeros cols) rows) []) 0 = 0.
Proof.
  destruct (Nat.lt_ge_cases i rows) as [Hi|Hi].
  - rewrite (nth_indep _ [] (zeros cols)) by (rewrite repeat_length; lia).
    rewrite nth_repeat; unfold zeros; apply nth_repeat.
  - rewrite (nth_overflow _ []) by (rewrite repeat_length; lia).
    destruct j; reflexivity.
Qed.

(** Entry [(i, j)] holds the sign of the last edge that joins the two
    nodes, or 0 when there is none. *)
Lemma adjacency_entry (g : AdinkraGraph) (c : EdgeColor) (i j : nat) :
  let x := nth j (nth i (get_adjacency_matrix g c) []) 0 in
  (x = 0 /\ forall e, In e (edges g) -> ~ joins g c i j e) \/
  (exists e, In e (edges g) /\ joins g c i j e /\
             x = if dashed e then -1 else 1).
Proof.
  unfold get_adjacency_matrix, joins, bosonic_end, fermionic_end.
  set (bl := sorted_by node_leb (bosonic_nodes g)).
  set (fl := sorted_by node_leb (fermionic_nodes g)).
  set (step := fun (adj : list (list Z)) (edge : AdinkraEdge) => _).
  set (J := fun e : AdinkraEdge =>
              color e = c /\
              index_of bl (if FieldType_eqb (field_type (source e)) BOSONIC
                           then source e else target e) = Some i /\
              index_of fl (if FieldType_eqb (field_type (target e)) FERMIONIC
                           then target e else source e) = Some j).
  assert (Hgen : forall es adj,
            length adj = length bl -> rows_of_length (length fl) adj ->
            (nth j (nth i (fold_left step es adj) []) 0 =
               nth j (nth i adj []) 0 /\
             forall e, In e es -> ~ J e) \/
            (exists e, In e es /\ J e /\
               nth j (nth i (fold_left step es adj) []) 0 =
               if dashed e then -1 else 1)).
  { induction es as [|e es IH]; intros adj Hl Hs; simpl.
    - left; split; [reflexivity | intros e []].
    - assert (Hstep : length (step adj e) = length bl /\
                      rows_of_length (length fl) (step adj e) /\
                      ((nth j (nth i (step adj e) []) 0 =
                          nth j (nth i adj []) 0 /\ ~ J e) \/
                       (J e /\ nth j (nth i (step adj e) []) 0 =
                               if dashed e then -1 else 1))).
      { unfold step, J.
        destruct (EdgeColor_eqb (color e) c) eqn:Ec; simpl.
        2:{ split; [exact Hl|]; split; [exact Hs|]; left.
            split; [reflexivity|]; intros (E & _).
            apply EdgeColor_eqb_eq in E; congruence. }
        apply EdgeColor_eqb_eq in Ec.
        destruct (index_of bl _) as [i'|] eqn:Ei.
        2:{ split; [exact Hl|]; split; [exact Hs|]; left.
            split; [reflexivity|]; intros (_ & E & _); discriminate. }
        destruct (index_of fl _) as [j'|] eqn:Ej.
        2:{ split; [exact Hl|]; split; [exact Hs|]; left.
            split; [reflexivity|]; intros (_ & _ & E); discriminate. }
        destruct (put2_shape (length fl) adj i' j'
                    (if dashed e then -1 else 1) Hs) as (Hs' & Hl').
        split; [congruence|]; split; [exact Hs'|].
        rewrite (put2_nth (length bl) (length fl))
          by (try assumption; eapply index_of_lt; eassumption).
        destruct (Nat.eqb_spec i i') as [->|Hi]; simpl.
        - destruct (Nat.eqb_spec j j') as [->|Hj].
          + right; auto.
          + left; split; [reflexivity|]; intros (_ & _ & E); congruence.
        - left; split; [reflexivity|]; intros (_ & E & _); congruence. }
      destruct Hstep as (Hl1 & Hs1 & Hcase).
      destruct (IH (step adj e) Hl1 Hs1)
        as [(Hx & Hnone) | (e' & He' & HJ & Hx)].
      + destruct Hcase as [(Hy & HnJ) | (HJ & Hy)].
        * left; split; [congruence|].
          intros e' [<- | He']; [exact HnJ | apply Hnone, He'].
        * right; exists e; split; [left; reflexivity|].
          split; [exact HJ | congruence].
      + right; exists e'; split; [right; exact He' | auto]. }
  destruct (Hgen (edges g) (repeat (zeros (length fl)) (length bl)))
    as [(Hx & Hnone) | Hsome].
  - apply repeat_length.
  - apply Forall_forall; intros row Hrow.
    apply repeat_spec in Hrow; subst; apply repeat_length.
  - left; split; [|exact Hnone].
    cbv zeta; rewrite Hx; apply nth_zeros_matrix.
  - right; exact Hsome.
Qed.

Lemma nth_map_default {A B : Type} (f : A -> B) (l : list A) (m : nat)
    (a : A) (b : B) :
  f a = b -> nth m (map f l) b = f (nth m l a).
Proof. intros <-; apply map_nth. Qed.

Lemma nth_concat_uniform (cols : nat) (A : matrix) (i j : nat) :
  rows_of_length cols A -> (j < cols)%nat ->
  nth (i * cols + j) (concat A) 0 = nth j (nth i A []) 0.
Proof.
  intros HA Hj; revert i; induction HA as [|row A Hrow HA IH]; intros i.
  - simpl; destruct (i * cols + j)%nat, i, j; reflexivity.
  - destruct i as [|i]; simpl.
    + rewrite app_nth1 by lia; reflexivity.
    + rewrite app_nth2 by lia.
      replace (cols + i * cols + j - length row)%nat
        with (i * cols + j)%nat by lia.
      apply IH.
Qed.

(** [get_adjacency_matrix] returns a [|bosonic| x |fermionic|] array of
    entries -1, 0 and 1.  Entry [(i, j)] is non-zero exactly when an edge
    of the colour joins the [i]-th bosonic and the [j]-th fermionic node
    (sorted by id); it is then -1 for a dashed and 1 for a solid edge; and
    the bit [i |fermionic| + j] of the colour's row in
    [to_codeword_representation] says whether it is non-zero. *)
Theorem adjacency_matrix_entries (g : AdinkraGraph) (c : EdgeColor)
    (i j : nat) :
  (i < length (bosonic_nodes g))%nat ->
  (j < length (fermionic_nodes g))%nat ->
  let A := get_adjacency_matrix g c in
  let x := nth j (nth i A []) 0 in
  length A = length (bosonic_nodes g) /\
  rows_of_length (length (fermionic_nodes g)) A /\
  (x = -1 \/ x = 0 \/ x = 1) /\
  (x <> 0 <-> exists e, In e (edges g) /\ joins g c i j e) /\
  (x = -1 -> exists e, In e (edges g) /\ joins g c i j e /\
                       dashed e = true) /\
  (x = 1 -> exists e, In e (edges g) /\ joins g c i j e /\
                      dashed e = false) /\
  nth (i * length (fermionic_nodes g) + j) (color_codeword g c) 0 =
    (if x =? 0 then 0 else 1).
Proof.
  intros Hi Hj A x.
  destruct (get_adjacency_matrix_shape g c) as (Hs & Hl).
  split; [exact Hl|]; split; [exact Hs|].
  assert (Hbit : nth (i * length (fermionic_nodes g) + j)
                     (color_codeword g c) 0 = if x =? 0 then 0 else 1).
  { unfold color_codeword.
    set (sb := map _ (concat (get_adjacency_matrix g c))).
    assert (Hsb : length sb =
              (length (bosonic_nodes g) * length (fermionic_nodes g))%nat).
    { unfold sb; rewrite length_map, (concat_length_uniform _ _ Hs), Hl.
      reflexivity. }
    rewrite app_nth1 by (rewrite Hsb; nia).
    unfold sb.
    rewrite (nth_map_default _ _ _ 0 0) by reflexivity.
    rewrite (nth_concat_uniform _ _ _ _ Hs Hj).
    fold A; fold x.
    destruct (Z.eqb_spec x 0) as [->|Hx]; [reflexivity|].
    destruct (Z.gtb_spec (Z.abs x) 0); [reflexivity | lia]. }
  destruct (adjacency_entry g c i j) as [(Hx & Hnone) | (e & He & HJ & Hx)];
    fold A in Hx; fold x in Hx.
  - split; [right; left; exact Hx|]; split.
    { split; [intros Hne; contradiction|].
      intros (e & He & HJ); exfalso; apply (Hnone e He HJ). }
    split; [intros Hm; lia|]; split; [intros Hm; lia | exact Hbit].
  - split; [destruct (dashed e); auto|].
    split; [|split; [|split]]; [| | |exact Hbit].
    + split; [intros _; exists e; auto|].
      intros _; destruct (dashed e); lia.
    + intros Hm; exists e; split; [exact He|]; split; [exact HJ|].
      destruct (dashed e); [reflexivity | lia].
    + intros Hm; exists e; split; [exact He|]; split; [exact HJ|].
      destruct (dashed e); [lia | reflexivity].
Qed.

Lemma adjacency_matrix_entries_witness :
  let b := mkNode BOSONIC [0] "phi_0" in
  let f := mkNode FERMIONIC [0] "psi_0" in
  let e := mkEdge b f RED true in
  let g := mkGraph 1 [b; f] [e] [b] [f] [RED] in
  let A := get_adjacency_matrix g RED in
  (0 < length (bosonic_nodes g))%nat /\
  (0 < length (fermionic_nodes g))%nat /\
  A = [[-1]] /\
  (exists e, In e (edges g) /\ joins g RED 0 0 e /\ dashed e = true) /\
  nth 0 (color_codeword g RED) 0 = 1.
Proof.
  intros b f e g A.
  assert (Hi : (0 < length (bosonic_nodes g))%nat) by (simpl; lia).
  assert (Hj : (0 < length (fermionic_nodes g))%nat) by (simpl; lia).
  destruct (adjacency_matrix_entries g RED 0 0 Hi Hj)
    as (_ & _ & _ & _ & Hdashed & _ & Hbit).
  split; [exact Hi|]; split; [exact Hj|]; split; [reflexivity|].
  split; [apply Hdashed; reflexivity | exact Hbit].
Defined.

(** ** Every stored edge is found by [get_adjacency_matrix] *)

Lemma index_of_found (l : list AdinkraNode) (x : AdinkraNode) :
  In x l -> exists i, index_of l x = Some i /\ nth_error l i = Some x.
Proof.
  induction l as [|y l IH]; intros Hin; [contradiction|]; simpl.
  destruct (node_eqb y x) eqn:E.
  - apply node_eqb_eq in E; subst y; exists 0%nat; auto.
  - destruct IH as (i & Hi & Hn).
    + destruct Hin as [-> | Hin]; [|exact Hin].
      rewrite node_eqb_refl in E; discriminate.
    + exists (S i); rewrite Hi; auto.
Qed.

Lemma built_kind_sets (g : AdinkraGraph) (x : AdinkraNode) :
  built g -> In x (nodes g) ->
  (field_type x = BOSONIC -> In x (bosonic_nodes g)) /\
  (field_type x = FERMIONIC -> In x (fermionic_nodes g)).
Proof.
  intros Hg Hx.
  destruct (built_sets_agree g Hg) as (Hb & Hf & _).
  split; intros Hk;
    [apply (Permutation_in _ (Permutation_sym Hb))
    |apply (Permutation_in _ (Permutation_sym Hf))];
    apply filter_In; split; try exact Hx; rewrite Hk; reflexivity.
Qed.

(** On a graph reached through [add_node] and [add_edge] the lookups of
    [get_adjacency_matrix] never fail: every stored edge has its bosonic
    end in the sorted bosonic list and its fermionic end in the sorted
    fermionic list, whichever of the two is its source, and the entry of
    its colour at these two indices is not zero. *)
Theorem adjacency_covers_edges (g : AdinkraGraph) (e : AdinkraEdge) :
  built g -> In e (edges g) ->
  exists i j,
    (i < length (bosonic_nodes g))%nat /\
    (j < length (fermionic_nodes g))%nat /\
    nth_error (sorted_by node_leb (bosonic_nodes g)) i =
      Some (bosonic_end e) /\
    nth_error (sorted_by node_leb (fermionic_nodes g)) j =
      Some (fermionic_end e) /\
    field_type (bosonic_end e) = BOSONIC /\
    field_type (fermionic_end e) = FERMIONIC /\
    joins g (color e) i j e /\
    nth j (nth i (get_adjacency_matrix g (color e)) []) 0 <> 0.
Proof.
  intros Hg He.
  destruct (built_sets_agree g Hg) as (_ & _ & _ & _ & Hedges).
  rewrite Forall_forall in Hedges.
  destruct (Hedges e He) as (_ & Hs & Ht).
  assert (Hmem : forall x, existsb (node_eqb x) (nodes g) = true ->
                           In x (nodes g)).
  { intros x Hx; apply existsb_exists in Hx as (y & Hy & E).
    apply node_eqb_eq in E; subst y; exact Hy. }
  apply Hmem in Hs, Ht.
  pose proof (built_edges g Hg) as Hkinds.
  rewrite Forall_forall in Hkinds; specialize (Hkinds e He).
  assert (Hb : field_type (bosonic_end e) = BOSONIC /\
               In (bosonic_end e) (bosonic_nodes g)).
  { unfold bosonic_end.
    destruct Hkinds as [(Es & Et) | (Es & Et)]; rewrite Es; simpl.
    - split; [exact Es | apply (built_kind_sets g _ Hg Hs), Es].
    - split; [exact Et | apply (built_kind_sets g _ Hg Ht), Et]. }
  assert (Hf : field_type (fermionic_end e) = FERMIONIC /\
               In (fermionic_end e) (fermionic_nodes g)).
  { unfold fermionic_end.
    destruct Hkinds as [(Es & Et) | (Es & Et)]; rewrite Et; simpl.
    - split; [exact Et | apply (built_kind_sets g _ Hg Ht), Et].
    - split; [exact Es | apply (built_kind_sets g _ Hg Hs), Es]. }
  destruct Hb as (Kb & Hb), Hf as (Kf & Hf).
  apply (Permutation_in _ (Permutation_sym (sorted_by_perm node_leb _)))
    in Hb, Hf.
  apply index_of_found in Hb as (i & Hi & Hni).
  apply index_of_found in Hf as (j & Hj & Hnj).
  assert (Hil : (i < length (bosonic_nodes g))%nat).
  { rewrite <- (sorted_by_length node_leb).
    apply nth_error_Some; congruence. }
  assert (Hjl : (j < length (fermionic_nodes g))%nat).
  { rewrite <- (sorted_by_length node_leb).
    apply nth_error_Some; congruence. }
  assert (HJ : joins g (color e) i j e) by (repeat split; assumption).
  exists i, j; repeat split; try assumption.
  destruct (adjacency_entry g (color e) i j)
    as [(_ & Hnone) | (e' & _ & _ & Hx)].
  - exfalso; apply (Hnone e He HJ).
  - rewrite Hx; destruct (dashed e'); discriminate.
Qed.

Lemma adjacency_covers_edges_witness :
  let b := mkNode BOSONIC [0] "phi_0" in
  let f := mkNode FERMIONIC [0] "psi_0" in
  let e := mkEdge f b RED true in
  let g := mkGraph 1 [f; b] [e] [b] [f] [RED] in
  built g /\ In e (edges g) /\
  exists i j,
    nth_error (sorted_by node_leb (bosonic_nodes g)) i = Some b /\
    nth_error (sorted_by node_leb (fermionic_nodes g)) j = Some f /\
    nth j (nth i (get_adjacency_matrix g RED) []) 0 <> 0.
Proof.
  intros b f e g.
  assert (Hg : built g).
  { apply (built_add_edge (new_graph 1) g f b RED true e);
      [apply built_new | reflexivity | reflexivity]. }
  assert (He : In e (edges g)) by (left; reflexivity).
  split; [exact Hg|]; split; [exact He|].
  destruct (adjacency_covers_edges g e Hg He)
    as (i & j & _ & _ & Hi & Hj & _ & _ & _ & Hx).
  exists i, j; split; [exact Hi|]; split; [exact Hj | exact Hx].
Defined.

(** ** The binary representation of an edge *)

(** [get_binary_representation] gives a colour value between 0 and 3 and a
    dash bit, and the pair determines the colour and the dashing of the
    edge. *)
Theorem binary_representation_faithful (e e' : AdinkraEdge) :
  (0 <= fst (get_binary_representation e) <= 3 /\
   is_bit (snd (get_binary_representation e))) /\
  (get_binary_representation e = get_binary_representation e' <->
   color e = color e' /\ dashed e = dashed e') /\
  nth_error EdgeColor_all (Z.to_nat (fst (get_binary_representation e))) =
    Some (color e) /\
  (snd (get_binary_representation e) = 1 <-> dashed e = true).
Proof.
  unfold get_binary_representation; cbn [fst snd].
  split; [|split; [|split]].
  - split; [destruct (color e); simpl; lia|].
    destruct (dashed e); [right | left]; reflexivity.
  - split.
    + intros E; injection E as Ec Ed; split.
      * destruct (color e), (color e'); simpl in Ec; try reflexivity; lia.
      * destruct (dashed e), (dashed e'); try reflexivity; discriminate.
    + intros (-> & ->); reflexivity.
  - destruct (color e); reflexivity.
  - destruct (dashed e); split; intros E; try reflexivity; discriminate.
Qed.

Lemma binary_representation_faithful_witness :
  let b := mkNode BOSONIC [0] "phi_0" in
  let f := mkNode FERMIONIC [0] "psi_0" in
  get_binary_representation (mkEdge b f BLUE true) = (2, 1) /\
  get_binary_representation (mkEdge b f BLUE true) =
    get_binary_representation (mkEdge f b BLUE true) /\
  color (mkEdge b f BLUE true) = color (mkEdge f b BLUE true) /\
  dashed (mkEdge b f BLUE true) = dashed (mkEdge f b BLUE true).
Proof.
  intros b f; split; [reflexivity|].
  assert (E : get_binary_representation (mkEdge b f BLUE true) =
              get_binary_representation (mkEdge f b BLUE true))
    by reflexivity.
  split; [exact E|].
  destruct (binary_representation_faithful (mkEdge b f BLUE true)
                                           (mkEdge f b BLUE true))
    as (_ & Hiff & _).
  apply (proj1 Hiff E).
Defined.

(** ** The outcome of [create_hypercube_adinkra] *)

Lemma vdict_get_set (dct : list (list Z * AdinkraNode)) (v v' : list Z)
    (x : AdinkraNode) :
  vdict_get (vdict_set dct v x) v' =
  if vertex_eqb v v' then Some x else vdict_get dct v'.
Proof.
  induction dct as [|[v0 x0] dct IH]; simpl; [reflexivity|].
  destruct (vertex_eqb v0 v) eqn:E; simpl.
  - apply vertex_eqb_eq in E as ->.
    destruct (vertex_eqb v v'); reflexivity.
  - rewrite IH.
    destruct (vertex_eqb v0 v') eqn:E'; [|reflexivity].
    apply vertex_eqb_eq in E' as ->.
    destruct (vertex_eqb v v') eqn:E2; [|reflexivity].
    apply vertex_eqb_eq in E2 as ->.
    rewrite (proj2 (vertex_eqb_eq v' v') eq_refl) in E; discriminate.
Qed.

Lemma hypercube_nodes_value (vs : list (list Z)) (v : list Z) :
  forall st : list (list Z * AdinkraNode) * AdinkraGraph,
    In v vs \/ vdict_get (fst st) v = Some (hypercube_node v) ->
    vdict_get
      (fst (fold_left
              (fun st vertex =>
                 (vdict_set (fst st) vertex (hypercube_node vertex),
                  add_node (snd st) (hypercube_node vertex)))
              vs st)) v = Some (hypercube_node v).
Proof.
  induction vs as [|v0 vs IH]; simpl; intros st Hv.
  - destruct Hv as [[] | Hv]; exact Hv.
  - apply IH; simpl; rewrite vdict_get_set.
    destruct (vertex_eqb v0 v) eqn:E.
    + apply vertex_eqb_eq in E; subst v0; right; reflexivity.
    + destruct Hv as [[-> | Hv] | Hv]; [|left | right]; auto.
      rewrite (proj2 (vertex_eqb_eq v v) eq_refl) in E; discriminate.
Qed.

Lemma product_head (k0 : nat) :
  exists rest, product [0; 1] k0 = zeros k0 :: rest.
Proof.
  pose proof (product_nth k0 0 (pow2_nat_pos k0)) as Hn.
  rewrite digits_msb_zero in Hn.
  destruct (product [0; 1] k0) as [|v rest]; [discriminate|].
  injection Hn as ->; exists rest; reflexivity.
Qed.

Lemma vsum_unit (m i : nat) :
  (i < m)%nat -> vsum (set_nth (zeros m) i 1) = 1.
Proof.
  unfold zeros; revert i; induction m as [|m IH]; intros [|i] Hi; try lia.
  - simpl set_nth; rewrite vsum_cons; fold (zeros m); rewrite vsum_zeros.
    reflexivity.
  - simpl set_nth; rewrite vsum_cons, IH by lia; reflexivity.
Qed.

(** The edge that leaves the first vertex along an axis that has a
    colour. *)
Lemma hypercube_first_vertex_step (dn : nat)
    (nodes0 : list (list Z * AdinkraNode)) (g : AdinkraGraph) (i : nat) :
  (forall v, In v (product [0; 1] dn) ->
             vdict_get nodes0 v = Some (hypercube_node v)) ->
  available_colors g = EdgeColor_all -> (i < 4)%nat -> (i < dn)%nat ->
  exists g',
    (oe <- hypercube_edge nodes0 EdgeColor_all (zeros dn) i ;;
     match oe with
     | Some edge => add_edge g edge
     | None => OK g
     end) = OK g' /\
    available_colors g' = EdgeColor_all.
Proof.
  intros Hdict Hcol Hi4 Hi.
  unfold hypercube_edge.
  assert (Hz : nth i (zeros dn) 0 = 0) by apply nth_repeat.
  rewrite Hz.
  assert (Hf : In (set_nth (zeros dn) i (1 - 0)) (product [0; 1] dn)).
  { pose proof (flip_axis_in_product dn (zeros dn) i (zeros_in_product dn))
      as Hf.
    unfold flip_axis in Hf; rewrite Hz in Hf; exact Hf. }
  rewrite (Hdict _ Hf).
  rewrite (Hdict (zeros dn)) by apply zeros_in_product.
  cbn [bind].
  assert (Hc : exists c, list_get EdgeColor_all i = OK c /\
                         In c EdgeColor_all).
  { destruct i as [|[|[|[|i]]]]; try lia; eexists; split;
      try reflexivity; simpl; auto. }
  destruct Hc as (c & Hget & Hin); rewrite Hget; cbn [bind].
  assert (Hnew : new_edge (hypercube_node (zeros dn))
                          (hypercube_node (set_nth (zeros dn) i (1 - 0)))
                          c (0 =? 1) =
                 OK (mkEdge (hypercube_node (zeros dn))
                            (hypercube_node (set_nth (zeros dn) i (1 - 0)))
                            c (0 =? 1))).
  { unfold new_edge, hypercube_node; cbn [field_type].
    rewrite vsum_zeros.
    change (1 - 0) with 1; rewrite (vsum_unit dn i Hi); reflexivity. }
  rewrite Hnew; cbn [bind].
  unfold add_edge; cbn [color].
  rewrite Hcol, (proj2 (existsb_color_available c EdgeColor_all) Hin).
  cbn [negb].
  eexists; split; [reflexivity|]; cbn [available_colors].
  rewrite !add_node_colors; exact Hcol.
Qed.

Lemma hypercube_first_vertex_fails (dn : nat)
    (nodes0 : list (list Z * AdinkraNode)) (g : AdinkraGraph) :
  (forall v, In v (product [0; 1] dn) ->
             vdict_get nodes0 v = Some (hypercube_node v)) ->
  (4 < dn)%nat ->
  (oe <- hypercube_edge nodes0 EdgeColor_all (zeros dn) 4 ;;
   match oe with
   | Some edge => add_edge g edge
   | None => OK g
   end) = Err IndexError.
Proof.
  intros Hdict Hdn; unfold hypercube_edge.
  assert (Hz : nth 4 (zeros dn) 0 = 0) by apply nth_repeat.
  rewrite Hz.
  assert (Hf : In (set_nth (zeros dn) 4 (1 - 0)) (product [0; 1] dn)).
  { pose proof (flip_axis_in_product dn (zeros dn) 4 (zeros_in_product dn))
      as Hf.
    unfold flip_axis in Hf; rewrite Hz in Hf; exact Hf. }
  rewrite (Hdict _ Hf).
  rewrite (Hdict (zeros dn)) by apply zeros_in_product.
  reflexivity.
Qed.

(** [create_hypercube_adinkra] returns a graph exactly for the dimensions
    0 to 4.  A negative dimension raises [ValueError] (from
    [itertools.product]); from dimension 5 on the call raises [IndexError],
    at the fifth axis of the first vertex, for which [EdgeColor] has no
    colour. *)
Theorem hypercube_outcome (dimension : Z) :
  (dimension < 0 -> create_hypercube_adinkra dimension = Err ValueError) /\
  (0 <= dimension <= 4 ->
     exists g, create_hypercube_adinkra dimension = OK g /\
               AdinkraGraphs.dimension g = dimension /\
               length (available_colors g) = Z.to_nat dimension) /\
  (5 <= dimension -> create_hypercube_adinkra dimension = Err IndexError).
Proof.
  split; [|split].
  - intros Hd; unfold create_hypercube_adinkra.
    destruct (Z.ltb_spec dimension 0); [reflexivity | lia].
  - intros Hd.
    assert (Hcases : dimension = 0 \/ dimension = 1 \/ dimension = 2 \/
                     dimension = 3 \/ dimension = 4) by lia.
    destruct Hcases as [-> | [-> | [-> | [-> | ->]]]];
      (eexists; split; [vm_compute; reflexivity | split; reflexivity]).
  - intros Hd; unfold create_hypercube_adinkra.
    destruct (Z.ltb_spec dimension 0); [lia|].
    set (dn := Z.to_nat dimension).
    assert (Hdn : (5 <= dn)%nat) by (unfold dn; lia).
    set (vs := product [0; 1] dn).
    set (st := fold_left _ vs ([], new_graph dimension)).
    assert (Hdict : forall v, In v vs ->
              vdict_get (fst st) v = Some (hypercube_node v)).
    { intros v Hv; apply hypercube_nodes_value; left; exact Hv. }
    assert (Hcol : available_colors (snd st) = EdgeColor_all).
    { unfold st; rewrite hypercube_nodes_colors; simpl.
      unfold slice_to; destruct (Z.leb_spec 0 dimension); [|lia].
      apply firstn_all2; simpl; lia. }
    rewrite Hcol.
    destruct (product_head dn) as (rest & Hvs).
    fold vs in Hvs; rewrite Hvs; cbn [foldM].
    rewrite (range_cons 0 dn), (range_cons 1 dn), (range_cons 2 dn),
      (range_cons 3 dn), (range_cons 4 dn) by lia.
    cbn [foldM].
    destruct (hypercube_first_vertex_step dn (fst st) (snd st) 0)
      as (g1 & -> & Hc1); try assumption; try lia.
    cbn [bind].
    destruct (hypercube_first_vertex_step dn (fst st) g1 1)
      as (g2 & -> & Hc2); try assumption; try lia.
    cbn [bind].
    destruct (hypercube_first_vertex_step dn (fst st) g2 2)
      as (g3 & -> & Hc3); try assumption; try lia.
    cbn [bind].
    destruct (hypercube_first_vertex_step dn (fst st) g3 3)
      as (g4 & -> & Hc4); try assumption; try lia.
    cbn [bind].
    rewrite hypercube_first_vertex_fails by (assumption || lia).
    reflexivity.
Qed.

Lemma hypercube_outcome_witness :
  (-1 < 0 /\ create_hypercube_adinkra (-1) = Err ValueError) /\
  (0 <= 2 <= 4 /\
   exists g, create_hypercube_adinkra 2 = OK g /\
             AdinkraGraphs.dimension g = 2 /\
             length (available_colors g) = Z.to_nat 2) /\
  (5 <= 6 /\ create_hypercube_adinkra 6 = Err IndexError).
Proof.
  split; [|split].
  - split; [lia|].
    apply (proj1 (hypercube_outcome (-1))); lia.
  - split; [lia|].
    apply (proj1 (proj2 (hypercube_outcome 2))); lia.
  - split; [lia|].
    apply (proj2 (proj2 (hypercube_outcome 6))); lia.
Defined.

(** ** The hypercube graphs pass the checks *)

Lemma foldM_preserves {A S : Type} (P : S -> Prop) (f : S -> A -> result S)
    (l : list A) :
  (forall s a s', P s -> f s a = OK s' -> P s') ->
  forall s s', P s -> foldM f l s = OK s' -> P s'.
Proof.
  intros Hf; induction l as [|a l IH]; intros s s' Hs Hl; simpl in Hl.
  - injection Hl as <-; exact Hs.
  - apply bind_OK in Hl as (s1 & Ha & Hl).
    apply (IH s1 s'); [apply (Hf s a s1 Hs Ha) | exact Hl].
Qed.

Lemma hypercube_edge_inv (nodes0 : list (list Z * AdinkraNode))
    (colors : list EdgeColor) (v : list Z) (i : nat) (e : AdinkraEdge) :
  hypercube_edge nodes0 colors v i = OK (Some e) ->
  new_edge (source e) (target e) (color e) (dashed e) = OK e.
Proof.
  unfold hypercube_edge; intros He.
  destruct (vdict_get nodes0 (set_nth v i (1 - nth i v 0))) as [t|];
    [|discriminate].
  apply bind_OK in He as (s & _ & He).
  apply bind_OK in He as (c & _ & He).
  apply bind_OK in He as (e' & Hnew & He).
  injection He as <-.
  destruct (new_edge_inv _ _ _ _ _ Hnew) as (-> & _); exact Hnew.
Qed.

Lemma create_hypercube_adinkra_built (dimension : Z) (g : AdinkraGraph) :
  create_hypercube_adinkra dimension = OK g -> built g.
Proof.
  unfold create_hypercube_adinkra; intros Hc.
  destruct (dimension <? 0); [discriminate|].
  set (step := fun (st : list (list Z * AdinkraNode) * AdinkraGraph)
                   (vertex : list Z) =>
                 (vdict_set (fst st) vertex (hypercube_node vertex),
                  add_node (snd st) (hypercube_node vertex))) in *.
  assert (Hnodes : forall vs st, built (snd st) ->
                                 built (snd (fold_left step vs st))).
  { induction vs as [|v vs IH]; intros st Hst; simpl; [exact Hst|].
    apply IH; simpl; apply built_add_node, Hst. }
  revert Hc; apply foldM_preserves; [|apply Hnodes, built_new].
  intros s v s' Hs; apply foldM_preserves; [|exact Hs].
  intros s1 i s2 Hs1 Hstep.
  apply bind_OK in Hstep as ([e|] & He & Ha).
  - apply hypercube_edge_inv in He.
    exact (built_add_edge s1 s2 _ _ _ _ e Hs1 He Ha).
  - injection Ha as <-; exact Hs1.
Qed.

(** Every graph that [create_hypercube_adinkra] returns is reached through
    [add_node] and [add_edge], and [check_adinkra_rules] reports all three
    rules as satisfied on it. *)
Theorem hypercube_passes_checks (dimension : Z) (g : AdinkraGraph) :
  create_hypercube_adinkra dimension = OK g ->
  built g /\ check_adinkra_rules g = mkRules true true true.
Proof.
  intros Hc; split; [exact (create_hypercube_adinkra_built _ _ Hc)|].
  pose proof (create_hypercube_adinkra_range _ _ Hc) as Hd.
  assert (Hcases : dimension = 0 \/ dimension = 1 \/ dimension = 2 \/
                   dimension = 3 \/ dimension = 4) by lia.
  destruct Hcases as [-> | [-> | [-> | [-> | ->]]]];
    vm_compute in Hc; injection Hc as <-; vm_compute; reflexivity.
Qed.

Lemma hypercube_passes_checks_witness :
  exists g,
    create_hypercube_adinkra 2 = OK g /\
    built g /\ check_adinkra_rules g = mkRules true true true.
Proof.
  destruct (create_hypercube_adinkra 2) as [g|e] eqn:Hc;
    [|vm_compute in Hc; discriminate].
  exists g; split; [reflexivity|].
  apply (hypercube_passes_checks 2 g Hc).
Defined.

(** ** The ids of the nodes and edges of [create_simple_adinkra] *)

Lemma node_id_simple_bosonic (i : nat) :
  node_id (simple_bosonic i) =
  String.append "B_phi_"
    (String.append (str_int (Z.of_nat i))
       (String "_" (String.append "("
          (String.append (str_int (Z.of_nat i)) ",)")))).
Proof. reflexivity. Qed.

Lemma node_id_simple_fermionic (j : nat) :
  node_id (simple_fermionic j) =
  String.append "F_psi_"
    (String.append (str_int (Z.of_nat j))
       (String "_" (String.append "("
          (String.append (str_int (Z.of_nat j)) ",)")))).
Proof. reflexivity. Qed.

Lemma simple_bosonic_id_inj (i i' : nat) :
  node_id (simple_bosonic i) = node_id (simple_bosonic i') -> i = i'.
Proof.
  rewrite !node_id_simple_bosonic; intros E.
  apply append_cancel_l, sep_split in E; try apply str_int_no_sep.
  apply Nat2Z.inj, str_int_inj, E.
Qed.

Lemma simple_fermionic_id_inj (j j' : nat) :
  node_id (simple_fermionic j) = node_id (simple_fermionic j') -> j = j'.
Proof.
  rewrite !node_id_simple_fermionic; intros E.
  apply append_cancel_l, sep_split in E; try apply str_int_no_sep.
  apply Nat2Z.inj, str_int_inj, E.
Qed.

Lemma edge_id_simple (colors : list EdgeColor) (i j k : nat) :
  edge_id (simple_edge colors i j k) =
  String.append "B_phi_"
    (String.append (str_int (Z.of_nat i))
       (String "_" (String.append "("
          (String.append (str_int (Z.of_nat i))
             (String.append ",)_F_psi_"
                (String.append (str_int (Z.of_nat j))
                   (String "_" (String.append "("
                      (String.append (str_int (Z.of_nat j))
                         (String.append ",)_"
                            (String.append
                               (EdgeColor_name (nth k colors RED))
                               (String "_"
                                  (str_bool
                                     (Z.of_nat (i + j + k) mod 2 =? 1))
                               )))))))))))).
Proof.
  unfold edge_id, simple_edge; cbn [source target color dashed].
  rewrite node_id_simple_bosonic, node_id_simple_fermionic.
  cbn [String.append]; rewrite !append_assoc; cbn [String.append].
  rewrite !append_assoc; cbn [String.append].
  reflexivity.
Qed.

Lemma color_name_split (c c' : EdgeColor) (d d' : bool) :
  String.append (EdgeColor_name c) (String "_" (str_bool d)) =
  String.append (EdgeColor_name c') (String "_" (str_bool d')) ->
  c = c' /\ d = d'.
Proof.
  destruct c, c', d, d'; simpl; intros E; try discriminate E; auto.
Qed.

Lemma simple_edge_id_inj (colors : list EdgeColor) (i j k i' j' k' : nat) :
  edge_id (simple_edge colors i j k) = edge_id (simple_edge colors i' j' k') ->
  i = i' /\ j = j' /\ nth k colors RED = nth k' colors RED.
Proof.
  rewrite !edge_id_simple; intros E.
  apply append_cancel_l, sep_split in E; try apply str_int_no_sep.
  destruct E as (Ei & E).
  rewrite Ei in E.
  apply (append_cancel_l "(") in E.
  apply append_cancel_l, (append_cancel_l ",)_F_psi_"), sep_split in E;
    try apply str_int_no_sep.
  destruct E as (Ej & E).
  rewrite Ej in E.
  apply (append_cancel_l "(") in E.
  apply append_cancel_l, (append_cancel_l ",)_"), color_name_split in E.
  destruct E as (Ec & _).
  split; [apply Nat2Z.inj, str_int_inj, Ei|].
  split; [apply Nat2Z.inj, str_int_inj, Ej | exact Ec].
Qed.

(** ** Loops that add nodes and edges *)

Lemma fold_add_node_fields (l : list AdinkraNode) :
  forall g,
    nodes (fold_left add_node l g) =
      fold_left (set_add node_eqb) l (nodes g) /\
    bosonic_nodes (fold_left add_node l g) =
      fold_left (set_add node_eqb)
        (filter (fun y => FieldType_eqb (field_type y) BOSONIC) l)
        (bosonic_nodes g) /\
    fermionic_nodes (fold_left add_node l g) =
      fold_left (set_add node_eqb)
        (filter (fun y => FieldType_eqb (field_type y) FERMIONIC) l)
        (fermionic_nodes g) /\
    edges (fold_left add_node l g) = edges g /\
    available_colors (fold_left add_node l g) = available_colors g /\
    dimension (fold_left add_node l g) = dimension g.
Proof.
  induction l as [|x l IH]; intros g; simpl; [repeat split|].
  destruct (IH (add_node g x)) as (Hn & Hb & Hf & He & Hc & Hd).
  rewrite Hn, Hb, Hf, He, Hc, Hd.
  unfold add_node; destruct (field_type x); simpl; repeat split.
Qed.

Lemma fold_set_add_fresh {A : Type} (eqb : A -> A -> bool)
    (key : A -> string) (l : list A) :
  (forall a b, eqb a b = true <-> key a = key b) ->
  forall s, NoDup (map key (s ++ l)) ->
            fold_left (set_add eqb) l s = s ++ l.
Proof.
  intros Hkey; induction l as [|x l IH]; intros s Hnd; simpl.
  - symmetry; apply app_nil_r.
  - assert (Hx : existsb (eqb x) s = false).
    { destruct (existsb (eqb x) s) eqn:E; [exfalso | reflexivity].
      apply existsb_exists in E as (y & Hy & E); apply Hkey in E.
      rewrite map_app in Hnd; simpl in Hnd.
      apply NoDup_remove_2 in Hnd; apply Hnd, in_or_app; left.
      rewrite E; apply in_map, Hy. }
    unfold set_add at 2; rewrite Hx.
    rewrite IH; rewrite <- app_assoc; [reflexivity | exact Hnd].
Qed.

Lemma foldM_app {A S : Type} (f : S -> A -> result S) (l1 l2 : list A) :
  forall s, foldM f (l1 ++ l2) s = (s' <- foldM f l1 s ;; foldM f l2 s').
Proof.
  induction l1 as [|a l1 IH]; intros s; simpl; [reflexivity|].
  destruct (f s a) as [s1|e]; simpl; [apply IH | reflexivity].
Qed.

Lemma foldM_flat_map {A B S : Type} (f : S -> B -> result S)
    (h : A -> list B) (l : list A) :
  forall s, foldM (fun s a => foldM f (h a) s) l s = foldM f (flat_map h l) s.
Proof.
  induction l as [|a l IH]; intros s; simpl; [reflexivity|].
  rewrite foldM_app.
  destruct (foldM f (h a) s) as [s1|e]; simpl; [apply IH | reflexivity].
Qed.

Lemma foldM_ext_in {A S : Type} (f f' : S -> A -> result S) (l : list A) :
  (forall s a, In a l -> f s a = f' s a) ->
  forall s, foldM f l s = foldM f' l s.
Proof.
  induction l as [|a l IH]; intros Hext s; simpl; [reflexivity|].
  rewrite (Hext s a) by (left; reflexivity).
  destruct (f' s a) as [s1|e]; simpl; [|reflexivity].
  apply IH; intros s' a' Ha'; apply Hext; right; exact Ha'.
Qed.

Lemma foldM_map {A B S : Type} (f : S -> B -> result S) (h : A -> B)
    (l : list A) :
  forall s, foldM (fun s a => f s (h a)) l s = foldM f (map h l) s.
Proof.
  induction l as [|a l IH]; intros s; simpl; [reflexivity|].
  destruct (f s (h a)) as [s1|e]; simpl; [apply IH | reflexivity].
Qed.

(** Adding edges whose ends are stored already: only the edge set grows. *)
Lemma foldM_add_edge (es : list AdinkraEdge) :
  forall g,
    (forall e, In e es ->
       In (color e) (available_colors g) /\
       add_node g (source e) = g /\ add_node g (target e) = g) ->
    foldM add_edge es g =
    OK (mkGraph (dimension g) (nodes g)
                (fold_left (set_add edge_eqb) es (edges g))
                (bosonic_nodes g) (fermionic_nodes g) (available_colors g)).
Proof.
  induction es as [|e es IH]; intros g Hes; simpl.
  - destruct g; reflexivity.
  - destruct (Hes e (or_introl eq_refl)) as (Hc & Hs & Ht).
    unfold add_edge at 1.
    rewrite (proj2 (existsb_color_available _ _) Hc); cbn [negb].
    rewrite Hs, Ht; cbn [bind].
    rewrite IH; [reflexivity|].
    intros e' He'; cbn [available_colors].
    destruct (Hes e' (or_intror He')) as (Hc' & Hs' & Ht').
    split; [exact Hc'|].
    unfold add_node in *; cbn [nodes bosonic_nodes fermionic_nodes
      dimension edges available_colors].
    split.
    + destruct (FieldType_eqb (field_type (source e')) BOSONIC);
        apply (f_equal nodes) in Hs' as Hn; cbn [nodes] in Hn;
        [apply (f_equal bosonic_nodes) in Hs' as Hk
        |apply (f_equal fermionic_nodes) in Hs' as Hk];
        cbn [bosonic_nodes fermionic_nodes] in Hk; rewrite Hn, Hk;
        reflexivity.
    + destruct (FieldType_eqb (field_type (target e')) BOSONIC);
        apply (f_equal nodes) in Ht' as Hn; cbn [nodes] in Hn;
        [apply (f_equal bosonic_nodes) in Ht' as Hk
        |apply (f_equal fermionic_nodes) in Ht' as Hk];
        cbn [bosonic_nodes fermionic_nodes] in Hk; rewrite Hn, Hk;
        reflexivity.
Qed.

Lemma NoDup_flat_map {A B : Type} (f : A -> list B) (l : list A) :
  NoDup l ->
  (forall a, In a l -> NoDup (f a)) ->
  (forall a a' b, In a l -> In a' l -> In b (f a) -> In b (f a') -> a = a') ->
  NoDup (flat_map f l).
Proof.
  induction 1 as [|a l Ha Hl IH]; intros Hf Hdis; simpl; [constructor|].
  apply NoDup_app.
  - apply Hf; left; reflexivity.
  - apply IH; [intros; apply Hf; right; assumption|].
    intros a1 a2 b H1 H2; apply Hdis; right; assumption.
  - intros b Hb Hb'; apply in_flat_map in Hb' as (a' & Ha' & Hb').
    assert (a = a'); [|subst; contradiction].
    apply (Hdis a a' b); auto; [left | right]; auto.
Qed.

Lemma range_NoDup (a b : nat) : NoDup (range a b).
Proof. apply seq_NoDup. Qed.

Lemma flat_map_length_uniform {A B : Type} (f : A -> list B) (m : nat)
    (l : list A) :
  (forall a, In a l -> length (f a) = m) ->
  length (flat_map f l) = (length l * m)%nat.
Proof.
  induction l as [|a l IH]; intros Hf; simpl; [reflexivity|].
  rewrite length_app, IH, Hf; auto; [left; reflexivity|].
  intros a' Ha'; apply Hf; right; exact Ha'.
Qed.

(** ** The graph of [create_simple_adinkra] *)

Lemma NoDup_map_inj {A B : Type} (f : A -> B) (l : list A) :
  (forall x y, In x l -> In y l -> f x = f y -> x = y) ->
  NoDup l -> NoDup (map f l).
Proof.
  intros Hinj Hl; induction Hl as [|a l Ha Hl IH]; simpl; constructor.
  - intros Hin; apply in_map_iff in Hin as (y & E & Hy).
    apply Ha; rewrite <- (Hinj y a); auto; [right | left]; auto.
  - apply IH; intros x y Hx Hy; apply Hinj; right; assumption.
Qed.

Lemma enumerate_nth {A : Type} (l : list A) (dflt : A) :
  enumerate l = map (fun k => (k, nth k l dflt)) (range 0 (length l)).
Proof.
  rewrite <- (enumerate_map (fun k => nth k l dflt)).
  rewrite map_nth_range_gen; reflexivity.
Qed.

Lemma filter_map_all {A B : Type} (p : B -> bool) (f : A -> B) (l : list A)
    (b : bool) :
  (forall a, p (f a) = b) ->
  filter p (map f l) = if b then map f l else [].
Proof.
  intros Hp; induction l as [|a l IH]; simpl; [destruct b; reflexivity|].
  rewrite Hp, IH; destruct b; reflexivity.
Qed.

Lemma simple_nodes_NoDup (nb nf : nat) :
  NoDup (map node_id (map simple_bosonic (range 0 nb) ++
                      map simple_fermionic (range 0 nf))).
Proof.
  rewrite map_app, !map_map; apply NoDup_app.
  - apply NoDup_map_inj; [|apply range_NoDup].
    intros i i' _ _; apply simple_bosonic_id_inj.
  - apply NoDup_map_inj; [|apply range_NoDup].
    intros j j' _ _; apply simple_fermionic_id_inj.
  - intros s Hb Hf.
    apply in_map_iff in Hb as (i & <- & _).
    apply in_map_iff in Hf as (j & E & _).
    rewrite node_id_simple_bosonic, node_id_simple_fermionic in E.
    discriminate E.
Qed.

(** The edges in the order of the three loops. *)
Lemma simple_edges_flat (colors : list EdgeColor) (nb nf : nat)
    (g : AdinkraGraph) :
  foldM (fun graph ib =>
     foldM (fun graph jf =>
        foldM (fun graph kc =>
                 let dashed :=
                   Z.of_nat (fst ib + fst jf + fst kc) mod 2 =? 1 in
                 edge <- new_edge (snd ib) (snd jf) (snd kc) dashed ;;
                 add_edge graph edge)
              (enumerate colors) graph)
        (enumerate (map simple_fermionic (range 0 nf))) graph)
    (enumerate (map simple_bosonic (range 0 nb))) g =
  foldM add_edge
    (flat_map (fun i =>
       flat_map (fun j =>
         map (simple_edge colors i j) (range 0 (length colors)))
         (range 0 nf))
       (range 0 nb)) g.
Proof.
  rewrite !enumerate_map, (enumerate_nth colors RED).
  rewrite <- foldM_map, <- foldM_flat_map.
  apply foldM_ext_in; intros s i _; cbv beta.
  rewrite <- foldM_map, <- foldM_flat_map.
  apply foldM_ext_in; intros s' j _; cbv beta.
  rewrite <- foldM_map, <- (foldM_map add_edge (simple_edge colors i j)).
  reflexivity.
Qed.

Lemma simple_edges_in (colors : list EdgeColor) (nb nf : nat)
    (e : AdinkraEdge) :
  In e (flat_map (fun i =>
          flat_map (fun j =>
            map (simple_edge colors i j) (range 0 (length colors)))
            (range 0 nf))
          (range 0 nb)) <->
  exists i j k, (i < nb)%nat /\ (j < nf)%nat /\ (k < length colors)%nat /\
                e = simple_edge colors i j k.
Proof.
  rewrite in_flat_map; split.
  - intros (i & Hi & He); apply in_flat_map in He as (j & Hj & He).
    apply in_map_iff in He as (k & <- & Hk).
    apply in_range in Hi, Hj, Hk.
    exists i, j, k; repeat split; lia.
  - intros (i & j & k & Hi & Hj & Hk & ->).
    exists i; split; [apply in_range; lia|].
    apply in_flat_map; exists j; split; [apply in_range; lia|].
    apply in_map, in_range; lia.
Qed.

Lemma simple_edges_NoDup (colors : list EdgeColor) (nb nf : nat) :
  NoDup colors ->
  NoDup (map edge_id
           (flat_map (fun i =>
              flat_map (fun j =>
                map (simple_edge colors i j) (range 0 (length colors)))
                (range 0 nf))
              (range 0 nb))).
Proof.
  intros Hc.
  assert (Hinj : forall i j k i' j' k',
            (k < length colors)%nat -> (k' < length colors)%nat ->
            edge_id (simple_edge colors i j k) =
            edge_id (simple_edge colors i' j' k') ->
            i = i' /\ j = j' /\ k = k').
  { intros i j k i' j' k' Hk Hk' E.
    apply simple_edge_id_inj in E as (Ei & Ej & Ek).
    repeat split; try assumption.
    apply (proj1 (NoDup_nth colors RED) Hc); assumption. }
  apply NoDup_map_inj.
  - intros e e' He He' E.
    apply simple_edges_in in He as (i & j & k & _ & _ & Hk & ->).
    apply simple_edges_in in He' as (i' & j' & k' & _ & _ & Hk' & ->).
    destruct (Hinj _ _ _ _ _ _ Hk Hk' E) as (-> & -> & ->); reflexivity.
  - apply NoDup_flat_map; [apply range_NoDup | |].
    + intros i _; apply NoDup_flat_map; [apply range_NoDup | |].
      * intros j _; apply NoDup_map_inj; [|apply range_NoDup].
        intros k k' Hk Hk' E; apply in_range in Hk, Hk'.
        apply (f_equal edge_id) in E.
        apply Hinj in E; [tauto | lia | lia].
      * intros j j' e _ _ He He'.
        apply in_map_iff in He as (k & <- & Hk).
        apply in_map_iff in He' as (k' & E & Hk').
        apply in_range in Hk, Hk'.
        apply (f_equal edge_id) in E.
        apply Hinj in E; [symmetry; tauto | lia | lia].
    + intros i i' e _ _ He He'.
      apply in_flat_map in He as (j & _ & He).
      apply in_flat_map in He' as (j' & _ & He').
      apply in_map_iff in He as (k & <- & Hk).
      apply in_map_iff in He' as (k' & E & Hk').
      apply in_range in Hk, Hk'.
      apply (f_equal edge_id) in E.
      apply Hinj in E; [symmetry; tauto | lia | lia].
Qed.

Lemma fold_add_node_built (l : list AdinkraNode) :
  forall g, built g -> built (fold_left add_node l g).
Proof.
  induction l as [|x l IH]; intros g Hg; simpl; [exact Hg|].
  apply IH, built_add_node, Hg.
Qed.

Lemma foldM_add_edge_built (es : list AdinkraEdge) :
  forall g g',
    built g ->
    (forall e, In e es ->
       new_edge (source e) (target e) (color e) (dashed e) = OK e) ->
    foldM add_edge es g = OK g' -> built g'.
Proof.
  induction es as [|e es IH]; intros g g' Hg Hes Hf; simpl in Hf.
  - injection Hf as <-; exact Hg.
  - apply bind_OK in Hf as (g1 & Ha & Hf).
    apply (IH g1 g'); [|intros e' He'; apply Hes; right; exact He' | exact Hf].
    apply (built_add_edge g g1 (source e) (target e) (color e) (dashed e) e);
      [exact Hg | apply Hes; left; reflexivity | exact Ha].
Qed.

Lemma existsb_node_In (x : AdinkraNode) (ns : list AdinkraNode) :
  In x ns -> existsb (node_eqb x) ns = true.
Proof.
  intros Hin; apply existsb_exists; exists x; split; [exact Hin|].
  apply node_eqb_refl.
Qed.

(** [create_simple_adinkra] never raises.  It returns the graph with the
    colours of the dimension, the [n_bosonic] nodes [phi_i] and the
    [n_fermionic] nodes [psi_j] (none for a negative count), and one edge
    per bosonic node, fermionic node and colour, in the order of the three
    loops, dashed when [i + j + k] is odd: [n_bosonic * n_fermionic *
    |colours|] edges.  The graph passes the bipartite check, and with a
    node of each kind it passes all the checks of
    [check_adinkra_rules]. *)
Theorem simple_adinkra_structure (n_bosonic n_fermionic dimension : Z) :
  let nb := Z.to_nat n_bosonic in
  let nf := Z.to_nat n_fermionic in
  let colors := slice_to EdgeColor_all dimension in
  exists g,
    create_simple_adinkra n_bosonic n_fermionic dimension = OK g /\
    AdinkraGraphs.dimension g = dimension /\
    available_colors g = colors /\
    bosonic_nodes g = map simple_bosonic (range 0 nb) /\
    fermionic_nodes g = map simple_fermionic (range 0 nf) /\
    nodes g = bosonic_nodes g ++ fermionic_nodes g /\
    edges g =
      flat_map (fun i =>
        flat_map (fun j =>
          map (simple_edge colors i j) (range 0 (length colors)))
          (range 0 nf))
        (range 0 nb) /\
    length (edges g) = (nb * nf * length colors)%nat /\
    built g /\
    bipartite (check_adinkra_rules g) = true /\
    ((1 <= nb)%nat -> (1 <= nf)%nat ->
     check_adinkra_rules g = mkRules true true true).
Proof.
  intros nb nf colors.
  set (B := map simple_bosonic (range 0 nb)).
  set (F := map simple_fermionic (range 0 nf)).
  set (ES := flat_map (fun i =>
               flat_map (fun j =>
                 map (simple_edge colors i j) (range 0 (length colors)))
                 (range 0 nf))
               (range 0 nb)).
  set (g2 := fold_left add_node F (fold_left add_node B (new_graph dimension))).
  assert (Hcolors : NoDup colors) by apply slice_to_colors_NoDup.
  pose proof (simple_nodes_NoDup nb nf) as Hids; fold B F in Hids.
  (* the graph after the two loops over the nodes *)
  destruct (fold_add_node_fields B (new_graph dimension))
    as (Hn1 & Hb1 & Hf1 & He1 & Hc1 & Hd1).
  destruct (fold_add_node_fields F (fold_left add_node B (new_graph dimension)))
    as (Hn2 & Hb2 & Hf2 & He2 & Hc2 & Hd2).
  fold g2 in Hn2, Hb2, Hf2, He2, Hc2, Hd2.
  assert (HkB : forall t, filter (fun y => FieldType_eqb (field_type y) t) B =
                          if FieldType_eqb BOSONIC t then B else []).
  { intros t; apply filter_map_all; reflexivity. }
  assert (HkF : forall t, filter (fun y => FieldType_eqb (field_type y) t) F =
                          if FieldType_eqb FERMIONIC t then F else []).
  { intros t; apply filter_map_all; reflexivity. }
  rewrite HkB in Hb1, Hf1; rewrite HkF in Hb2, Hf2.
  cbn [FieldType_eqb fold_left] in Hb1, Hf1, Hb2, Hf2.
  cbn [new_graph nodes bosonic_nodes fermionic_nodes] in Hn1, Hb1, Hf1.
  assert (HB : NoDup (map node_id B)).
  { rewrite map_app in Hids; apply NoDup_app_remove_r in Hids; exact Hids. }
  assert (HF : NoDup (map node_id F)).
  { rewrite map_app in Hids; apply NoDup_app_remove_l in Hids; exact Hids. }
  rewrite (fold_set_add_fresh node_eqb node_id B node_eqb_ids [])
    in Hn1, Hb1 by exact HB.
  cbn [app] in Hn1, Hb1.
  rewrite Hn1 in Hn2; rewrite Hb1 in Hb2; rewrite Hf1 in Hf2.
  rewrite (fold_set_add_fresh node_eqb node_id F node_eqb_ids B) in Hn2
    by exact Hids.
  rewrite (fold_set_add_fresh node_eqb node_id F node_eqb_ids []) in Hf2
    by exact HF.
  cbn [app] in Hf2.
  rewrite He1 in He2; rewrite Hc1 in Hc2; rewrite Hd1 in Hd2.
  cbn [new_graph edges available_colors AdinkraGraphs.dimension]
    in He2, Hc2, Hd2.
  fold colors in Hc2.
  assert (Hg2 : built g2).
  { apply fold_add_node_built, fold_add_node_built, built_new. }
  (* the three loops over the edges *)
  assert (HES : forall e, In e ES ->
            In (color e) (available_colors g2) /\
            add_node g2 (source e) = g2 /\ add_node g2 (target e) = g2).
  { intros e He; apply simple_edges_in in He
      as (i & j & k & Hi & Hj & Hk & ->).
    cbn [simple_edge color source target].
    split; [rewrite Hc2; apply nth_In, Hk|].
    split; apply add_node_absorb; cbn [simple_bosonic simple_fermionic
      field_type FieldType_eqb]; rewrite ?Hn2, ?Hb2, ?Hf2;
      apply existsb_node_In; try apply in_or_app;
      [left | | right |]; apply in_map, in_range; lia. }
  set (g := mkGraph (AdinkraGraphs.dimension g2) (nodes g2)
                    (fold_left (set_add edge_eqb) ES (edges g2))
                    (bosonic_nodes g2) (fermionic_nodes g2)
                    (available_colors g2)).
  assert (Hrun : create_simple_adinkra n_bosonic n_fermionic dimension =
                 OK g).
  { unfold create_simple_adinkra; cbv zeta.
    fold nb nf; fold simple_bosonic simple_fermionic.
    fold B F; fold g2; rewrite Hc2.
    transitivity (foldM add_edge ES g2);
      [exact (simple_edges_flat colors nb nf g2)|].
    rewrite (foldM_add_edge ES g2 HES); reflexivity. }
  assert (Hedges : edges g = ES).
  { unfold g; cbn [edges]; rewrite He2.
    apply (fold_set_add_fresh edge_eqb edge_id ES edge_eqb_ids []).
    apply simple_edges_NoDup, Hcolors. }
  assert (Hbuilt : built g).
  { apply (foldM_add_edge_built ES g2 g Hg2);
      [|exact (foldM_add_edge ES g2 HES)].
    intros e He; apply simple_edges_in in He
      as (i & j & k & _ & _ & _ & ->); reflexivity. }
  assert (Hbip : bipartite (check_adinkra_rules g) = true).
  { apply bipartite_valid_true, built_edges, Hbuilt. }
  exists g; split; [exact Hrun|].
  split; [exact Hd2|]; split; [exact Hc2|]; split; [exact Hb2|].
  split; [exact Hf2|].
  split; [unfold g; cbn [nodes bosonic_nodes fermionic_nodes];
          rewrite Hn2, Hb2, Hf2; reflexivity|].
  split; [exact Hedges|]; split.
  { rewrite Hedges; unfold ES.
    rewrite (flat_map_length_uniform _ (nf * length colors)).
    - rewrite range_length; lia.
    - intros i _.
      rewrite (flat_map_length_uniform _ (length colors)).
      + rewrite range_length; lia.
      + intros j _; rewrite length_map, range_length; lia. }
  split; [exact Hbuilt|]; split; [exact Hbip|].
  intros Hnb Hnf.
  assert (Hcc : color_complete g (nodes g) = true).
  { apply (color_complete_built g Hbuilt).
    intros node c Hnode Hc.
    unfold g in Hnode, Hc; cbn [nodes available_colors] in Hnode, Hc.
    rewrite Hc2 in Hc; rewrite Hn2 in Hnode.
    apply (In_nth _ _ RED) in Hc as (k & Hk & <-).
    rewrite Hedges.
    apply in_app_or in Hnode as [Hnode | Hnode];
      apply in_map_iff in Hnode as (a & <- & Ha); apply in_range in Ha.
    - exists (simple_edge colors a 0 k); split; [|split; [reflexivity|]].
      + apply simple_edges_in; exists a, 0%nat, k.
        repeat split; lia.
      + left; reflexivity.
    - exists (simple_edge colors 0 a k); split; [|split; [reflexivity|]].
      + apply simple_edges_in; exists 0%nat, a, k.
        repeat split; lia.
      + right; reflexivity. }
  unfold check_adinkra_rules in *; cbn [bipartite] in Hbip.
  rewrite Hbip, Hcc; reflexivity.
Qed.

Lemma simple_adinkra_structure_witness :
  exists g,
    create_simple_adinkra 2 2 2 = OK g /\
    length (bosonic_nodes g) = 2%nat /\
    length (fermionic_nodes g) = 2%nat /\
    length (nodes g) = 4%nat /\
    length (edges g) = 8%nat /\
    check_adinkra_rules g = mkRules true true true.
Proof.
  destruct (simple_adinkra_structure 2 2 2)
    as (g & Hrun & _ & _ & Hb & Hf & Hn & _ & He & _ & _ & Hrules).
  exists g; split; [exact Hrun|].
  split; [rewrite Hb; reflexivity|].
  split; [rewrite Hf; reflexivity|].
  split; [rewrite Hn, Hb, Hf; reflexivity|].
  split; [rewrite He; reflexivity | apply Hrules; simpl; lia].
Defined.

(** * The elimination keeps the code *)

Lemma dot_set_nth_r (v col : vector) (j : nat) (x : Z) :
  (j < length col)%nat ->
  dot v (set_nth col j x) = dot v col + nth j v 0 * (x - nth j col 0).
Proof.
  revert col j; induction v as [|a v IH]; intros col j Hj.
  - destruct (set_nth col j x), col, j; simpl; reflexivity.
  - destruct col as [|b col]; [simpl in Hj; lia|].
    destruct j as [|j]; simpl.
    + ring.
    + rewrite IH by (simpl in Hj; lia); ring.
Qed.

Lemma dot_set_nth_l (v col : vector) (i : nat) (y : Z) :
  (i < length v)%nat ->
  dot (set_nth v i y) col = dot v col + (y - nth i v 0) * nth i col 0.
Proof.
  revert col i; induction v as [|a v IH]; intros col i Hi;
    [simpl in Hi; lia|].
  destruct col as [|b col].
  - destruct i; simpl; ring.
  - destruct i as [|i]; simpl.
    + ring.
    + rewrite IH by (simpl in Hi; lia); ring.
Qed.

Lemma map_set_nth {A B : Type} (f : A -> B) (l : list A) (j : nat) (x : A) :
  map f (set_nth l j x) = set_nth (map f l) j (f x).
Proof.
  revert j; induction l as [|y l IH]; intros [|j]; simpl; try reflexivity.
  rewrite IH; reflexivity.
Qed.

Lemma column_set_nth (A : matrix) (j : nat) (row : vector) (c : nat) :
  column (set_nth A j row) c = set_nth (column A c) j (nth c row 0).
Proof. exact (map_set_nth (fun r => nth c r 0) A j row). Qed.

Lemma nth_column (A : matrix) (j c : nat) :
  nth j (column A c) 0 = nth c (nth j A []) 0.
Proof.
  revert j; induction A as [|row A IH]; intros [|j]; simpl;
    try (destruct c; reflexivity); try reflexivity.
  apply IH.
Qed.

Lemma column_length (A : matrix) (c : nat) : length (column A c) = length A.
Proof. unfold column; apply length_map. Qed.

Lemma nth_mod2_vec_add (u v : vector) (c : nat) :
  length u = length v ->
  nth c (mod2 (vec_add u v)) 0 = (nth c u 0 + nth c v 0) mod 2.
Proof.
  revert v c; induction u as [|x u IH]; intros [|y v] c Hl;
    try discriminate.
  - destruct c; reflexivity.
  - destruct c as [|c]; simpl; [reflexivity|].
    apply IH; simpl in Hl; lia.
Qed.

Lemma row_length (n0 : nat) (A : matrix) (j : nat) :
  rows_of_length n0 A -> (j < length A)%nat -> length (nth j A []) = n0.
Proof.
  intros Hs Hj; unfold rows_of_length in Hs; rewrite Forall_forall in Hs.
  apply Hs, nth_In, Hj.
Qed.

(** Adding row [i] to row [j] moves the coefficient of row [j] onto
    row [i]. *)
Lemma row_add_dot (n0 : nat) (A : matrix) (i j : nat) (v : vector)
    (c : nat) :
  rows_of_length n0 A -> (i < length A)%nat -> (j < length A)%nat ->
  (i < length v)%nat ->
  dot v (column (set_nth A j (mod2 (vec_add (nth j A []) (nth i A [])))) c)
    mod 2 =
  dot (set_nth v i (nth i v 0 + nth j v 0)) (column A c) mod 2.
Proof.
  intros Hs Hi Hj Hv.
  rewrite column_set_nth, nth_mod2_vec_add
    by (rewrite !(row_length n0) by assumption; reflexivity).
  rewrite dot_set_nth_r by (rewrite column_length; exact Hj).
  rewrite dot_set_nth_l by exact Hv.
  rewrite !nth_column.
  set (a := nth c (nth j A []) 0); set (b := nth c (nth i A []) 0).
  set (D := dot v (column A c)).
  rewrite (Z.mod_eq (a + b) 2) by lia.
  replace (D + nth j v 0 * (a + b - 2 * ((a + b) / 2) - a))
    with (D + (nth i v 0 + nth j v 0 - nth i v 0) * b +
          (- (nth j v 0 * ((a + b) / 2))) * 2) by ring.
  apply Z_mod_plus_full.
Qed.

(** Swapping two rows swaps their coefficients. *)
Lemma row_swap_dot (A : matrix) (i p : nat) (v : vector) (c : nat) :
  (i < length A)%nat -> (p < length A)%nat -> i <> p ->
  (i < length v)%nat -> (p < length v)%nat ->
  dot v (column (set_nth (set_nth A i (nth p A [])) p (nth i A [])) c) =
  dot (set_nth (set_nth v i (nth p v 0)) p (nth i v 0)) (column A c).
Proof.
  intros Hi Hp Hne Hvi Hvp.
  rewrite !column_set_nth.
  rewrite !dot_set_nth_r
    by (rewrite ?set_nth_length, column_length; assumption).
  rewrite !dot_set_nth_l by (rewrite ?set_nth_length; assumption).
  rewrite !nth_set_nth, !nth_column.
  rewrite (proj2 (Nat.eqb_neq p i)) by lia.
  cbn [andb]; ring.
Qed.

Lemma codeword_of_cols (n0 : nat) (A B : matrix) (m m' : vector) :
  (forall c, (c < n0)%nat ->
     dot (mod2 m) (column A c) mod 2 = dot (mod2 m') (column B c) mod 2) ->
  codeword_of n0 A m = codeword_of n0 B m'.
Proof.
  intros Hc; unfold codeword_of, vecmat; rewrite !mod2_map.
  apply map_ext_in; intros c Hin; apply in_range in Hin; apply Hc; lia.
Qed.

Lemma same_code_refl (n0 k0 : nat) (A : matrix) : same_code n0 k0 A A.
Proof. split; intros m Hm; exists m; auto. Qed.

Lemma same_code_trans (n0 k0 : nat) (A B C : matrix) :
  same_code n0 k0 A B -> same_code n0 k0 B C -> same_code n0 k0 A C.
Proof.
  intros (H1 & H1') (H2 & H2'); split; intros m Hm.
  - destruct (H1 m Hm) as (m1 & L1 & E1), (H2 m1 L1) as (m2 & L2 & E2).
    exists m2; split; [exact L2 | congruence].
  - destruct (H2' m Hm) as (m1 & L1 & E1), (H1' m1 L1) as (m2 & L2 & E2).
    exists m2; split; [exact L2 | congruence].
Qed.

Lemma row_add_same_code (n0 k0 : nat) (A : matrix) (i j : nat) :
  rows_of_length n0 A -> (k0 <= length A)%nat ->
  (i < k0)%nat -> (j < k0)%nat -> i <> j ->
  same_code n0 k0 A
    (set_nth A j (mod2 (vec_add (nth j A []) (nth i A [])))).
Proof.
  intros Hs Hk Hi Hj Hne.
  set (A' := set_nth A j (mod2 (vec_add (nth j A []) (nth i A [])))).
  set (f := fun v : vector => set_nth v i (nth i v 0 + nth j v 0)).
  assert (Hstep : forall v c, length v = k0 ->
            dot v (column A' c) mod 2 = dot (f v) (column A c) mod 2).
  { intros v c Hv; apply (row_add_dot n0); try assumption; lia. }
  assert (Hf : forall v, length (f v) = length v).
  { intros v; apply set_nth_length. }
  assert (Hff : forall v col, length v = k0 ->
            dot (f (f v)) col mod 2 = dot v col mod 2).
  { intros v col Hv; unfold f.
    rewrite dot_set_nth_l by (rewrite set_nth_length; lia).
    rewrite !nth_set_nth, Hv.
    rewrite Nat.eqb_refl, (proj2 (Nat.ltb_lt _ _) Hi).
    rewrite (proj2 (Nat.eqb_neq j i)) by lia; cbn [andb].
    rewrite dot_set_nth_l by lia.
    replace (dot v col + (nth i v 0 + nth j v 0 - nth i v 0) * nth i col 0 +
             (nth i v 0 + nth j v 0 + nth j v 0 - (nth i v 0 + nth j v 0)) *
             nth i col 0)
      with (dot v col + (nth j v 0 * nth i col 0) * 2) by ring.
    apply Z_mod_plus_full. }
  split; intros m Hm; exists (f (mod2 m));
    (split; [rewrite Hf, mod2_length; exact Hm|]);
    apply codeword_of_cols; intros c Hc;
    rewrite (dot_mod2_l (f (mod2 m))).
  - (* a codeword of [A] as a codeword of [A'] *)
    rewrite Hstep by (rewrite Hf, mod2_length; exact Hm).
    symmetry; apply Hff; rewrite mod2_length; exact Hm.
  - (* a codeword of [A'] as a codeword of [A] *)
    apply Hstep; rewrite mod2_length; exact Hm.
Qed.

Lemma row_swap_same_code (n0 k0 : nat) (A : matrix) (i p : nat) :
  (k0 <= length A)%nat -> (i < k0)%nat -> (p < k0)%nat -> i <> p ->
  same_code n0 k0 A (set_nth (set_nth A i (nth p A [])) p (nth i A [])).
Proof.
  intros Hk Hi Hp Hne.
  set (A' := set_nth (set_nth A i (nth p A [])) p (nth i A [])).
  set (f := fun v : vector =>
              set_nth (set_nth v i (nth p v 0)) p (nth i v 0)).
  assert (Hstep : forall v c, length v = k0 ->
            dot v (column A' c) = dot (f v) (column A c)).
  { intros v c Hv; apply row_swap_dot; lia. }
  assert (Hf : forall v, length (f v) = length v).
  { intros v; unfold f; rewrite !set_nth_length; reflexivity. }
  assert (Hff : forall v, length v = k0 -> f (f v) = v).
  { intros v Hv; unfold f.
    rewrite !nth_set_nth, !set_nth_length, Hv.
    rewrite Nat.eqb_refl, (proj2 (Nat.ltb_lt _ _) Hp),
      (proj2 (Nat.ltb_lt _ _) Hi), (proj2 (Nat.eqb_neq i p)) by lia.
    cbn [andb]; rewrite Nat.eqb_refl; cbn [andb].
    apply nth_ext with (d := 0) (d' := 0);
      [rewrite !set_nth_length; reflexivity|].
    intros q _; rewrite !nth_set_nth, !set_nth_length, Hv.
    rewrite (proj2 (Nat.ltb_lt _ _) Hp), (proj2 (Nat.ltb_lt _ _) Hi).
    rewrite !andb_true_r.
    destruct (Nat.eqb_spec q p) as [->|Hqp]; [reflexivity|].
    destruct (Nat.eqb_spec q i) as [->|Hqi]; reflexivity. }
  split; intros m Hm; exists (f (mod2 m));
    (split; [rewrite Hf, mod2_length; exact Hm|]);
    apply codeword_of_cols; intros c Hc.
  - rewrite (dot_mod2_l (f (mod2 m))).
    rewrite Hstep by (rewrite Hf, mod2_length; exact Hm).
    rewrite Hff by (rewrite mod2_length; exact Hm); reflexivity.
  - rewrite (dot_mod2_l (f (mod2 m))).
    rewrite Hstep by (rewrite mod2_length; exact Hm); reflexivity.
Qed.

Lemma find_pivot_range (A : matrix) (i : nat) (js : list nat) (p0 p : nat) :
  find_pivot A i js p0 = OK p -> p = p0 \/ In p js.
Proof.
  induction js as [|j js IH]; simpl; intros Hf.
  - injection Hf as <-; auto.
  - apply bind_OK in Hf as (v & _ & Hf).
    destruct (v =? 1); [injection Hf as <-; auto|].
    destruct (IH Hf); auto.
Qed.

Lemma eliminate_same_code (n0 k0 i : nat) (js : list nat) :
  (i < k0)%nat -> Forall (fun j => (j < k0)%nat) js ->
  forall A A', rows_of_length n0 A -> (k0 <= length A)%nat ->
               eliminate A i js = OK A' -> same_code n0 k0 A A'.
Proof.
  intros Hi Hjs; induction Hjs as [|j js Hj Hjs IH];
    intros A A' Hs Hk He; simpl in He.
  - injection He as <-; apply same_code_refl.
  - destruct (Nat.eqb_spec j i) as [->|Hne]; [apply (IH A A' Hs Hk He)|].
    apply bind_OK in He as (v & _ & He).
    destruct (v =? 1); [|apply (IH A A' Hs Hk He)].
    apply bind_OK in He as (rj & Hrj & He).
    apply bind_OK in He as (ri & Hri & He).
    apply get_row_inv in Hrj, Hri.
    apply (nth_error_nth _ _ []) in Hrj, Hri; subst rj ri.
    eapply same_code_trans;
      [apply (row_add_same_code n0 k0 A i j); auto|].
    apply (IH _ A'); [| |exact He].
    + apply set_nth_Forall; [exact Hs|].
      rewrite mod2_length, vec_add_length.
      rewrite !(row_length n0) by (assumption || lia); lia.
    + rewrite set_nth_length; exact Hk.
Qed.

Lemma gauss_same_code (n0 k0 : nat) (rows : list nat) :
  Forall (fun i => (i < k0)%nat) rows ->
  forall A A', rows_of_length n0 A -> (k0 <= length A)%nat ->
               gauss A k0 rows = OK A' -> same_code n0 k0 A A'.
Proof.
  intros Hrows; induction Hrows as [|i rows Hi Hrows IH];
    intros A A' Hs Hk Hg; simpl in Hg.
  - injection Hg as <-; apply same_code_refl.
  - apply bind_OK in Hg as (p & Hp & Hg).
    apply bind_OK in Hg as (v & _ & Hg).
    destruct (v =? 0); [apply (IH A A' Hs Hk Hg)|].
    apply bind_OK in Hg as (A1 & H1 & Hg).
    apply bind_OK in Hg as (A2 & H2 & Hg).
    assert (Hpk : (p < k0)%nat).
    { apply find_pivot_range in Hp as [-> | Hin]; [exact Hi|].
      apply in_range in Hin; lia. }
    assert (S1 : same_code n0 k0 A A1 /\ rows_of_length n0 A1 /\
                 length A1 = length A).
    { destruct (Nat.eqb_spec p i) as [->|Hne].
      - injection H1 as <-; split; [apply same_code_refl | auto].
      - pose proof (swap_rows_shape n0 A A1 i p H1 Hs) as Hsh.
        split; [|exact Hsh].
        rewrite swap_rows_ok in H1 by lia; injection H1 as <-.
        apply row_swap_same_code; auto. }
    destruct S1 as (S1 & Hs1 & Hl1).
    pose proof (eliminate_shape n0 i (range 0 k0) A1 A2 H2 Hs1)
      as (Hs2 & Hl2).
    eapply same_code_trans; [exact S1|].
    eapply same_code_trans.
    + apply (eliminate_same_code n0 k0 i (range 0 k0) Hi); [| | |exact H2];
        [apply Forall_forall; intros j Hj; apply in_range in Hj; lia
        | exact Hs1 | lia].
    + apply (IH A2 A'); [exact Hs2 | lia | exact Hg].
Qed.

(** The parity-check matrix is read off the reduced rows, whatever they
    are. *)
Lemma parity_check_value (G0 A : matrix) (k0 n0 : nat) :
  rows_of_length n0 G0 -> length G0 = k0 -> (k0 <= n0)%nat ->
  gauss (G0 ++ eye n0) k0 (range 0 k0) = OK A ->
  compute_parity_check_matrix G0 k0 n0 = OK (systematic_check k0 n0 A).
Proof.
  intros Hs Hl Hkn Hg; unfold compute_parity_check_matrix.
  rewrite Hg; cbn [bind].
  destruct (augmented_shape n0 G0 Hs) as (Hsa & Hla).
  destruct (gauss_shape n0 k0 _ _ _ Hg Hsa) as (HsA & HlA).
  assert (Hrows : mapM (H_row A k0 n0) (range k0 n0) =
                  OK (systematic_check k0 n0 A)).
  { apply mapM_total; intros i Hi; apply in_range in Hi.
    unfold H_row; apply mapM_total; intros j Hj; apply in_range in Hj.
    destruct (Nat.ltb_spec j k0) as [Hjk|Hjk].
    - rewrite (proj2 (Nat.ltb_lt _ _)) by lia.
      apply (get2_ok n0); [exact HsA | lia | lia].
    - destruct (Nat.eqb j i); reflexivity. }
  destruct (Z.ltb_spec 0 (Z.of_nat n0 - Z.of_nat k0)) as [Hpos|Hpos].
  - rewrite Hrows; simpl.
    unfold systematic_check in *.
    destruct (range k0 n0) as [|i rest] eqn:Er; [|reflexivity].
    apply (f_equal (@length nat)) in Er; rewrite range_length in Er.
    simpl in Er; lia.
  - simpl; rewrite (proj2 (Nat.ltb_ge _ _)) by lia.
    unfold systematic_check, range.
    replace (n0 - k0)%nat with O by lia; reflexivity.
Qed.

Lemma dot_short (v a b : vector) :
  (length v <= length a)%nat -> dot v (a ++ b) = dot v a.
Proof.
  revert a; induction v as [|x v IH]; intros a Hl; [reflexivity|].
  destruct a as [|y a]; [simpl in Hl; lia|]; simpl.
  rewrite IH by (simpl in Hl; lia); reflexivity.
Qed.

Lemma column_app (A B : matrix) (c : nat) :
  column (A ++ B) c = column A c ++ column B c.
Proof. unfold column; apply map_app. Qed.

(** Only the first rows count for a message that is as long. *)
Lemma codeword_of_top (n0 : nat) (A B : matrix) (m : vector) :
  length m = length A ->
  codeword_of n0 (A ++ B) m = codeword_of n0 A m.
Proof.
  intros Hm; apply codeword_of_cols; intros c _.
  rewrite column_app, dot_short; [reflexivity|].
  rewrite mod2_length, column_length; lia.
Qed.

Lemma systematic_check_top (k0 n0 : nat) (A : matrix) :
  systematic_check k0 n0 (firstn k0 A) = systematic_check k0 n0 A.
Proof.
  unfold systematic_check.
  apply map_ext; intros i; apply map_ext; intros j.
  destruct (Nat.ltb_spec j k0) as [Hj|Hj]; [|reflexivity].
  rewrite nth_firstn_lt by exact Hj; reflexivity.
Qed.

(** Whenever the elimination brings the first [k] columns to the identity,
    the derived [H] is an exact parity-check matrix of [G]: [is_codeword]
    accepts a word of [n] bits exactly when it is [encode(m)] for some
    message [m].  (This covers generator matrices that are not systematic
    themselves.) *)
Theorem reduced_identity_gives_exact_checks (n0 : nat) (G0 A : matrix)
    (c : LinearBlockCode) :
  init n0 G0 = OK c ->
  gauss (G c ++ eye (n c)) (k c) (range 0 (k c)) = OK A ->
  (forall i j, (i < k c)%nat -> (j < k c)%nat ->
               nth j (nth i A []) 0 = if Nat.eqb i j then 1 else 0) ->
  H c = systematic_check (k c) (n c) A /\
  forall w, length w = n c -> bits w ->
    (is_codeword c w = OK true <->
     exists m, length m = k c /\ bits m /\ encode c m = OK w).
Proof.
  intros Hi Hg Hid.
  destruct (init_fields _ _ _ Hi) as (Hrag & HG & Hk & Hn & _ & HH).
  assert (Hacc : rows_of_length n0 G0 /\ (length G0 <= n0)%nat).
  { apply init_accepts; exists c; exact Hi. }
  destruct Hacc as (Hs0 & Hkn).
  set (G1 := G c) in *; set (k0 := k c) in *; set (n1 := n c) in *.
  assert (HsG : rows_of_length n1 G1).
  { rewrite HG, Hn; apply mod2_rows_shape, Hs0. }
  assert (HlG : length G1 = k0).
  { rewrite HG, Hk; apply length_map. }
  assert (HbG : Forall bits G1).
  { rewrite HG; apply Forall_map, Forall_forall; intros row _.
    apply mod2_bits. }
  assert (Hkn1 : (k0 <= n1)%nat) by (rewrite Hk, Hn; lia).
  destruct (augmented_shape n1 G1 HsG) as (Hsa & Hla).
  destruct (gauss_shape n1 k0 _ _ _ Hg Hsa) as (HsA & HlA).
  assert (HbA : Forall bits A).
  { apply (gauss_bits k0 _ _ _ Hg), Forall_app; split;
      [exact HbG | apply eye_bits]. }
  assert (HHv : H c = systematic_check k0 n1 A).
  { pose proof (parity_check_value G1 A k0 n1 HsG HlG Hkn1 Hg) as Hv.
    rewrite HH in Hv; injection Hv as Hv; exact Hv. }
  split; [exact HHv|].
  set (R := firstn k0 A).
  assert (HlR : length R = k0) by (unfold R; rewrite length_firstn; lia).
  assert (Hsys : systematic k0 n1 R).
  { split; [exact HlR|]; split; [|split].
    - apply firstn_Forall, HsA.
    - apply firstn_Forall, HbA.
    - intros i j Hi' Hj'; unfold R; rewrite nth_firstn_lt by exact Hi'.
      apply Hid; assumption. }
  assert (Hcode : same_code n1 k0 (G1 ++ eye n1) A).
  { apply (gauss_same_code n1 k0 (range 0 k0)); [| exact Hsa | lia | exact Hg].
    apply Forall_forall; intros i Hi'; apply in_range in Hi'; lia. }
  assert (HtopG : forall m, length m = k0 ->
            codeword_of n1 (G1 ++ eye n1) m = codeword_of n1 G1 m).
  { intros m Hm; apply codeword_of_top; congruence. }
  assert (HtopA : forall m, length m = k0 ->
            codeword_of n1 A m = codeword_of n1 R m).
  { intros m Hm; rewrite <- (firstn_skipn k0 A) at 1.
    apply codeword_of_top; fold R; congruence. }
  set (c' := mkCode R k0 n1 (d c) (H c)).
  assert (Hmem : forall w, length w = n1 -> bits w ->
            (is_codeword c w = OK true <->
             codeword_of n1 R (firstn k0 w) = w)).
  { intros w Hw Hb.
    transitivity (encode c' (firstn k0 w) = OK w).
    - apply (systematic_membership k0 n1 R c' w Hsys); try reflexivity;
        try assumption.
      unfold c'; cbn [H]; rewrite HHv; symmetry; apply systematic_check_top.
    - unfold encode, c'; cbn [G k n].
      rewrite encode_with_bits
        by first [apply firstn_bits; assumption | rewrite length_firstn; lia].
      split; [intros E; injection E as E; exact E | intros ->; reflexivity]. }
  intros w Hw Hb; rewrite (Hmem w Hw Hb); split.
  - intros E.
    destruct (proj2 Hcode (firstn k0 w)) as (m & Hm & Em);
      [rewrite length_firstn; lia|].
    exists (mod2 m); split; [rewrite mod2_length; exact Hm|].
    split; [apply mod2_bits|].
    unfold encode; rewrite encode_with_bits
      by first [apply mod2_bits | rewrite mod2_length; exact Hm].
    fold G1 n1; rewrite codeword_of_mod2, <- HtopG, <- Em, HtopA, E;
      try rewrite length_firstn; try reflexivity; lia.
  - intros (m & Hm & Hbm & Em).
    unfold encode in Em; rewrite encode_with_bits in Em by assumption.
    fold G1 n1 in Em; injection Em as Em.
    destruct (proj1 Hcode m Hm) as (m' & Hm' & Em').
    rewrite HtopG, HtopA in Em' by assumption.
    rewrite <- Em, Em'.
    rewrite (systematic_prefix k0 n1 R m' Hsys Hm').
    apply codeword_of_mod2.
Qed.

Lemma reduced_identity_gives_exact_checks_witness :
  let G0 := [[1; 1; 0]; [0; 1; 1]] in
  let A := [[1; 0; 1]; [0; 1; 1]; [1; 0; 0]; [0; 1; 0]; [0; 0; 1]] in
  exists c, init 3 G0 = OK c /\
    gauss (G c ++ eye (n c)) (k c) (range 0 (k c)) = OK A /\
    H c = [[1; 1; 1]] /\
    (is_codeword c [1; 0; 1] = OK true <->
     exists m, length m = k c /\ bits m /\ encode c m = OK [1; 0; 1]).
Proof.
  intros G0 A.
  destruct (init 3 G0) as [c|e] eqn:Hi; [|vm_compute in Hi; discriminate].
  assert (Hc : c = mkCode G0 2 3 2 [[1; 1; 1]])
    by (vm_compute in Hi; injection Hi as <-; reflexivity).
  assert (Hg : gauss (G c ++ eye (n c)) (k c) (range 0 (k c)) = OK A)
    by (rewrite Hc; reflexivity).
  assert (Hid : forall i j, (i < k c)%nat -> (j < k c)%nat ->
            nth j (nth i A []) 0 = if Nat.eqb i j then 1 else 0).
  { rewrite Hc; intros [|[|i]] [|[|j]] Hi' Hj'; simpl in *;
      try reflexivity; lia. }
  destruct (reduced_identity_gives_exact_checks 3 G0 A c Hi Hg Hid)
    as (HH & Hall).
  exists c; split; [reflexivity|]; split; [exact Hg|].
  split; [rewrite Hc; reflexivity|].
  apply Hall; [rewrite Hc; reflexivity|].
  repeat constructor; (left; reflexivity) || (right; reflexivity).
Defined.
